(** * Life-OS: the capture-and-classification pipeline

    A shallow embedding of the TypeScript sources
      - [src/lib/gemini.ts]            (parseCapture),
      - [src/lib/supabase-storage.ts]  (SupabaseStorageService),
      - [src/lib/storage.ts]           (LocalStorageService),
      - [src/lib/google-calendar.ts]   (pushToGoogleCalendar),
      - [src/lib/file-storage.ts]      (uploadCapturePhoto),
      - [src/components/CaptureBox.tsx] (handleSubmit, handleConfirm),
    followed by the properties of the specification that concern them.

    Conventions of the embedding.
      - A JavaScript string is a Rocq [string] that holds its UTF-8 bytes.
        White space and line terminators ([\s], [.], [trim]) are those of
        ECMAScript, [substring] counts UTF-16 code units, and [toLowerCase]
        folds the letters A to Z (letters beyond ASCII are left as they
        are).
      - A number is kept as the decimal literal it was written as and
        acts as the double nearest to it.
      - A [Date] is [option Z]: [Some t] is the time value [t] in
        milliseconds since the epoch, [None] is the Invalid Date.
        [Date.parse] is that of ECMAScript on the date-time string format;
        what it makes of any other string is the choice of the host, a
        parameter of the embedding.
      - [crypto.randomUUID()] draws from a source of fresh identifiers,
        the [n]-th identifier being [n].
      - A thrown exception is the [Throw] result; [async] functions are
        state-passing functions over the [World]. *)

From Stdlib Require Import String Ascii List NArith ZArith Bool Arith Lia.
Import ListNotations.

Local Open Scope string_scope.
Local Open Scope nat_scope.

(* ================================================================== *)
(** * Results of fallible code *)

Inductive result (A : Type) : Type :=
| Ok (a : A)
| Throw (e : string).
Arguments Ok {A} a.
Arguments Throw {A} e.

Definition is_ok {A} (r : result A) : bool :=
  match r with Ok _ => true | Throw _ => false end.

(* ================================================================== *)
(** * JavaScript strings *)

Module JS.

Definition LF : ascii := "010"%char.
Definition dquote : ascii := "034"%char.

(** Writes a text that contains double quotes with single quotes in their
    place. *)
Fixpoint quoted (s : string) : string :=
  match s with
  | EmptyString => EmptyString
  | String c s' =>
      String (if Ascii.eqb c "'" then dquote else c) (quoted s')
  end.
Definition CR : ascii := "013"%char.

(** The string of the given bytes. *)
Definition bytes (l : list nat) : string :=
  fold_right (fun n s => String (ascii_of_nat n) s) EmptyString l.

Definition isEmpty (s : string) : bool :=
  match s with EmptyString => true | _ => false end.

(** Truthiness of a string: [!s] is [isEmpty s]. *)
Definition truthy (s : string) : bool := negb (isEmpty s).

Fixpoint startsWith (s p : string) : bool :=
  match p, s with
  | EmptyString, _ => true
  | String a p', String b s' => Ascii.eqb a b && startsWith s' p'
  | String _ _, EmptyString => false
  end.

Fixpoint drop (n : nat) (s : string) : string :=
  match n, s with
  | S n', String _ s' => drop n' s'
  | _, _ => s
  end.

Definition endsWith (s p : string) : bool :=
  (String.length p <=? String.length s)
  && String.eqb (drop (String.length s - String.length p) s) p.

(** ** White space and line terminators *)

(** [WhiteSpace] and [LineTerminator] of ECMAScript, what [\s] matches and
    what [trim] removes, each character as its UTF-8 bytes: TAB, LF, VT,
    FF, CR, SP, U+00A0, U+1680, U+2000 to U+200A, U+2028, U+2029, U+202F,
    U+205F, U+3000 and U+FEFF. *)
Definition whiteSpace : list string :=
  [ bytes [9]; bytes [10]; bytes [11]; bytes [12]; bytes [13]; bytes [32];
    bytes [194; 160];
    bytes [225; 154; 128];
    bytes [226; 128; 128]; bytes [226; 128; 129]; bytes [226; 128; 130];
    bytes [226; 128; 131]; bytes [226; 128; 132]; bytes [226; 128; 133];
    bytes [226; 128; 134]; bytes [226; 128; 135]; bytes [226; 128; 136];
    bytes [226; 128; 137]; bytes [226; 128; 138];
    bytes [226; 128; 168]; bytes [226; 128; 169];
    bytes [226; 128; 175];
    bytes [226; 129; 159];
    bytes [227; 128; 128];
    bytes [239; 187; 191] ].

(** [LineTerminator]: LF, CR, U+2028 and U+2029. *)
Definition lineTerminators : list string :=
  [ bytes [10]; bytes [13]; bytes [226; 128; 168]; bytes [226; 128; 169] ].

(** How many bytes the character of [class] takes that [s] begins with;
    0 when [s] begins with none. *)
Definition headWidth (class : list string) (s : string) : nat :=
  match find (startsWith s) class with
  | Some w => String.length w
  | None => 0
  end.

Definition whiteWidth (s : string) : nat := headWidth whiteSpace s.
Definition terminatorWidth (s : string) : nat := headWidth lineTerminators s.

(** [s.trimStart()]: a white-space character takes one, two or three
    bytes. *)
Fixpoint trimStart (s : string) : string :=
  match s with
  | EmptyString => EmptyString
  | String _ r1 =>
      match whiteWidth s with
      | 0 => s
      | 1 => trimStart r1
      | 2 => match r1 with
             | String _ r2 => trimStart r2
             | EmptyString => s
             end
      | _ => match r1 with
             | String _ (String _ r3) => trimStart r3
             | _ => s
             end
      end
  end.

(** The string is white space throughout. *)
Fixpoint allWhite (s : string) : bool :=
  match s with
  | EmptyString => true
  | String _ r1 =>
      match whiteWidth s with
      | 0 => false
      | 1 => allWhite r1
      | 2 => match r1 with
             | String _ r2 => allWhite r2
             | EmptyString => false
             end
      | _ => match r1 with
             | String _ (String _ r3) => allWhite r3
             | _ => false
             end
      end
  end.

(** [s.trimEnd()]: the string up to the point from which it is white space
    throughout. *)
Fixpoint trimEnd (s : string) : string :=
  match s with
  | EmptyString => EmptyString
  | String c s' => if allWhite s then EmptyString else String c (trimEnd s')
  end.

Definition trim (s : string) : string := trimEnd (trimStart s).

(** ** Letters *)

(** [toLowerCase] on the letters A to Z; a letter beyond ASCII is left as
    it is. *)
Definition toLowerChar (c : ascii) : ascii :=
  let n := nat_of_ascii c in
  if (65 <=? n) && (n <=? 90) then ascii_of_nat (n + 32) else c.

Fixpoint toLowerCase (s : string) : string :=
  match s with
  | EmptyString => EmptyString
  | String c s' => String (toLowerChar c) (toLowerCase s')
  end.

(** ** Code units *)

(** The UTF-16 code units of a string: a character of one, two or three
    bytes is one unit, a character of four bytes (beyond U+FFFF) is a
    surrogate pair.  A surrogate on its own is the three bytes of its
    number. *)
Fixpoint units (s : string) : list N :=
  match s with
  | EmptyString => []
  | String a r1 =>
      let x := N_of_ascii a in
      if x <? 192 then x :: units r1
      else
        match r1 with
        | EmptyString => [x]
        | String b r2 =>
            let y := N_of_ascii b mod 64 in
            if x <? 224 then ((x - 192) * 64 + y) :: units r2
            else
              match r2 with
              | EmptyString => [x; N_of_ascii b]
              | String c r3 =>
                  let z := N_of_ascii c mod 64 in
                  if x <? 240 then ((x - 224) * 4096 + y * 64 + z) :: units r3
                  else
                    match r3 with
                    | EmptyString => [x; N_of_ascii b; N_of_ascii c]
                    | String d r4 =>
                        let w := N_of_ascii d mod 64 in
                        let v := (x - 240) * 262144 + y * 4096 + z * 64 + w
                                 - 65536 in
                        (55296 + v / 1024) :: (56320 + v mod 1024) :: units r4
                    end
              end
        end
  end%N.

Definition bytesN (l : list N) : string :=
  fold_right (fun n s => String (ascii_of_N n) s) EmptyString l.

(** The bytes of one code unit from U+0800 on. *)
Definition threeBytes (u : N) : string :=
  bytesN [224 + u / 4096; 128 + (u / 64) mod 64; 128 + u mod 64]%N.

(** The string of the given code units; a high surrogate followed by a
    low one is one character of four bytes. *)
Fixpoint ofUnits (us : list N) : string :=
  match us with
  | [] => EmptyString
  | u :: rest =>
      if u <? 128 then String (ascii_of_N u) (ofUnits rest)
      else if u <? 2048 then
        bytesN [192 + u / 64; 128 + u mod 64] ++ ofUnits rest
      else
        match rest with
        | v :: rest' =>
            if (55296 <=? u) && (u <? 56320) && (56320 <=? v) && (v <? 57344)
            then
              let cp := 65536 + (u - 55296) * 1024 + (v - 56320) in
              bytesN [240 + cp / 262144; 128 + (cp / 4096) mod 64;
                      128 + (cp / 64) mod 64; 128 + cp mod 64]
              ++ ofUnits rest'
            else threeBytes u ++ ofUnits rest
        | [] => threeBytes u
        end
  end%N.

(** [s.substring(0, n)]: the first [n] code units. *)
Definition substring0 (n : nat) (s : string) : string :=
  ofUnits (firstn n (units s)).

(** ** Replacing *)

(** [s.replace(/c/g, by)] for a one-character pattern. *)
Fixpoint replaceChar (c : ascii) (by_ : string) (s : string) : string :=
  match s with
  | EmptyString => EmptyString
  | String a s' =>
      if Ascii.eqb a c then by_ ++ replaceChar c by_ s'
      else String a (replaceChar c by_ s')
  end.

(** [s.replace(/<pat>\n?/g, '')] for a literal, non-empty [pat]: every
    occurrence, scanning from the left, is removed together with one line
    feed that follows it. *)
Fixpoint removeAllFuel (fuel : nat) (pat s : string) : string :=
  match fuel with
  | O => s
  | S f =>
      if startsWith s pat then
        let rest := drop (String.length pat) s in
        match rest with
        | String c rest' =>
            if Ascii.eqb c LF then removeAllFuel f pat rest'
            else removeAllFuel f pat rest
        | EmptyString => EmptyString
        end
      else
        match s with
        | EmptyString => EmptyString
        | String c s' => String c (removeAllFuel f pat s')
        end
  end.

Definition removeAll (pat s : string) : string :=
  removeAllFuel (S (String.length s)) pat s.

End JS.

(* ================================================================== *)
(** * The bucket pattern  [/^(.+?)(?::|-)\s*(.+)$/] *)

Module BucketRegex.
Import JS.

Definition isSeparator (c : ascii) : bool :=
  Ascii.eqb c ":"%char || Ascii.eqb c "-"%char.

(** What the atom [.] matches (no [s] flag) at the head of [s]: any
    character but a line terminator. *)
Definition isDot (s : string) : bool := terminatorWidth s =? 0.

(** The string holds no line terminator. *)
Fixpoint allDot (s : string) : bool :=
  match s with
  | EmptyString => true
  | String _ s' => isDot s && allDot s'
  end.

(** [(.+)$]: the rest of the input, non-empty and free of line
    terminators. *)
Definition group2 (s : string) : option string :=
  if truthy s && allDot s then Some s else None.

(** [\s*(.+)$]: the greedy [\s*] takes as much white space as it can and
    gives it back one character at a time when the continuation fails. *)
Fixpoint afterSeparator (s : string) : option string :=
  let orBack (found : option string) :=
    match found with
    | Some g => Some g
    | None => group2 s
    end in
  match s with
  | EmptyString => group2 s
  | String _ r1 =>
      match whiteWidth s with
      | 0 => group2 s
      | 1 => orBack (afterSeparator r1)
      | 2 => match r1 with
             | String _ r2 => orBack (afterSeparator r2)
             | EmptyString => group2 s
             end
      | _ => match r1 with
             | String _ (String _ r3) => orBack (afterSeparator r3)
             | _ => group2 s
             end
      end
  end.

(** The lazy [(.+?)] has consumed [acc] (non-empty); it stops at the first
    position where the rest of the pattern matches, and otherwise goes on
    over a character that [.] accepts. *)
Fixpoint lazyGroup1 (acc : string) (s : string) : option (string * string) :=
  match s with
  | EmptyString => None
  | String c s' =>
      let extend :=
        if isDot s then lazyGroup1 (acc ++ String c EmptyString) s' else None in
      if isSeparator c then
        match afterSeparator s' with
        | Some g2 => Some (acc, g2)
        | None => extend
        end
      else extend
  end.

(** [source.match(re)]: the two capture groups, or [None] for [null].  The
    pattern is anchored by [^], so only position 0 is tried. *)
Definition exec (source : string) : option (string * string) :=
  match source with
  | EmptyString => None
  | String c s' =>
      if isDot source then lazyGroup1 (String c EmptyString) s' else None
  end.

End BucketRegex.

(* ================================================================== *)
(** * Dates *)

Notation "x <-? c1 ; c2" :=
  (match c1 with Some x => c2 | None => None end)
  (at level 61, c1 at next level, right associativity).

Notation "' pat <-? c1 ; c2" :=
  (match c1 with Some pat => c2 | None => None end)
  (at level 61, pat pattern, c1 at next level, right associativity).

Module DateTime.
Local Open Scope Z_scope.

(** A [Date] object: its time value, or [None] for the Invalid Date
    (time value NaN). *)
Definition Date : Type := option Z.

Definition msPerSecond : Z := 1000.
Definition msPerMinute : Z := 60000.
Definition msPerHour : Z := 3600000.
Definition msPerDay : Z := 86400000.
Definition maxTime : Z := 8640000000000000.

Definition TimeClip (t : Z) : Date :=
  if Z.abs t <=? maxTime then Some t else None.

Definition Day (t : Z) : Z := t / msPerDay.
Definition HourFromTime (t : Z) : Z := (t / msPerHour) mod 24.
Definition MinFromTime (t : Z) : Z := (t / msPerMinute) mod 60.
Definition SecFromTime (t : Z) : Z := (t / msPerSecond) mod 60.
Definition msFromTime (t : Z) : Z := t mod msPerSecond.

(** Day number of the civil date [y]-[m]-[d] (months from 1), proleptic
    Gregorian calendar, day 0 being 1970-01-01. *)
Definition daysFromCivil (y m d : Z) : Z :=
  let y' := if m <=? 2 then y - 1 else y in
  let era := y' / 400 in
  let yoe := y' - era * 400 in
  let doy := (153 * (if 2 <? m then m - 3 else m + 9) + 2) / 5 + d - 1 in
  let doe := yoe * 365 + yoe / 4 - yoe / 100 + doy in
  era * 146097 + doe - 719468.

(** The civil date (year, month from 1, day of month) of a day number. *)
Definition civilFromDays (z : Z) : Z * Z * Z :=
  let z' := z + 719468 in
  let era := z' / 146097 in
  let doe := z' - era * 146097 in
  let yoe := (doe - doe / 1460 + doe / 36524 - doe / 146096) / 365 in
  let y := yoe + era * 400 in
  let doy := doe - (365 * yoe + yoe / 4 - yoe / 100) in
  let mp := (5 * doy + 2) / 153 in
  let d := doy - (153 * mp + 2) / 5 + 1 in
  let m := if mp <? 10 then mp + 3 else mp - 9 in
  (if m <=? 2 then y + 1 else y, m, d).

Definition YearFromTime (t : Z) : Z :=
  let '(y, _, _) := civilFromDays (Day t) in y.
(** Months are numbered from 0, as [getMonth] does. *)
Definition MonthFromTime (t : Z) : Z :=
  let '(_, m, _) := civilFromDays (Day t) in m - 1.
Definition DateFromTime (t : Z) : Z :=
  let '(_, _, d) := civilFromDays (Day t) in d.

Definition MakeTime (hour min sec ms : Z) : Z :=
  hour * msPerHour + min * msPerMinute + sec * msPerSecond + ms.

Definition MakeDay (year month date : Z) : Z :=
  let ym := year + month / 12 in
  let mn := month mod 12 in
  daysFromCivil ym (mn + 1) 1 + date - 1.

Definition MakeDate (day time : Z) : Z := day * msPerDay + time.

(** The host's time zone: [tz] is the offset of local time from UTC in
    milliseconds (a fixed offset; daylight-saving changes are not
    modelled). *)
Definition LocalTime (tz t : Z) : Z := t + tz.
Definition UTC (tz t : Z) : Z := t - tz.

(** The getters of [Date.prototype]; [None] is NaN. *)
Definition getUTCHours (d : Date) : option Z := option_map HourFromTime d.
Definition getUTCMinutes (d : Date) : option Z := option_map MinFromTime d.
Definition getUTCSeconds (d : Date) : option Z := option_map SecFromTime d.
Definition getFullYear (tz : Z) (d : Date) : option Z :=
  option_map (fun t => YearFromTime (LocalTime tz t)) d.
Definition getMonth (tz : Z) (d : Date) : option Z :=
  option_map (fun t => MonthFromTime (LocalTime tz t)) d.
Definition getDate (tz : Z) (d : Date) : option Z :=
  option_map (fun t => DateFromTime (LocalTime tz t)) d.
Definition getHours (tz : Z) (d : Date) : option Z :=
  option_map (fun t => HourFromTime (LocalTime tz t)) d.
Definition getMinutes (tz : Z) (d : Date) : option Z :=
  option_map (fun t => MinFromTime (LocalTime tz t)) d.
Definition getSeconds (tz : Z) (d : Date) : option Z :=
  option_map (fun t => SecFromTime (LocalTime tz t)) d.

(** [x !== 0] on the result of a getter: NaN differs from 0. *)
Definition notZero (x : option Z) : bool :=
  match x with Some v => negb (v =? 0) | None => true end.

(** [new Date(year, month, date, hours, minutes, seconds)]: the fields are
    local time; a NaN field gives the Invalid Date; years 0 to 99 stand for
    1900 to 1999. *)
Definition newDateFields (tz : Z) (year month date hours minutes seconds : option Z)
  : Date :=
  y <-? year; mo <-? month; dt <-? date;
  h <-? hours; mi <-? minutes; s <-? seconds;
  let yr := if (0 <=? y) && (y <=? 99) then 1900 + y else y in
  TimeClip (UTC tz (MakeDate (MakeDay yr mo dt) (MakeTime h mi s 0))).

(** [d.toISOString()] throws a RangeError on the Invalid Date.  The stored
    column keeps the instant; its rendering as text is not needed. *)
Definition toISOString (d : Date) : result Z :=
  match d with
  | Some t => Ok t
  | None => Throw "RangeError: Invalid time value"
  end.

(** ** [Date.parse]

    The date-time string format of ECMAScript, [YYYY-MM-DDTHH:mm:ss.sssZ]
    with its shorter forms and the expanded years.  What [Date.parse]
    makes of any other string is left to the implementation: it is the
    argument [heuristic]. *)

Definition digitVal (c : ascii) : option Z :=
  let n := nat_of_ascii c in
  if ((48 <=? n) && (n <=? 57))%nat then Some (Z.of_nat n - 48) else None.

Fixpoint digits (n : nat) (acc : Z) (s : string) : option (Z * string) :=
  match n with
  | O => Some (acc, s)
  | S n' =>
      match s with
      | String c s' => v <-? digitVal c; digits n' (acc * 10 + v) s'
      | EmptyString => None
      end
  end.

Definition expect (c : ascii) (s : string) : option string :=
  match s with
  | String a s' => if Ascii.eqb a c then Some s' else None
  | EmptyString => None
  end.

(** [YYYY], or an expanded year [+YYYYYY] or [-YYYYYY]; [-000000] is not a
    year. *)
Definition parseYear (s : string) : option (Z * string) :=
  match s with
  | String c r =>
      if Ascii.eqb c "+" then digits 6 0 r
      else if Ascii.eqb c "-" then
        '(y, r') <-? digits 6 0 r;
        if y =? 0 then None else Some (- y, r')
      else digits 4 0 s
  | EmptyString => None
  end.

Definition parseDatePart (s : string) : option (Z * Z * Z * string) :=
  '(y, r) <-? parseYear s;
  match expect "-" r with
  | None => Some (y, 1, 1, r)
  | Some r1 =>
      '(mo, r2) <-? digits 2 0 r1;
      match expect "-" r2 with
      | None => Some (y, mo, 1, r2)
      | Some r3 => '(d, r4) <-? digits 2 0 r3; Some (y, mo, d, r4)
      end
  end.

Definition parseTimePart (s : string) : option (Z * Z * Z * Z * string) :=
  '(h, r) <-? digits 2 0 s;
  r1 <-? expect ":" r;
  '(mi, r2) <-? digits 2 0 r1;
  match expect ":" r2 with
  | None => Some (h, mi, 0, 0, r2)
  | Some r3 =>
      '(sec, r4) <-? digits 2 0 r3;
      match expect "." r4 with
      | None => Some (h, mi, sec, 0, r4)
      | Some r5 => '(ms, r6) <-? digits 3 0 r5; Some (h, mi, sec, ms, r6)
      end
  end.

(** The offset suffix, with its hours and minutes: [Some None] when absent
    (local time), [Some (Some (sign, h, mi))] for [Z] or [+HH:mm] /
    [-HH:mm], [None] when it is not of that form. *)
Definition parseOffset (s : string) : option (option (Z * Z * Z)) :=
  match s with
  | EmptyString => Some None
  | String c r =>
      if Ascii.eqb c "Z" then
        match r with EmptyString => Some (Some (1, 0, 0)) | _ => None end
      else if Ascii.eqb c "+" || Ascii.eqb c "-" then
        '(h, r1) <-? digits 2 0 r;
        r2 <-? expect ":" r1;
        '(mi, r3) <-? digits 2 0 r2;
        match r3 with
        | EmptyString => Some (Some (if Ascii.eqb c "-" then -1 else 1, h, mi))
        | _ => None
        end
      else None
  end.

Definition validTime (h mi sec : Z) (ms : Z) : bool :=
  ((h <=? 23) && (mi <=? 59) && (sec <=? 59))
  || ((h =? 24) && (mi =? 0) && (sec =? 0) && (ms =? 0)).

Definition isLeapYear (y : Z) : bool :=
  (y mod 4 =? 0) && (negb (y mod 100 =? 0) || (y mod 400 =? 0)).

Definition daysInMonth (y mo : Z) : Z :=
  if mo =? 2 then (if isLeapYear y then 29 else 28)
  else if (mo =? 4) || (mo =? 6) || (mo =? 9) || (mo =? 11) then 30
  else 31.

(** How a string reads in the date-time string format. *)
Inductive IsoReading : Type :=
| NotIso                  (* the string is not of the format *)
| OutOfBounds             (* it is, with a field out of its bounds: NaN *)
| NoSuchDay               (* it is, on a day the month does not have *)
| Instant (d : Date).     (* it is, and this is the date *)

Definition isoParse (tz : Z) (s : string) : IsoReading :=
  match parseDatePart s with
  | None => NotIso
  | Some (y, mo, d, r) =>
      let day := MakeDay y (mo - 1) d in
      let dated (t : IsoReading) :=
        if negb ((1 <=? mo) && (mo <=? 12) && (1 <=? d) && (d <=? 31))
        then OutOfBounds
        else if daysInMonth y mo <? d then NoSuchDay
        else t in
      match r with
      | EmptyString => dated (Instant (TimeClip (MakeDate day 0)))
      | String c r1 =>
          if Ascii.eqb c "T" then
            match parseTimePart r1 with
            | None => NotIso
            | Some (h, mi, sec, ms, r2) =>
                match parseOffset r2 with
                | None => NotIso
                | Some off =>
                    if negb (validTime h mi sec ms) then OutOfBounds
                    else
                      let t := MakeDate day (MakeTime h mi sec ms) in
                      match off with
                      | Some (sign, oh, omi) =>
                          if (oh <=? 23) && (omi <=? 59) then
                            dated (Instant (TimeClip
                              (t - sign * (oh * msPerHour + omi * msPerMinute))))
                          else OutOfBounds
                      | None => dated (Instant (TimeClip (UTC tz t)))
                      end
                end
            end
          else NotIso
      end
  end.

(** [Date.parse(s)], as a date.  A field out of its bounds gives NaN; a
    string that is not of the format, and a day that the month does not
    have (on which implementations differ), are left to [heuristic]. *)
Definition parse (tz : Z) (heuristic : string -> Date) (s : string) : Date :=
  match isoParse tz s with
  | Instant d => d
  | OutOfBounds => None
  | NotIso | NoSuchDay => heuristic s
  end.

End DateTime.

(* ================================================================== *)
(** * Numbers *)

(** A number of JavaScript is a double.  The numbers met here come from
    decimal literals, [m * 10 ^ e]; [ofDecimal] is the double a literal
    stands for (rounded to the nearest, ties to the even significand), as
    the exact value [n * 2 ^ q] it has. *)
Module Double.
Local Open Scope Z_scope.

Inductive double : Type :=
| Zero
| Finite (negative : bool) (n q : Z)        (* [n * 2 ^ q], [n > 0] *)
| Infinity (negative : bool).

(** [b * 2 ^ k <= a], for [k] of either sign. *)
Definition scaledLeb (b k a : Z) : bool :=
  if 0 <=? k then b * 2 ^ k <=? a else b <=? a * 2 ^ (- k).

(** [a / b] rounded to an integer, halves to the even one. *)
Definition roundHalfEven (a b : Z) : Z :=
  let n := a / b in
  let r := a mod b in
  if 2 * r <? b then n
  else if b <? 2 * r then n + 1
  else if Z.even n then n else n + 1.

(** The double nearest to the positive rational [a / b]. *)
Definition nearest (negative : bool) (a b : Z) : double :=
  let k := Z.log2 a - Z.log2 b in
  let e := if scaledLeb b k a then k else k - 1 in
  let q := Z.max e (- 1022) - 52 in
  let n := if q <? 0 then roundHalfEven (a * 2 ^ (- q)) b
           else roundHalfEven a (b * 2 ^ q) in
  if n =? 0 then Zero
  else if scaledLeb 1 (1024 - q) n then Infinity negative
  else Finite negative n q.

Definition ofDecimal (m e : Z) : double :=
  if m =? 0 then Zero
  else if 0 <=? e then nearest (m <? 0) (Z.abs m * 10 ^ e) 1
  else nearest (m <? 0) (Z.abs m) (10 ^ (- e)).

(** [n1 * 2 ^ q1 = n2 * 2 ^ q2] *)
Definition sameValue (n1 q1 n2 q2 : Z) : bool :=
  if q1 <=? q2 then n1 =? n2 * 2 ^ (q2 - q1) else n1 * 2 ^ (q1 - q2) =? n2.

(** ToBoolean: zero is the one falsy double that a literal gives. *)
Definition truthy (x : double) : bool :=
  match x with Zero => false | _ => true end.

(** The time value of [new Date(x)]: [TimeClip], which truncates. *)
Definition timeValue (x : double) : DateTime.Date :=
  match x with
  | Zero => Some 0
  | Infinity _ => None
  | Finite negative n q =>
      let whole := if 0 <=? q then n * 2 ^ q else n / 2 ^ (- q) in
      let beyond :=
        if 0 <=? q then DateTime.maxTime <? n * 2 ^ q
        else DateTime.maxTime * 2 ^ (- q) <? n in
      if beyond then None else Some (if negative then - whole else whole)
  end.

(** ** [Number::toString] *)

Definition digitChar (d : Z) : ascii := ascii_of_N (Z.to_N (48 + d)).

Fixpoint decimalFuel (fuel : nat) (z : Z) (acc : string) : string :=
  match fuel with
  | O => acc
  | S f =>
      let acc' := String (digitChar (z mod 10)) acc in
      if z <? 10 then acc' else decimalFuel f (z / 10) acc'
  end.

(** The decimal digits of a natural number. *)
Definition decimal (z : Z) : string := decimalFuel 400 z EmptyString.

Fixpoint zeros (n : nat) : string :=
  match n with
  | O => EmptyString
  | S n' => String "0" (zeros n')
  end.

(** [10 ^ d <= a / b], for [d] of either sign. *)
Definition powerLeb (d a b : Z) : bool :=
  if 0 <=? d then 10 ^ d * b <=? a else b <=? a * 10 ^ (- d).

(** The exponent of the leading decimal digit of [a / b], searched for
    downwards from [d]. *)
Fixpoint leading (fuel : nat) (d a b : Z) : Z :=
  match fuel with
  | O => d
  | S f => if powerLeb d a b then d else leading f (d - 1) a b
  end.

(** Whether the literal [s * 10 ^ p] stands for the double [n * 2 ^ q]. *)
Definition reads (s p n q : Z) : bool :=
  match ofDecimal s p with
  | Finite _ n' q' => sameValue n' q' n q
  | _ => false
  end.

(** The integer with [k] digits whose literal at the exponent that goes
    with [k] stands for [n * 2 ^ q] and is nearest to it (of two equally
    near, the even one), if there is one; with its exponent. *)
Definition shortestAt (n q a b lead : Z) (k : Z) : option (Z * Z) :=
  let p := lead - k + 1 in
  let lo := if 0 <=? p then a / (b * 10 ^ p) else (a * 10 ^ (- p)) / b in
  let hi := lo + 1 in
  (* twice the value against the sum of the two candidates *)
  let twice := 2 * a in
  let sum := 2 * lo + 1 in
  let lowerIsNearer :=
    if 0 <=? p then twice <? sum * 10 ^ p * b
    else twice * 10 ^ (- p) <? sum * b in
  let tie :=
    if 0 <=? p then twice =? sum * 10 ^ p * b
    else twice * 10 ^ (- p) =? sum * b in
  match reads lo p n q, reads hi p n q with
  | true, true =>
      if lowerIsNearer then Some (lo, p)
      else if tie then Some (if Z.even lo then lo else hi, p)
      else Some (hi, p)
  | true, false => Some (lo, p)
  | false, true => Some (hi, p)
  | false, false => None
  end.

Fixpoint shortest (fuel : nat) (n q a b lead : Z) (k : Z) : Z * Z :=
  match fuel with
  | O => (n, 0)
  | S f =>
      match shortestAt n q a b lead k with
      | Some sp => sp
      | None => shortest f n q a b lead (k + 1)
      end
  end.

(** Drops the zeros a decimal ends with. *)
Fixpoint stripZeros (fuel : nat) (s p : Z) : Z * Z :=
  match fuel with
  | O => (s, p)
  | S f => if s mod 10 =? 0 then stripZeros f (s / 10) (p + 1) else (s, p)
  end.

(** The text of the positive double [n * 2 ^ q]. *)
Definition positiveText (n q : Z) : string :=
  let a := if 0 <=? q then n * 2 ^ q else n in
  let b := if 0 <=? q then 1 else 2 ^ (- q) in
  let lead := leading 700 309 a b in
  let '(s0, p0) := shortest 17 n q a b lead 1 in
  let '(s, p) := stripZeros 20 s0 p0 in
  let ds := decimal s in
  let k := Z.of_nat (String.length ds) in
  let point := k + p in            (* [n] of the standard *)
  if (- 5 <=? point) && (point <=? 21) then
    if k <=? point then ds ++ zeros (Z.to_nat (point - k))
    else if 0 <? point then
      JS.ofUnits (firstn (Z.to_nat point) (JS.units ds))
      ++ String "." (JS.drop (Z.to_nat point) ds)
    else "0." ++ zeros (Z.to_nat (- point)) ++ ds
  else
    let e := point - 1 in
    let exponent :=
      String "e" (String (if e <? 0 then "-"%char else "+"%char) (decimal (Z.abs e))) in
    match ds with
    | String d EmptyString => String d exponent
    | String d rest => String d (String "." (rest ++ exponent))
    | EmptyString => exponent
    end.

Definition toString (x : double) : string :=
  match x with
  | Zero => "0"
  | Infinity negative => if negative then "-Infinity" else "Infinity"
  | Finite negative n q =>
      if negative then String "-" (positiveText n q) else positiveText n q
  end.

End Double.

(* ================================================================== *)
(** * JavaScript values and [JSON.parse] *)

Module Json.
Import JS.

(** The values that flow through [parseCapture]: what [JSON.parse] builds,
    [undefined] (the result of reading a missing property) and [Date]
    objects.  A number is kept as the literal it was written as,
    [mantissa * 10 ^ exponent]; what it does is what the double does that
    the literal stands for. *)
#[warnings="-register-all"] Inductive value : Type :=
| VUndefined
| VNull
| VBool (b : bool)
| VNumber (mantissa exponent : Z)
| VString (s : string)
| VArray (items : list value)
| VObject (members : list (string * value))
| VDate (d : DateTime.Date).

(** ToBoolean. *)
Definition truthy (v : value) : bool :=
  match v with
  | VUndefined | VNull => false
  | VBool b => b
  | VNumber m e => Double.truthy (Double.ofDecimal m e)
  | VString s => JS.truthy s
  | VArray _ | VObject _ => true
  | VDate _ => true
  end.

(** Own property lookup in an object built by [JSON.parse]: with a repeated
    key the last occurrence wins. *)
Fixpoint lookup (k : string) (members : list (string * value)) : option value :=
  match members with
  | [] => None
  | (k', v) :: rest =>
      match lookup k rest with
      | Some v' => Some v'
      | None => if String.eqb k k' then Some v else None
      end
  end.

(** [v.k] for the property names the sources read ([type], [data], the
    field names of the payloads): a TypeError on [null] and [undefined],
    [undefined] on a primitive, an array or a missing key. *)
Definition get (v : value) (k : string) : result value :=
  match v with
  | VUndefined | VNull =>
      Throw "TypeError: Cannot read properties of null or undefined"
  | VObject members =>
      Ok (match lookup k members with Some x => x | None => VUndefined end)
  | _ => Ok VUndefined
  end.

(** [members] with the property [k] set to [x]: at the place of its first
    binding, the one binding of [k] there is then; at the end when it has
    none. *)
Fixpoint assign (k : string) (x : value) (members : list (string * value))
  : list (string * value) :=
  match members with
  | [] => [(k, x)]
  | (k', v) :: rest =>
      if String.eqb k k'
      then (k', x) :: filter (fun kv => negb (String.eqb (fst kv) k)) rest
      else (k', v) :: assign k x rest
  end.

(** Keeps one binding per key, the value of the last occurrence at the
    position of the first: the object [JSON.parse] builds. *)
Fixpoint normalize (members : list (string * value)) : list (string * value) :=
  match members with
  | [] => []
  | (k, v) :: rest =>
      (k, match lookup k rest with Some v' => v' | None => v end)
      :: filter (fun kv => negb (String.eqb (fst kv) k)) (normalize rest)
  end.

(** [v.k = x] in strict mode (an ES module): a TypeError on [null],
    [undefined] and on a primitive.  A named property set on an array is
    not representable and is dropped. *)
Definition set (v : value) (k : string) (x : value) : result value :=
  match v with
  | VObject members => Ok (VObject (assign k x members))
  | VArray items => Ok (VArray items)
  | VDate d => Ok (VDate d)
  | _ => Throw "TypeError: Cannot create property on a primitive value"
  end.

(** ** The JSON grammar (ECMA-404) *)

Definition isJsonSpace (c : ascii) : bool :=
  let n := nat_of_ascii c in
  (n =? 32) || (n =? 9) || (n =? 10) || (n =? 13).

Fixpoint skipSpace (s : string) : string :=
  match s with
  | String c s' => if isJsonSpace c then skipSpace s' else s
  | EmptyString => EmptyString
  end.

Definition hexVal (c : ascii) : option N :=
  let n := N_of_ascii c in
  (if (48 <=? n) && (n <=? 57) then Some (n - 48)
   else if (65 <=? n) && (n <=? 70) then Some (n - 55)
   else if (97 <=? n) && (n <=? 102) then Some (n - 87)
   else None)%N.

(** The code unit of a [\uXXXX] escape. *)
Definition hex4 (s : string) : option (N * string) :=
  match s with
  | String a (String b (String c (String d r))) =>
      x <-? hexVal a; y <-? hexVal b; z <-? hexVal c; w <-? hexVal d;
      Some ((((x * 16 + y) * 16 + z) * 16 + w)%N, r)
  | _ => None
  end.

(** The low surrogate that an escape writes right after the high
    surrogate [n]: the two are one character. *)
Definition pairedEscape (n : N) (s : string) : option (N * string) :=
  if ((55296 <=? n) && (n <? 56320))%N then
    match s with
    | String a (String b r) =>
        if Ascii.eqb a "\" && Ascii.eqb b "u" then
          '(m, r') <-? hex4 r;
          if ((56320 <=? m) && (m <? 57344))%N then Some (m, r') else None
        else None
    | _ => None
    end
  else None.

(** The characters of a string literal after its opening quote, up to and
    including the closing quote. *)
Fixpoint parseChars (fuel : nat) (s : string) : option (string * string) :=
  match fuel with
  | O => None
  | S f =>
      match s with
      | EmptyString => None
      | String c r =>
          if Ascii.eqb c dquote then Some (EmptyString, r)
          else if Ascii.eqb c "\" then
            match r with
            | String e r' =>
                let simple (x : ascii) :=
                  '(t, r2) <-? parseChars f r'; Some (String x t, r2) in
                if Ascii.eqb e dquote then simple dquote
                else if Ascii.eqb e "\" then simple "\"%char
                else if Ascii.eqb e "/" then simple "/"%char
                else if Ascii.eqb e "b" then simple "008"%char
                else if Ascii.eqb e "f" then simple "012"%char
                else if Ascii.eqb e "n" then simple "010"%char
                else if Ascii.eqb e "r" then simple "013"%char
                else if Ascii.eqb e "t" then simple "009"%char
                else if Ascii.eqb e "u" then
                  '(n, r2) <-? hex4 r';
                  match pairedEscape n r2 with
                  | Some (m, r3) =>
                      '(t, r4) <-? parseChars f r3;
                      Some (ofUnits [n; m] ++ t, r4)
                  | None =>
                      '(t, r3) <-? parseChars f r2;
                      Some (ofUnits [n] ++ t, r3)
                  end
                else None
            | EmptyString => None
            end
          else if nat_of_ascii c <? 32 then None
          else '(t, r') <-? parseChars f r; Some (String c t, r')
      end
  end.

Definition isDigit (c : ascii) : bool :=
  let n := nat_of_ascii c in (48 <=? n) && (n <=? 57).

(** A run of digits: its value continuing [acc], how many there were, and
    the rest. *)
Fixpoint digitRun (acc : Z) (count : nat) (s : string) : Z * nat * string :=
  match s with
  | String c r =>
      if isDigit c
      then digitRun (acc * 10 + (Z.of_nat (nat_of_ascii c) - 48))%Z (S count) r
      else (acc, count, s)
  | EmptyString => (acc, count, s)
  end.

(** An optional minus sign, an integer part without a superfluous leading
    zero, an optional fraction and an optional exponent. *)
Definition parseNumber (s : string) : option (value * string) :=
  let '(neg, s1) :=
    match s with
    | String c r => if Ascii.eqb c "-" then (true, r) else (false, s)
    | EmptyString => (false, s)
    end in
  match s1 with
  | String c _ =>
      if negb (isDigit c) then None
      else
        let '(ip, n, s2) := digitRun 0 0 s1 in
        if Ascii.eqb c "0" && negb (n =? 1) then None
        else
          let fracPart :=
            match s2 with
            | String d r =>
                if Ascii.eqb d "." then
                  let '(m, k, s3) := digitRun ip 0 r in
                  if k =? 0 then None else Some (m, Z.of_nat k, s3)
                else Some (ip, 0%Z, s2)
            | EmptyString => Some (ip, 0%Z, s2)
            end in
          '(m, k, s3) <-? fracPart;
          let expPart :=
            match s3 with
            | String e r =>
                if Ascii.eqb e "e" || Ascii.eqb e "E" then
                  let '(eneg, r1) :=
                    match r with
                    | String sg r' =>
                        if Ascii.eqb sg "-" then (true, r')
                        else if Ascii.eqb sg "+" then (false, r')
                        else (false, r)
                    | EmptyString => (false, r)
                    end in
                  let '(x, j, s4) := digitRun 0 0 r1 in
                  if j =? 0 then None
                  else Some ((if eneg then - x else x)%Z, s4)
                else Some (0%Z, s3)
            | EmptyString => Some (0%Z, s3)
            end in
          '(x, s4) <-? expPart;
          Some (VNumber (if neg then - m else m)%Z (x - k)%Z, s4)
  | EmptyString => None
  end.

Definition literal (word : string) (v : value) (s : string)
  : option (value * string) :=
  if startsWith s word then Some (v, drop (String.length word) s) else None.

(** Recursive descent.  [fuel] bounds the nesting and the number of
    elements; [parse] runs it with the length of the input, each level and
    each element taking at least one character. *)
Fixpoint parseValue (fuel : nat) (s : string) : option (value * string) :=
  match fuel with
  | O => None
  | S f =>
      match skipSpace s with
      | EmptyString => None
      | String c r as s0 =>
          if Ascii.eqb c "n" then literal "null" VNull s0
          else if Ascii.eqb c "t" then literal "true" (VBool true) s0
          else if Ascii.eqb c "f" then literal "false" (VBool false) s0
          else if Ascii.eqb c dquote then
            '(t, r') <-? parseChars (S (String.length r)) r;
            Some (VString t, r')
          else if Ascii.eqb c "[" then
            match skipSpace r with
            | String c' r' =>
                if Ascii.eqb c' "]" then Some (VArray [], r')
                else '(items, r2) <-? parseElements f r; Some (VArray items, r2)
            | EmptyString => None
            end
          else if Ascii.eqb c "{" then
            match skipSpace r with
            | String c' r' =>
                if Ascii.eqb c' "}" then Some (VObject [], r')
                else
                  '(members, r2) <-? parseMembers f r;
                  Some (VObject (normalize members), r2)
            | EmptyString => None
            end
          else parseNumber s0
      end
  end

with parseElements (fuel : nat) (s : string) : option (list value * string) :=
  match fuel with
  | O => None
  | S f =>
      '(v, r) <-? parseValue f s;
      match skipSpace r with
      | String c r' =>
          if Ascii.eqb c "," then
            '(vs, r2) <-? parseElements f r'; Some (v :: vs, r2)
          else if Ascii.eqb c "]" then Some ([v], r')
          else None
      | EmptyString => None
      end
  end

with parseMembers (fuel : nat) (s : string)
  : option (list (string * value) * string) :=
  match fuel with
  | O => None
  | S f =>
      match skipSpace s with
      | String q r0 =>
          if Ascii.eqb q dquote then
            '(k, r1) <-? parseChars (S (String.length r0)) r0;
            match skipSpace r1 with
            | String colon r2 =>
                if Ascii.eqb colon ":" then
                  '(v, r3) <-? parseValue f r2;
                  match skipSpace r3 with
                  | String c r4 =>
                      if Ascii.eqb c "," then
                        '(ms, r5) <-? parseMembers f r4; Some ((k, v) :: ms, r5)
                      else if Ascii.eqb c "}" then Some ([(k, v)], r4)
                      else None
                  | EmptyString => None
                  end
                else None
            | EmptyString => None
            end
          else None
      | EmptyString => None
      end
  end.

(** ** [new Date(v)] with one argument *)

Definition typeError : string :=
  "TypeError: Cannot convert object to primitive value".

(** [ToString(v)] as [Array.prototype.join] takes it, for what [JSON.parse]
    builds.  An object is turned into a primitive by its [toString]; an
    object with a member of that name has a [toString] that cannot be
    called, and the conversion throws.  An array is joined in turn. *)
Fixpoint toText (v : value) : result string :=
  match v with
  | VUndefined => Ok "undefined"
  | VNull => Ok "null"
  | VBool b => Ok (if b then "true" else "false")
  | VNumber m e => Ok (Double.toString (Double.ofDecimal m e))
  | VString s => Ok s
  | VArray items =>
      (fix join (items : list value) : result string :=
         match items with
         | [] => Ok EmptyString
         | x :: rest =>
             match
               match x with
               | VUndefined | VNull => Ok EmptyString
               | _ => toText x
               end
             with
             | Throw e => Throw e
             | Ok t =>
                 match rest with
                 | [] => Ok t
                 | _ =>
                     match join rest with
                     | Throw e => Throw e
                     | Ok ts => Ok (t ++ "," ++ ts)
                     end
                 end
             end
         end) items
  | VObject members =>
      match lookup "toString" members with
      | Some _ => Throw typeError
      | None => Ok "[object Object]"
      end
  | VDate _ => Ok EmptyString      (* not among what [JSON.parse] builds *)
  end.

(** [new Date(v)].  A string goes through [Date.parse]; a number, a
    boolean and [null] give their time value; an array or an object is
    first turned into a primitive, which is its text (their [valueOf]
    gives no primitive), and the text goes through [Date.parse]. *)
Definition newDate (tz : Z) (heuristic : string -> DateTime.Date) (v : value)
  : result DateTime.Date :=
  match v with
  | VUndefined => Ok None
  | VNull => Ok (Some 0%Z)
  | VBool b => Ok (Some (if b then 1 else 0)%Z)
  | VNumber m e => Ok (Double.timeValue (Double.ofDecimal m e))
  | VString s => Ok (DateTime.parse tz heuristic s)
  | VArray _ | VObject _ =>
      match toText v with
      | Ok text => Ok (DateTime.parse tz heuristic text)
      | Throw e => Throw e
      end
  | VDate d => Ok d
  end.

(** [v === 'k'] against a string literal. *)
Definition strictEqString (v : value) (k : string) : bool :=
  match v with
  | VString s => String.eqb s k
  | _ => false
  end.

(** [JSON.parse(text)]; [None] stands for the SyntaxError it throws. *)
Definition parse (text : string) : option value :=
  '(v, r) <-? parseValue (S (String.length text)) text;
  match skipSpace r with
  | EmptyString => Some v
  | _ => None
  end.

End Json.


(* ================================================================== *)
(** * The result monad *)

Definition rbind {A B} (c : result A) (k : A -> result B) : result B :=
  match c with
  | Ok a => k a
  | Throw e => Throw e
  end.

Notation "'try' x <- c1 ; c2" :=
  (rbind c1 (fun x => c2))
  (at level 61, x name, c1 at next level, right associativity).

(* ================================================================== *)
(** * src/lib/gemini.ts *)

Module Gemini.
Import JS Json.

Definition parseFailure : string :=
  "Failed to parse input. Please try rephrasing.".

(** [text.replace(/```json\n?/g, '').replace(/```\n?/g, '').trim()] *)
Definition cleanText (text : string) : string :=
  trim (removeAll "```" (removeAll "```json" text)).

Definition jsonParse (text : string) : result value :=
  match Json.parse text with
  | Some v => Ok v
  | None => Throw "SyntaxError: not valid JSON"
  end.

(** The conversion of date strings to Date objects (lines 99-114).  The
    payload is an alias of [parsed.data], so a field written to it is
    seen through [parsed]. *)
Definition convertDates (tz : Z) (heuristic : string -> DateTime.Date)
    (parsed : value) : result value :=
  try ty <- get parsed "type";
  if strictEqString ty "task" then
    try taskData <- get parsed "data";
    try dueDate <- get taskData "dueDate";
    if truthy dueDate then
      try converted <- newDate tz heuristic dueDate;
      try taskData' <- set taskData "dueDate" (VDate converted);
      set parsed "data" taskData'
    else Ok parsed
  else if strictEqString ty "event" then
    try eventData <- get parsed "data";
    try startTime <- get eventData "startTime";
    try start_ <- newDate tz heuristic startTime;
    try eventData1 <- set eventData "startTime" (VDate start_);
    try endTime <- get eventData1 "endTime";
    try end_ <- newDate tz heuristic endTime;
    try eventData2 <- set eventData1 "endTime" (VDate end_);
    set parsed "data" eventData2
  else if strictEqString ty "expense" || strictEqString ty "income" then
    try transactionData <- get parsed "data";
    try date <- get transactionData "date";
    if truthy date then
      try converted <- newDate tz heuristic date;
      try transactionData' <- set transactionData "date" (VDate converted);
      set parsed "data" transactionData'
    else Ok parsed
  else Ok parsed.

(** [parseCapture(input)].  [response] is what the call to the model
    gives: the text of its answer, or the error of a failed call.  The
    input text and the current time only enter the prompt. *)
Definition parseCapture (tz : Z) (heuristic : string -> DateTime.Date)
    (response : result string) : result value :=
  let body :=
    try text0 <- response;
    let text := trim text0 in
    try parsed <- jsonParse (cleanText text);
    convertDates tz heuristic parsed in
  match body with
  | Ok parsed => Ok parsed
  | Throw _ => Throw parseFailure
  end.

End Gemini.

(* ================================================================== *)
(** * src/types: the shapes of parsed captures and of records *)

Module Types.
Import Json DateTime.

(** A JavaScript number, as the decimal [mantissa * 10 ^ exponent]. *)
Definition number : Type := (Z * Z)%type.

Inductive TransactionType : Type := expense | income.

Record ParsedTask : Type := {
  pt_title : string;
  pt_description : option string;
  pt_dueDate : option Date;
  pt_priority : option string;
  pt_isRecurring : option bool;
  pt_recurrenceRule : option string;
  pt_photoUrl : option string
}.

Record ParsedEvent : Type := {
  pe_title : string;
  pe_description : option string;
  pe_startTime : Date;
  pe_endTime : Date;
  pe_location : option string;
  pe_isRecurring : option bool;
  pe_recurrenceRule : option string
}.

Record ParsedTransaction : Type := {
  px_amount : number;
  px_type : TransactionType;
  px_category : string;
  px_description : option string;
  px_date : option Date;
  px_photoUrl : option string
}.

Record ParsedNote : Type := {
  pn_title : option string;
  pn_content : string;
  pn_tags : option (list string);
  pn_photoUrl : option string
}.

(** [ParsedCapture]: the discriminant [type] with the payload [data] it
    announces.  [CaptureOther] is a value whose discriminant is none of the
    five of [CaptureType]; the declared type has no such inhabitant, the
    unchecked cast of [parseCapture] lets it through. *)
Inductive ParsedCapture : Type :=
| CaptureTask (data : ParsedTask)
| CaptureEvent (data : ParsedEvent)
| CaptureExpense (data : ParsedTransaction)
| CaptureIncome (data : ParsedTransaction)
| CaptureNote (data : ParsedNote)
| CaptureOther (type : value) (data : value).

Definition captureType (c : ParsedCapture) : value :=
  match c with
  | CaptureTask _ => VString "task"
  | CaptureEvent _ => VString "event"
  | CaptureExpense _ => VString "expense"
  | CaptureIncome _ => VString "income"
  | CaptureNote _ => VString "note"
  | CaptureOther t _ => t
  end.


(** ** The cast [as ParsedCapture]

    The cast is unchecked.  [asParsedCapture] reads a value at the declared
    type when its fields have the declared types, an optional field being
    absent or [null]; on other values the declared type says nothing and
    the result is [None]. *)

Definition field (v : value) (k : string) : value :=
  match v with
  | VObject members =>
      match lookup k members with Some x => x | None => VUndefined end
  | _ => VUndefined
  end.

Definition reqString (v : value) : option string :=
  match v with VString s => Some s | _ => None end.

Definition reqNumber (v : value) : option number :=
  match v with VNumber m e => Some (m, e) | _ => None end.

Definition reqDate (v : value) : option Date :=
  match v with VDate d => Some d | _ => None end.

Definition optional {A} (req : value -> option A) (v : value)
  : option (option A) :=
  match v with
  | VUndefined | VNull => Some None
  | _ => option_map Some (req v)
  end.

Definition reqBool (v : value) : option bool :=
  match v with VBool b => Some b | _ => None end.

Fixpoint reqStrings (vs : list value) : option (list string) :=
  match vs with
  | [] => Some []
  | v :: vs' => s <-? reqString v; ss <-? reqStrings vs'; Some (s :: ss)
  end.

Definition reqTags (v : value) : option (list string) :=
  match v with VArray vs => reqStrings vs | _ => None end.

Definition asParsedTask (d : value) : option ParsedTask :=
  title <-? reqString (field d "title");
  description <-? optional reqString (field d "description");
  dueDate <-? optional reqDate (field d "dueDate");
  priority <-? optional reqString (field d "priority");
  isRecurring <-? optional reqBool (field d "isRecurring");
  recurrenceRule <-? optional reqString (field d "recurrenceRule");
  photoUrl <-? optional reqString (field d "photoUrl");
  Some {| pt_title := title; pt_description := description;
          pt_dueDate := dueDate; pt_priority := priority;
          pt_isRecurring := isRecurring;
          pt_recurrenceRule := recurrenceRule; pt_photoUrl := photoUrl |}.

Definition asParsedEvent (d : value) : option ParsedEvent :=
  title <-? reqString (field d "title");
  description <-? optional reqString (field d "description");
  startTime <-? reqDate (field d "startTime");
  endTime <-? reqDate (field d "endTime");
  location <-? optional reqString (field d "location");
  isRecurring <-? optional reqBool (field d "isRecurring");
  recurrenceRule <-? optional reqString (field d "recurrenceRule");
  Some {| pe_title := title; pe_description := description;
          pe_startTime := startTime; pe_endTime := endTime;
          pe_location := location; pe_isRecurring := isRecurring;
          pe_recurrenceRule := recurrenceRule |}.

(** The payload of an expense or an income carries no [type] of its own
    in the answer of the model; [handleConfirm] sets it from the
    discriminant, which is what [ty] stands for. *)
Definition asParsedTransaction (ty : TransactionType) (d : value)
  : option ParsedTransaction :=
  amount <-? reqNumber (field d "amount");
  category <-? reqString (field d "category");
  description <-? optional reqString (field d "description");
  date <-? optional reqDate (field d "date");
  photoUrl <-? optional reqString (field d "photoUrl");
  Some {| px_amount := amount; px_type := ty; px_category := category;
          px_description := description; px_date := date;
          px_photoUrl := photoUrl |}.

Definition asParsedNote (d : value) : option ParsedNote :=
  title <-? optional reqString (field d "title");
  content <-? reqString (field d "content");
  tags <-? optional reqTags (field d "tags");
  photoUrl <-? optional reqString (field d "photoUrl");
  Some {| pn_title := title; pn_content := content; pn_tags := tags;
          pn_photoUrl := photoUrl |}.

Definition asParsedCapture (v : value) : option ParsedCapture :=
  let ty := field v "type" in
  let d := field v "data" in
  if strictEqString ty "task" then option_map CaptureTask (asParsedTask d)
  else if strictEqString ty "event" then
    option_map CaptureEvent (asParsedEvent d)
  else if strictEqString ty "expense" then
    option_map CaptureExpense (asParsedTransaction expense d)
  else if strictEqString ty "income" then
    option_map CaptureIncome (asParsedTransaction income d)
  else if strictEqString ty "note" then option_map CaptureNote (asParsedNote d)
  else Some (CaptureOther ty d).

(** ** Persisted records *)

Record Task : Type := {
  task_id : nat;
  task_userId : option string;
  task_title : string;
  task_description : option string;
  task_dueDate : option Date;
  task_priority : string;
  task_isCompleted : bool;
  task_isRecurring : bool;
  task_recurrenceRule : option string;
  task_photoUrl : option string;
  task_createdAt : Date;
  task_completedAt : option Date;
  task_updatedAt : Date
}.

Record Event : Type := {
  event_id : nat;
  event_userId : option string;
  event_title : string;
  event_description : option string;
  event_startTime : Date;
  event_endTime : Date;
  event_location : option string;
  event_isRecurring : bool;
  event_recurrenceRule : option string;
  event_googleEventId : option string;
  event_color : string;
  event_createdAt : Date;
  event_updatedAt : Date
}.

Record Note : Type := {
  note_id : nat;
  note_userId : option string;
  note_title : string;
  note_content : string;
  note_tags : list string;
  note_isPinned : bool;
  note_photoUrl : option string;
  note_createdAt : Date;
  note_updatedAt : Date
}.

Record Transaction : Type := {
  transaction_id : nat;
  transaction_userId : option string;
  transaction_amount : number;
  transaction_type : TransactionType;
  transaction_category : string;
  transaction_description : option string;
  transaction_date : Date;
  transaction_notes : option string;
  transaction_photoUrl : option string;
  transaction_createdAt : Date;
  transaction_updatedAt : Date
}.

(** [Partial<Event>], the argument of [events.update]: [None] is a field
    left out ([undefined]). *)
Record PartialEvent : Type := {
  upd_title : option string;
  upd_description : option string;
  upd_startTime : option Date;
  upd_endTime : option Date;
  upd_location : option string;
  upd_isRecurring : option bool;
  upd_recurrenceRule : option string;
  upd_googleEventId : option string;
  upd_color : option string
}.

Definition noUpdate : PartialEvent :=
  {| upd_title := None; upd_description := None; upd_startTime := None;
     upd_endTime := None; upd_location := None; upd_isRecurring := None;
     upd_recurrenceRule := None; upd_googleEventId := None;
     upd_color := None |}.

End Types.

(* ================================================================== *)
(** * Asynchronous code: state passing with exceptions *)

(** An [async] function over a store of type [S]: it returns a value or
    throws, and in both cases leaves a store behind. *)
Definition M (S A : Type) : Type := S -> result A * S.

Definition ret {S A} (a : A) : M S A := fun s => (Ok a, s).
Definition throw {S A} (e : string) : M S A := fun s => (Throw e, s).
Definition lift {S A} (r : result A) : M S A := fun s => (r, s).

Definition bind {S A B} (c : M S A) (k : A -> M S B) : M S B :=
  fun s =>
    match c s with
    | (Ok a, s') => k a s'
    | (Throw e, s') => (Throw e, s')
    end.

(** [try { c } catch (error) { h error }] *)
Definition catch {S A} (c : M S A) (h : string -> M S A) : M S A :=
  fun s =>
    match c s with
    | (Ok a, s') => (Ok a, s')
    | (Throw e, s') => h e s'
    end.

(** [try { c } finally { f }] *)
Definition finally {S A} (c : M S A) (f : M S unit) : M S A :=
  fun s =>
    let '(r, s') := c s in
    match f s' with
    | (Ok _, s'') => (r, s'')
    | (Throw e, s'') => (Throw e, s'')
    end.

Definition gets {S A} (f : S -> A) : M S A := fun s => (Ok (f s), s).
Definition modify {S} (f : S -> S) : M S unit := fun s => (Ok tt, f s).

Notation "x <~ c1 ;; c2" :=
  (bind c1 (fun x => c2))
  (at level 61, c1 at next level, right associativity).
Notation "c1 ;;; c2" :=
  (bind c1 (fun _ => c2))
  (at level 61, right associativity).

(* ================================================================== *)
(** * The collaborators outside the repository *)

(** What a call to the Google Calendar endpoint gives. *)
Inductive FetchOutcome : Type :=
| NetworkError (e : string)
| HttpError (message : string)
| HttpOk (id : option string).

(** A browser [File]. *)
Record File : Type := {
  file_name : string;
  file_type : string;
  file_size : Z
}.

(** The outcomes of the calls that leave the application during one
    capture, and the clock. *)
Record Env : Type := {
  (** [supabase.auth.getUser()]: the id of the signed-in user. *)
  auth_user : option string;
  (** The error the database answers every query with, if any. *)
  db_error : option string;
  (** [session.provider_token]: the Google access token. *)
  provider_token : option string;
  (** The answer of the calendar endpoint to a request. *)
  calendar : FetchOutcome;
  (** The error of the object store on an upload, if any, and the public
      URL it gives for the stored object. *)
  upload_error : option string;
  public_url : option string;
  (** The answer of the language model, or the error of the call. *)
  model_response : result string;
  (** [new Date()], and the offset of local time from UTC. *)
  now : Z;
  tz : Z;
  (** What [Date.parse] makes of a string that is not in the date-time
      string format: the choice of the implementation. *)
  date_heuristic : string -> option Z
}.

(* ================================================================== *)
(** * PostgreSQL [ILIKE] as PostgREST passes it on *)

Module Postgres.
Import JS.

Inductive token : Type :=
| AnySequence          (* [%], and [*] which PostgREST rewrites to [%] *)
| AnyOne               (* [_] *)
| Literal (c : ascii).

(** The bytes that follow the first byte [c] of a character in UTF-8. *)
Definition followers (c : ascii) : nat :=
  let n := nat_of_ascii c in
  if n <? 192 then 0 else if n <? 224 then 1 else if n <? 240 then 2 else 3.

(** The pattern as the matcher reads it; a backslash takes the next
    character literally, and a pattern that ends in a lone backslash is
    an error.  A literal character is the literals of its bytes; [_]
    stands for one whole character of the text. *)
Fixpoint tokens (p : string) : option (list token) :=
  match p with
  | EmptyString => Some []
  | String c p' =>
      if Ascii.eqb c "%" || Ascii.eqb c "*" then
        ts <-? tokens p'; Some (AnySequence :: ts)
      else if Ascii.eqb c "_" then ts <-? tokens p'; Some (AnyOne :: ts)
      else if Ascii.eqb c "\" then
        match p' with
        | String e p'' => ts <-? tokens p''; Some (Literal e :: ts)
        | EmptyString => None
        end
      else ts <-? tokens p'; Some (Literal c :: ts)
  end.

Fixpoint matches (ts : list token) (s : string) {struct ts} : bool :=
  match ts with
  | [] => isEmpty s
  | AnySequence :: ts' =>
      (fix from (s : string) : bool :=
         matches ts' s
         || match s with
            | String _ s' => from s'
            | EmptyString => false
            end) s
  | AnyOne :: ts' =>
      match s with
      | String a s' => matches ts' (drop (followers a) s')
      | EmptyString => false
      end
  | Literal c :: ts' =>
      match s with
      | String a s' =>
          Ascii.eqb (toLowerChar a) (toLowerChar c) && matches ts' s'
      | EmptyString => false
      end
  end.

(** [text ILIKE pattern]; [None] is the error of a malformed pattern. *)
Definition ilike (text pattern : string) : option bool :=
  ts <-? tokens pattern; Some (matches ts text).

End Postgres.

(* ================================================================== *)
(** * The note-merge helpers shared by both storage services *)

Module Merge.
Import JS Types.

(** The bullet glyph of the list-item fragment, as the bytes the source
    file holds between [<div>] and the space. *)
Definition bullet : string :=
  String (ascii_of_nat 195) (String (ascii_of_nat 162)
  (String (ascii_of_nat 226) (String (ascii_of_nat 130)
  (String (ascii_of_nat 172) (String (ascii_of_nat 194)
  (String (ascii_of_nat 162) EmptyString)))))).

(** [escapeHtml(text)] *)
Definition escapeHtml (text : string) : string :=
  replaceChar ">" "&gt;" (replaceChar "<" "&lt;" (replaceChar "&" "&amp;" text)).

(** [a || b] on strings. *)
Definition orElse (a b : string) : string := if truthy a then a else b.

(** [note.title || note.content || ''], an absent title being
    [undefined]. *)
Definition mergeSource (note : ParsedNote) : string :=
  let title := match pn_title note with Some t => t | None => EmptyString end in
  orElse (orElse title (pn_content note)) EmptyString.

(** [extractMergeInfo(note)]: the pair [(bucketTitle, entry)], or [None]
    for [null]. *)
Definition extractMergeInfo (note : ParsedNote) : option (string * string) :=
  let source := trim (mergeSource note) in
  match BucketRegex.exec source with
  | None => None
  | Some (g1, g2) =>
      let bucketTitle := trim g1 in
      let entry := trim g2 in
      if isEmpty bucketTitle || isEmpty entry then None
      else Some (bucketTitle, entry)
  end.

(** [`<div>(bullet) ${escapedEntry}</div>`] *)
Definition entryMarkup (entry : string) : string :=
  "<div>" ++ bullet ++ " " ++ escapeHtml entry ++ "</div>".

(** The content of the bucket note after the append (the conditional
    expression bound to [newContent]). *)
Definition newContent (baseContent markup : string) : string :=
  if truthy (trim baseContent) then
    baseContent
    ++ (if endsWith (trim baseContent) "<br />" then "" else "<br />")
    ++ markup
  else markup.

(** [noteData.title || noteData.content.substring(0, 50)] *)
Definition titleOrExcerpt (title : option string) (content : string) : string :=
  orElse (match title with Some t => t | None => EmptyString end)
         (substring0 50 content).

(** [x || null] on an optional string. *)
Definition orNull (x : option string) : option string :=
  match x with
  | Some s => if truthy s then Some s else None
  | None => None
  end.

End Merge.

(* ================================================================== *)
(** * src/lib/supabase-storage.ts *)

Module Supabase.
Import JS Types DateTime Merge.

(** The rows of the four tables.  Timestamps are kept as time values. *)
Record TaskRow : Type := {
  t_id : nat;
  t_user_id : string;
  t_title : string;
  t_description : option string;
  t_due_date : option Z;
  t_priority : string;
  t_is_completed : bool;
  t_is_recurring : bool;
  t_recurrence_rule : option string;
  t_completed_at : option Z;
  t_photo_url : option string;
  t_created_at : Z;
  t_updated_at : Z
}.

Record EventRow : Type := {
  e_id : nat;
  e_user_id : string;
  e_title : string;
  e_description : option string;
  e_start_time : Z;
  e_end_time : Z;
  e_location : option string;
  e_is_recurring : bool;
  e_recurrence_rule : option string;
  e_google_event_id : option string;
  e_color : string;
  e_created_at : Z;
  e_updated_at : Z
}.

Record NoteRow : Type := {
  n_id : nat;
  n_user_id : string;
  n_title : string;
  n_content : string;
  n_tags : list string;
  n_is_pinned : bool;
  n_photo_url : option string;
  n_created_at : Z;
  n_updated_at : Z
}.

Record TransactionRow : Type := {
  x_id : nat;
  x_user_id : string;
  x_amount : number;
  x_type : TransactionType;
  x_category : string;
  x_description : option string;
  x_date : Z;
  x_notes : option string;
  x_photo_url : option string;
  x_created_at : Z;
  x_updated_at : Z
}.

Record Database : Type := {
  tasks : list TaskRow;
  events : list EventRow;
  notes : list NoteRow;
  transactions : list TransactionRow
}.

(** The remote store and the source of fresh identifiers
    ([crypto.randomUUID()], the [n]-th identifier being [n]). *)
Record World : Type := {
  db : Database;
  uuids : nat
}.

Definition emptyDb : Database :=
  {| tasks := []; events := []; notes := []; transactions := [] |}.

Definition setDb (d : Database) (w : World) : World :=
  {| db := d; uuids := uuids w |}.

Definition generateId : M World nat :=
  fun w => (Ok (uuids w), {| db := db w; uuids := S (uuids w) |}).

(** [getUserId()] *)
Definition getUserId (env : Env) : M World string :=
  match auth_user env with
  | Some u => ret u
  | None => throw "User not authenticated"
  end.

(** Every query first reaches the database; [if (error) throw error]. *)
Definition query (env : Env) : M World unit :=
  match db_error env with
  | Some e => throw e
  | None => ret tt
  end.

(** ** The mapping functions *)

Definition mapTaskFromDB (r : TaskRow) : Task :=
  {| task_id := t_id r; task_userId := Some (t_user_id r);
     task_title := t_title r; task_description := t_description r;
     task_dueDate := option_map (fun t => Some t) (t_due_date r);
     task_priority := t_priority r; task_isCompleted := t_is_completed r;
     task_isRecurring := t_is_recurring r;
     task_recurrenceRule := t_recurrence_rule r;
     task_photoUrl := t_photo_url r;
     task_createdAt := Some (t_created_at r);
     task_completedAt := option_map (fun t => Some t) (t_completed_at r);
     task_updatedAt := Some (t_updated_at r) |}.

Definition mapEventFromDB (r : EventRow) : Event :=
  {| event_id := e_id r; event_userId := Some (e_user_id r);
     event_title := e_title r; event_description := e_description r;
     event_startTime := Some (e_start_time r);
     event_endTime := Some (e_end_time r);
     event_location := e_location r; event_isRecurring := e_is_recurring r;
     event_recurrenceRule := e_recurrence_rule r;
     event_googleEventId := e_google_event_id r; event_color := e_color r;
     event_createdAt := Some (e_created_at r);
     event_updatedAt := Some (e_updated_at r) |}.

Definition mapNoteFromDB (r : NoteRow) : Note :=
  {| note_id := n_id r; note_userId := Some (n_user_id r);
     note_title := n_title r; note_content := n_content r;
     note_tags := n_tags r; note_isPinned := n_is_pinned r;
     note_photoUrl := n_photo_url r;
     note_createdAt := Some (n_created_at r);
     note_updatedAt := Some (n_updated_at r) |}.

Definition mapTransactionFromDB (r : TransactionRow) : Transaction :=
  {| transaction_id := x_id r; transaction_userId := Some (x_user_id r);
     transaction_amount := x_amount r; transaction_type := x_type r;
     transaction_category := x_category r;
     transaction_description := x_description r;
     transaction_date := Some (x_date r); transaction_notes := x_notes r;
     transaction_photoUrl := x_photo_url r;
     transaction_createdAt := Some (x_created_at r);
     transaction_updatedAt := Some (x_updated_at r) |}.

(** [d?.toISOString() || null] on an optional date. *)
Definition isoOrNull (d : option Date) : result (option Z) :=
  match d with
  | None => Ok None
  | Some d' => try t <- toISOString d'; Ok (Some t)
  end.

Definition orFalse (b : option bool) : bool :=
  match b with Some x => x | None => false end.

(** ** tasks *)

Definition tasks_create (env : Env) (taskData : ParsedTask) : M World Task :=
  userId <~ getUserId env ;;
  id <~ generateId ;;
  due_date <~ lift (isoOrNull (pt_dueDate taskData)) ;;
  let task :=
    {| t_id := id; t_user_id := userId; t_title := pt_title taskData;
       t_description := orNull (pt_description taskData);
       t_due_date := due_date;
       t_priority := orElse (match pt_priority taskData with
                             | Some p => p | None => EmptyString end) "medium";
       t_is_completed := false;
       t_is_recurring := orFalse (pt_isRecurring taskData);
       t_recurrence_rule := orNull (pt_recurrenceRule taskData);
       t_completed_at := None;
       t_photo_url := orNull (pt_photoUrl taskData);
       t_created_at := now env; t_updated_at := now env |} in
  query env ;;;
  modify (fun w =>
    setDb {| tasks := tasks (db w) ++ [task]; events := events (db w);
             notes := notes (db w); transactions := transactions (db w) |} w) ;;;
  ret (mapTaskFromDB task).

(** ** events *)

Definition events_create (env : Env) (eventData : ParsedEvent) : M World Event :=
  userId <~ getUserId env ;;
  id <~ generateId ;;
  start_time <~ lift (toISOString (pe_startTime eventData)) ;;
  end_time <~ lift (toISOString (pe_endTime eventData)) ;;
  let event :=
    {| e_id := id; e_user_id := userId; e_title := pe_title eventData;
       e_description := orNull (pe_description eventData);
       e_start_time := start_time; e_end_time := end_time;
       e_location := orNull (pe_location eventData);
       e_is_recurring := orFalse (pe_isRecurring eventData);
       e_recurrence_rule := orNull (pe_recurrenceRule eventData);
       e_google_event_id := None; e_color := "#cba6f7";
       e_created_at := now env; e_updated_at := now env |} in
  query env ;;;
  modify (fun w =>
    setDb {| tasks := tasks (db w); events := events (db w) ++ [event];
             notes := notes (db w); transactions := transactions (db w) |} w) ;;;
  ret (mapEventFromDB event).

Definition pick {A} (u : option A) (old : A) : A :=
  match u with Some x => x | None => old end.

(** The columns [dbUpdates] names, applied to one row; the update
    timestamp is refreshed by the database. *)
Definition applyEventUpdate (env : Env) (u : PartialEvent)
    (start_time end_time : option Z) (r : EventRow) : EventRow :=
  {| e_id := e_id r; e_user_id := e_user_id r;
     e_title := pick (upd_title u) (e_title r);
     e_description := pick (option_map Some (upd_description u)) (e_description r);
     e_start_time := pick start_time (e_start_time r);
     e_end_time := pick end_time (e_end_time r);
     e_location := pick (option_map Some (upd_location u)) (e_location r);
     e_is_recurring := pick (upd_isRecurring u) (e_is_recurring r);
     e_recurrence_rule :=
       pick (option_map Some (upd_recurrenceRule u)) (e_recurrence_rule r);
     e_google_event_id :=
       pick (option_map Some (upd_googleEventId u)) (e_google_event_id r);
     e_color := pick (upd_color u) (e_color r);
     e_created_at := e_created_at r; e_updated_at := now env |}.

(** [.single()]: exactly one row, or the error PGRST116. *)
Definition single {A} (rows : list A) : result A :=
  match rows with
  | [r] => Ok r
  | _ => Throw "PGRST116"
  end.

Definition isSome {A} (o : option A) : bool :=
  match o with Some _ => true | None => false end.

(** [dbUpdates] has a column. *)
Definition eventColumns (u : PartialEvent) : bool :=
  isSome (upd_title u) || isSome (upd_description u)
  || isSome (upd_startTime u) || isSome (upd_endTime u)
  || isSome (upd_location u) || isSome (upd_isRecurring u)
  || isSome (upd_recurrenceRule u) || isSome (upd_googleEventId u)
  || isSome (upd_color u).

(** [update(dbUpdates).eq('id', id).select()]: the rows the update gives
    back.  A patch without a column updates and returns no row. *)
Definition returned {A} (columns : bool) (upd : A -> A) (hit : A -> bool)
    (rows : list A) : list A :=
  if columns then map upd (filter hit rows) else [].

Definition events_update (env : Env) (id : nat) (updates : PartialEvent)
  : M World Event :=
  start_time <~ lift (isoOrNull (upd_startTime updates)) ;;
  end_time <~ lift (isoOrNull (upd_endTime updates)) ;;
  query env ;;;
  rows <~ gets (fun w => events (db w)) ;;
  let upd := applyEventUpdate env updates start_time end_time in
  updated <~ lift (single (returned (eventColumns updates) upd
                             (fun r => e_id r =? id) rows)) ;;
  modify (fun w =>
    setDb {| tasks := tasks (db w);
             events := map (fun r => if e_id r =? id then upd r else r) rows;
             notes := notes (db w); transactions := transactions (db w) |} w) ;;;
  ret (mapEventFromDB updated).

(** ** notes *)

Definition insertNote (env : Env) (userId : string) (noteData : ParsedNote)
  : M World Note :=
  id <~ generateId ;;
  let note :=
    {| n_id := id; n_user_id := userId;
       n_title := titleOrExcerpt (pn_title noteData) (pn_content noteData);
       n_content := pn_content noteData;
       n_tags := match pn_tags noteData with Some ts => ts | None => [] end;
       n_is_pinned := false;
       n_photo_url := orNull (pn_photoUrl noteData);
       n_created_at := now env; n_updated_at := now env |} in
  query env ;;;
  modify (fun w =>
    setDb {| tasks := tasks (db w); events := events (db w);
             notes := notes (db w) ++ [note];
             transactions := transactions (db w) |} w) ;;;
  ret (mapNoteFromDB note).

(** [select('*').eq('user_id', userId).ilike('title', pattern)]: the rows
    in table order, or the error of the pattern on a row that is tested. *)
Fixpoint selectByTitle (userId pattern : string) (rows : list NoteRow)
  : result (list NoteRow) :=
  match rows with
  | [] => Ok []
  | r :: rest =>
      if String.eqb (n_user_id r) userId then
        match Postgres.ilike (n_title r) pattern with
        | None => Throw "LIKE pattern must not end with escape character"
        | Some hit =>
            try found <- selectByTitle userId pattern rest;
            Ok (if hit then r :: found else found)
        end
      else selectByTitle userId pattern rest
  end.

(** [update({ content })]: the one column the append writes; the update
    timestamp is refreshed by the database. *)
Definition withContent (env : Env) (content : string) (r : NoteRow) : NoteRow :=
  {| n_id := n_id r; n_user_id := n_user_id r; n_title := n_title r;
     n_content := content; n_tags := n_tags r; n_is_pinned := n_is_pinned r;
     n_photo_url := n_photo_url r; n_created_at := n_created_at r;
     n_updated_at := now env |}.

Definition updateContent (env : Env) (id : nat) (content : string)
  : M World Note :=
  query env ;;;
  rows <~ gets (fun w => notes (db w)) ;;
  let upd := withContent env content in
  updated <~ lift (single (map upd (filter (fun r => n_id r =? id) rows))) ;;
  modify (fun w =>
    setDb {| tasks := tasks (db w); events := events (db w);
             notes := map (fun r => if n_id r =? id then upd r else r) rows;
             transactions := transactions (db w) |} w) ;;;
  ret (mapNoteFromDB updated).

Definition notes_create (env : Env) (noteData : ParsedNote) : M World Note :=
  userId <~ getUserId env ;;
  match extractMergeInfo noteData with
  | Some (bucketTitle, entry) =>
      query env ;;;
      rows <~ gets (fun w => notes (db w)) ;;
      found <~ lift (selectByTitle userId bucketTitle rows) ;;
      let existingNotes := firstn 1 found in
      let markup := entryMarkup entry in
      match existingNotes with
      | existingNote :: _ =>
          let baseContent := n_content existingNote in
          updateContent env (n_id existingNote) (newContent baseContent markup)
      | [] =>
          insertNote env userId
            {| pn_title := Some bucketTitle; pn_content := markup;
               pn_tags := pn_tags noteData; pn_photoUrl := pn_photoUrl noteData |}
      end
  | None => insertNote env userId noteData
  end.

(** ** transactions *)

(** The date a transaction is stored with (the block that computes
    [transactionDate]). *)
Definition transactionDate (env : Env) (date : option Date) : Date :=
  match date with
  | None => Some (now env)
  | Some d =>
      let parsedDate : Date := d in
      let hasTime :=
        notZero (getUTCHours parsedDate)
        || notZero (getUTCMinutes parsedDate)
        || notZero (getUTCSeconds parsedDate) in
      if hasTime then parsedDate
      else
        let now_ : Date := Some (now env) in
        newDateFields (tz env)
          (getFullYear (tz env) parsedDate)
          (getMonth (tz env) parsedDate)
          (getDate (tz env) parsedDate)
          (getHours (tz env) now_)
          (getMinutes (tz env) now_)
          (getSeconds (tz env) now_)
  end.

Definition transactions_create (env : Env) (transactionData : ParsedTransaction)
  : M World Transaction :=
  userId <~ getUserId env ;;
  let date := transactionDate env (px_date transactionData) in
  id <~ generateId ;;
  iso <~ lift (toISOString date) ;;
  let transaction :=
    {| x_id := id; x_user_id := userId;
       x_amount := px_amount transactionData;
       x_type := px_type transactionData;
       x_category := px_category transactionData;
       x_description := orNull (px_description transactionData);
       x_date := iso; x_notes := None;
       x_photo_url := orNull (px_photoUrl transactionData);
       x_created_at := now env; x_updated_at := now env |} in
  query env ;;;
  modify (fun w =>
    setDb {| tasks := tasks (db w); events := events (db w);
             notes := notes (db w);
             transactions := transactions (db w) ++ [transaction] |} w) ;;;
  ret (mapTransactionFromDB transaction).

End Supabase.

(* ================================================================== *)
(** * src/lib/storage.ts: LocalStorageService (IndexedDB) *)

Module Local.
Import JS Types DateTime Merge.

Record World : Type := {
  notes : list Note;
  uuids : nat
}.

Definition defaultUserId : string := "local-user".

Definition generateId : M World nat :=
  fun w => (Ok (uuids w), {| notes := notes w; uuids := S (uuids w) |}).

(** [(n) => n.title?.trim().toLowerCase() === bucketTitle.toLowerCase()] *)
Definition sameBucket (bucketTitle : string) (n : Note) : bool :=
  String.eqb (toLowerCase (trim (note_title n))) (toLowerCase bucketTitle).

(** [db.notes.update(id, { content, updatedAt })] *)
Definition withContent (env : Env) (content : string) (n : Note) : Note :=
  {| note_id := note_id n; note_userId := note_userId n;
     note_title := note_title n; note_content := content;
     note_tags := note_tags n; note_isPinned := note_isPinned n;
     note_photoUrl := note_photoUrl n; note_createdAt := note_createdAt n;
     note_updatedAt := Some (now env) |}.

Definition notes_create (env : Env) (data : ParsedNote) : M World Note :=
  let create (data : ParsedNote) : M World Note :=
    id <~ generateId ;;
    let note :=
      {| note_id := id; note_userId := Some defaultUserId;
         note_title := titleOrExcerpt (pn_title data) (pn_content data);
         note_content := pn_content data;
         note_tags := match pn_tags data with Some ts => ts | None => [] end;
         note_isPinned := false;
         note_photoUrl := orNull (pn_photoUrl data);
         note_createdAt := Some (now env);
         note_updatedAt := Some (now env) |} in
    modify (fun w => {| notes := notes w ++ [note]; uuids := uuids w |}) ;;;
    ret note in
  match extractMergeInfo data with
  | Some (bucketTitle, entry) =>
      existingNotes <~ gets notes ;;
      let markup := entryMarkup entry in
      match find (sameBucket bucketTitle) existingNotes with
      | Some existing =>
          let baseContent := note_content existing in
          let content := newContent baseContent markup in
          modify (fun w =>
            {| notes := map (fun n => if note_id n =? note_id existing
                                      then withContent env content n else n)
                            (notes w);
               uuids := uuids w |}) ;;;
          updated <~ gets (fun w =>
            find (fun n => note_id n =? note_id existing) (notes w)) ;;
          match updated with
          | Some n => ret n
          | None => throw "Note not found after merge"
          end
      | None =>
          create {| pn_title := Some bucketTitle; pn_content := markup;
                    pn_tags := pn_tags data; pn_photoUrl := pn_photoUrl data |}
      end
  | None => create data
  end.

End Local.

(* ================================================================== *)
(** * src/lib/google-calendar.ts *)

Module GoogleCalendar.
Import JS Types DateTime Merge.

(** [getGoogleAccessToken()]: [null] without a token in the session. *)
Definition getGoogleAccessToken (env : Env) : option string :=
  orNull (provider_token env).

(** [googleCalendarRequest(method, endpoint, body)]; the result is the
    [id] of the JSON answer. *)
Definition googleCalendarRequest (env : Env) (method endpoint : string)
  : result (option string) :=
  match getGoogleAccessToken env with
  | None => Throw "Not authenticated with Google"
  | Some accessToken =>
      match calendar env with
      | NetworkError e => Throw e
      | HttpError message => Throw ("Google Calendar API error: " ++ message)
      | HttpOk id => Ok id
      end
  end.

(** [pushToGoogleCalendar(event)]: the [catch] logs and throws again. *)
Definition pushToGoogleCalendar (env : Env) (event : Event)
  : result (option string) :=
  let body :=
    try start_ <- toISOString (event_startTime event);
    try end_ <- toISOString (event_endTime event);
    match orNull (event_googleEventId event) with
    | Some googleEventId =>
        googleCalendarRequest env "PUT"
          ("/calendars/primary/events/" ++ googleEventId)
    | None => googleCalendarRequest env "POST" "/calendars/primary/events"
    end in
  match body with
  | Ok id => Ok id
  | Throw error => Throw error
  end.

End GoogleCalendar.

(* ================================================================== *)
(** * src/lib/file-storage.ts *)

Module FileStorage.

(** [uploadCapturePhoto(file, category)].  A fresh identifier is drawn
    for the object key [category/uuid.ext]; the key only names the stored
    object, and what the caller sees is the public URL or the
    exception. *)
Definition uploadCapturePhoto (env : Env) (file : File) (category : string)
  : M Supabase.World string :=
  uuid <~ Supabase.generateId ;;          (* [crypto.randomUUID()] *)
  match upload_error env with
  | Some error => throw error
  | None =>
      match Merge.orNull (public_url env) with
      | Some url => ret url
      | None => throw "Failed to get public URL for uploaded photo"
      end
  end.

End FileStorage.

(* ================================================================== *)
(** * src/components/CaptureBox.tsx *)

Module CaptureBox.
Import JS Json Types DateTime Merge.

Inductive NoticeType : Type := error | info.

(** The state of the component that the capture flow reads and writes. *)
Record Component : Type := {
  input : string;
  loading : bool;
  success : bool;
  parsed : option ParsedCapture;
  photoFile : option File;
  photoUploading : bool;
  notice : option (NoticeType * string);
  (** How many times [onSuccess] has been called. *)
  saved : nat
}.

Record State : Type := {
  ui : Component;
  world : Supabase.World
}.

Definition onUi (f : Component -> Component) : M State unit :=
  modify (fun st => {| ui := f (ui st); world := world st |}).

(** Runs a call of the storage service on the remote store. *)
Definition storage {A} (c : M Supabase.World A) : M State A :=
  fun st =>
    let '(r, w) := c (world st) in (r, {| ui := ui st; world := w |}).

Definition setInput (v : string) : M State unit :=
  onUi (fun c => {| input := v; loading := loading c; success := success c;
                    parsed := parsed c; photoFile := photoFile c;
                    photoUploading := photoUploading c; notice := notice c;
                    saved := saved c |}).

Definition setLoading (v : bool) : M State unit :=
  onUi (fun c => {| input := input c; loading := v; success := success c;
                    parsed := parsed c; photoFile := photoFile c;
                    photoUploading := photoUploading c; notice := notice c;
                    saved := saved c |}).

Definition setSuccess (v : bool) : M State unit :=
  onUi (fun c => {| input := input c; loading := loading c; success := v;
                    parsed := parsed c; photoFile := photoFile c;
                    photoUploading := photoUploading c; notice := notice c;
                    saved := saved c |}).

Definition setParsed (v : option ParsedCapture) : M State unit :=
  onUi (fun c => {| input := input c; loading := loading c;
                    success := success c; parsed := v;
                    photoFile := photoFile c;
                    photoUploading := photoUploading c; notice := notice c;
                    saved := saved c |}).

Definition setPhotoUploading (v : bool) : M State unit :=
  onUi (fun c => {| input := input c; loading := loading c;
                    success := success c; parsed := parsed c;
                    photoFile := photoFile c; photoUploading := v;
                    notice := notice c; saved := saved c |}).

Definition showNotice (text : string) (type : NoticeType) : M State unit :=
  onUi (fun c => {| input := input c; loading := loading c;
                    success := success c; parsed := parsed c;
                    photoFile := photoFile c;
                    photoUploading := photoUploading c;
                    notice := Some (type, text); saved := saved c |}).

Definition clearPhotoSelection : M State unit :=
  onUi (fun c => {| input := input c; loading := loading c;
                    success := success c; parsed := parsed c;
                    photoFile := None; photoUploading := false;
                    notice := notice c; saved := saved c |}).

Definition onSuccess : M State unit :=
  onUi (fun c => {| input := input c; loading := loading c;
                    success := success c; parsed := parsed c;
                    photoFile := photoFile c;
                    photoUploading := photoUploading c; notice := notice c;
                    saved := S (saved c) |}).

Definition uploadFailedNotice : string :=
  "Failed to upload photo. The entry was saved without the image.".
Definition unsupportedNotice : string :=
  "Photos are currently only supported for tasks, notes, and finance entries.".

(** [['task', 'note', 'expense', 'income'].includes(captureData.type)] *)
Definition supportsPhoto (c : ParsedCapture) : bool :=
  let t := captureType c in
  strictEqString t "task" || strictEqString t "note"
  || strictEqString t "expense" || strictEqString t "income".

Definition categoryOf (c : ParsedCapture) : string :=
  match captureType c with VString s => s | _ => EmptyString end.

(** The photo step of [handleConfirm]: the URL of the uploaded photo, or
    [None] for [null]. *)
Definition uploadStep (env : Env) (captureData : ParsedCapture)
  : M State (option string) :=
  file <~ gets (fun st => photoFile (ui st)) ;;
  match file with
  | Some photo =>
      if supportsPhoto captureData then
        setPhotoUploading true ;;;
        finally
          (catch
             (url <~ storage (FileStorage.uploadCapturePhoto env photo
                                (categoryOf captureData)) ;;
              ret (Some url))
             (fun _ => showNotice uploadFailedNotice error ;;; ret None))
          (setPhotoUploading false)
      else showNotice unsupportedNotice info ;;; ret None
  | None => ret None
  end.

(** The [switch] of [handleConfirm]. *)
Definition persist (env : Env) (captureData : ParsedCapture)
    (photoUrl : option string) : M State unit :=
  match captureData with
  | CaptureTask data =>
      storage (Supabase.tasks_create env
        {| pt_title := pt_title data; pt_description := pt_description data;
           pt_dueDate := pt_dueDate data; pt_priority := pt_priority data;
           pt_isRecurring := pt_isRecurring data;
           pt_recurrenceRule := pt_recurrenceRule data;
           pt_photoUrl := orNull photoUrl |}) ;;;
      ret tt
  | CaptureEvent data =>
      createdEvent <~ storage (Supabase.events_create env data) ;;
      catch
        (googleEventId <~ lift (GoogleCalendar.pushToGoogleCalendar env createdEvent) ;;
         match orNull googleEventId with
         | Some gid =>
             storage (Supabase.events_update env (event_id createdEvent)
               {| upd_title := None; upd_description := None;
                  upd_startTime := None; upd_endTime := None;
                  upd_location := None; upd_isRecurring := None;
                  upd_recurrenceRule := None; upd_googleEventId := Some gid;
                  upd_color := None |}) ;;;
             ret tt
         | None => ret tt
         end)
        (fun _ => ret tt)
  | CaptureExpense data =>
      storage (Supabase.transactions_create env
        {| px_amount := px_amount data; px_type := expense;
           px_category := px_category data;
           px_description := px_description data; px_date := px_date data;
           px_photoUrl := orNull photoUrl |}) ;;;
      ret tt
  | CaptureIncome data =>
      storage (Supabase.transactions_create env
        {| px_amount := px_amount data; px_type := income;
           px_category := px_category data;
           px_description := px_description data; px_date := px_date data;
           px_photoUrl := orNull photoUrl |}) ;;;
      ret tt
  | CaptureNote data =>
      storage (Supabase.notes_create env
        {| pn_title := pn_title data; pn_content := pn_content data;
           pn_tags := pn_tags data; pn_photoUrl := orNull photoUrl |}) ;;;
      ret tt
  | CaptureOther _ _ => ret tt
  end.

(** [handleConfirm(captureData)]: the outer [catch] logs and throws
    again. *)
Definition handleConfirm (env : Env) (captureData : ParsedCapture)
  : M State unit :=
  catch
    (photoUrl <~ uploadStep env captureData ;;
     persist env captureData photoUrl ;;;
     setInput EmptyString ;;;
     setParsed None ;;;
     clearPhotoSelection ;;;
     onSuccess)
    (fun error => throw error).

(** [handleSubmit()], given what [parseCapture(input)] resolves to.  The
    timer that clears [success] after 2.5 s is left out. *)
Definition handleSubmit (env : Env) (classified : result ParsedCapture)
  : State -> State :=
  fun st =>
    if isEmpty (trim (input (ui st))) || loading (ui st) then st
    else
      snd ((setLoading true ;;;
            setSuccess false ;;;
            finally
              (catch
                 (result <~ lift classified ;;
                  setParsed (Some result) ;;;
                  handleConfirm env result ;;;
                  setSuccess true)
                 (fun _ => ret tt))
              (setLoading false)) st).

(** The answer of the model read at the declared type; [None] when it is
    a value the declared type does not describe. *)
Definition classify (env : Env) : option (result ParsedCapture) :=
  match Gemini.parseCapture (tz env) (date_heuristic env)
          (model_response env) with
  | Throw e => Some (Throw e)
  | Ok v => option_map Ok (asParsedCapture v)
  end.

(** One capture, from the text in the box to the store. *)
Definition capture (env : Env) (st : State) : option State :=
  option_map (fun c => handleSubmit env c st) (classify env).

End CaptureBox.

(* ================================================================== *)
(** * Concrete inputs used by the examples below *)

Module Examples.
Import JS Json Types DateTime Merge.

(** A signed-in user, a healthy database, no Google token, and the object
    store refusing uploads; the clock reads 2024-03-01T10:00:00Z in a host
    on UTC. *)
Definition env0 : Env :=
  {| auth_user := Some "user-1"; db_error := None; provider_token := None;
     calendar := NetworkError "Failed to fetch";
     upload_error := Some "Bucket not found"; public_url := None;
     model_response := Throw "503";
     now := 1709287200000; tz := 0; date_heuristic := fun _ => None |}.

Definition withResponse (text : string) (env : Env) : Env :=
  {| auth_user := auth_user env; db_error := db_error env;
     provider_token := provider_token env; calendar := calendar env;
     upload_error := upload_error env; public_url := public_url env;
     model_response := Ok text; now := now env; tz := tz env;
     date_heuristic := date_heuristic env |}.

Definition emptyWorld : Supabase.World :=
  {| Supabase.db := Supabase.emptyDb; Supabase.uuids := 0 |}.

Definition box (text : string) (photo : option File) : CaptureBox.Component :=
  {| CaptureBox.input := text; CaptureBox.loading := false;
     CaptureBox.success := false; CaptureBox.parsed := None;
     CaptureBox.photoFile := photo; CaptureBox.photoUploading := false;
     CaptureBox.notice := None; CaptureBox.saved := 0 |}.

Definition start (text : string) (photo : option File) (w : Supabase.World)
  : CaptureBox.State :=
  {| CaptureBox.ui := box text photo; CaptureBox.world := w |}.

(** An answer of the model whose end precedes its start. *)
Definition invertedEvent : string :=
  quoted "{'type':'event','data':{'title':'Standup','startTime':'2024-03-01T15:00:00Z','endTime':'2024-03-01T14:00:00Z'}}".

(** An answer of the model, fenced, with a discriminant outside the five. *)
Definition reminderAnswer : string :=
  "```json" ++ String LF (quoted "{'type':'reminder','data':{'title':'Water the plants'}}")
  ++ String LF "```".


Definition standup : ParsedEvent :=
  {| pe_title := "Standup"; pe_description := None;
     pe_startTime := Some 1709305200000%Z; pe_endTime := Some 1709308800000%Z;
     pe_location := None; pe_isRecurring := None; pe_recurrenceRule := None |}.

(** The same event as the classifier hands it over, its end an hour
    before its start. *)
Definition inverted : ParsedEvent :=
  {| pe_title := "Standup"; pe_description := None;
     pe_startTime := Some 1709305200000%Z; pe_endTime := Some 1709301600000%Z;
     pe_location := None; pe_isRecurring := None; pe_recurrenceRule := None |}.

Definition receipt : File :=
  {| file_name := "receipt.jpg"; file_type := "image/jpeg";
     file_size := 9000000%Z |}.

Definition buyMilk : ParsedTask :=
  {| pt_title := "Buy milk"; pt_description := None; pt_dueDate := None;
     pt_priority := None; pt_isRecurring := None; pt_recurrenceRule := None;
     pt_photoUrl := None |}.

(** A store that holds one bucket note, "Groceries", with a photo. *)
Definition groceries : Supabase.NoteRow :=
  {| Supabase.n_id := 0; Supabase.n_user_id := "user-1";
     Supabase.n_title := "Groceries";
     Supabase.n_content := entryMarkup "milk";
     Supabase.n_tags := []; Supabase.n_is_pinned := false;
     Supabase.n_photo_url := Some "https://cdn.example/capture-media/note/1.jpg";
     Supabase.n_created_at := 1709200000000%Z;
     Supabase.n_updated_at := 1709200000000%Z |}.

Definition withNotes (rows : list Supabase.NoteRow) : Supabase.World :=
  {| Supabase.db :=
       {| Supabase.tasks := []; Supabase.events := [];
          Supabase.notes := rows; Supabase.transactions := [] |};
     Supabase.uuids := List.length rows |}.

Definition eggsAnswer : string :=
  quoted "{'type':'note','data':{'title':'Groceries: eggs','content':'eggs'}}".

(** The bucket note with nothing but a space in it. *)
Definition blankGroceries : Supabase.NoteRow :=
  {| Supabase.n_id := 0; Supabase.n_user_id := "user-1";
     Supabase.n_title := "Groceries"; Supabase.n_content := " ";
     Supabase.n_tags := []; Supabase.n_is_pinned := false;
     Supabase.n_photo_url := None;
     Supabase.n_created_at := 1709200000000%Z;
     Supabase.n_updated_at := 1709200000000%Z |}.

Definition eggs : ParsedNote :=
  {| pn_title := Some "Groceries: eggs"; pn_content := "eggs";
     pn_tags := None; pn_photoUrl := None |}.

(** A note without a title whose content reads as a bucket entry. *)
Definition untitled : ParsedNote :=
  {| pn_title := None; pn_content := "Groceries: milk";
     pn_tags := None; pn_photoUrl := None |}.

(** A note without a title and without a colon or a hyphen. *)
Definition idea : ParsedNote :=
  {| pn_title := None;
     pn_content :=
       "Plant the tomatoes next to the basil and water them every second evening";
     pn_tags := None; pn_photoUrl := None |}.

Definition localGroceries : Note :=
  {| note_id := 0; note_userId := Some "local-user";
     note_title := "Groceries"; note_content := entryMarkup "milk";
     note_tags := ["food"]; note_isPinned := true; note_photoUrl := None;
     note_createdAt := Some 1709200000000%Z;
     note_updatedAt := Some 1709200000000%Z |}.

(** A note titled "to do", and a capture for the bucket "to_do". *)
Definition toDo : Supabase.NoteRow :=
  {| Supabase.n_id := 0; Supabase.n_user_id := "user-1";
     Supabase.n_title := "to do"; Supabase.n_content := "call the bank";
     Supabase.n_tags := []; Supabase.n_is_pinned := false;
     Supabase.n_photo_url := None;
     Supabase.n_created_at := 1709200000000%Z;
     Supabase.n_updated_at := 1709200000000%Z |}.

Definition localToDo : Note :=
  {| note_id := 0; note_userId := Some "local-user";
     note_title := "to do"; note_content := "call the bank";
     note_tags := []; note_isPinned := false; note_photoUrl := None;
     note_createdAt := Some 1709200000000%Z;
     note_updatedAt := Some 1709200000000%Z |}.

Definition underscored : ParsedNote :=
  {| pn_title := Some "to_do: buy milk"; pn_content := "buy milk";
     pn_tags := None; pn_photoUrl := None |}.

(** A host five hours west of UTC at 2024-03-01T15:00:00Z, which is
    10:00 local time. *)
Definition newYork : Env :=
  {| auth_user := Some "user-1"; db_error := None; provider_token := None;
     calendar := NetworkError "Failed to fetch";
     upload_error := None; public_url := None;
     model_response := Throw "503";
     now := 1709305200000; tz := -18000000;
     date_heuristic := fun _ => None |}.

(** An expense dated 2024-03-01, the date-only form, which [Date] reads
    as midnight UTC. *)
Definition lunch : ParsedTransaction :=
  {| px_amount := (45, 0)%Z; px_type := expense;
     px_category := "Food & Dining"; px_description := Some "lunch";
     px_date := Some (DateTime.parse 0 (fun _ => None) "2024-03-01"); px_photoUrl := None |}.

End Examples.
(* ================================================================== *)
(** * Predicates used in the statements *)

Section Predicates.
Import JS Json Types.

(** [v.k] throws: [v] is [null] or [undefined]. *)
Definition unreadable (v : value) : bool :=
  match v with
  | VUndefined | VNull => true
  | _ => false
  end.







End Predicates.

Section Rows.
Import JS Types DateTime Merge Supabase.

(** The row [events.create] inserts for [data] with start [s] and end
    [e]. *)
Definition eventRow (env : Env) (userId : string) (id : nat)
    (data : ParsedEvent) (s e : Z) : EventRow :=
  {| e_id := id; e_user_id := userId; e_title := pe_title data;
     e_description := orNull (pe_description data);
     e_start_time := s; e_end_time := e;
     e_location := orNull (pe_location data);
     e_is_recurring := orFalse (pe_isRecurring data);
     e_recurrence_rule := orNull (pe_recurrenceRule data);
     e_google_event_id := None; e_color := "#cba6f7";
     e_created_at := now env; e_updated_at := now env |}.

Definition addEvent (row : EventRow) (w : World) : World :=
  {| db := {| tasks := tasks (db w); events := events (db w) ++ [row];
              notes := notes (db w); transactions := transactions (db w) |};
     uuids := S (uuids w) |}.

(** The calendar push cannot succeed: no access token, or a failed
    request. *)
Definition pushFails (env : Env) : Prop :=
  GoogleCalendar.getGoogleAccessToken env = None
  \/ (exists e, calendar env = NetworkError e)
  \/ (exists m, calendar env = HttpError m).

(** The box holds text to submit and no submission is under way. *)
Definition ready (st : CaptureBox.State) : Prop :=
  isEmpty (trim (CaptureBox.input (CaptureBox.ui st))) = false
  /\ CaptureBox.loading (CaptureBox.ui st) = false.

(** The same state with no photo selected. *)
Definition withoutPhoto (st : CaptureBox.State) : CaptureBox.State :=
  let c := CaptureBox.ui st in
  {| CaptureBox.ui :=
       {| CaptureBox.input := CaptureBox.input c;
          CaptureBox.loading := CaptureBox.loading c;
          CaptureBox.success := CaptureBox.success c;
          CaptureBox.parsed := CaptureBox.parsed c;
          CaptureBox.photoFile := None;
          CaptureBox.photoUploading := CaptureBox.photoUploading c;
          CaptureBox.notice := CaptureBox.notice c;
          CaptureBox.saved := CaptureBox.saved c |};
     CaptureBox.world := CaptureBox.world st |}.

(** The store after one identifier was drawn. *)
Definition drawn (w : World) : World :=
  {| db := db w; uuids := S (uuids w) |}.

(** The same state after one identifier was drawn. *)
Definition afterDraw (st : CaptureBox.State) : CaptureBox.State :=
  {| CaptureBox.ui := CaptureBox.ui st;
     CaptureBox.world := drawn (CaptureBox.world st) |}.

(** The store can take the capture: the date it holds can be written,
    and for a note the identifiers of the notes are distinct and the
    look-up of the bucket note gives an answer. *)
Definition storable (env : Env) (u : string) (c : ParsedCapture)
    (w : World) : Prop :=
  match c with
  | CaptureTask d => is_ok (isoOrNull (pt_dueDate d)) = true
  | CaptureExpense d | CaptureIncome d =>
      is_ok (toISOString (transactionDate env (px_date d))) = true
  | CaptureNote d =>
      NoDup (map n_id (notes (db w)))
      /\ match extractMergeInfo d with
         | Some (bucketTitle, _) =>
             is_ok (selectByTitle u bucketTitle (notes (db w))) = true
         | None => True
         end
  | _ => True
  end.

(** From [w] to [w'] the capture was recorded without a photo, under the
    identifier that follows the one drawn for the upload: a task or a
    transaction as a new row with no photo URL; a note as a new row with
    no photo URL (with the content, or as the first entry of its bucket),
    or as an entry appended to the content of the bucket note. *)
Definition recorded (env : Env) (u : string) (c : ParsedCapture)
    (w w' : World) : Prop :=
  let transaction (d : ParsedTransaction) (type : TransactionType) :=
    exists row,
      transactions (db w') = (transactions (db w) ++ [row])%list
      /\ x_id row = S (uuids w) /\ x_user_id row = u
      /\ x_amount row = px_amount d /\ x_type row = type
      /\ x_category row = px_category d /\ x_photo_url row = None in
  match c with
  | CaptureTask d =>
      exists row,
        tasks (db w') = (tasks (db w) ++ [row])%list
        /\ t_id row = S (uuids w) /\ t_user_id row = u
        /\ t_title row = pt_title d /\ t_photo_url row = None
  | CaptureExpense d => transaction d expense
  | CaptureIncome d => transaction d income
  | CaptureNote d =>
      (exists row,
         notes (db w') = (notes (db w) ++ [row])%list
         /\ n_id row = S (uuids w) /\ n_user_id row = u
         /\ n_photo_url row = None
         /\ match extractMergeInfo d with
            | None => n_content row = pn_content d
            | Some (bucketTitle, entry) =>
                n_title row = bucketTitle /\ n_content row = entryMarkup entry
            end)
      \/ (exists bucketTitle entry l1 existing l2,
            extractMergeInfo d = Some (bucketTitle, entry)
            /\ notes (db w) = (l1 ++ existing :: l2)%list
            /\ notes (db w')
               = (l1 ++ withContent env
                          (newContent (n_content existing) (entryMarkup entry))
                          existing :: l2)%list)
  | _ => True
  end.

(** Between two stores, no photo was attached: the events are the same;
    every task and transaction is an old one or has no photo; every note
    has no photo or has the photo that the note of the same id had. *)
Definition noPhotoAdded (before after : Database) : Prop :=
  events after = events before
  /\ (forall r, In r (tasks after) ->
        In r (tasks before) \/ t_photo_url r = None)
  /\ (forall r, In r (transactions after) ->
        In r (transactions before) \/ x_photo_url r = None)
  /\ (forall r, In r (notes after) ->
        n_photo_url r = None
        \/ exists r0, In r0 (notes before)
             /\ n_id r0 = n_id r /\ n_photo_url r0 = n_photo_url r).

End Rows.

Section NotePredicates.
Import JS Types DateTime Merge Supabase.

(** The entity that stands for one character in escaped text. *)
Definition escapeChar (c : ascii) : string :=
  if Ascii.eqb c "&" then "&amp;"
  else if Ascii.eqb c "<" then "&lt;"
  else if Ascii.eqb c ">" then "&gt;"
  else String c EmptyString.

(** Text with every character escaped on its own. *)
Fixpoint escapeEach (s : string) : string :=
  match s with
  | EmptyString => EmptyString
  | String c s' => escapeChar c ++ escapeEach s'
  end.

(** The row [notes.create] inserts for [noteData]. *)
Definition noteRow (env : Env) (userId : string) (id : nat)
    (noteData : ParsedNote) : NoteRow :=
  {| n_id := id; n_user_id := userId;
     n_title := titleOrExcerpt (pn_title noteData) (pn_content noteData);
     n_content := pn_content noteData;
     n_tags := match pn_tags noteData with Some ts => ts | None => [] end;
     n_is_pinned := false;
     n_photo_url := orNull (pn_photoUrl noteData);
     n_created_at := now env; n_updated_at := now env |}.

Definition addNote (row : NoteRow) (w : World) : World :=
  {| db := {| tasks := tasks (db w); events := events (db w);
              notes := notes (db w) ++ [row];
              transactions := transactions (db w) |};
     uuids := S (uuids w) |}.

Definition setNotes (rows : list NoteRow) (w : World) : World :=
  {| db := {| tasks := tasks (db w); events := events (db w);
              notes := rows; transactions := transactions (db w) |};
     uuids := uuids w |}.

(** The identifiers of the notes are distinct and were all drawn from
    the source of identifiers: what a primary key filled from
    [generateId] guarantees. *)
Definition wellKeyed (w : World) : Prop :=
  NoDup (map n_id (notes (db w)))
  /\ forall r, In r (notes (db w)) -> n_id r < uuids w.

(** The title is left out: [undefined] or the empty string. *)
Definition titleOmitted (noteData : ParsedNote) : Prop :=
  pn_title noteData = None \/ pn_title noteData = Some EmptyString.

(** A character that [ILIKE] reads as itself. *)
Definition plainChar (c : ascii) : bool :=
  negb (Ascii.eqb c "%" || Ascii.eqb c "*" || Ascii.eqb c "_"
        || Ascii.eqb c "\").

Fixpoint plain (s : string) : bool :=
  match s with
  | EmptyString => true
  | String c s' => plainChar c && plain s'
  end.

End NotePredicates.

Section PatternPredicates.
Import JS BucketRegex.

(** A class of characters, each given by its bytes, reads unambiguously:
    no member is empty or begins another member. *)
Definition sound (class : list string) : bool :=
  forallb (fun w =>
    negb (isEmpty w)
    && forallb (fun v => implb (startsWith v w) (String.eqb w v)) class) class.

(** The byte occurs in the string. *)
Fixpoint occurs (c : ascii) (s : string) : bool :=
  match s with
  | EmptyString => false
  | String a s' => Ascii.eqb a c || occurs c s'
  end.

(** The byte is not a byte after the first of any character of the
    class: no character of the class can run over it. *)
Definition tailFree (c : ascii) (class : list string) : bool :=
  forallb (fun w =>
             match w with
             | String _ t => negb (occurs c t)
             | EmptyString => true
             end) class.

Fixpoint noSeparator (s : string) : bool :=
  match s with
  | EmptyString => true
  | String c s' => negb (isSeparator c) && noSeparator s'
  end.

(** What a match of [^(.+?)(?::|-)\s*(.+)$] is: the source is a first
    group, a colon or a hyphen, white space, and a second group; both
    groups are non-empty and hold no line terminator. *)
Definition Splits (source g1 g2 : string) : Prop :=
  exists sep ws,
    source = g1 ++ String sep (ws ++ g2)
    /\ isEmpty g1 = false /\ allDot g1 = true
    /\ isSeparator sep = true
    /\ allWhite ws = true
    /\ isEmpty g2 = false /\ allDot g2 = true.

(** [t] is [s] without the white space at its two ends: what is cut off
    is white space, and [t] neither begins with white space nor ends
    with any. *)
Definition Trimmed (s t : string) : Prop :=
  exists l r,
    s = l ++ t ++ r
    /\ allWhite l = true /\ allWhite r = true
    /\ whiteWidth t = 0
    /\ forall a b, t = a ++ b -> isEmpty b = false -> allWhite b = false.

End PatternPredicates.

(** ** Proof steps shared by the storage lemmas *)

(** Unfolds the plumbing of one call of the storage service. *)
Ltac run :=
  unfold Supabase.getUserId, Supabase.query, bind, Supabase.generateId, lift,
    modify, gets, ret, throw.

(** Closes a goal that names the outcome of a call and says which table
    changed. *)
Ltac outcome :=
  eexists _, _; cbn; split; [reflexivity |];
  repeat (split; [reflexivity |]);
  first [ reflexivity
        | left; reflexivity
        | right; eexists; split; reflexivity
        | right; reflexivity ].


Section ClockPredicates.
Import DateTime.

(** The local wall clock at [now], to the second, as a time within the
    day. *)
Definition wallClock (tz now : Z) : Z :=
  MakeTime (HourFromTime (LocalTime tz now)) (MinFromTime (LocalTime tz now))
    (SecFromTime (LocalTime tz now)) 0.

End ClockPredicates.

From Stdlib Require Import Sorting.Sorted Sorting.Permutation.

(* ================================================================== *)
(** * src/lib/supabase-storage.ts: reading, updating and deleting *)

Module SupabaseCrud.
Import JS Types DateTime Merge Supabase.

(** ** What the query builder does *)

(** [.order(column, { ascending })] on a timestamp column: the rows sorted
    by the column, rows with equal values in table order. *)
Fixpoint insertBy {A} (key : A -> Z) (ascending : bool) (x : A) (l : list A)
  : list A :=
  match l with
  | [] => [x]
  | y :: r =>
      if (if ascending then key x <=? key y else key y <=? key x)%Z
      then x :: l
      else y :: insertBy key ascending x r
  end.

Definition order {A} (key : A -> Z) (ascending : bool) (rows : list A)
  : list A :=
  fold_right (insertBy key ascending) [] rows.

(** [if (error) { if (error.code === 'PGRST116') return dflt; throw error }] *)
Definition notFoundAs {A} (dflt : A) (c : M World A) : M World A :=
  catch c (fun error =>
    if String.eqb error "PGRST116" then ret dflt else throw error).

(** [safeDeletePhoto(publicUrl)], given what [deleteCapturePhoto(publicUrl)]
    resolves to: the stored object is outside the database, and the
    exception is logged and dropped. *)
Definition safeDeletePhoto (deleteCapturePhoto : result unit)
    (publicUrl : option string) : M World unit :=
  match orNull publicUrl with
  | None => ret tt
  | Some _ => catch (lift deleteCapturePhoto) (fun _ => ret tt)
  end.

(** ** tasks *)

Definition tasks_getAll (env : Env) : M World (list Task) :=
  userId <~ getUserId env ;;
  query env ;;;
  rows <~ gets (fun w => tasks (db w)) ;;
  ret (map mapTaskFromDB
         (order t_created_at false
            (filter (fun r => String.eqb (t_user_id r) userId) rows))).

Definition tasks_getById (env : Env) (id : nat) : M World (option Task) :=
  notFoundAs None
    (query env ;;;
     rows <~ gets (fun w => tasks (db w)) ;;
     data <~ lift (single (filter (fun r => t_id r =? id) rows)) ;;
     ret (Some (mapTaskFromDB data))).

(** [Partial<Task>], the argument of [tasks.update]: [None] is a field
    left out ([undefined]); the photo can be set to [null]. *)
Record PartialTask : Type := {
  updt_title : option string;
  updt_description : option string;
  updt_dueDate : option Date;
  updt_priority : option string;
  updt_isCompleted : option bool;
  updt_isRecurring : option bool;
  updt_recurrenceRule : option string;
  updt_completedAt : option Date;
  updt_photoUrl : option (option string)
}.

Definition noTaskUpdate : PartialTask :=
  {| updt_title := None; updt_description := None; updt_dueDate := None;
     updt_priority := None; updt_isCompleted := None; updt_isRecurring := None;
     updt_recurrenceRule := None; updt_completedAt := None;
     updt_photoUrl := None |}.

(** [dbUpdates] has a column. *)
Definition taskColumns (u : PartialTask) : bool :=
  isSome (updt_title u) || isSome (updt_description u)
  || isSome (updt_dueDate u) || isSome (updt_priority u)
  || isSome (updt_isCompleted u) || isSome (updt_isRecurring u)
  || isSome (updt_recurrenceRule u) || isSome (updt_completedAt u)
  || isSome (updt_photoUrl u).

Definition applyTaskUpdate (env : Env) (u : PartialTask)
    (due_date completed_at : option Z) (r : TaskRow) : TaskRow :=
  {| t_id := t_id r; t_user_id := t_user_id r;
     t_title := pick (updt_title u) (t_title r);
     t_description := pick (option_map Some (updt_description u)) (t_description r);
     t_due_date := pick (option_map Some due_date) (t_due_date r);
     t_priority := pick (updt_priority u) (t_priority r);
     t_is_completed := pick (updt_isCompleted u) (t_is_completed r);
     t_is_recurring := pick (updt_isRecurring u) (t_is_recurring r);
     t_recurrence_rule :=
       pick (option_map Some (updt_recurrenceRule u)) (t_recurrence_rule r);
     t_completed_at := pick (option_map Some completed_at) (t_completed_at r);
     t_photo_url := pick (updt_photoUrl u) (t_photo_url r);
     t_created_at := t_created_at r; t_updated_at := now env |}.

Definition tasks_update (env : Env) (id : nat) (updates : PartialTask)
  : M World Task :=
  due_date <~ lift (isoOrNull (updt_dueDate updates)) ;;
  completed_at <~ lift (isoOrNull (updt_completedAt updates)) ;;
  query env ;;;
  rows <~ gets (fun w => tasks (db w)) ;;
  let upd := applyTaskUpdate env updates due_date completed_at in
  updated <~ lift (single (returned (taskColumns updates) upd
                             (fun r => t_id r =? id) rows)) ;;
  modify (fun w =>
    setDb {| tasks := map (fun r => if t_id r =? id then upd r else r) rows;
             events := events (db w); notes := notes (db w);
             transactions := transactions (db w) |} w) ;;;
  ret (mapTaskFromDB updated).

(** [getTaskPhoto(id)]: the [photo_url] column of the row, [None] for
    [null] when there is no such row. *)
Definition getTaskPhoto (env : Env) (id : nat)
  : M World (option (option string)) :=
  notFoundAs None
    (query env ;;;
     rows <~ gets (fun w => tasks (db w)) ;;
     data <~ lift (single (filter (fun r => t_id r =? id) rows)) ;;
     ret (Some (t_photo_url data))).

Definition tasks_delete (env : Env) (deleteCapturePhoto : result unit)
    (id : nat) : M World unit :=
  existing <~ getTaskPhoto env id ;;
  match existing with
  | Some photo_url => safeDeletePhoto deleteCapturePhoto photo_url
  | None => ret tt
  end ;;;
  query env ;;;
  modify (fun w =>
    setDb {| tasks := filter (fun r => negb (t_id r =? id)) (tasks (db w));
             events := events (db w); notes := notes (db w);
             transactions := transactions (db w) |} w).

(** ** events *)

Definition events_getAll (env : Env) : M World (list Event) :=
  userId <~ getUserId env ;;
  query env ;;;
  rows <~ gets (fun w => events (db w)) ;;
  ret (map mapEventFromDB
         (order e_start_time true
            (filter (fun r => String.eqb (e_user_id r) userId) rows))).

Definition events_getById (env : Env) (id : nat) : M World (option Event) :=
  notFoundAs None
    (query env ;;;
     rows <~ gets (fun w => events (db w)) ;;
     data <~ lift (single (filter (fun r => e_id r =? id) rows)) ;;
     ret (Some (mapEventFromDB data))).

Definition events_getByDateRange (env : Env) (start end_ : Date)
  : M World (list Event) :=
  userId <~ getUserId env ;;
  from <~ lift (toISOString start) ;;
  to <~ lift (toISOString end_) ;;
  query env ;;;
  rows <~ gets (fun w => events (db w)) ;;
  ret (map mapEventFromDB
         (order e_start_time true
            (filter (fun r => String.eqb (e_user_id r) userId
                              && (from <=? e_start_time r)%Z
                              && (e_start_time r <=? to)%Z) rows))).

Definition events_delete (env : Env) (id : nat) : M World unit :=
  query env ;;;
  modify (fun w =>
    setDb {| tasks := tasks (db w);
             events := filter (fun r => negb (e_id r =? id)) (events (db w));
             notes := notes (db w);
             transactions := transactions (db w) |} w).

(** ** notes *)

Definition notes_getAll (env : Env) : M World (list Note) :=
  userId <~ getUserId env ;;
  query env ;;;
  rows <~ gets (fun w => notes (db w)) ;;
  ret (map mapNoteFromDB
         (order n_updated_at false
            (filter (fun r => String.eqb (n_user_id r) userId) rows))).

Definition notes_getById (env : Env) (id : nat) : M World (option Note) :=
  notFoundAs None
    (query env ;;;
     rows <~ gets (fun w => notes (db w)) ;;
     data <~ lift (single (filter (fun r => n_id r =? id) rows)) ;;
     ret (Some (mapNoteFromDB data))).

(** [Partial<Note>], the argument of [notes.update]. *)
Record PartialNote : Type := {
  updn_title : option string;
  updn_content : option string;
  updn_tags : option (list string);
  updn_isPinned : option bool;
  updn_photoUrl : option (option string)
}.

Definition noNoteUpdate : PartialNote :=
  {| updn_title := None; updn_content := None; updn_tags := None;
     updn_isPinned := None; updn_photoUrl := None |}.

Definition noteColumns (u : PartialNote) : bool :=
  isSome (updn_title u) || isSome (updn_content u) || isSome (updn_tags u)
  || isSome (updn_isPinned u) || isSome (updn_photoUrl u).

Definition applyNoteUpdate (env : Env) (u : PartialNote) (r : NoteRow)
  : NoteRow :=
  {| n_id := n_id r; n_user_id := n_user_id r;
     n_title := pick (updn_title u) (n_title r);
     n_content := pick (updn_content u) (n_content r);
     n_tags := pick (updn_tags u) (n_tags r);
     n_is_pinned := pick (updn_isPinned u) (n_is_pinned r);
     n_photo_url := pick (updn_photoUrl u) (n_photo_url r);
     n_created_at := n_created_at r; n_updated_at := now env |}.

Definition notes_update (env : Env) (id : nat) (updates : PartialNote)
  : M World Note :=
  query env ;;;
  rows <~ gets (fun w => notes (db w)) ;;
  let upd := applyNoteUpdate env updates in
  updated <~ lift (single (returned (noteColumns updates) upd
                             (fun r => n_id r =? id) rows)) ;;
  modify (fun w =>
    setDb {| tasks := tasks (db w); events := events (db w);
             notes := map (fun r => if n_id r =? id then upd r else r) rows;
             transactions := transactions (db w) |} w) ;;;
  ret (mapNoteFromDB updated).

Definition getNotePhoto (env : Env) (id : nat)
  : M World (option (option string)) :=
  notFoundAs None
    (query env ;;;
     rows <~ gets (fun w => notes (db w)) ;;
     data <~ lift (single (filter (fun r => n_id r =? id) rows)) ;;
     ret (Some (n_photo_url data))).

Definition notes_delete (env : Env) (deleteCapturePhoto : result unit)
    (id : nat) : M World unit :=
  existing <~ getNotePhoto env id ;;
  match existing with
  | Some photo_url => safeDeletePhoto deleteCapturePhoto photo_url
  | None => ret tt
  end ;;;
  query env ;;;
  modify (fun w =>
    setDb {| tasks := tasks (db w); events := events (db w);
             notes := filter (fun r => negb (n_id r =? id)) (notes (db w));
             transactions := transactions (db w) |} w).

(** ** transactions *)

Definition transactions_getAll (env : Env) : M World (list Transaction) :=
  userId <~ getUserId env ;;
  query env ;;;
  rows <~ gets (fun w => transactions (db w)) ;;
  ret (map mapTransactionFromDB
         (order x_date false
            (filter (fun r => String.eqb (x_user_id r) userId) rows))).

Definition transactions_getById (env : Env) (id : nat)
  : M World (option Transaction) :=
  notFoundAs None
    (query env ;;;
     rows <~ gets (fun w => transactions (db w)) ;;
     data <~ lift (single (filter (fun r => x_id r =? id) rows)) ;;
     ret (Some (mapTransactionFromDB data))).

Definition transactions_getByDateRange (env : Env) (start end_ : Date)
  : M World (list Transaction) :=
  userId <~ getUserId env ;;
  from <~ lift (toISOString start) ;;
  to <~ lift (toISOString end_) ;;
  query env ;;;
  rows <~ gets (fun w => transactions (db w)) ;;
  ret (map mapTransactionFromDB
         (order x_date false
            (filter (fun r => String.eqb (x_user_id r) userId
                              && (from <=? x_date r)%Z
                              && (x_date r <=? to)%Z) rows))).

Definition getTransactionPhoto (env : Env) (id : nat)
  : M World (option (option string)) :=
  notFoundAs None
    (query env ;;;
     rows <~ gets (fun w => transactions (db w)) ;;
     data <~ lift (single (filter (fun r => x_id r =? id) rows)) ;;
     ret (Some (x_photo_url data))).

Definition transactions_delete (env : Env) (deleteCapturePhoto : result unit)
    (id : nat) : M World unit :=
  existing <~ getTransactionPhoto env id ;;
  match existing with
  | Some photo_url => safeDeletePhoto deleteCapturePhoto photo_url
  | None => ret tt
  end ;;;
  query env ;;;
  modify (fun w =>
    setDb {| tasks := tasks (db w); events := events (db w);
             notes := notes (db w);
             transactions :=
               filter (fun r => negb (x_id r =? id)) (transactions (db w)) |} w).

End SupabaseCrud.

(* ================================================================== *)
(** * src/lib/google-calendar.ts: the pull from the calendar, deletion *)

Module GoogleCalendarSync.
Import JS Types DateTime Merge Supabase SupabaseCrud GoogleCalendar.

(** One entry of [response.items].  [g_start] and [g_end] are
    [start?.dateTime] and [end?.dateTime]; the calendar gives every
    listed entry an [id]. *)
Record GcalEvent : Type := {
  g_id : string;
  g_summary : option string;
  g_description : option string;
  g_start : option string;
  g_end : option string;
  g_location : option string;
  g_recurrence : option (list string);
  g_updated : option string
}.

(** What the listing request gives: the [items] of the JSON answer. *)
Inductive Listing : Type :=
| ListNetworkError (e : string)
| ListHttpError (message : string)
| ListOk (items : option (list GcalEvent)).

(** [googleCalendarRequest('GET', '/calendars/primary/events?...')] *)
Definition listRequest (env : Env) (answer : Listing)
  : result (option (list GcalEvent)) :=
  match getGoogleAccessToken env with
  | None => Throw "Not authenticated with Google"
  | Some accessToken =>
      match answer with
      | ListNetworkError e => Throw e
      | ListHttpError message => Throw ("Google Calendar API error: " ++ message)
      | ListOk items => Ok items
      end
  end.

(** Truthiness of an optional string. *)
Definition present (s : option string) : bool :=
  match s with Some x => truthy x | None => false end.

Definition orEmpty (s : option string) : string :=
  match s with Some x => x | None => EmptyString end.

(** [!gcalEvent.start?.dateTime || !gcalEvent.end?.dateTime] is false. *)
Definition timed (g : GcalEvent) : bool :=
  present (g_start g) && present (g_end g).

(** [(e) => e.googleEventId === gcalEvent.id] *)
Definition linkedTo (g : GcalEvent) (e : Event) : bool :=
  match event_googleEventId e with
  | Some x => String.eqb x (g_id g)
  | None => false
  end.

(** [a > b] on two dates: false when one of them is invalid. *)
Definition laterThan (a b : Date) : bool :=
  match a, b with
  | Some x, Some y => (y <? x)%Z
  | _, _ => false
  end.

Definition summaryOf (g : GcalEvent) : string :=
  orElse (orEmpty (g_summary g)) "Untitled Event".

(** The argument of [events.create] for an entry without a local
    event. *)
Definition newLocalEvent (env : Env) (g : GcalEvent) : ParsedEvent :=
  {| pe_title := summaryOf g;
     pe_description := g_description g;
     pe_startTime := parse (tz env) (date_heuristic env) (orEmpty (g_start g));
     pe_endTime := parse (tz env) (date_heuristic env) (orEmpty (g_end g));
     pe_location := g_location g;
     pe_isRecurring := Some (isSome (g_recurrence g));
     pe_recurrenceRule :=
       match g_recurrence g with
       | Some (rule :: _) => Some rule
       | _ => None
       end |}.

Definition linkUpdate (g : GcalEvent) : PartialEvent :=
  {| upd_title := None; upd_description := None; upd_startTime := None;
     upd_endTime := None; upd_location := None; upd_isRecurring := None;
     upd_recurrenceRule := None; upd_googleEventId := Some (g_id g);
     upd_color := None |}.

(** The argument of [events.update] for an entry that changed. *)
Definition remoteUpdate (env : Env) (g : GcalEvent) : PartialEvent :=
  {| upd_title := Some (summaryOf g);
     upd_description := g_description g;
     upd_startTime := Some (parse (tz env) (date_heuristic env) (orEmpty (g_start g)));
     upd_endTime := Some (parse (tz env) (date_heuristic env) (orEmpty (g_end g)));
     upd_location := g_location g;
     upd_isRecurring := None; upd_recurrenceRule := None;
     upd_googleEventId := None; upd_color := None |}.

(** The body of the loop for one entry. *)
Definition syncOne (env : Env) (localEvents : list Event) (g : GcalEvent)
  : M World unit :=
  if negb (timed g) then ret tt
  else
    match find (linkedTo g) localEvents with
    | None =>
        newEvent <~ events_create env (newLocalEvent env g) ;;
        events_update env (event_id newEvent) (linkUpdate g) ;;;
        ret tt
    | Some existingEvent =>
        let lastUpdated := parse (tz env) (date_heuristic env) (orEmpty (g_updated g)) in
        if laterThan lastUpdated (event_updatedAt existingEvent) then
          events_update env (event_id existingEvent) (remoteUpdate env g) ;;;
          ret tt
        else ret tt
    end.

Fixpoint syncAll (env : Env) (localEvents : list Event)
    (events : list GcalEvent) : M World unit :=
  match events with
  | [] => ret tt
  | gcalEvent :: rest =>
      syncOne env localEvents gcalEvent ;;;
      syncAll env localEvents rest
  end.

(** [syncFromGoogleCalendar()]: the [catch] logs and throws again. *)
Definition syncFromGoogleCalendar (env : Env) (answer : Listing)
  : M World unit :=
  catch
    (response <~ lift (listRequest env answer) ;;
     let events := match response with Some items => items | None => [] end in
     localEvents <~ events_getAll env ;;
     syncAll env localEvents events)
    (fun error => throw error).

(** [deleteFromGoogleCalendar(googleEventId)]: the [catch] logs and
    throws again. *)
Definition deleteFromGoogleCalendar (env : Env) (googleEventId : string)
  : result unit :=
  match googleCalendarRequest env "DELETE"
          ("/calendars/primary/events/" ++ googleEventId) with
  | Ok _ => Ok tt
  | Throw error => Throw error
  end.

End GoogleCalendarSync.

(* ================================================================== *)
(** * The pages *)

Module Page.
Import JS Types DateTime Merge Supabase SupabaseCrud.

(** A page: the state of its component and the remote store. *)
Record Page (V : Type) : Type := {
  view : V;
  world : World
}.
Arguments view {V} p.
Arguments world {V} p.

Definition onView {V} (f : V -> V) : M (Page V) unit :=
  modify (fun p => {| view := f (view p); world := world p |}).

(** Runs a call of the storage service on the remote store. *)
Definition storage {V A} (c : M World A) : M (Page V) A :=
  fun p => let '(r, w) := c (world p) in (r, {| view := view p; world := w |}).

(** [s.includes(q)] *)
Fixpoint includes (s q : string) : bool :=
  startsWith s q
  || match s with
     | String _ s' => includes s' q
     | EmptyString => false
     end.

(** [startOfDay(date)] of date-fns: [setHours(0, 0, 0, 0)] on a copy. *)
Definition startOfDay (tz : Z) (date : Date) : Date :=
  t <-? date;
  TimeClip (UTC tz (MakeDate (Day (LocalTime tz t)) (MakeTime 0 0 0 0))).

(** [a <= b] and [a > b] on two dates: false when one is invalid. *)
Definition notAfter (a b : Date) : bool :=
  match a, b with
  | Some x, Some y => (x <=? y)%Z
  | _, _ => false
  end.

Definition after (a b : Date) : bool :=
  match a, b with
  | Some x, Some y => (y <? x)%Z
  | _, _ => false
  end.

End Page.

(** ** src/pages/Tasks.tsx *)

Module TasksPage.
Import JS Types DateTime Merge Supabase SupabaseCrud Page.

Inductive TaskFilter : Type := today | upcoming | all | completed.

Record TasksView : Type := {
  tv_searchQuery : string;
  tv_tasks : list Task;
  tv_loading : bool;
  tv_filter : TaskFilter
}.

Definition setTasks (v : list Task) : M (Page TasksView) unit :=
  onView (fun c => {| tv_searchQuery := tv_searchQuery c; tv_tasks := v;
                      tv_loading := tv_loading c; tv_filter := tv_filter c |}).

Definition setLoading (v : bool) : M (Page TasksView) unit :=
  onView (fun c => {| tv_searchQuery := tv_searchQuery c;
                      tv_tasks := tv_tasks c; tv_loading := v;
                      tv_filter := tv_filter c |}).

Definition loadTasks (env : Env) : M (Page TasksView) unit :=
  finally
    (catch
       (setLoading true ;;;
        data <~ storage (tasks_getAll env) ;;
        setTasks data)
       (fun _ => ret tt))
    (setLoading false).

Definition toggleTask (env : Env) (task : Task) : M (Page TasksView) unit :=
  storage (tasks_update env (task_id task)
    {| updt_title := None; updt_description := None; updt_dueDate := None;
       updt_priority := None;
       updt_isCompleted := Some (negb (task_isCompleted task));
       updt_isRecurring := None; updt_recurrenceRule := None;
       updt_completedAt :=
         if negb (task_isCompleted task) then Some (Some (now env)) else None;
       updt_photoUrl := None |}) ;;;
  loadTasks env.

(** The predicate of the filter [today]: due today or overdue. *)
Definition dueToday (env : Env) (task : Task) : bool :=
  if task_isCompleted task then false
  else
    match task_dueDate task with
    | None => false
    | Some dueDate =>
        let taskDate := startOfDay (tz env) dueDate in
        let today_ := startOfDay (tz env) (Some (now env)) in
        notAfter taskDate today_
    end.

(** The predicate of the filter [upcoming]: due later, or without a due
    date. *)
Definition dueLater (env : Env) (task : Task) : bool :=
  if task_isCompleted task then false
  else
    match task_dueDate task with
    | None => true
    | Some dueDate =>
        let taskDate := startOfDay (tz env) dueDate in
        let today_ := startOfDay (tz env) (Some (now env)) in
        after taskDate today_
    end.

Definition matchesTask (query : string) (task : Task) : bool :=
  let titleMatch := includes (toLowerCase (task_title task)) query in
  let descriptionMatch :=
    match task_description task with
    | Some d => includes (toLowerCase d) query
    | None => false
    end in
  let priorityMatch := includes (toLowerCase (task_priority task)) query in
  titleMatch || descriptionMatch || priorityMatch.

Definition getFilteredTasks (env : Env) (v : TasksView) : list Task :=
  let filtered := tv_tasks v in
  let filtered :=
    match tv_filter v with
    | today => filter (dueToday env) filtered
    | upcoming => filter (dueLater env) filtered
    | completed => filter task_isCompleted filtered
    | all => filter (fun task => negb (task_isCompleted task)) filtered
    end in
  if truthy (tv_searchQuery v) then
    let query := toLowerCase (tv_searchQuery v) in
    filter (matchesTask query) filtered
  else filtered.

Definition todayCount (env : Env) (v : TasksView) : nat :=
  length (filter (dueToday env) (tv_tasks v)).
Definition upcomingCount (env : Env) (v : TasksView) : nat :=
  length (filter (dueLater env) (tv_tasks v)).
Definition allCount (v : TasksView) : nat :=
  length (filter (fun t => negb (task_isCompleted t)) (tv_tasks v)).
Definition completedCount (v : TasksView) : nat :=
  length (filter task_isCompleted (tv_tasks v)).

End TasksPage.

(** ** src/pages/Notes.tsx *)

Module NotesPage.
Import JS Types DateTime Merge Supabase SupabaseCrud Page.

Record NotesView : Type := {
  nv_searchQuery : string;
  nv_notes : list Note;
  nv_loading : bool;
  nv_editingNote : option Note;
  nv_editContent : string
}.

Definition setNotes (v : list Note) : M (Page NotesView) unit :=
  onView (fun c => {| nv_searchQuery := nv_searchQuery c; nv_notes := v;
                      nv_loading := nv_loading c;
                      nv_editingNote := nv_editingNote c;
                      nv_editContent := nv_editContent c |}).

Definition setLoading (v : bool) : M (Page NotesView) unit :=
  onView (fun c => {| nv_searchQuery := nv_searchQuery c;
                      nv_notes := nv_notes c; nv_loading := v;
                      nv_editingNote := nv_editingNote c;
                      nv_editContent := nv_editContent c |}).

Definition setEditing (n : option Note) (content : string)
  : M (Page NotesView) unit :=
  onView (fun c => {| nv_searchQuery := nv_searchQuery c;
                      nv_notes := nv_notes c; nv_loading := nv_loading c;
                      nv_editingNote := n; nv_editContent := content |}).

Definition loadNotes (env : Env) : M (Page NotesView) unit :=
  finally
    (catch
       (setLoading true ;;;
        data <~ storage (notes_getAll env) ;;
        setNotes data)
       (fun _ => ret tt))
    (setLoading false).

Definition handleDelete (env : Env) (deleteCapturePhoto : result unit)
    (id : nat) : M (Page NotesView) unit :=
  catch
    (storage (notes_delete env deleteCapturePhoto id) ;;;
     loadNotes env)
    (fun _ => ret tt).

Definition handleTogglePin (env : Env) (note : Note)
  : M (Page NotesView) unit :=
  catch
    (storage (notes_update env (note_id note)
       {| updn_title := None; updn_content := None; updn_tags := None;
          updn_isPinned := Some (negb (note_isPinned note));
          updn_photoUrl := None |}) ;;;
     loadNotes env)
    (fun _ => ret tt).

Definition handleEditNote (note : Note) : M (Page NotesView) unit :=
  setEditing (Some note) (note_content note).

Definition handleSaveEdit (env : Env) : M (Page NotesView) unit :=
  editingNote <~ gets (fun p => nv_editingNote (view p)) ;;
  match editingNote with
  | None => ret tt
  | Some note =>
      catch
        (editContent <~ gets (fun p => nv_editContent (view p)) ;;
         storage (notes_update env (note_id note)
           {| updn_title := None; updn_content := Some editContent;
              updn_tags := None; updn_isPinned := None;
              updn_photoUrl := None |}) ;;;
         setEditing None EmptyString ;;;
         loadNotes env)
        (fun _ => ret tt)
  end.

Definition matchesNote (query : string) (note : Note) : bool :=
  let titleMatch := includes (toLowerCase (note_title note)) query in
  let contentMatch := includes (toLowerCase (note_content note)) query in
  let tagMatch :=
    existsb (fun tag => includes (toLowerCase tag) query) (note_tags note) in
  titleMatch || contentMatch || tagMatch.

Definition filteredNotes (v : NotesView) : list Note :=
  filter (matchesNote (toLowerCase (nv_searchQuery v))) (nv_notes v).

Definition pinnedNotes (v : NotesView) : list Note :=
  filter note_isPinned (filteredNotes v).
Definition unpinnedNotes (v : NotesView) : list Note :=
  filter (fun note => negb (note_isPinned note)) (filteredNotes v).

End NotesPage.

(** ** src/pages/Calendar.tsx *)

Module CalendarPage.
Import JS Types DateTime Merge Supabase SupabaseCrud Page.

Record CalendarView : Type := {
  cv_events : list Event;
  cv_syncing : bool;
  cv_loading : bool
}.

Definition setEvents (v : list Event) : M (Page CalendarView) unit :=
  onView (fun c => {| cv_events := v; cv_syncing := cv_syncing c;
                      cv_loading := cv_loading c |}).

Definition setSyncing (v : bool) : M (Page CalendarView) unit :=
  onView (fun c => {| cv_events := cv_events c; cv_syncing := v;
                      cv_loading := cv_loading c |}).

Definition setLoading (v : bool) : M (Page CalendarView) unit :=
  onView (fun c => {| cv_events := cv_events c; cv_syncing := cv_syncing c;
                      cv_loading := v |}).

Definition loadEvents (env : Env) : M (Page CalendarView) unit :=
  finally
    (catch
       (data <~ storage (events_getAll env) ;;
        setEvents data)
       (fun _ => ret tt))
    (setLoading false).

Definition handleSync (env : Env) (answer : GoogleCalendarSync.Listing)
  : M (Page CalendarView) unit :=
  setSyncing true ;;;
  finally
    (catch
       (storage (GoogleCalendarSync.syncFromGoogleCalendar env answer) ;;;
        loadEvents env)
       (fun _ => ret tt))
    (setSyncing false).

Definition handleDelete (env : Env) (id : nat)
  : M (Page CalendarView) unit :=
  catch
    (event <~ storage (events_getById env id) ;;
     match event with
     | Some e =>
         match orNull (event_googleEventId e) with
         | Some googleEventId =>
             catch
               (lift (GoogleCalendarSync.deleteFromGoogleCalendar env
                        googleEventId))
               (fun _ => ret tt)
         | None => ret tt
         end
     | None => ret tt
     end ;;;
     storage (events_delete env id) ;;;
     loadEvents env)
    (fun _ => ret tt).

End CalendarPage.

(* ================================================================== *)
(** * src/lib/file-storage.ts: the key of the stored object *)

Module ObjectKey.
Import JS Merge.

(** [s.split(sep)] for a one-character separator. *)
Fixpoint split (sep : ascii) (s : string) : list string :=
  match s with
  | EmptyString => [EmptyString]
  | String c s' =>
      if Ascii.eqb c sep then EmptyString :: split sep s'
      else
        match split sep s' with
        | x :: r => String c x :: r
        | [] => [String c EmptyString]
        end
  end.

(** [parts.pop()] *)
Definition pop (parts : list string) : option string :=
  match parts with
  | [] => None
  | _ => Some (last parts EmptyString)
  end.

(** What [[a-z0-9]] matches. *)
Definition isLowerAlnum (c : ascii) : bool :=
  let n := nat_of_ascii c in
  ((97 <=? n) && (n <=? 122)) || ((48 <=? n) && (n <=? 57)).

(** [s.replace(/[^a-z0-9]/g, '')] *)
Fixpoint keepLowerAlnum (s : string) : string :=
  match s with
  | EmptyString => EmptyString
  | String c s' =>
      if isLowerAlnum c then String c (keepLowerAlnum s') else keepLowerAlnum s'
  end.

(** [file.name.split('.').pop()?.toLowerCase().replace(/[^a-z0-9]/g, '')
     || 'jpg'] *)
Definition extension (name : string) : string :=
  orElse
    (match pop (split "." name) with
     | Some part => keepLowerAlnum (toLowerCase part)
     | None => EmptyString
     end)
    "jpg".

(** The key [category/uuid.extension] of the object. *)
Definition fileName (category uuid name : string) : string :=
  category ++ "/" ++ uuid ++ "." ++ extension name.

End ObjectKey.

(* ================================================================== *)
(** * src/components/CaptureBox.tsx: the choice of a photo *)

Module PhotoPicker.
Import JS Types CaptureBox.

Definition MAX_PHOTO_SIZE_MB : Z := 8.

Definition notAnImageNotice : string :=
  "Please select an image file (PNG, JPG, or HEIC).".
Definition tooLargeNotice : string :=
  "Please choose an image smaller than 8MB.".

Definition setPhotoFile (v : option File) : M State unit :=
  onUi (fun c => {| input := input c; loading := loading c;
                    success := success c; parsed := parsed c;
                    photoFile := v; photoUploading := photoUploading c;
                    notice := notice c; saved := saved c |}).

(** [handlePhotoChange(event)], [file] being [event.target.files?.[0]].
    The preview URL of the chosen file is left out. *)
Definition handlePhotoChange (file : option File) : M State unit :=
  match file with
  | None => ret tt
  | Some file =>
      if negb (startsWith (file_type file) "image/") then
        showNotice notAnImageNotice error
      else if (MAX_PHOTO_SIZE_MB * 1024 * 1024 <? file_size file)%Z then
        showNotice tooLargeNotice error
      else setPhotoFile (Some file)
  end.

End PhotoPicker.

(* ================================================================== *)
(** * src/lib/gemini.ts: generateResearchDossier *)

Module Research.
Import JS Json Merge Gemini.

(** The object the function returns; its fields are what the answer of
    the model holds, whatever their type. *)
Record DossierPayload : Type := {
  dp_topic : value;
  dp_focus : value;
  dp_summary : value;
  dp_keyInsights : value;
  dp_actionItems : value;
  dp_references : value
}.

Definition dossierFailure : string :=
  "Failed to build dossier. Please try again.".

(** [a || b] *)
Definition orValue (a b : value) : value := if truthy a then a else b.

(** [focus?.trim() || `Key insights about ${topic}`] *)
Definition refinedFocus (topic : string) (focus : option string) : string :=
  orElse (match focus with Some f => trim f | None => EmptyString end)
         ("Key insights about " ++ topic).

(** [generateResearchDossier(topic, focus)], [response] being what the
    call to the model gives. *)
Definition generateResearchDossier (topic : string) (focus : option string)
    (response : result string) : result DossierPayload :=
  let body :=
    try text0 <- response;
    let text := trim text0 in
    try parsed <- jsonParse (cleanText text);
    try topic_ <- get parsed "topic";
    try focus_ <- get parsed "focus";
    try summary <- get parsed "summary";
    try keyInsights <- get parsed "keyInsights";
    try actionItems <- get parsed "actionItems";
    try references <- get parsed "references";
    Ok {| dp_topic := orValue topic_ (VString topic);
          dp_focus := orValue focus_ (VString (refinedFocus topic focus));
          dp_summary := summary;
          dp_keyInsights := orValue keyInsights (VArray []);
          dp_actionItems := orValue actionItems (VArray []);
          dp_references := orValue references (VArray []) |} in
  match body with
  | Ok payload => Ok payload
  | Throw _ => Throw dossierFailure
  end.

End Research.

(* ================================================================== *)
(** * Further predicates used in the statements *)

Section MarkupPredicates.
Import JS.

(** No character of the text opens or closes a tag. *)
Fixpoint angleFree (s : string) : bool :=
  match s with
  | EmptyString => true
  | String c s' =>
      negb (Ascii.eqb c "<") && negb (Ascii.eqb c ">") && angleFree s'
  end.

End MarkupPredicates.

Section BucketPredicates.
Import JS Supabase.

(** The rows of [u] whose title is [b] up to the case of letters. *)
Definition sameTitle (u b : string) (r : NoteRow) : bool :=
  String.eqb (n_user_id r) u
  && String.eqb (toLowerCase (n_title r)) (toLowerCase b).

End BucketPredicates.

Section AnswerPredicates.
Import JS.

(** The text holds no backtick. *)
Fixpoint noBacktick (s : string) : bool :=
  match s with
  | EmptyString => true
  | String c s' => negb (Ascii.eqb c "`") && noBacktick s'
  end.

(** An answer wrapped in a code fence: the opening fence with the
    language tag, the body, the closing fence, each on a line. *)
Definition fence (body : string) : string :=
  "```json" ++ String LF (body ++ String LF "```").

End AnswerPredicates.

Section KeyPredicates.
Import JS ObjectKey.

(** Every character is a lower-case letter or a digit. *)
Fixpoint allLowerAlnum (s : string) : bool :=
  match s with
  | EmptyString => true
  | String c s' => isLowerAlnum c && allLowerAlnum s'
  end.

End KeyPredicates.

Section BoxPredicates.
Import JS Types CaptureBox PhotoPicker.

(** What the user does with the box. *)
Inductive Action : Type :=
| Pick (file : option File)
| Clear
| Type_ (text : string)
| Submit (env : Env) (classified : result ParsedCapture).

Definition act (a : Action) (st : State) : State :=
  match a with
  | Pick file => snd (handlePhotoChange file st)
  | Clear => snd (clearPhotoSelection st)
  | Type_ text => snd (setInput text st)
  | Submit env classified => handleSubmit env classified st
  end.

Definition session (actions : list Action) (st : State) : State :=
  fold_left (fun s a => act a s) actions st.

(** A file the picker accepts: an image of at most 8 MiB. *)
Definition acceptable (file : File) : Prop :=
  startsWith (file_type file) "image/" = true
  /\ (file_size file <= 8 * 1024 * 1024)%Z.

(** The photo that is selected, if any, is one the picker accepts. *)
Definition photoOk (st : State) : Prop :=
  match photoFile (ui st) with
  | Some file => acceptable file
  | None => True
  end.

(** The box after [handleSubmit] gave up: as before, not loading, no
    success shown. *)
Definition givenUp (st : State) : State :=
  {| ui := {| input := input (ui st); loading := false; success := false;
              parsed := parsed (ui st); photoFile := photoFile (ui st);
              photoUploading := photoUploading (ui st);
              notice := notice (ui st); saved := saved (ui st) |};
     world := world st |}.

(** The store cannot be written to: nobody is signed in, or the database
    answers with an error. *)
Definition unavailable (env : Env) : Prop :=
  auth_user env = None \/ exists e, db_error env = Some e.

(** The box when [handleConfirm] is called for the capture [c]. *)
Definition confirming (c : ParsedCapture) (st : State) : State :=
  {| ui := {| input := input (ui st); loading := true; success := false;
              parsed := Some c; photoFile := photoFile (ui st);
              photoUploading := photoUploading (ui st);
              notice := notice (ui st); saved := saved (ui st) |};
     world := world st |}.

(** The box when [handleSubmit] is through, [handleConfirm] having
    returned ([ok]) or thrown. *)
Definition through (ok : bool) (st : State) : State :=
  {| ui := {| input := input (ui st); loading := false;
              success := if ok then true else success (ui st);
              parsed := parsed (ui st); photoFile := photoFile (ui st);
              photoUploading := photoUploading (ui st);
              notice := notice (ui st); saved := saved (ui st) |};
     world := world st |}.

End BoxPredicates.

Section StorePredicates.
Import JS Types DateTime Merge Supabase SupabaseCrud GoogleCalendarSync.

(** The rows have distinct identifiers, all drawn from the source of
    identifiers before [bound]. *)
Definition Keyed {A} (key : A -> nat) (rows : list A) (bound : nat) : Prop :=
  NoDup (map key rows) /\ forall r, In r rows -> key r < bound.

(** Every table is keyed: what primary keys filled from [generateId]
    guarantee. *)
Definition storeKeyed (w : World) : Prop :=
  Keyed t_id (tasks (db w)) (uuids w)
  /\ Keyed e_id (events (db w)) (uuids w)
  /\ Keyed n_id (notes (db w)) (uuids w)
  /\ Keyed x_id (transactions (db w)) (uuids w).

(** The calls that write to the store. *)
Inductive Call : Type :=
| TasksCreate (data : ParsedTask)
| TasksUpdate (id : nat) (updates : PartialTask)
| TasksDelete (deleteCapturePhoto : result unit) (id : nat)
| EventsCreate (data : ParsedEvent)
| EventsUpdate (id : nat) (updates : PartialEvent)
| EventsDelete (id : nat)
| NotesCreate (data : ParsedNote)
| NotesUpdate (id : nat) (updates : PartialNote)
| NotesDelete (deleteCapturePhoto : result unit) (id : nat)
| TransactionsCreate (data : ParsedTransaction)
| TransactionsDelete (deleteCapturePhoto : result unit) (id : nat)
| SyncFromGoogleCalendar (answer : Listing).

(** The store after a call, whether it returned or threw. *)
Definition perform (env : Env) (c : Call) (w : World) : World :=
  match c with
  | TasksCreate d => snd (tasks_create env d w)
  | TasksUpdate id u => snd (tasks_update env id u w)
  | TasksDelete p id => snd (tasks_delete env p id w)
  | EventsCreate d => snd (events_create env d w)
  | EventsUpdate id u => snd (events_update env id u w)
  | EventsDelete id => snd (events_delete env id w)
  | NotesCreate d => snd (notes_create env d w)
  | NotesUpdate id u => snd (notes_update env id u w)
  | NotesDelete p id => snd (notes_delete env p id w)
  | TransactionsCreate d => snd (transactions_create env d w)
  | TransactionsDelete p id => snd (transactions_delete env p id w)
  | SyncFromGoogleCalendar answer => snd (syncFromGoogleCalendar env answer w)
  end.

(** The store after a sequence of calls, each made in its own
    circumstances. *)
Definition performAll (calls : list (Env * Call)) (w : World) : World :=
  fold_left (fun s c => perform (fst c) (snd c) s) calls w.

(** A computation keeps a property of the state, whatever it returns. *)
Definition preserves {S A} (P : S -> Prop) (c : M S A) : Prop :=
  forall s, P s -> P (snd (c s)).

End StorePredicates.

Section DeletionPredicates.
Import Supabase.

(** The store without the rows of one table that carry the identifier
    [id]. *)
Definition dropTask (id : nat) (w : World) : World :=
  setDb {| tasks := filter (fun r => negb (t_id r =? id)) (tasks (db w));
           events := events (db w); notes := notes (db w);
           transactions := transactions (db w) |} w.

Definition dropEvent (id : nat) (w : World) : World :=
  setDb {| tasks := tasks (db w);
           events := filter (fun r => negb (e_id r =? id)) (events (db w));
           notes := notes (db w);
           transactions := transactions (db w) |} w.

Definition dropNote (id : nat) (w : World) : World :=
  setDb {| tasks := tasks (db w); events := events (db w);
           notes := filter (fun r => negb (n_id r =? id)) (notes (db w));
           transactions := transactions (db w) |} w.

Definition dropTransaction (id : nat) (w : World) : World :=
  setDb {| tasks := tasks (db w); events := events (db w);
           notes := notes (db w);
           transactions :=
             filter (fun r => negb (x_id r =? id)) (transactions (db w)) |} w.

End DeletionPredicates.

Section OrderPredicates.

(** [a] may come before [b] in a listing ordered by [key]. *)
Definition inOrder {A} (key : A -> Z) (ascending : bool) (a b : A) : Prop :=
  if ascending then (key a <= key b)%Z else (key b <= key a)%Z.

(** The instant falls between two instants, both included. *)
Definition within (from to : Z) (d : DateTime.Date) : bool :=
  match d with
  | Some t => (from <=? t)%Z && (t <=? to)%Z
  | None => false
  end.

End OrderPredicates.

(** ** Proof steps shared by the lemmas on the storage service *)

Create HintDb keyed.
Create HintDb photo.

(** Splits a keyed store into its tables and closes the goals that the
    hints on keyed tables settle. *)
Ltac keyed :=
  match goal with
  | H : storeKeyed _ |- _ => destruct H as (?Ht & ?He & ?Hn & ?Hx)
  end;
  unfold storeKeyed;
  cbn [Supabase.db Supabase.uuids Supabase.tasks Supabase.events
       Supabase.notes Supabase.transactions Supabase.setDb];
  (split; [| split; [| split]]);
  eauto with keyed.

Ltac unfold_call :=
  unfold Supabase.tasks_create, Supabase.events_create, Supabase.transactions_create, Supabase.insertNote,
    SupabaseCrud.tasks_update, Supabase.events_update, SupabaseCrud.notes_update, Supabase.updateContent,
    Supabase.getUserId, Supabase.query, Supabase.generateId, bind, lift, modify, gets, ret, throw;
  cbn [snd fst].

Ltac split_call env :=
  try destruct (auth_user env) eqn:?;
  try destruct (db_error env) eqn:?;
  cbn [snd fst];
  repeat match goal with
         | |- context [match ?x with _ => _ end] =>
             destruct x eqn:?; cbn [snd fst]
         end.

Ltac read_back Hdb :=
  unfold SupabaseCrud.tasks_getById, SupabaseCrud.events_getById, SupabaseCrud.notes_getById, SupabaseCrud.transactions_getById,
    SupabaseCrud.notFoundAs, catch, bind, Supabase.query, gets, lift, ret;
  rewrite Hdb;
  cbn [Supabase.db Supabase.tasks Supabase.events Supabase.notes
       Supabase.transactions Supabase.setDb Supabase.uuids].

Ltac written H env :=
  unfold Supabase.tasks_create, Supabase.events_create, Supabase.transactions_create, Supabase.insertNote,
    SupabaseCrud.tasks_update, Supabase.events_update, SupabaseCrud.notes_update, Supabase.updateContent,
    Supabase.getUserId, Supabase.query, Supabase.generateId, bind, lift, modify, gets, ret, throw in H;
  try destruct (auth_user env) eqn:?;
  try destruct (db_error env) eqn:?;
  cbn [snd fst] in H;
  repeat match type of H with
         | context [match ?x with _ => _ end] =>
             destruct x eqn:?; cbn [snd fst] in H
         end;
  try discriminate H;
  inversion H; subst; clear H.

Ltac delete_run :=
  unfold SupabaseCrud.tasks_delete, SupabaseCrud.notes_delete, SupabaseCrud.transactions_delete, SupabaseCrud.events_delete,
    SupabaseCrud.getTaskPhoto, SupabaseCrud.getNotePhoto, SupabaseCrud.getTransactionPhoto, SupabaseCrud.notFoundAs, catch, bind,
    Supabase.query, gets, lift, ret, throw, modify, Supabase.single;
  match goal with
  | |- context [db_error ?env] =>
      destruct (db_error env) as [e |];
      [ destruct (String.eqb e "PGRST116"); reflexivity | ]
  end;
  match goal with
  | |- context [filter ?p ?rows] =>
      destruct (filter p rows) as [| x [| y l]]; cbn; try reflexivity
  end;
  unfold SupabaseCrud.safeDeletePhoto, catch, lift, ret;
  match goal with
  | |- context [Merge.orNull ?u] => destruct (Merge.orNull u); try reflexivity
  end;
  match goal with
  | |- context [match ?r with Ok _ => _ | Throw _ => _ end] =>
      destruct r; reflexivity
  end.

(** Runs a creation that the store refuses, [Hun] saying why. *)
Ltac refused Hun env :=
  destruct Hun as [?Ha | [?e0 ?He]];
  [ rewrite Ha | rewrite He; destruct (auth_user env) ];
  cbn [snd fst];
  repeat match goal with
         | |- context [match ?x with _ => _ end] =>
             destruct x; cbn [snd fst]
         end;
  eexists _, _; split; reflexivity.

Ltac update_run env :=
  unfold SupabaseCrud.tasks_update, Supabase.events_update, SupabaseCrud.notes_update, Supabase.returned,
    Supabase.query, bind, lift, modify, gets, ret, throw;
  destruct (db_error env) eqn:?;
  cbn [snd fst];
  repeat match goal with
         | |- context [match Supabase.isoOrNull ?x with _ => _ end] =>
             destruct (Supabase.isoOrNull x) eqn:?; cbn [snd fst]
         end.

Section PagePredicates.
Import Types DateTime Supabase.

(** The row of a task after its box was ticked or unticked at [now]: the
    flag is inverted; the time of completion is set when the task
    becomes complete and is otherwise left as it is. *)
Definition toggled (env : Env) (r : TaskRow) : TaskRow :=
  {| t_id := t_id r; t_user_id := t_user_id r; t_title := t_title r;
     t_description := t_description r; t_due_date := t_due_date r;
     t_priority := t_priority r;
     t_is_completed := negb (t_is_completed r);
     t_is_recurring := t_is_recurring r;
     t_recurrence_rule := t_recurrence_rule r;
     t_completed_at :=
       if t_is_completed r then t_completed_at r else Some (now env);
     t_photo_url := t_photo_url r;
     t_created_at := t_created_at r; t_updated_at := now env |}.

End PagePredicates.

Section SyncPredicates.
Import JS Types DateTime Supabase SupabaseCrud GoogleCalendarSync.

(** The time at which the calendar says the entry was last modified. *)
Definition stamp (env : Env) (g : GcalEvent) : Date :=
  parse (tz env) (date_heuristic env) (orEmpty (g_updated g)).

(** The row stands for the calendar entry [g] in the events of [u]. *)
Definition standsFor (u : string) (g : GcalEvent) (r : EventRow) : bool :=
  String.eqb (e_user_id r) u
  && match e_google_event_id r with
     | Some x => String.eqb x (g_id g)
     | None => false
     end.

(** The row of an event is still in the table, perhaps rewritten: a row
    with its identifier, owner and time of creation. *)
Definition persists (r : EventRow) (w : World) : Prop :=
  exists r', In r' (events (db w))
             /\ e_id r' = e_id r /\ e_user_id r' = e_user_id r
             /\ e_created_at r' = e_created_at r.

(** The row is in a store with sound keys. *)
Definition stays (r : EventRow) (w : World) : Prop :=
  storeKeyed w /\ In r (events (db w)).

End SyncPredicates.

Section PullPredicates.
Import JS Types DateTime Supabase SupabaseCrud GoogleCalendarSync.

(** The entries of an answer. *)
Definition listed (answer : Listing) : list GcalEvent :=
  match answer with
  | ListOk (Some items) => items
  | _ => []
  end.

(** The user has an event that stands for the entry. *)
Definition hasRowFor (u : string) (g : GcalEvent) (w : World) : Prop :=
  exists r, In r (events (db w)) /\ standsFor u g r = true.

(** The entry is not newer than any event of the user that stands for
    it. *)
Definition notNewer (env : Env) (u : string) (g : GcalEvent) (w : World)
  : Prop :=
  forall r, In r (events (db w)) -> standsFor u g r = true ->
    laterThan (stamp env g) (Some (e_updated_at r)) = false.

(** No two events of the user stand for the same entry. *)
Definition linkedOnce (u : string) (rows : list EventRow) : Prop :=
  forall g r1 r2, In r1 rows -> In r2 rows ->
    standsFor u g r1 = true -> standsFor u g r2 = true -> r1 = r2.

(** The calendar does not date a modification after the present. *)
Definition stampsPast (env : Env) (items : list GcalEvent) : Prop :=
  forall g t, In g items -> stamp env g = Some t -> (t <= now env)%Z.

(** The same user, database, calendar session and host (time zone and
    reading of dates). *)
Definition sameSession (env env' : Env) : Prop :=
  auth_user env' = auth_user env /\ db_error env' = db_error env
  /\ provider_token env' = provider_token env /\ tz env' = tz env
  /\ date_heuristic env' = date_heuristic env.

(** What holds of the store while a pull that started from the events
    [rows0] goes through the entries, [seen] being those it has dealt
    with. *)
Definition pullInvariant (env : Env) (u : string) (rows0 : list EventRow)
    (seen : GcalEvent -> Prop) (w : World) : Prop :=
  storeKeyed w
  /\ (forall r, In r (events (db w)) ->
        In r rows0 \/ e_updated_at r = now env)
  /\ (forall r0, In r0 rows0 ->
        exists r, In r (events (db w))
                  /\ e_id r = e_id r0 /\ e_user_id r = e_user_id r0
                  /\ e_google_event_id r = e_google_event_id r0)
  /\ (forall g, seen g -> timed g = true ->
        hasRowFor u g w /\ notNewer env u g w).

(** The event that [events.create] followed by the update with the
    identifier of the entry leaves for a new entry. *)
Definition linkedRow (env : Env) (u : string) (id : nat) (g : GcalEvent)
    (s t : Z) : EventRow :=
  applyEventUpdate env (linkUpdate g) None None
    (eventRow env u id (newLocalEvent env g) s t).

End PullPredicates.

(* ================================================================== *)
(** * Further concrete inputs *)

Module Samples.
Import JS Types DateTime Merge Supabase SupabaseCrud GoogleCalendarSync.

(** The user of [Examples.env0], signed in to the calendar as well. *)
Definition linked : Env :=
  {| auth_user := Some "user-1"; db_error := None;
     provider_token := Some "ya29.a0Af";
     calendar := HttpOk (Some "gcal-1");
     upload_error := None; public_url := Some "https://cdn.example/p.jpg";
     model_response := Throw "503";
     now := 1709287200000; tz := 0;
     date_heuristic := fun _ => None |}.

(** The same session a day later. *)
Definition nextDay : Env :=
  {| auth_user := Some "user-1"; db_error := None;
     provider_token := Some "ya29.a0Af";
     calendar := HttpOk (Some "gcal-1");
     upload_error := None; public_url := Some "https://cdn.example/p.jpg";
     model_response := Throw "503";
     now := 1709373600000; tz := 0;
     date_heuristic := fun _ => None |}.

(** Nobody is signed in. *)
Definition signedOut : Env :=
  {| auth_user := None; db_error := None; provider_token := None;
     calendar := NetworkError "Failed to fetch";
     upload_error := None; public_url := None;
     model_response := Throw "503";
     now := 1709287200000; tz := 0;
     date_heuristic := fun _ => None |}.

(** A host nine hours east of UTC. *)
Definition tokyo : Env :=
  {| auth_user := Some "user-1"; db_error := None; provider_token := None;
     calendar := NetworkError "Failed to fetch";
     upload_error := None; public_url := None;
     model_response := Throw "503";
     now := 1709287200000; tz := 32400000;
     date_heuristic := fun _ => None |}.

(** A timed entry of the calendar, last modified ten days before the
    clock of [linked], and an all-day entry. *)
Definition review : GcalEvent :=
  {| g_id := "gcal-7"; g_summary := Some "Review"; g_description := None;
     g_start := Some "2024-03-04T09:00:00Z";
     g_end := Some "2024-03-04T10:00:00Z";
     g_location := Some "Room 2"; g_recurrence := None;
     g_updated := Some "2024-02-20T08:00:00Z" |}.

Definition holiday : GcalEvent :=
  {| g_id := "gcal-8"; g_summary := Some "Holiday"; g_description := None;
     g_start := None; g_end := None; g_location := None;
     g_recurrence := None; g_updated := Some "2024-02-20T08:00:00Z" |}.

(** The store after the stand-up of [Examples.standup] was captured, and
    the row of that event. *)
Definition withStandup : World :=
  snd (events_create Examples.env0 Examples.standup Examples.emptyWorld).

Definition standupRow : EventRow :=
  eventRow Examples.env0 "user-1" 0 Examples.standup
    1709305200000 1709308800000.

(** The store after a first pull of the two entries. *)
Definition pulled : World :=
  snd (syncFromGoogleCalendar linked (ListOk (Some [review; holiday]))
         Examples.emptyWorld).

(** A task that was completed on 2024-02-28. *)
Definition paidRent : TaskRow :=
  {| t_id := 0; t_user_id := "user-1"; t_title := "Pay the rent";
     t_description := None; t_due_date := Some 1709164800000%Z;
     t_priority := "high"; t_is_completed := true; t_is_recurring := false;
     t_recurrence_rule := None; t_completed_at := Some 1709110800000%Z;
     t_photo_url := None; t_created_at := 1709000000000%Z;
     t_updated_at := 1709110800000%Z |}.

Definition tasksPage : Page.Page TasksPage.TasksView :=
  {| Page.view :=
       {| TasksPage.tv_searchQuery := EmptyString;
          TasksPage.tv_tasks := [mapTaskFromDB paidRent];
          TasksPage.tv_loading := false;
          TasksPage.tv_filter := TasksPage.completed |};
     Page.world :=
       {| db := {| tasks := [paidRent]; events := []; notes := [];
                   transactions := [] |};
          uuids := 1 |} |}.

(** A photo the picker accepts. *)
Definition snapshot : File :=
  {| file_name := "IMG_0042.HEIC"; file_type := "image/heic";
     file_size := 2500000%Z |}.

(** An answer of the model without a fence. *)
Definition bareAnswer : string :=
  quoted "{'type':'note','data':{'content':'Call the bank'}}".

(** An expense without a date. *)
Definition coffee : ParsedTransaction :=
  {| px_amount := (35, -1)%Z; px_type := expense;
     px_category := "Food & Dining"; px_description := Some "coffee";
     px_date := None; px_photoUrl := None |}.

(** The no-break space U+00A0 and the line separator U+2028. *)
Definition nbsp : string := bytes [194; 160].
Definition lineSeparator : string := bytes [226; 128; 168].

(** Forty-nine letters, then an accented one (U+00E9), then more. *)
Definition accented : string :=
  "Remember to ask the baker about the new opening c" ++ bytes [195; 169]
  ++ " hours".

(** A note without a title whose fiftieth character is the accented
    letter. *)
Definition bakery : ParsedNote :=
  {| pn_title := None; pn_content := accented; pn_tags := None;
     pn_photoUrl := None |}.

(** A title that ends after its colon in a no-break space. *)
Definition dangling : ParsedNote :=
  {| pn_title := Some ("Groceries:" ++ nbsp); pn_content := "eggs";
     pn_tags := None; pn_photoUrl := None |}.

(** The bucket note with nothing but a no-break space in it. *)
Definition paddedGroceries : NoteRow :=
  {| n_id := 0; n_user_id := "user-1";
     n_title := "Groceries"; n_content := nbsp;
     n_tags := []; n_is_pinned := false; n_photo_url := None;
     n_created_at := 1709200000000%Z; n_updated_at := 1709200000000%Z |}.

End Samples.

(* ================================================================== *)
(** * Properties of the classifier gateway *)

Section Classifier.
Import JS Json Types.





Lemma strictEqString_other (v : value) (k k' : string) :
  strictEqString v k = true -> String.eqb k k' = false ->
  strictEqString v k' = false.
Proof.
  destruct v; simpl; try discriminate. intros H Hk.
  apply String.eqb_eq in H. subst. exact Hk.
Qed.

(** ** Members of an object *)








(** ** Values as text *)





(** A date string is read by [Date.parse]. *)
Lemma newDate_string (tz : Z) (heuristic : string -> DateTime.Date) (s : string) :
  newDate tz heuristic (VString s) = Ok (DateTime.parse tz heuristic s).
Proof. reflexivity. Qed.

(** ** The conversion of dates *)




Lemma parseCapture_wraps (tz : Z) (heuristic : string -> DateTime.Date)
    (response : result string) :
  is_ok (Gemini.parseCapture tz heuristic response) = false ->
  Gemini.parseCapture tz heuristic response = Throw Gemini.parseFailure.
Proof.
  unfold Gemini.parseCapture.
  destruct (rbind response _); [discriminate | reflexivity].
Qed.




(** A due date that is an object with a member [toString] has no
    primitive value: [new Date] throws, and the capture is rejected.  A
    due date that is an array is joined and read; one that is a string
    in no date format, on a host that makes nothing of it, gives a task
    with an Invalid Date; one that is a number too small for a double is
    zero, which is falsy, and is left as it is. *)
Lemma dates_that_are_not_strings :
  Gemini.parseCapture 0 (fun _ => None)
    (Ok (quoted "{'type':'task','data':{'title':'x','dueDate':{'toString':1}}}"))
  = Throw Gemini.parseFailure
  /\ Gemini.parseCapture 0 (fun _ => None)
       (Ok (quoted "{'type':'task','data':{'title':'x','dueDate':[2024]}}"))
     = Ok (VObject [("type", VString "task");
                    ("data", VObject [("title", VString "x");
                                      ("dueDate", VDate (Some 1704067200000%Z))])])
  /\ Gemini.parseCapture 0 (fun _ => None)
       (Ok (quoted "{'type':'task','data':{'title':'x','dueDate':'soon'}}"))
     = Ok (VObject [("type", VString "task");
                    ("data", VObject [("title", VString "x");
                                      ("dueDate", VDate None)])])
  /\ Gemini.parseCapture 0 (fun _ => None)
       (Ok (quoted "{'type':'task','data':{'title':'x','dueDate':1e-400}}"))
     = Ok (VObject [("type", VString "task");
                    ("data", VObject [("title", VString "x");
                                      ("dueDate", VNumber 1 (-400))])]).
Proof. repeat split; vm_compute; reflexivity. Qed.

End Classifier.

(* ================================================================== *)
(** * What one call of the storage service does to the store *)

Section Storage.
Import JS Json Types DateTime Merge Supabase.

(** [tasks.create] touches the tasks table only, and adds at most one row,
    whose photo is the one it was given. *)
Lemma tasks_create_cases (env : Env) (d : ParsedTask) (w : World) :
  exists r w',
    tasks_create env d w = (r, w')
    /\ events (db w') = events (db w)
    /\ notes (db w') = notes (db w)
    /\ transactions (db w') = transactions (db w)
    /\ (tasks (db w') = tasks (db w)
        \/ exists row,
             tasks (db w') = (tasks (db w) ++ [row])%list
             /\ t_photo_url row = orNull (pt_photoUrl d)).
Proof.
  unfold tasks_create; run.
  destruct (auth_user env); [| outcome].
  destruct (isoOrNull (pt_dueDate d)); [| outcome].
  destruct (db_error env); outcome.
Qed.

Lemma transactions_create_cases (env : Env) (d : ParsedTransaction) (w : World) :
  exists r w',
    transactions_create env d w = (r, w')
    /\ tasks (db w') = tasks (db w)
    /\ events (db w') = events (db w)
    /\ notes (db w') = notes (db w)
    /\ (transactions (db w') = transactions (db w)
        \/ exists row,
             transactions (db w') = (transactions (db w) ++ [row])%list
             /\ x_photo_url row = orNull (px_photoUrl d)).
Proof.
  unfold transactions_create; run.
  destruct (auth_user env); [| outcome].
  destruct (toISOString _); [| outcome].
  destruct (db_error env); outcome.
Qed.

Lemma insertNote_cases (env : Env) (u : string) (d : ParsedNote) (w : World) :
  exists r w',
    insertNote env u d w = (r, w')
    /\ tasks (db w') = tasks (db w)
    /\ events (db w') = events (db w)
    /\ transactions (db w') = transactions (db w)
    /\ (notes (db w') = notes (db w)
        \/ exists row,
             notes (db w') = (notes (db w) ++ [row])%list
             /\ n_photo_url row = orNull (pn_photoUrl d)).
Proof.
  unfold insertNote; run.
  destruct (db_error env); outcome.
Qed.

Lemma updateContent_cases (env : Env) (id : nat) (content : string) (w : World) :
  exists r w',
    updateContent env id content w = (r, w')
    /\ tasks (db w') = tasks (db w)
    /\ events (db w') = events (db w)
    /\ transactions (db w') = transactions (db w)
    /\ uuids w' = uuids w
    /\ (notes (db w') = notes (db w)
        \/ notes (db w')
           = map (fun r => if n_id r =? id then withContent env content r else r)
               (notes (db w))).
Proof.
  unfold updateContent; run.
  destruct (db_error env); [outcome |].
  destruct (single _); outcome.
Qed.

(** [notes.create] touches the notes table only: it leaves it alone (on an
    error), adds one row with the photo it was given, or rewrites the
    content of the rows with one id. *)
Lemma notes_create_cases (env : Env) (d : ParsedNote) (w : World) :
  exists r w',
    notes_create env d w = (r, w')
    /\ tasks (db w') = tasks (db w)
    /\ events (db w') = events (db w)
    /\ transactions (db w') = transactions (db w)
    /\ (notes (db w') = notes (db w)
        \/ (exists row,
              notes (db w') = (notes (db w) ++ [row])%list
              /\ n_photo_url row = orNull (pn_photoUrl d))
        \/ exists id content,
             notes (db w')
             = map (fun r => if n_id r =? id then withContent env content r else r)
                 (notes (db w))).
Proof.
  unfold notes_create. unfold getUserId, bind at 1.
  destruct (auth_user env) as [u |]; [| unfold throw; outcome].
  unfold ret at 1.
  destruct (extractMergeInfo d) as [[bucketTitle entry] |].
  - unfold query, bind at 1.
    destruct (db_error env) eqn:Hdb; [unfold throw; outcome |].
    unfold ret at 1. unfold bind at 1, gets at 1. unfold bind at 1, lift at 1.
    destruct (selectByTitle u bucketTitle (notes (db w))) as [found | e];
      [| outcome].
    destruct (firstn 1 found) as [| existingNote rest].
    + destruct (insertNote_cases env u
                  {| pn_title := Some bucketTitle;
                     pn_content := entryMarkup entry;
                     pn_tags := pn_tags d; pn_photoUrl := pn_photoUrl d |} w)
        as (r & w' & H & Ht & He & Hx & Hn).
      exists r, w'. rewrite H. cbn [pn_photoUrl] in Hn.
      repeat split; auto. destruct Hn as [Hn | Hn]; auto.
    + destruct (updateContent_cases env (n_id existingNote)
                  (newContent (n_content existingNote) (entryMarkup entry)) w)
        as (r & w' & H & Ht & He & Hx & _ & Hn).
      exists r, w'. rewrite H. repeat split; auto.
      destruct Hn as [Hn | Hn]; eauto.
  - destruct (insertNote_cases env u d w) as (r & w' & H & Ht & He & Hx & Hn).
    exists r, w'. rewrite H. repeat split; auto. destruct Hn as [Hn | Hn]; auto.
Qed.

End Storage.

(* ================================================================== *)
(** * Properties of the capture orchestrator *)

Section Orchestrator.
Import JS Json Types DateTime Merge Supabase CaptureBox.

Lemma events_create_ok (env : Env) (data : ParsedEvent) (w : World)
    (u : string) (s e : Z) :
  auth_user env = Some u -> db_error env = None ->
  pe_startTime data = Some s -> pe_endTime data = Some e ->
  events_create env data w
  = (Ok (mapEventFromDB (eventRow env u (uuids w) data s e)),
     addEvent (eventRow env u (uuids w) data s e) w).
Proof.
  intros Hu Hd Hs He.
  unfold events_create, getUserId, query, bind, generateId, lift, modify, ret.
  rewrite Hu, Hd, Hs, He. reflexivity.
Qed.

(** The push of a freshly created event throws when [pushFails]. *)
Lemma push_throws (env : Env) (ev : Event) :
  pushFails env -> is_ok (GoogleCalendar.pushToGoogleCalendar env ev) = false.
Proof.
  intros H. unfold GoogleCalendar.pushToGoogleCalendar.
  destruct (toISOString (event_startTime ev)); [| reflexivity].
  destruct (toISOString (event_endTime ev)); [| reflexivity].
  cbn [rbind].
  assert (forall m p, is_ok (GoogleCalendar.googleCalendarRequest env m p) = false)
    as Hreq.
  { intros m p. unfold GoogleCalendar.googleCalendarRequest.
    destruct H as [-> | [[x Hx] | [x Hx]]]; [reflexivity | |];
      destruct (GoogleCalendar.getGoogleAccessToken env); try reflexivity;
      rewrite Hx; reflexivity. }
  destruct (orNull (event_googleEventId ev));
    [ specialize (Hreq "PUT" ("/calendars/primary/events/" ++ s))
    | specialize (Hreq "POST" "/calendars/primary/events") ];
    destruct (GoogleCalendar.googleCalendarRequest env _ _);
    [discriminate | reflexivity | discriminate | reflexivity].
Qed.

(** Recording the Google id of an event keeps every event in the table,
    with its identity, title and interval. *)
Lemma events_update_keeps (env : Env) (id : nat) (gid : string) (w : World) :
  exists r w',
    events_update env id
      {| upd_title := None; upd_description := None; upd_startTime := None;
         upd_endTime := None; upd_location := None; upd_isRecurring := None;
         upd_recurrenceRule := None; upd_googleEventId := Some gid;
         upd_color := None |} w = (r, w')
    /\ forall row, In row (events (db w)) ->
         exists row', In row' (events (db w'))
           /\ e_id row' = e_id row /\ e_title row' = e_title row
           /\ e_start_time row' = e_start_time row
           /\ e_end_time row' = e_end_time row.
Proof.
  unfold events_update, bind, lift, query, gets, modify, ret, throw.
  cbn [isoOrNull upd_startTime upd_endTime].
  destruct (db_error env).
  - eexists _, _. split; [reflexivity |]. intros row Hin. exists row. auto.
  - destruct (single _).
    + eexists _, _. split; [reflexivity |]. intros row Hin. cbn [db events setDb].
      eexists. split.
      * apply in_map_iff. exists row. split; [reflexivity | exact Hin].
      * destruct (e_id row =? id); cbn; auto.
    + eexists _, _. split; [reflexivity |]. intros row Hin. exists row. auto.
Qed.

Lemma persist_event (env : Env) (data : ParsedEvent) (st : State)
    (photoUrl : option string) (u : string) (s e : Z) :
  auth_user env = Some u -> db_error env = None ->
  pe_startTime data = Some s -> pe_endTime data = Some e ->
  exists w',
    persist env (CaptureEvent data) photoUrl st
    = (Ok tt, {| ui := ui st; world := w' |})
    /\ (pushFails env ->
        w' = addEvent (eventRow env u (uuids (world st)) data s e) (world st))
    /\ exists row,
         In row (events (db w'))
         /\ e_id row = uuids (world st)
         /\ e_start_time row = s /\ e_end_time row = e
         /\ e_title row = pe_title data.
Proof.
  intros Hu Hd Hs He.
  unfold persist, bind, storage.
  rewrite (events_create_ok env data (world st) u s e Hu Hd Hs He).
  cbn [ui world].
  set (row := eventRow env u (uuids (world st)) data s e).
  assert (Hrow : In row (events (db (addEvent row (world st))))).
  { cbn. apply in_or_app. right. left. reflexivity. }
  unfold catch, bind, lift.
  pose proof (push_throws env (mapEventFromDB row)) as Hpush.
  destruct (GoogleCalendar.pushToGoogleCalendar env (mapEventFromDB row))
    as [gid | err].
  - destruct (orNull gid) as [gid0 |].
    + cbn [ui world].
      destruct (events_update_keeps env (event_id (mapEventFromDB row)) gid0
                  (addEvent row (world st))) as (r & w' & Hupd & Hkeep).
      rewrite Hupd. exists w'. split; [destruct r; reflexivity |].
      split; [intros F; specialize (Hpush F); discriminate |].
      destruct (Hkeep row Hrow) as (row' & Hin & Hid & Ht & Hst & Het).
      exists row'. rewrite Hid, Ht, Hst, Het. auto.
    + exists (addEvent row (world st)). split; [reflexivity |].
      split; [intros F; specialize (Hpush F); discriminate |].
      exists row. auto.
  - exists (addEvent row (world st)). split; [reflexivity |].
    split; [reflexivity |]. exists row. auto.
Qed.

(** ** The photo step *)

(** The upload draws one identifier, whatever its outcome. *)
Lemma upload_draws (env : Env) (photo : File) (category : string) (w : World) :
  snd (FileStorage.uploadCapturePhoto env photo category w) = drawn w.
Proof.
  unfold FileStorage.uploadCapturePhoto, bind, generateId, throw, ret.
  destruct (upload_error env); [reflexivity |].
  destruct (orNull (public_url env)); reflexivity.
Qed.

(** The photo step never throws and leaves the tables alone; it draws an
    identifier only for a photo that it uploads. *)
Lemma uploadStep_total (env : Env) (c : ParsedCapture) (st : State) :
  exists p ui' w',
    uploadStep env c st = (Ok p, {| ui := ui'; world := w' |})
    /\ db w' = db (world st)
    /\ (supportsPhoto c = false -> w' = world st).
Proof.
  unfold uploadStep, bind, gets.
  destruct (photoFile (ui st)) as [photo |].
  - destruct (supportsPhoto c).
    + unfold setPhotoUploading, finally, catch, bind, storage, onUi, modify,
        showNotice, ret.
      cbn [snd fst ui world].
      pose proof (upload_draws env photo (categoryOf c) (world st)) as Hd.
      destruct (FileStorage.uploadCapturePhoto env photo (categoryOf c)
                  (world st)) as [[url | e] w1];
        cbn [snd] in Hd; subst w1; cbn [snd fst ui world];
        eexists _, _, _; (split; [reflexivity |]);
        (split; [reflexivity | discriminate]).
    + unfold showNotice, onUi, modify, ret. cbn. eauto 6.
  - unfold ret. destruct st. cbn. eauto 6.
Qed.

(** With a photo attached to a capture that takes one, a failed upload
    gives no URL and raises the notice. *)
Lemma uploadStep_failed (env : Env) (c : ParsedCapture) (st : State)
    (photo : File) :
  photoFile (ui st) = Some photo -> supportsPhoto c = true ->
  is_ok (fst (FileStorage.uploadCapturePhoto env photo (categoryOf c)
                (world st))) = false ->
  exists ui',
    uploadStep env c st = (Ok None, {| ui := ui'; world := drawn (world st) |})
    /\ notice ui' = Some (error, uploadFailedNotice)
    /\ success ui' = success (ui st).
Proof.
  intros Hp Hs Hu. unfold uploadStep, bind, gets. rewrite Hp, Hs.
  unfold setPhotoUploading, finally, catch, bind, storage, onUi, modify,
    showNotice, ret.
  cbn [snd fst ui world].
  pose proof (upload_draws env photo (categoryOf c) (world st)) as Hd.
  destruct (FileStorage.uploadCapturePhoto env photo (categoryOf c)
              (world st)) as [[url | e] w1];
    cbn [snd fst] in Hd, Hu; [discriminate |]. subst w1.
  cbn. eauto.
Qed.

Lemma uploadStep_no_photo (env : Env) (c : ParsedCapture) (st : State) :
  photoFile (ui st) = None -> uploadStep env c st = (Ok None, st).
Proof.
  intros Hp. unfold uploadStep, bind, gets, ret. rewrite Hp. reflexivity.
Qed.

(** ** [handleConfirm] and [handleSubmit] around the [switch] *)

Lemma handleConfirm_after (env : Env) (c : ParsedCapture) (st st1 : State)
    (p : option string) :
  uploadStep env c st = (Ok p, st1) ->
  forall r st2, persist env c p st1 = (r, st2) ->
  exists ui',
    handleConfirm env c st = (r, {| ui := ui'; world := world st2 |})
    /\ notice ui' = notice (ui st2)
    /\ (is_ok r = false -> ui' = ui st2).
Proof.
  intros Hup r st2 Hper.
  unfold handleConfirm, catch, bind. rewrite Hup, Hper.
  destruct r as [[] | e].
  - unfold setInput, setParsed, clearPhotoSelection, onSuccess, onUi, modify.
    cbn. eexists. split; [reflexivity |]. split; [reflexivity | discriminate].
  - unfold throw. destruct st2. cbn. eauto.
Qed.

(** [handleSubmit] on a ready box runs [handleConfirm] from a state with
    the same store and the same photo, and reports its outcome in
    [success]. *)
Lemma handleSubmit_runs (env : Env) (c : ParsedCapture) (st : State) :
  ready st ->
  exists st1,
    world st1 = world st
    /\ photoFile (ui st1) = photoFile (ui st)
    /\ success (ui st1) = false
    /\ forall r st2, handleConfirm env c st1 = (r, st2) ->
         let st' := handleSubmit env (Ok c) st in
         world st' = world st2
         /\ success (ui st')
            = match r with Ok _ => true | Throw _ => success (ui st2) end
         /\ notice (ui st') = notice (ui st2).
Proof.
  intros [Hin Hload]. unfold handleSubmit. rewrite Hin, Hload. cbn [orb].
  unfold setLoading, setSuccess, setParsed, finally, catch, bind, lift, onUi,
    modify, ret.
  cbn [ui world input loading success parsed photoFile photoUploading notice
         saved].
  exists {| ui := {| input := input (ui st); loading := true; success := false;
                     parsed := Some c; photoFile := photoFile (ui st);
                     photoUploading := photoUploading (ui st);
                     notice := notice (ui st); saved := saved (ui st) |};
            world := world st |}.
  split; [reflexivity | split; [reflexivity | split; [reflexivity |]]].
  intros r st2 Hc. rewrite Hc.
  destruct r as [[] | e]; cbn; auto.
Qed.

(** ** Event captures *)

Lemma event_capture (env : Env) (data : ParsedEvent) (st : State)
    (u : string) (s e : Z) :
  auth_user env = Some u -> db_error env = None ->
  pe_startTime data = Some s -> pe_endTime data = Some e ->
  ready st ->
  let st' := handleSubmit env (Ok (CaptureEvent data)) st in
  success (ui st') = true
  /\ (pushFails env ->
      world st' = addEvent (eventRow env u (uuids (world st)) data s e) (world st))
  /\ exists row,
       In row (events (db (world st')))
       /\ e_id row = uuids (world st)
       /\ e_start_time row = s /\ e_end_time row = e
       /\ e_title row = pe_title data.
Proof.
  intros Hu Hd Hs He Hready.
  destruct (handleSubmit_runs env (CaptureEvent data) st Hready)
    as (st1 & Hw1 & _ & _ & Hrun).
  destruct (uploadStep_total env (CaptureEvent data) st1)
    as (p & ui1 & w1 & Hup & _ & Hsame).
  rewrite (Hsame eq_refl) in Hup.
  destruct (persist_event env data {| ui := ui1; world := world st1 |} p u s e
              Hu Hd Hs He) as (w' & Hper & Hfail & Hrow).
  destruct (handleConfirm_after env _ st1 _ p Hup _ _ Hper) as (ui2 & Hc & _).
  destruct (Hrun _ _ Hc) as (Hw & Hsucc & _).
  cbn [world] in *. rewrite Hw1 in *.
  cbv zeta. rewrite Hw, Hsucc. auto.
Qed.

(** C1, as the code has it.  For every capture classified as an Event
    whose start and end are valid dates, the orchestrator persists an event
    with exactly the start and the end the classifier returned and reports
    success; the end is never compared with the start, so an interval that
    is empty or inverted is persisted like any other. *)
Theorem event_interval_persisted_unchecked (env : Env) (data : ParsedEvent)
    (st : State) (u : string) (s e : Z) :
  auth_user env = Some u -> db_error env = None ->
  pe_startTime data = Some s -> pe_endTime data = Some e ->
  ready st ->
  let st' := handleSubmit env (Ok (CaptureEvent data)) st in
  success (ui st') = true
  /\ exists row,
       In row (events (db (world st')))
       /\ e_id row = uuids (world st)
       /\ e_start_time row = s /\ e_end_time row = e
       /\ e_title row = pe_title data.
Proof.
  intros Hu Hd Hs He Hready.
  destruct (event_capture env data st u s e Hu Hd Hs He Hready) as (H1 & _ & H3).
  split; assumption.
Qed.

Lemma event_interval_persisted_unchecked_witness :
  let st := Examples.start "standup at 3" None Examples.emptyWorld in
  let st' := handleSubmit Examples.env0 (Ok (CaptureEvent Examples.inverted)) st in
  ready st
  /\ success (ui st') = true
  /\ exists row,
       In row (events (db (world st')))
       /\ e_id row = 0
       /\ e_start_time row = 1709305200000%Z
       /\ e_end_time row = 1709301600000%Z
       /\ e_title row = "Standup".
Proof.
  cbv zeta. split.
  - split; reflexivity.
  - apply (event_interval_persisted_unchecked Examples.env0 Examples.inverted
             (Examples.start "standup at 3" None Examples.emptyWorld) "user-1").
    + reflexivity.
    + reflexivity.
    + reflexivity.
    + reflexivity.
    + split; reflexivity.
Defined.

(** C1 as stated fails: the model answers with an event that ends at
    14:00 and starts at 15:00; the capture succeeds and the inverted
    interval is in the store. *)
Lemma inverted_interval_is_persisted :
  option_map
    (fun st' =>
       (success (ui st'),
        map (fun r => (e_start_time r, e_end_time r))
            (events (db (world st')))))
    (capture (Examples.withResponse Examples.invertedEvent Examples.env0)
             (Examples.start "standup at 3" None Examples.emptyWorld))
  = Some (true, [(1709305200000%Z, 1709301600000%Z)])
  /\ (1709301600000 <= 1709305200000)%Z.
Proof. split; [vm_compute; reflexivity | lia]. Qed.

(** C3, as the code has it.  Without a Google access token the push
    throws "Not authenticated with Google"; it returns no value.  The
    orchestrator catches whatever the push throws: the capture reports
    success and the store gains exactly the new event, with no external
    id. *)
Theorem calendar_failure_keeps_event (env : Env) (data : ParsedEvent)
    (st : State) (u : string) (s e : Z) :
  pushFails env ->
  auth_user env = Some u -> db_error env = None ->
  pe_startTime data = Some s -> pe_endTime data = Some e ->
  ready st ->
  let row := eventRow env u (uuids (world st)) data s e in
  let st' := handleSubmit env (Ok (CaptureEvent data)) st in
  (GoogleCalendar.getGoogleAccessToken env = None ->
   GoogleCalendar.pushToGoogleCalendar env (mapEventFromDB row)
   = Throw "Not authenticated with Google")
  /\ is_ok (GoogleCalendar.pushToGoogleCalendar env (mapEventFromDB row)) = false
  /\ success (ui st') = true
  /\ events (db (world st')) = (events (db (world st)) ++ [row])%list
  /\ e_google_event_id row = None
  /\ tasks (db (world st')) = tasks (db (world st))
  /\ notes (db (world st')) = notes (db (world st))
  /\ transactions (db (world st')) = transactions (db (world st)).
Proof.
  intros Hfail Hu Hd Hs He Hready.
  destruct (event_capture env data st u s e Hu Hd Hs He Hready) as (H1 & H2 & _).
  specialize (H2 Hfail). cbv zeta. rewrite H1, H2.
  repeat split; try reflexivity.
  - intros Htok. unfold GoogleCalendar.pushToGoogleCalendar,
      GoogleCalendar.googleCalendarRequest.
    rewrite Htok. reflexivity.
  - apply push_throws. exact Hfail.
Qed.

Lemma calendar_failure_keeps_event_witness :
  let st := Examples.start "standup at 3" None Examples.emptyWorld in
  let row := eventRow Examples.env0 "user-1" 0 Examples.standup
               1709305200000 1709308800000 in
  let st' := handleSubmit Examples.env0 (Ok (CaptureEvent Examples.standup)) st in
  pushFails Examples.env0
  /\ success (ui st') = true
  /\ events (db (world st')) = [row]
  /\ e_google_event_id row = None.
Proof.
  cbv zeta.
  assert (Hf : pushFails Examples.env0) by (left; reflexivity).
  split; [exact Hf |].
  pose proof (calendar_failure_keeps_event Examples.env0 Examples.standup
                (Examples.start "standup at 3" None Examples.emptyWorld)
                "user-1" 1709305200000 1709308800000 Hf eq_refl eq_refl
                eq_refl eq_refl (conj eq_refl eq_refl)) as H.
  cbv zeta in H. destruct H as (_ & _ & H3 & H4 & H5 & _).
  split; [exact H3 | split; [exact H4 | exact H5]].
Defined.

(** C3 as stated fails in its first half: with no access token the push
    does not return a "skipped" value, it throws. *)
Lemma push_without_token_throws :
  provider_token Examples.env0 = None
  /\ GoogleCalendar.pushToGoogleCalendar Examples.env0
       (mapEventFromDB
          (eventRow Examples.env0 "user-1" 0 Examples.standup
             1709305200000 1709308800000))
     = Throw "Not authenticated with Google".
Proof. split; reflexivity. Qed.

End Orchestrator.

(* ================================================================== *)
(** * The bucket pattern against its reading as a regular expression *)

Section Pattern.
Import JS BucketRegex.

Lemma length_append (a b : string) :
  String.length (a ++ b) = String.length a + String.length b.
Proof. induction a; simpl; [reflexivity | rewrite IHa; reflexivity]. Qed.

Lemma append_snoc (a : string) (c : ascii) (b : string) :
  (a ++ String c EmptyString) ++ b = a ++ String c b.
Proof. induction a; simpl; [reflexivity | rewrite IHa; reflexivity]. Qed.

Lemma append_empty_r (a : string) : a ++ EmptyString = a.
Proof. induction a; simpl; [reflexivity | rewrite IHa; reflexivity]. Qed.

Lemma append_assoc (a b c : string) : (a ++ b) ++ c = a ++ (b ++ c).
Proof. induction a; simpl; [reflexivity | rewrite IHa; reflexivity]. Qed.

(** ** Prefixes *)

Lemma startsWith_append (a b : string) : startsWith (a ++ b) a = true.
Proof.
  induction a; simpl; [destruct b; reflexivity |].
  rewrite Ascii.eqb_refl. exact IHa.
Qed.

Lemma startsWith_split (s p : string) :
  startsWith s p = true -> s = p ++ drop (String.length p) s.
Proof.
  revert s. induction p as [| a p IH]; intros s H; [reflexivity |].
  destruct s as [| b s]; [discriminate |].
  cbn in H. apply andb_true_iff in H. destruct H as [Hab Hs].
  apply Ascii.eqb_eq in Hab. subst b. cbn. rewrite <- (IH s Hs). reflexivity.
Qed.

Lemma startsWith_empty (s : string) : startsWith s EmptyString = true.
Proof. destruct s; reflexivity. Qed.

(** Two prefixes of one string: the shorter is a prefix of the longer. *)
Lemma startsWith_shorter (s p q : string) :
  startsWith s p = true -> startsWith s q = true ->
  String.length p <= String.length q -> startsWith q p = true.
Proof.
  revert s q. induction p as [| a p IH]; intros s q Hp Hq Hlen.
  - apply startsWith_empty.
  - destruct q as [| b q]; [cbn in Hlen; lia |].
    destruct s as [| c s]; [discriminate |].
    cbn in Hp, Hq |- *.
    apply andb_true_iff in Hp. destruct Hp as [Hac Hp].
    apply andb_true_iff in Hq. destruct Hq as [Hbc Hq].
    apply Ascii.eqb_eq in Hac, Hbc. subst. rewrite Ascii.eqb_refl.
    cbn in Hlen. apply (IH s q Hp Hq). lia.
Qed.

Lemma startsWith_longer (a b p : string) :
  startsWith (a ++ b) p = true -> String.length p <= String.length a ->
  startsWith a p = true.
Proof.
  intros H Hlen.
  apply (startsWith_shorter (a ++ b) p a H (startsWith_append a b) Hlen).
Qed.

Lemma startsWith_app_l (a b p : string) :
  startsWith a p = true -> startsWith (a ++ b) p = true.
Proof.
  intros H. rewrite (startsWith_split _ _ H), append_assoc.
  apply startsWith_append.
Qed.

Lemma drop_append (a b : string) : drop (String.length a) (a ++ b) = b.
Proof. induction a; simpl; [destruct b; reflexivity | exact IHa]. Qed.

Lemma drop_app_l (n : nat) (a b : string) :
  n <= String.length a -> drop n (a ++ b) = drop n a ++ b.
Proof.
  revert a. induction n as [| n IH]; intros a H.
  - destruct a; [destruct b |]; reflexivity.
  - destruct a as [| c a]; [cbn in H; lia |].
    cbn. apply IH. cbn in H. lia.
Qed.

Lemma length_drop (n : nat) (s : string) :
  String.length (drop n s) = String.length s - n.
Proof.
  revert s. induction n as [| n IH]; intros s.
  - destruct s; cbn; lia.
  - destruct s as [| c s]; [reflexivity |]. cbn. apply IH.
Qed.

Lemma startsWith_past (m : string) (sep : ascii) (x w : string) :
  startsWith (m ++ String sep x) w = true ->
  String.length m < String.length w ->
  exists w', w = m ++ String sep w'.
Proof.
  revert w. induction m as [| c m IH]; intros w H Hlen.
  - destruct w as [| a w]; [cbn in Hlen; lia |].
    cbn in H. apply andb_true_iff in H. destruct H as [Ha _].
    apply Ascii.eqb_eq in Ha. subst a. exists w. reflexivity.
  - destruct w as [| a w]; [cbn in Hlen; lia |].
    cbn in H. apply andb_true_iff in H. destruct H as [Ha H].
    apply Ascii.eqb_eq in Ha. subst a.
    destruct (IH w H) as (w' & ->); [cbn in Hlen; lia |].
    exists w'. reflexivity.
Qed.

Lemma occurs_app (c : ascii) (a b : string) :
  occurs c (a ++ b) = occurs c a || occurs c b.
Proof.
  induction a as [| x a IH]; [reflexivity |].
  cbn. rewrite IH. apply orb_assoc.
Qed.

(** ** The character at the head of a string *)

Section Classes.
Variable class : list string.
Hypothesis Hclass : sound class = true.

Lemma class_member (w : string) :
  In w class ->
  isEmpty w = false
  /\ forall v, In v class -> startsWith v w = true -> w = v.
Proof.
  intros Hin. unfold sound in Hclass.
  rewrite forallb_forall in Hclass. specialize (Hclass w Hin).
  apply andb_true_iff in Hclass. destruct Hclass as [Hne Hall].
  split; [apply negb_true_iff; exact Hne |].
  intros v Hv Hs. rewrite forallb_forall in Hall. specialize (Hall v Hv).
  rewrite Hs in Hall. apply String.eqb_eq. exact Hall.
Qed.

Lemma headWidth_found (s : string) (n : nat) :
  headWidth class s = S n ->
  exists w, In w class /\ startsWith s w = true /\ String.length w = S n.
Proof.
  unfold headWidth. destruct (find (startsWith s) class) as [w |] eqn:E;
    [| discriminate].
  apply find_some in E. destruct E as [Hin Hs]. intros H. eauto.
Qed.

Lemma headWidth_member (s w : string) :
  In w class -> startsWith s w = true -> headWidth class s = String.length w.
Proof.
  intros Hin Hs. unfold headWidth.
  destruct (find (startsWith s) class) as [v |] eqn:E.
  - apply find_some in E. destruct E as [Hv Hsv].
    destruct (class_member w Hin) as [_ Hw].
    destruct (class_member v Hv) as [_ Hv'].
    destruct (Nat.le_ge_cases (String.length w) (String.length v)) as [L | L].
    + rewrite (Hw v Hv (startsWith_shorter s w v Hs Hsv L)). reflexivity.
    + rewrite (Hv' w Hin (startsWith_shorter s v w Hsv Hs L)). reflexivity.
  - exfalso. pose proof (find_none _ _ E w Hin) as F. congruence.
Qed.

Lemma headWidth_zero (s w : string) :
  headWidth class s = 0 -> In w class -> startsWith s w = false.
Proof.
  intros H Hin. destruct (startsWith s w) eqn:E; [| reflexivity].
  rewrite (headWidth_member s w Hin E) in H.
  destruct (class_member w Hin) as [Hne _].
  destruct w; [discriminate | discriminate].
Qed.

Lemma headWidth_length (s : string) :
  headWidth class s <= String.length s.
Proof.
  destruct (headWidth class s) as [| n] eqn:E; [lia |].
  destruct (headWidth_found s n E) as (w & _ & Hs & Hlen).
  rewrite (startsWith_split _ _ Hs), length_append. lia.
Qed.

(** The character a string begins with is the one every extension of it
    begins with. *)
Lemma headWidth_app (a b : string) (n : nat) :
  headWidth class a = S n -> headWidth class (a ++ b) = S n.
Proof.
  intros H. destruct (headWidth_found a n H) as (w & Hin & Hs & Hlen).
  rewrite <- Hlen. apply headWidth_member; [exact Hin |].
  apply startsWith_app_l. exact Hs.
Qed.

(** A string that begins with no character of the class, extended: the
    extension begins with one only if the character runs over the end of
    the string. *)
Lemma headWidth_over (a b : string) (n : nat) :
  headWidth class a = 0 -> headWidth class (a ++ b) = S n ->
  exists w, In w class /\ startsWith (a ++ b) w = true
            /\ String.length a < String.length w.
Proof.
  intros Ha Hab. destruct (headWidth_found _ n Hab) as (w & Hin & Hs & Hlen).
  exists w. split; [exact Hin |]. split; [exact Hs |].
  destruct (Nat.lt_ge_cases (String.length a) (String.length w)) as [L | L];
    [exact L |].
  pose proof (headWidth_zero a w Ha Hin) as F.
  rewrite (startsWith_longer a b w Hs L) in F. discriminate.
Qed.

(** A string that begins with no character of the class still begins
    with none when a byte follows it that no character runs over. *)
Lemma headWidth_extend (c : ascii) (m x : string) :
  tailFree c class = true -> isEmpty m = false ->
  headWidth class m = 0 -> headWidth class (m ++ String c x) = 0.
Proof.
  intros Hfree Hm H.
  destruct (headWidth class (m ++ String c x)) as [| n] eqn:E;
    [reflexivity |].
  exfalso.
  destruct (headWidth_over m _ n H E) as (w & Hin & Hs & Hlen).
  destruct (startsWith_past _ _ _ _ Hs Hlen) as (w' & Hw).
  unfold tailFree in Hfree. rewrite forallb_forall in Hfree.
  specialize (Hfree w Hin). rewrite Hw in Hfree.
  destruct m as [| a m]; [discriminate |].
  cbn [append] in Hfree. apply negb_true_iff in Hfree.
  rewrite occurs_app in Hfree. cbn [occurs] in Hfree.
  rewrite Ascii.eqb_refl in Hfree. cbn in Hfree.
  rewrite orb_true_r in Hfree. discriminate.
Qed.

End Classes.

Lemma whiteSpace_sound : sound whiteSpace = true.
Proof. vm_compute. reflexivity. Qed.

Lemma lineTerminators_sound : sound lineTerminators = true.
Proof. vm_compute. reflexivity. Qed.

Lemma whiteWidth_length (s : string) : whiteWidth s <= String.length s.
Proof. exact (headWidth_length whiteSpace s). Qed.

Lemma whiteWidth_three (s : string) : whiteWidth s <= 3.
Proof.
  destruct (whiteWidth s) as [| n] eqn:E; [lia |].
  destruct (headWidth_found whiteSpace s n E) as (w & Hin & _ & Hlen).
  assert (Hall : forallb (fun w => String.length w <=? 3) whiteSpace = true)
    by (vm_compute; reflexivity).
  rewrite forallb_forall in Hall. specialize (Hall w Hin).
  apply Nat.leb_le in Hall. lia.
Qed.

Lemma whiteWidth_app (a b : string) (n : nat) :
  whiteWidth a = S n -> whiteWidth (a ++ b) = S n.
Proof. exact (headWidth_app whiteSpace whiteSpace_sound a b n). Qed.

(** ** White space, one character at a time *)

Lemma trimStart_eq (s : string) :
  trimStart s
  = match whiteWidth s with
    | 0 => s
    | S n => trimStart (drop (S n) s)
    end.
Proof.
  pose proof (whiteWidth_length s) as Hlen.
  pose proof (whiteWidth_three s) as Hthree.
  destruct s as [| a s]; [destruct (whiteWidth EmptyString); reflexivity |].
  cbn [trimStart].
  destruct (whiteWidth (String a s)) as [| [| [| n]]];
    [reflexivity | reflexivity | |].
  - destruct s as [| b s]; [cbn in Hlen; lia | reflexivity].
  - destruct s as [| b [| c s]]; [cbn in Hlen; lia .. |].
    assert (n = 0) by lia. subst n. reflexivity.
Qed.

Lemma allWhite_eq (s : string) :
  allWhite s
  = match s with
    | EmptyString => true
    | _ => match whiteWidth s with
           | 0 => false
           | S n => allWhite (drop (S n) s)
           end
    end.
Proof.
  pose proof (whiteWidth_length s) as Hlen.
  pose proof (whiteWidth_three s) as Hthree.
  destruct s as [| a s]; [reflexivity |].
  cbn [allWhite].
  destruct (whiteWidth (String a s)) as [| [| [| n]]];
    [reflexivity | reflexivity | |].
  - destruct s as [| b s]; [cbn in Hlen; lia | reflexivity].
  - destruct s as [| b [| c s]]; [cbn in Hlen; lia .. |].
    assert (n = 0) by lia. subst n. reflexivity.
Qed.

Lemma afterSeparator_eq (s : string) :
  afterSeparator s
  = match whiteWidth s with
    | 0 => group2 s
    | S n =>
        match afterSeparator (drop (S n) s) with
        | Some g => Some g
        | None => group2 s
        end
    end.
Proof.
  pose proof (whiteWidth_length s) as Hlen.
  pose proof (whiteWidth_three s) as Hthree.
  destruct s as [| a s]; [destruct (whiteWidth EmptyString); [reflexivity |] |].
  - cbn in Hlen. lia.
  - cbn [afterSeparator].
    destruct (whiteWidth (String a s)) as [| [| [| n]]];
      [reflexivity | reflexivity | |].
    + destruct s as [| b s]; [cbn in Hlen; lia | reflexivity].
    + destruct s as [| b [| c s]]; [cbn in Hlen; lia .. |].
      assert (n = 0) by lia. subst n. reflexivity.
Qed.

(** Induction along the white-space characters a string begins with. *)
Lemma white_ind (P : string -> Prop) :
  (forall s, whiteWidth s = 0 -> P s) ->
  (forall s n, whiteWidth s = S n -> P (drop (S n) s) -> P s) ->
  forall s, P s.
Proof.
  intros Hstop Hstep s.
  remember (String.length s) as k eqn:Hk. revert s Hk.
  induction k as [k IH] using lt_wf_ind. intros s Hk.
  destruct (whiteWidth s) as [| n] eqn:E; [apply Hstop; exact E |].
  apply (Hstep s n E).
  apply (IH (String.length (drop (S n) s))); [| reflexivity].
  pose proof (whiteWidth_length s). rewrite length_drop. lia.
Qed.

Lemma allWhite_empty (s : string) : isEmpty s = true -> allWhite s = true.
Proof. destruct s; [reflexivity | discriminate]. Qed.

(** White space in front does not bear on whether the rest is white
    space. *)
Lemma allWhite_app_l (a b : string) :
  allWhite a = true -> allWhite (a ++ b) = allWhite b.
Proof.
  induction a as [a Hw | a n Hw IH] using white_ind; intros H.
  - rewrite allWhite_eq, Hw in H. destruct a; [reflexivity | discriminate].
  - rewrite allWhite_eq, Hw in H.
    destruct a as [| c a]; [cbn in Hw; discriminate |].
    rewrite (allWhite_eq (String c a ++ b)).
    change (String c a ++ b) with (String c (a ++ b)) at 1.
    change (String c (a ++ b)) with (String c a ++ b).
    rewrite (whiteWidth_app _ b n Hw).
    rewrite drop_app_l by (rewrite <- Hw; apply whiteWidth_length).
    apply IH. exact H.
Qed.

Lemma allWhite_step (s : string) (n : nat) :
  whiteWidth s = S n -> allWhite s = allWhite (drop (S n) s).
Proof.
  intros H. rewrite allWhite_eq, H.
  destruct s; [cbn in H; discriminate | reflexivity].
Qed.

(** A non-empty string that is white space throughout begins with a
    white-space character. *)
Lemma allWhite_head (s : string) :
  allWhite s = true -> isEmpty s = false -> whiteWidth s <> 0.
Proof.
  intros H He F. rewrite allWhite_eq, F in H.
  destruct s; discriminate.
Qed.

(** ** The groups of the pattern *)

Lemma group2_some (s g : string) :
  group2 s = Some g -> g = s /\ isEmpty s = false /\ allDot s = true.
Proof.
  unfold group2, truthy. destruct (isEmpty s); cbn [negb andb]; [discriminate |].
  destruct (allDot s); [| discriminate].
  intros H. inversion H. auto.
Qed.

Lemma group2_line (s : string) :
  isEmpty s = false -> allDot s = true -> group2 s = Some s.
Proof. intros He Hd. unfold group2, truthy. rewrite He, Hd. reflexivity. Qed.

(** What [\s*(.+)$] returns is a group the rest ends with, after white
    space only. *)
Lemma afterSeparator_sound (s g : string) :
  afterSeparator s = Some g ->
  exists ws, s = ws ++ g /\ allWhite ws = true
             /\ isEmpty g = false /\ allDot g = true.
Proof.
  revert g. induction s as [s Hw | s n Hw IH] using white_ind; intros g H.
  - rewrite afterSeparator_eq, Hw in H.
    apply group2_some in H. destruct H as (-> & He & Hd).
    exists EmptyString. auto.
  - rewrite afterSeparator_eq, Hw in H.
    destruct (afterSeparator (drop (S n) s)) as [g' |] eqn:Ea.
    + inversion H. subst g'.
      destruct (IH g eq_refl) as (ws & Hs & Hws & Hg).
      destruct (headWidth_found whiteSpace s n Hw) as (w & Hin & Hsw & Hlen).
      exists (w ++ ws). split; [| split; [| exact Hg]].
      * rewrite append_assoc, <- Hs, <- Hlen. apply startsWith_split. exact Hsw.
      * assert (Hww : whiteWidth (w ++ ws) = S n).
        { rewrite <- Hlen.
          apply (headWidth_member whiteSpace whiteSpace_sound);
            [exact Hin | apply startsWith_append]. }
        rewrite (allWhite_step _ n Hww), <- Hlen, drop_append. exact Hws.
    + apply group2_some in H. destruct H as (-> & He & Hd).
      exists EmptyString. auto.
Qed.

(** [\s*(.+)$] finds a group whenever there is one, and never a longer
    one: the white space is taken greedily. *)
Lemma afterSeparator_complete (ws g : string) :
  allWhite ws = true -> isEmpty g = false -> allDot g = true ->
  exists g', afterSeparator (ws ++ g) = Some g'
             /\ String.length g' <= String.length g.
Proof.
  intros Hws He Hd. induction ws as [ws Hw | ws n Hw IH] using white_ind.
  - assert (ws = EmptyString) as ->.
    { destruct ws; [reflexivity |]. rewrite allWhite_eq, Hw in Hws.
      discriminate. }
    cbn [append]. rewrite afterSeparator_eq.
    destruct (whiteWidth g) as [| n] eqn:Eg.
    + rewrite (group2_line g He Hd). eauto.
    + destruct (afterSeparator (drop (S n) g)) as [g' |] eqn:Ea.
      * exists g'. split; [reflexivity |].
        destruct (afterSeparator_sound _ _ Ea) as (ws' & Hs & _).
        pose proof (length_drop (S n) g) as Hl.
        rewrite Hs, length_append in Hl. lia.
      * rewrite (group2_line g He Hd). eauto.
  - rewrite (allWhite_step _ n Hw) in Hws.
    destruct (IH Hws) as (g' & Hg' & Hlen).
    exists g'. split; [| exact Hlen].
    rewrite afterSeparator_eq, (whiteWidth_app _ g n Hw).
    rewrite drop_app_l by (rewrite <- Hw; apply whiteWidth_length).
    rewrite Hg'. reflexivity.
Qed.

(** On a single line, [\s*(.+)$] matches whatever is left, if anything. *)
Lemma afterSeparator_line (s : string) :
  allDot s = true -> isEmpty s = false -> exists g, afterSeparator s = Some g.
Proof.
  intros Hd He. rewrite afterSeparator_eq, (group2_line s He Hd).
  destruct (whiteWidth s); [eauto |].
  destruct (afterSeparator _); eauto.
Qed.

(** ** Line terminators *)

(** The atom [.] accepts the head of a string when it accepts the head of
    an extension of it. *)
Lemma isDot_app (a b : string) : isDot (a ++ b) = true -> isDot a = true.
Proof.
  unfold isDot. intros H.
  destruct (terminatorWidth a) as [| n] eqn:E; [reflexivity |].
  unfold terminatorWidth in *.
  rewrite (headWidth_app lineTerminators lineTerminators_sound a b n E) in H.
  discriminate.
Qed.

Lemma noSeparator_app (a b : string) :
  noSeparator (a ++ b) = noSeparator a && noSeparator b.
Proof.
  induction a as [| c a IH]; [reflexivity |].
  cbn. rewrite IH. apply andb_assoc.
Qed.

(** No line terminator has a colon or a hyphen among its bytes: whether
    [.] accepts the head of a string is not changed by a separator that
    follows the string. *)
Lemma isDot_before_separator (m : string) (sep : ascii) (x : string) :
  isDot m = true -> isSeparator sep = true ->
  isDot (m ++ String sep x) = true.
Proof.
  unfold isDot. intros H Hsep. apply Nat.eqb_eq in H.
  destruct (terminatorWidth (m ++ String sep x)) as [| n] eqn:E;
    [reflexivity |].
  exfalso. unfold terminatorWidth in *.
  destruct (headWidth_over lineTerminators lineTerminators_sound m _ n H E)
    as (w & Hin & Hs & Hlen).
  destruct (startsWith_past _ _ _ _ Hs Hlen) as (w' & Hw).
  assert (Hall : forallb noSeparator lineTerminators = true)
    by (vm_compute; reflexivity).
  rewrite forallb_forall in Hall. specialize (Hall w Hin).
  rewrite Hw, noSeparator_app in Hall. cbn [noSeparator] in Hall.
  rewrite Hsep in Hall. cbn in Hall. rewrite andb_false_r in Hall.
  discriminate.
Qed.

(** ** The first group *)

Lemma lazyGroup1_sound (acc s g1 g2 : string) :
  lazyGroup1 acc s = Some (g1, g2) ->
  exists mid sep ws,
    g1 = acc ++ mid
    /\ s = mid ++ String sep (ws ++ g2)
    /\ allDot mid = true /\ isSeparator sep = true /\ allWhite ws = true
    /\ isEmpty g2 = false /\ allDot g2 = true.
Proof.
  revert acc. induction s as [| c s IH]; intros acc H; [discriminate |].
  cbn [lazyGroup1] in H.
  assert (Hext : (if isDot (String c s)
                  then lazyGroup1 (acc ++ String c EmptyString) s
                  else None) = Some (g1, g2) ->
                 exists mid sep ws,
                   g1 = acc ++ mid
                   /\ String c s = mid ++ String sep (ws ++ g2)
                   /\ allDot mid = true /\ isSeparator sep = true
                   /\ allWhite ws = true
                   /\ isEmpty g2 = false /\ allDot g2 = true).
  { destruct (isDot (String c s)) eqn:Ed; [| discriminate].
    intros Hl. destruct (IH _ Hl) as (mid & sep & ws & -> & -> & Hm & Hrest).
    exists (String c mid), sep, ws. rewrite append_snoc.
    split; [reflexivity |]. split; [reflexivity |].
    split; [| exact Hrest].
    cbn [allDot]. rewrite Hm.
    rewrite (isDot_app (String c mid) (String sep (ws ++ g2)) Ed).
    reflexivity. }
  destruct (isSeparator c) eqn:Es; [| auto].
  destruct (afterSeparator s) as [g |] eqn:Ea; [| auto].
  inversion H. subst acc g.
  destruct (afterSeparator_sound _ _ Ea) as (ws & -> & Hws & He & Hd).
  exists EmptyString, c, ws. rewrite append_empty_r. repeat split; auto.
Qed.

(** The lazy first group: whenever the input splits, a match is found,
    and its first group is no longer than that of the split. *)
Lemma lazyGroup1_complete (acc mid : string) (sep : ascii) (ws g2 : string) :
  allDot mid = true -> isSeparator sep = true -> allWhite ws = true ->
  isEmpty g2 = false -> allDot g2 = true ->
  exists h1 h2,
    lazyGroup1 acc (mid ++ String sep (ws ++ g2)) = Some (h1, h2)
    /\ String.length h1 <= String.length (acc ++ mid).
Proof.
  intros Hm Hs Hws He Hd. revert acc.
  induction mid as [| c mid IH]; intros acc.
  - cbn [append lazyGroup1]. rewrite Hs.
    destruct (afterSeparator_complete ws g2 Hws He Hd) as (g' & -> & _).
    exists acc, g'. split; [reflexivity |]. rewrite length_append. lia.
  - cbn [allDot] in Hm. apply andb_true_iff in Hm. destruct Hm as [Hc Hm].
    cbn [append lazyGroup1].
    assert (Hdot : isDot (String c (mid ++ String sep (ws ++ g2))) = true)
      by exact (isDot_before_separator (String c mid) sep _ Hc Hs).
    rewrite Hdot.
    destruct (IH Hm (acc ++ String c EmptyString)) as (h1 & h2 & Hl & Hlen).
    rewrite append_snoc in Hlen.
    destruct (isSeparator c).
    + destruct (afterSeparator _) as [g |].
      * exists acc, g. split; [reflexivity |]. rewrite length_append. lia.
      * eauto.
    + eauto.
Qed.

(** A match of [exec] is a split of the source. *)
Lemma exec_sound (source g1 g2 : string) :
  exec source = Some (g1, g2) -> Splits source g1 g2.
Proof.
  unfold exec. destruct source as [| c s]; [discriminate |].
  destruct (isDot (String c s)) eqn:Ed; [| discriminate].
  intros H.
  destruct (lazyGroup1_sound _ _ _ _ H)
    as (mid & sep & ws & -> & -> & Hm & Hs & Hws & He & Hd).
  exists sep, ws. cbn [append allDot isEmpty]. rewrite Hm.
  rewrite (isDot_app (String c mid) (String sep (ws ++ g2)) Ed).
  repeat split; auto.
Qed.

(** Whenever the source splits, [exec] matches, and its first group is
    the shortest there is. *)
Lemma exec_complete (source g1 g2 : string) :
  Splits source g1 g2 ->
  exists h1 h2,
    exec source = Some (h1, h2)
    /\ String.length h1 <= String.length g1.
Proof.
  intros (sep & ws & -> & He1 & Hd1 & Hs & Hws & He2 & Hd2).
  destruct g1 as [| c mid]; [discriminate |].
  cbn [allDot] in Hd1. apply andb_true_iff in Hd1. destruct Hd1 as [Hc Hm].
  cbn [append]. unfold exec.
  assert (Hdot : isDot (String c (mid ++ String sep (ws ++ g2))) = true)
    by exact (isDot_before_separator (String c mid) sep _ Hc Hs).
  rewrite Hdot.
  apply (lazyGroup1_complete (String c EmptyString) mid sep ws g2); assumption.
Qed.

(** [exec] gives [null] exactly on the sources that do not split. *)
Lemma exec_none (source : string) :
  exec source = None <-> ~ exists g1 g2, Splits source g1 g2.
Proof.
  split.
  - intros H (g1 & g2 & Hs).
    destruct (exec_complete _ _ _ Hs) as (h1 & h2 & Hx & _). congruence.
  - intros H. destruct (exec source) as [[g1 g2] |] eqn:E; [| reflexivity].
    exfalso. apply H. exists g1, g2. apply exec_sound. exact E.
Qed.

Lemma lazyGroup1_first (acc s g1 g2 : string) :
  allDot s = true ->
  lazyGroup1 acc s = Some (g1, g2) ->
  exists mid, g1 = acc ++ mid /\ noSeparator mid = true.
Proof.
  revert acc. induction s as [| c s IH]; intros acc Hd H; [discriminate |].
  cbn [allDot] in Hd. apply andb_true_iff in Hd. destruct Hd as [Hc Hd].
  cbn [lazyGroup1] in H. rewrite Hc in H.
  destruct (isSeparator c) eqn:Es.
  - destruct (afterSeparator s) as [g |] eqn:Ea.
    + inversion H. subst. exists EmptyString.
      split; [| reflexivity]. symmetry. apply append_empty_r.
    + destruct s as [| a s].
      * discriminate.
      * destruct (afterSeparator_line (String a s) Hd eq_refl) as (g & Hg).
        congruence.
  - destruct (IH _ Hd H) as (mid & -> & Hmid).
    exists (String c mid). rewrite append_snoc. cbn. rewrite Es, Hmid. auto.
Qed.

(** On a source of one line the split is at the first colon or hyphen
    after the first character: the bucket holds none beyond its first
    character. *)
Lemma exec_first_separator (source g1 g2 : string) :
  allDot source = true ->
  exec source = Some (g1, g2) ->
  exists c rest, g1 = String c rest /\ noSeparator rest = true.
Proof.
  unfold exec. destruct source as [| c s]; [discriminate |].
  cbn [allDot]. intros Hd. apply andb_true_iff in Hd. destruct Hd as [Hc Hd].
  rewrite Hc. intros H.
  destruct (lazyGroup1_first _ _ _ _ Hd H) as (mid & -> & Hmid).
  exists c, mid. auto.
Qed.

(** ** Trimming and the halves of a match *)

Lemma trimEnd_eq_cons (c : ascii) (s : string) :
  allWhite (String c s) = false ->
  trimEnd (String c s) = String c (trimEnd s).
Proof. intros H. cbn [trimEnd]. rewrite H. reflexivity. Qed.

Lemma isEmpty_trimEnd (s : string) : isEmpty (trimEnd s) = allWhite s.
Proof.
  destruct s as [| c s]; [reflexivity |].
  cbn [trimEnd]. destruct (allWhite (String c s)); reflexivity.
Qed.

Lemma allWhite_trimStart (s : string) : allWhite (trimStart s) = allWhite s.
Proof.
  induction s as [s Hw | s n Hw IH] using white_ind.
  - rewrite trimStart_eq, Hw. reflexivity.
  - rewrite trimStart_eq, Hw, IH. symmetry. apply allWhite_step. exact Hw.
Qed.

(** A string is empty after trimming exactly when it is white space
    throughout. *)
Lemma isEmpty_trim (s : string) : isEmpty (trim s) = allWhite s.
Proof. unfold trim. rewrite isEmpty_trimEnd. apply allWhite_trimStart. Qed.

(** What [trimStart] removes is white space. *)
Lemma trimStart_split (s : string) :
  exists l, s = l ++ trimStart s /\ allWhite l = true.
Proof.
  induction s as [s Hw | s n Hw IH] using white_ind.
  - exists EmptyString. rewrite trimStart_eq, Hw. auto.
  - destruct IH as (l & Hl & Hwl).
    destruct (headWidth_found whiteSpace s n Hw) as (w & Hin & Hs & Hlen).
    exists (w ++ l). rewrite trimStart_eq, Hw. split.
    + rewrite append_assoc, <- Hl, <- Hlen. apply startsWith_split. exact Hs.
    + assert (Hww : whiteWidth (w ++ l) = S n).
      { rewrite <- Hlen.
        apply (headWidth_member whiteSpace whiteSpace_sound);
          [exact Hin | apply startsWith_append]. }
      rewrite (allWhite_step _ n Hww), <- Hlen, drop_append. exact Hwl.
Qed.

(** What [trimEnd] removes is white space. *)
Lemma trimEnd_split (s : string) :
  exists r, s = trimEnd s ++ r /\ allWhite r = true.
Proof.
  induction s as [| c s IH]; [exists EmptyString; auto |].
  cbn [trimEnd]. destruct (allWhite (String c s)) eqn:E.
  - exists (String c s). auto.
  - destruct IH as (r & Hr & Hw). exists r. cbn [append].
    rewrite <- Hr. auto.
Qed.

Lemma allWhite_trimEnd (s : string) : allWhite (trimEnd s) = allWhite s.
Proof.
  destruct (trimEnd_split s) as (r & Hr & Hw).
  destruct (allWhite (trimEnd s)) eqn:E.
  - rewrite Hr at 1. rewrite (allWhite_app_l _ r E). symmetry. exact Hw.
  - destruct s as [| c s]; [discriminate E |].
    cbn [trimEnd] in E. destruct (allWhite (String c s)); [discriminate E |].
    reflexivity.
Qed.

(** A trimmed string does not end in white space: none of its non-empty
    suffixes is white space throughout. *)
Lemma trimEnd_suffix (s a b : string) :
  trimEnd s = a ++ b -> isEmpty b = false -> allWhite b = false.
Proof.
  revert a. induction s as [| c s IH]; intros a H Hb.
  - cbn in H. destruct a; [cbn in H; subst b |]; discriminate.
  - destruct a as [| x a].
    + cbn [append] in H. subst b.
      rewrite allWhite_trimEnd, <- isEmpty_trimEnd. exact Hb.
    + cbn [trimEnd] in H.
      destruct (allWhite (String c s)); [discriminate |].
      cbn in H. inversion H. subst x. eapply IH; eassumption.
Qed.

(** A string trimmed at its start begins with no white space. *)
Lemma trimStart_head (s : string) : whiteWidth (trimStart s) = 0.
Proof.
  induction s as [s Hw | s n Hw IH] using white_ind.
  - rewrite trimStart_eq, Hw. exact Hw.
  - rewrite trimStart_eq, Hw. exact IH.
Qed.

Lemma trim_head (s : string) : whiteWidth (trim s) = 0.
Proof.
  unfold trim. destruct (trimEnd_split (trimStart s)) as (r & Hr & _).
  destruct (whiteWidth (trimEnd (trimStart s))) as [| n] eqn:E;
    [reflexivity |].
  pose proof (whiteWidth_app _ r n E) as F.
  rewrite <- Hr, trimStart_head in F. discriminate.
Qed.

(** A non-empty string in front of a string that begins with no white
    space is not white space throughout. *)
Lemma allWhite_prefix (a b : string) :
  whiteWidth (a ++ b) = 0 -> isEmpty a = false -> allWhite a = false.
Proof.
  intros H He. destruct (allWhite a) eqn:E; [| reflexivity].
  exfalso. destruct (whiteWidth a) as [| n] eqn:Ew.
  - exact (allWhite_head a E He Ew).
  - rewrite (whiteWidth_app a b n Ew) in H. discriminate.
Qed.

(** ** Bytes that no white space runs over *)

Lemma whiteWidth_extend (c : ascii) (m x : string) :
  tailFree c whiteSpace = true -> isEmpty m = false ->
  whiteWidth m = 0 -> whiteWidth (m ++ String c x) = 0.
Proof. exact (headWidth_extend whiteSpace whiteSpace_sound c m x). Qed.

(** In front of a byte that is no white space and that no white space
    runs over, nothing is white space throughout. *)
Lemma allWhite_before (c : ascii) (a x : string) :
  tailFree c whiteSpace = true -> whiteWidth (String c x) = 0 ->
  allWhite (a ++ String c x) = false.
Proof.
  intros Hfree Hc. induction a as [a Hw | a n Hw IH] using white_ind.
  - destruct a as [| b a].
    + cbn [append]. rewrite allWhite_eq, Hc. reflexivity.
    + rewrite allWhite_eq,
        (whiteWidth_extend c (String b a) x Hfree eq_refl Hw).
      reflexivity.
  - rewrite (allWhite_step _ n (whiteWidth_app _ _ n Hw)).
    rewrite drop_app_l by (rewrite <- Hw; apply whiteWidth_length).
    exact IH.
Qed.

Lemma trimEnd_before (c : ascii) (a x : string) :
  tailFree c whiteSpace = true -> whiteWidth (String c x) = 0 ->
  trimEnd (a ++ String c x) = a ++ trimEnd (String c x).
Proof.
  intros Hfree Hc. induction a as [| b a IH]; [reflexivity |].
  cbn [append].
  rewrite trimEnd_eq_cons.
  - rewrite IH. reflexivity.
  - exact (allWhite_before c (String b a) x Hfree Hc).
Qed.

(** A line feed at the end is trimmed away. *)
Lemma allWhite_trailing (s : string) :
  allWhite (s ++ String LF EmptyString) = allWhite s.
Proof.
  induction s as [s Hw | s n Hw IH] using white_ind.
  - destruct s as [| b s]; [reflexivity |].
    rewrite (allWhite_eq (String b s)), Hw.
    rewrite allWhite_eq.
    rewrite (whiteWidth_extend LF (String b s) EmptyString eq_refl eq_refl Hw).
    reflexivity.
  - rewrite (allWhite_step _ n (whiteWidth_app _ _ n Hw)).
    rewrite drop_app_l by (rewrite <- Hw; apply whiteWidth_length).
    rewrite IH. symmetry. apply allWhite_step. exact Hw.
Qed.

Lemma trimEnd_trailing (s : string) :
  trimEnd (s ++ String LF EmptyString) = trimEnd s.
Proof.
  induction s as [| a s IH]; [reflexivity |].
  cbn [append trimEnd].
  change (String a (s ++ String LF EmptyString))
    with (String a s ++ String LF EmptyString) at 1.
  rewrite allWhite_trailing, IH. reflexivity.
Qed.

Lemma trim_trailing (s : string) : trim (s ++ String LF EmptyString) = trim s.
Proof.
  unfold trim. induction s as [s Hw | s n Hw IH] using white_ind.
  - destruct s as [| b s]; [reflexivity |].
    rewrite (trimStart_eq (String b s)), Hw.
    rewrite trimStart_eq.
    rewrite (whiteWidth_extend LF (String b s) EmptyString eq_refl eq_refl Hw).
    apply trimEnd_trailing.
  - rewrite trimStart_eq, (whiteWidth_app _ _ n Hw).
    rewrite drop_app_l by (rewrite <- Hw; apply whiteWidth_length).
    rewrite IH. rewrite (trimStart_eq s), Hw. reflexivity.
Qed.

(** What [trim] does: it removes white space at both ends and leaves a
    string that neither begins nor ends with white space. *)
Lemma trim_spec (s : string) :
  exists l r,
    s = l ++ trim s ++ r
    /\ allWhite l = true /\ allWhite r = true
    /\ whiteWidth (trim s) = 0
    /\ forall a b, trim s = a ++ b -> isEmpty b = false -> allWhite b = false.
Proof.
  destruct (trimStart_split s) as (l & Hl & Hwl).
  destruct (trimEnd_split (trimStart s)) as (r & Hr & Hwr).
  exists l, r. unfold trim at 1. rewrite <- Hr, <- Hl.
  split; [reflexivity |]. split; [exact Hwl |]. split; [exact Hwr |].
  split; [apply trim_head |].
  intros a b. unfold trim. apply trimEnd_suffix.
Qed.

(** On a trimmed source neither half of a match is empty after trimming:
    the first begins where the source begins, the second ends where it
    ends. *)
Lemma halves_never_blank (s g1 g2 : string) :
  exec (trim s) = Some (g1, g2) ->
  isEmpty (trim g1) = false /\ isEmpty (trim g2) = false.
Proof.
  intros H. apply exec_sound in H.
  destruct H as (sep & ws & Hsrc & He1 & _ & _ & _ & He2 & _).
  rewrite !isEmpty_trim. split.
  - apply (allWhite_prefix g1 (String sep (ws ++ g2))); [| exact He1].
    rewrite <- Hsrc. apply trim_head.
  - unfold trim in Hsrc.
    replace (g1 ++ String sep (ws ++ g2))
      with ((g1 ++ String sep ws) ++ g2) in Hsrc.
    + eapply trimEnd_suffix; eassumption.
    + rewrite append_assoc. reflexivity.
Qed.

End Pattern.

(* ================================================================== *)
(** * Properties of the merge resolver *)

Section Notes.
Import JS Json Types DateTime Merge Supabase.

(** ** Strings *)

(** The three passes of [escapeHtml] do not interfere with one another:
    together they escape each character on its own. *)
Lemma escapeHtml_each (s : string) : escapeHtml s = escapeEach s.
Proof.
  unfold escapeHtml. induction s as [| c s IH]; [reflexivity |].
  cbn [replaceChar escapeEach]. unfold escapeChar.
  destruct (Ascii.eqb c "&") eqn:Ha.
  - simpl. rewrite IH. reflexivity.
  - cbn [replaceChar]. destruct (Ascii.eqb c "<") eqn:Hl.
    + simpl. rewrite IH. reflexivity.
    + cbn [replaceChar]. destruct (Ascii.eqb c ">") eqn:Hg;
        simpl; rewrite IH; reflexivity.
Qed.

(** ** Rows with distinct identifiers *)

Section Keyed.
Context {A : Type} (key : A -> nat).

Lemma filter_none (rows : list A) (id : nat) :
  ~ In id (map key rows) -> filter (fun r => key r =? id) rows = [].
Proof.
  induction rows as [| r rows IH]; simpl; [reflexivity |].
  intros H. destruct (key r =? id) eqn:E.
  - apply Nat.eqb_eq in E. exfalso. apply H. left. exact E.
  - apply IH. intros Hin. apply H. right. exact Hin.
Qed.

Lemma filter_one (l1 l2 : list A) (x : A) :
  NoDup (map key (l1 ++ x :: l2)) ->
  filter (fun r => key r =? key x) (l1 ++ x :: l2) = [x].
Proof.
  intros H. rewrite map_app in H. cbn [map] in H.
  pose proof (NoDup_remove_2 _ _ _ H) as Hnot.
  rewrite filter_app. cbn [filter]. rewrite Nat.eqb_refl.
  rewrite !filter_none; [reflexivity | |];
    intros Hin; apply Hnot; apply in_or_app; auto.
Qed.

Lemma map_none (f : A -> A) (rows : list A) (id : nat) :
  ~ In id (map key rows) ->
  map (fun r => if key r =? id then f r else r) rows = rows.
Proof.
  induction rows as [| r rows IH]; simpl; [reflexivity |].
  intros H. destruct (key r =? id) eqn:E.
  - apply Nat.eqb_eq in E. exfalso. apply H. left. exact E.
  - rewrite IH; [reflexivity |]. intros Hin. apply H. right. exact Hin.
Qed.

Lemma map_one (f : A -> A) (l1 l2 : list A) (x : A) :
  NoDup (map key (l1 ++ x :: l2)) ->
  map (fun r => if key r =? key x then f r else r) (l1 ++ x :: l2)
  = (l1 ++ f x :: l2)%list.
Proof.
  intros H. rewrite map_app in H. cbn [map] in H.
  pose proof (NoDup_remove_2 _ _ _ H) as Hnot.
  rewrite map_app. cbn [map]. rewrite Nat.eqb_refl.
  rewrite !map_none; [reflexivity | |];
    intros Hin; apply Hnot; apply in_or_app; auto.
Qed.

Lemma find_one (f : A -> A) (l1 l2 : list A) (x : A) :
  key (f x) = key x ->
  NoDup (map key (l1 ++ x :: l2)) ->
  find (fun r => key r =? key x) (l1 ++ f x :: l2) = Some (f x).
Proof.
  intros Hk H. rewrite map_app in H. cbn [map] in H.
  pose proof (NoDup_remove_2 _ _ _ H) as Hnot.
  assert (Hl1 : ~ In (key x) (map key l1))
    by (intros Hin; apply Hnot; apply in_or_app; auto).
  clear H Hnot. induction l1 as [| r l1 IH]; cbn [app find].
  - rewrite Hk, Nat.eqb_refl. reflexivity.
  - destruct (key r =? key x) eqn:E.
    + apply Nat.eqb_eq in E. exfalso. apply Hl1. left. exact E.
    + apply IH. intros Hin. apply Hl1. right. exact Hin.
Qed.

End Keyed.

(** ** The lookup of the bucket note *)

Lemma selectByTitle_sound (u pattern : string) (rows found : list NoteRow) :
  selectByTitle u pattern rows = Ok found ->
  forall r, In r found ->
    In r rows /\ n_user_id r = u
    /\ Postgres.ilike (n_title r) pattern = Some true.
Proof.
  revert found. induction rows as [| x rows IH]; intros found H r Hin.
  - simpl in H. inversion H. subst. contradiction.
  - simpl in H. destruct (String.eqb (n_user_id x) u) eqn:Eu.
    + destruct (Postgres.ilike (n_title x) pattern) as [hit |] eqn:Ei;
        [| discriminate].
      destruct (selectByTitle u pattern rows) as [found' | e]; [| discriminate].
      cbn [rbind] in H. inversion H. subst found. clear H.
      destruct hit.
      * destruct Hin as [<- | Hin].
        -- apply String.eqb_eq in Eu. auto using in_eq.
        -- destruct (IH found' eq_refl r Hin) as (? & ? & ?). auto using in_cons.
      * destruct (IH found' eq_refl r Hin) as (? & ? & ?). auto using in_cons.
    + destruct (IH found H r Hin) as (? & ? & ?). auto using in_cons.
Qed.

(** With the rows' ids distinct, the update of one note's content
    succeeds and rewrites that row alone. *)
Lemma updateContent_ok (env : Env) (content : string) (w : World)
    (l1 l2 : list NoteRow) (x : NoteRow) :
  db_error env = None ->
  notes (db w) = (l1 ++ x :: l2)%list ->
  NoDup (map n_id (notes (db w))) ->
  updateContent env (n_id x) content w
  = (Ok (mapNoteFromDB (withContent env content x)),
     setNotes (l1 ++ withContent env content x :: l2) w).
Proof.
  intros Hdb Hrows Hnd.
  unfold updateContent, query, bind, gets, lift, modify, ret.
  rewrite Hdb, Hrows. rewrite Hrows in Hnd.
  rewrite (filter_one n_id l1 l2 x Hnd). cbn [map single].
  rewrite (map_one n_id (withContent env content) l1 l2 x Hnd).
  reflexivity.
Qed.

Lemma insertNote_ok (env : Env) (u : string) (noteData : ParsedNote)
    (w : World) :
  db_error env = None ->
  insertNote env u noteData w
  = (Ok (mapNoteFromDB (noteRow env u (uuids w) noteData)),
     addNote (noteRow env u (uuids w) noteData) w).
Proof.
  intros Hdb. unfold insertNote, generateId, query, bind, modify, ret.
  rewrite Hdb. reflexivity.
Qed.

(** ** The three outcomes of [notes.create] *)

Lemma notes_create_plain (env : Env) (noteData : ParsedNote) (w : World)
    (u : string) :
  auth_user env = Some u -> db_error env = None ->
  extractMergeInfo noteData = None ->
  notes_create env noteData w
  = (Ok (mapNoteFromDB (noteRow env u (uuids w) noteData)),
     addNote (noteRow env u (uuids w) noteData) w).
Proof.
  intros Hu Hdb Hm. unfold notes_create, getUserId, bind at 1.
  rewrite Hu. unfold ret at 1. rewrite Hm.
  apply insertNote_ok. exact Hdb.
Qed.

Lemma notes_create_first (env : Env) (noteData : ParsedNote) (w : World)
    (u bucketTitle entry : string) :
  auth_user env = Some u -> db_error env = None ->
  extractMergeInfo noteData = Some (bucketTitle, entry) ->
  selectByTitle u bucketTitle (notes (db w)) = Ok [] ->
  let starter :=
    {| pn_title := Some bucketTitle; pn_content := entryMarkup entry;
       pn_tags := pn_tags noteData; pn_photoUrl := pn_photoUrl noteData |} in
  notes_create env noteData w
  = (Ok (mapNoteFromDB (noteRow env u (uuids w) starter)),
     addNote (noteRow env u (uuids w) starter) w).
Proof.
  intros Hu Hdb Hm Hsel. cbv zeta.
  unfold notes_create, getUserId, bind at 1.
  rewrite Hu. unfold ret at 1. rewrite Hm.
  unfold query, bind at 1. rewrite Hdb. unfold ret at 1.
  unfold bind at 1, gets at 1. unfold bind at 1, lift at 1.
  rewrite Hsel. cbn [firstn].
  apply insertNote_ok. exact Hdb.
Qed.

Lemma notes_create_append (env : Env) (noteData : ParsedNote) (w : World)
    (u bucketTitle entry : string) (existing : NoteRow)
    (found : list NoteRow) :
  auth_user env = Some u -> db_error env = None ->
  extractMergeInfo noteData = Some (bucketTitle, entry) ->
  selectByTitle u bucketTitle (notes (db w)) = Ok (existing :: found) ->
  NoDup (map n_id (notes (db w))) ->
  let content := newContent (n_content existing) (entryMarkup entry) in
  exists l1 l2,
    notes (db w) = (l1 ++ existing :: l2)%list
    /\ notes_create env noteData w
       = (Ok (mapNoteFromDB (withContent env content existing)),
          setNotes (l1 ++ withContent env content existing :: l2) w).
Proof.
  intros Hu Hdb Hm Hsel Hnd. cbv zeta.
  destruct (selectByTitle_sound _ _ _ _ Hsel existing (in_eq _ _))
    as (Hin & _ & _).
  destruct (in_split _ _ Hin) as (l1 & l2 & Hrows).
  exists l1, l2. split; [exact Hrows |].
  unfold notes_create, getUserId, bind at 1.
  rewrite Hu. unfold ret at 1. rewrite Hm.
  unfold query, bind at 1. rewrite Hdb. unfold ret at 1.
  unfold bind at 1, gets at 1. unfold bind at 1, lift at 1.
  rewrite Hsel. cbn [firstn].
  apply updateContent_ok; assumption.
Qed.

(** ** Appending to a bucket note *)

(** C6, as the code has it.  When a capture appends to an existing bucket
    note whose prior content is not blank, the new content is the whole
    prior content, then a line separator unless the trimmed prior content
    already ends in one, then the entry, HTML-escaped character by
    character, inside the list-item fragment; so the prior content is a
    prefix of the new content.  When the prior content is blank (empty or
    white space only), the new content is the list-item fragment alone.
    Blank is: nothing but white space, that of ECMAScript (the no-break
    space, the line and paragraph separators and the like included); and
    the trimmed prior content is the prior content without the white
    space at its two ends. *)
Theorem append_keeps_nonblank_content (env : Env) (noteData : ParsedNote)
    (w : World) (u bucketTitle entry : string) (existing : NoteRow)
    (found : list NoteRow) :
  auth_user env = Some u -> db_error env = None ->
  extractMergeInfo noteData = Some (bucketTitle, entry) ->
  selectByTitle u bucketTitle (notes (db w)) = Ok (existing :: found) ->
  NoDup (map n_id (notes (db w))) ->
  let prior := n_content existing in
  let fragment := "<div>" ++ bullet ++ " " ++ escapeEach entry ++ "</div>" in
  exists note w',
    notes_create env noteData w = (Ok note, w')
    /\ note_id note = n_id existing
    /\ In (withContent env (note_content note) existing) (notes (db w'))
    /\ (isEmpty (trim prior) = false ->
        note_content note
        = prior
          ++ (if endsWith (trim prior) "<br />" then "" else "<br />")
          ++ fragment
        /\ startsWith (note_content note) prior = true)
    /\ (isEmpty (trim prior) = true -> note_content note = fragment)
    /\ isEmpty (trim prior) = allWhite prior
    /\ Trimmed prior (trim prior).
Proof.
  intros Hu Hdb Hm Hsel Hnd. cbv zeta.
  destruct (notes_create_append env noteData w u bucketTitle entry existing
              found Hu Hdb Hm Hsel Hnd) as (l1 & l2 & Hrows & Hcreate).
  cbv zeta in Hcreate. rewrite Hcreate.
  eexists _, _. split; [reflexivity |].
  split; [reflexivity |]. split; [| split; [| split; [| split]]];
    [| | | apply isEmpty_trim | apply trim_spec].
  - cbn. apply in_or_app. right. left. reflexivity.
  - intros Hblank. cbn [note_content mapNoteFromDB n_content withContent].
    unfold newContent, JS.truthy. rewrite Hblank. cbn [negb].
    unfold entryMarkup. rewrite escapeHtml_each.
    split; [reflexivity | apply startsWith_append].
  - intros Hblank. cbn [note_content mapNoteFromDB n_content withContent].
    unfold newContent, JS.truthy. rewrite Hblank. cbn [negb].
    unfold entryMarkup. rewrite escapeHtml_each. reflexivity.
Qed.

Lemma append_keeps_nonblank_content_witness :
  (let w := Examples.withNotes [Examples.groceries] in
   exists note w',
     notes_create Examples.env0 Examples.eggs w = (Ok note, w')
     /\ note_id note = 0
     /\ note_content note
        = entryMarkup "milk" ++ "<br />" ++ entryMarkup "eggs"
     /\ startsWith (note_content note) (entryMarkup "milk") = true)
  /\ (let w := Examples.withNotes [Samples.paddedGroceries] in
      exists note w',
        notes_create Examples.env0 Examples.eggs w = (Ok note, w')
        /\ n_content Samples.paddedGroceries = Samples.nbsp
        /\ note_content note = entryMarkup "eggs").
Proof.
  cbv zeta. split.
  - assert (Hnd : NoDup (map n_id (notes (db (Examples.withNotes
                                               [Examples.groceries]))))).
    { cbn. constructor; [intros [] | constructor]. }
    destruct (append_keeps_nonblank_content Examples.env0 Examples.eggs
                (Examples.withNotes [Examples.groceries]) "user-1" "Groceries"
                "eggs" Examples.groceries [] eq_refl eq_refl eq_refl eq_refl
                Hnd)
      as (note & w' & Hc & Hid & _ & Hprior & _ & _ & _).
    destruct (Hprior eq_refl) as (Hcontent & Hprefix).
    exists note, w'.
    split; [exact Hc |]. split; [exact Hid |].
    split; [exact Hcontent | exact Hprefix].
  - assert (Hnd : NoDup (map n_id (notes (db (Examples.withNotes
                                               [Samples.paddedGroceries]))))).
    { cbn. constructor; [intros [] | constructor]. }
    destruct (append_keeps_nonblank_content Examples.env0 Examples.eggs
                (Examples.withNotes [Samples.paddedGroceries]) "user-1"
                "Groceries" "eggs" Samples.paddedGroceries [] eq_refl eq_refl
                eq_refl eq_refl Hnd)
      as (note & w' & Hc & _ & _ & _ & Hblank & _ & _).
    exists note, w'.
    split; [exact Hc |]. split; [reflexivity |].
    exact (Hblank eq_refl).
Defined.

(** C6 as stated fails on blank prior content: the bucket note holds a
    single space; after the append its content is the fragment alone, of
    which the prior content is no prefix. *)
Lemma blank_content_is_replaced :
  map n_content
    (notes (db (snd (notes_create Examples.env0 Examples.eggs
                       (Examples.withNotes [Examples.blankGroceries])))))
  = [entryMarkup "eggs"]
  /\ startsWith (entryMarkup "eggs") (n_content Examples.blankGroceries)
     = false.
Proof. split; vm_compute; reflexivity. Qed.

(** C9.  Appending a captured entry to an existing bucket note rewrites
    that note in place: its content and its update timestamp change; its
    id, owner, title, tags, pinned flag, photo URL and creation timestamp
    do not; every other note keeps its place and its value; no task, event
    or transaction is touched and no identifier is drawn.  This holds for
    the Supabase service and for the IndexedDB service. *)
Theorem append_changes_content_only :
  (forall (env : Env) (noteData : ParsedNote) (w : World)
          (u bucketTitle entry : string) (existing : NoteRow)
          (found : list NoteRow),
      auth_user env = Some u -> db_error env = None ->
      extractMergeInfo noteData = Some (bucketTitle, entry) ->
      selectByTitle u bucketTitle (notes (db w)) = Ok (existing :: found) ->
      NoDup (map n_id (notes (db w))) ->
      exists l1 l2 updated w',
        notes (db w) = (l1 ++ existing :: l2)%list
        /\ notes_create env noteData w = (Ok (mapNoteFromDB updated), w')
        /\ notes (db w') = (l1 ++ updated :: l2)%list
        /\ tasks (db w') = tasks (db w)
        /\ events (db w') = events (db w)
        /\ transactions (db w') = transactions (db w)
        /\ uuids w' = uuids w
        /\ n_id updated = n_id existing
        /\ n_user_id updated = n_user_id existing
        /\ n_title updated = n_title existing
        /\ n_tags updated = n_tags existing
        /\ n_is_pinned updated = n_is_pinned existing
        /\ n_photo_url updated = n_photo_url existing
        /\ n_created_at updated = n_created_at existing)
  /\ (forall (env : Env) (data : ParsedNote) (w : Local.World)
             (bucketTitle entry : string) (existing : Note),
         extractMergeInfo data = Some (bucketTitle, entry) ->
         find (Local.sameBucket bucketTitle) (Local.notes w) = Some existing ->
         NoDup (map note_id (Local.notes w)) ->
         exists l1 l2 updated,
           Local.notes w = (l1 ++ existing :: l2)%list
           /\ Local.notes_create env data w
              = (Ok updated,
                 {| Local.notes := (l1 ++ updated :: l2)%list;
                    Local.uuids := Local.uuids w |})
           /\ note_id updated = note_id existing
           /\ note_userId updated = note_userId existing
           /\ note_title updated = note_title existing
           /\ note_tags updated = note_tags existing
           /\ note_isPinned updated = note_isPinned existing
           /\ note_photoUrl updated = note_photoUrl existing
           /\ note_createdAt updated = note_createdAt existing).
Proof.
  split.
  - intros env noteData w u bucketTitle entry existing found Hu Hdb Hm Hsel Hnd.
    destruct (notes_create_append env noteData w u bucketTitle entry existing
                found Hu Hdb Hm Hsel Hnd) as (l1 & l2 & Hrows & Hcreate).
    cbv zeta in Hcreate. rewrite Hcreate.
    exists l1, l2. eexists _, _. split; [exact Hrows |].
    split; [reflexivity |]. cbn. repeat split; reflexivity.
  - intros env data w bucketTitle entry existing Hm Hfind Hnd.
    destruct (find_some _ _ Hfind) as (Hin & _).
    destruct (in_split _ _ Hin) as (l1 & l2 & Hrows).
    exists l1, l2.
    exists (Local.withContent env
              (newContent (note_content existing) (entryMarkup entry)) existing).
    split; [exact Hrows |].
    split; [| cbn; repeat split; reflexivity].
    unfold Local.notes_create. rewrite Hm.
    unfold bind at 1, gets at 1. rewrite Hfind.
    unfold bind, modify, gets, ret. cbn [Local.notes Local.uuids].
    rewrite Hrows in *.
    set (upd := Local.withContent env
                  (newContent (note_content existing) (entryMarkup entry))).
    rewrite (map_one note_id upd l1 l2 existing Hnd).
    rewrite (find_one note_id upd l1 l2 existing eq_refl Hnd).
    reflexivity.
Qed.

Lemma append_changes_content_only_witness :
  (exists updated w',
     notes_create Examples.env0 Examples.eggs
       (Examples.withNotes [Examples.groceries])
     = (Ok (mapNoteFromDB updated), w')
     /\ uuids w' = 1
     /\ n_id updated = 0
     /\ n_title updated = "Groceries"
     /\ n_photo_url updated
        = Some "https://cdn.example/capture-media/note/1.jpg")
  /\ (exists updated w',
        Local.notes_create Examples.env0 Examples.eggs
          {| Local.notes := [Examples.localGroceries]; Local.uuids := 1 |}
        = (Ok updated, w')
        /\ note_id updated = 0
        /\ note_tags updated = ["food"] /\ note_isPinned updated = true).
Proof.
  destruct append_changes_content_only as [Hremote Hlocal].
  split.
  - assert (Hnd : NoDup (map n_id (notes (db (Examples.withNotes
                                               [Examples.groceries]))))).
    { cbn. constructor; [intros [] | constructor]. }
    destruct (Hremote Examples.env0 Examples.eggs
                (Examples.withNotes [Examples.groceries]) "user-1" "Groceries"
                "eggs" Examples.groceries [] eq_refl eq_refl eq_refl eq_refl
                Hnd)
      as (l1 & l2 & updated & w' & _ & Hc & _ & _ & _ & _ & Hu & Hid & _ & Ht
          & _ & _ & Hp & _).
    exists updated, w'. repeat split; assumption.
  - assert (Hnd : NoDup (map note_id [Examples.localGroceries])).
    { cbn. constructor; [intros [] | constructor]. }
    destruct (Hlocal Examples.env0 Examples.eggs
                {| Local.notes := [Examples.localGroceries]; Local.uuids := 1 |}
                "Groceries" "eggs" Examples.localGroceries
                eq_refl eq_refl Hnd)
      as (l1 & l2 & updated & _ & Hc & Hid & _ & _ & Htags & Hpin & _).
    eexists updated, _. repeat split; eassumption.
Defined.

(** ** Notes without a bucket pattern, notes without a title *)

Lemma extractMergeInfo_nonempty (noteData : ParsedNote) (b e : string) :
  extractMergeInfo noteData = Some (b, e) ->
  isEmpty b = false /\ isEmpty e = false.
Proof.
  unfold extractMergeInfo.
  destruct (BucketRegex.exec _) as [[g1 g2] |]; [| discriminate].
  destruct (isEmpty (trim g1)) eqn:E1; [discriminate |].
  destruct (isEmpty (trim g2)) eqn:E2; [discriminate |].
  cbn [orb]. intros H. inversion H. subst. auto.
Qed.

Lemma mergeSource_cases (noteData : ParsedNote) :
  mergeSource noteData
  = match pn_title noteData with
    | Some t => if isEmpty t then pn_content noteData else t
    | None => pn_content noteData
    end.
Proof.
  unfold mergeSource, orElse, JS.truthy.
  destruct (pn_title noteData) as [t |].
  - destruct t; cbn; [destruct (pn_content noteData) |]; reflexivity.
  - cbn. destruct (pn_content noteData); reflexivity.
Qed.

(** The guard on empty halves never fires: [extractMergeInfo] is [null]
    exactly when the pattern does not match the trimmed source, and
    otherwise gives the two groups, trimmed. *)
Lemma extractMergeInfo_exec (noteData : ParsedNote) :
  extractMergeInfo noteData
  = match BucketRegex.exec (trim (mergeSource noteData)) with
    | Some (g1, g2) => Some (trim g1, trim g2)
    | None => None
    end.
Proof.
  unfold extractMergeInfo.
  destruct (BucketRegex.exec (trim (mergeSource noteData)))
    as [[g1 g2] |] eqn:E; [| reflexivity].
  destruct (halves_never_blank _ _ _ E) as [-> ->]. reflexivity.
Qed.

(** C7.  The merge decision reads the title of the note, or its content
    when the title is absent or empty, without the white space at its two
    ends, with the one anchored pattern.  It gives no bucket exactly when
    the source does not split into a first group, a colon or a hyphen,
    white space and a second group (both groups non-empty and without a
    line terminator).  When the source does split, the decision takes the
    split with the shortest first group, so the first colon or hyphen that
    can separate two such groups (on a source of one line: the first colon
    or hyphen after the first character), and gives the two groups without
    the white space at their ends as bucket and entry; neither of them is
    ever empty, so the test for an empty half rejects nothing.  With no
    bucket the note is created as a new record whose content is the raw
    content, every existing record being left as it was. *)
Theorem no_bucket_pattern_creates_new (env : Env) (noteData : ParsedNote)
    (w : World) (u : string) :
  auth_user env = Some u -> db_error env = None ->
  let raw :=
    match pn_title noteData with
    | Some t => if isEmpty t then pn_content noteData else t
    | None => pn_content noteData
    end in
  let source := trim raw in
  Trimmed raw source
  /\ (extractMergeInfo noteData = None <->
      ~ exists g1 g2, Splits source g1 g2)
  /\ (forall bucketTitle entry,
        extractMergeInfo noteData = Some (bucketTitle, entry) ->
        exists g1 g2,
          Splits source g1 g2
          /\ (forall h1 h2, Splits source h1 h2 ->
                String.length g1 <= String.length h1)
          /\ (BucketRegex.allDot source = true ->
              exists c rest, g1 = String c rest /\ noSeparator rest = true)
          /\ bucketTitle = trim g1 /\ Trimmed g1 bucketTitle
          /\ entry = trim g2 /\ Trimmed g2 entry
          /\ isEmpty bucketTitle = false /\ isEmpty entry = false)
  /\ (extractMergeInfo noteData = None ->
      exists row,
        notes_create env noteData w = (Ok (mapNoteFromDB row), addNote row w)
        /\ n_id row = uuids w
        /\ n_content row = pn_content noteData
        /\ n_title row
           = titleOrExcerpt (pn_title noteData) (pn_content noteData)).
Proof.
  intros Hu Hdb. cbv zeta.
  rewrite <- (mergeSource_cases noteData).
  split; [apply trim_spec |].
  split; [| split].
  - rewrite extractMergeInfo_exec, <- exec_none.
    destruct (BucketRegex.exec _) as [[g1 g2] |];
      split; congruence.
  - intros bucketTitle entry Hm. rewrite extractMergeInfo_exec in Hm.
    destruct (BucketRegex.exec (trim (mergeSource noteData)))
      as [[g1 g2] |] eqn:E; [| discriminate].
    inversion Hm. subst bucketTitle entry. clear Hm.
    exists g1, g2.
    split; [exact (exec_sound _ _ _ E) |].
    split.
    { intros h1 h2 Hsplit.
      destruct (exec_complete _ _ _ Hsplit) as (k1 & k2 & Hk & Hle).
      rewrite E in Hk. inversion Hk. subst. exact Hle. }
    split; [intros Hline; exact (exec_first_separator _ _ _ Hline E) |].
    destruct (halves_never_blank _ _ _ E) as [H1 H2].
    split; [reflexivity |]. split; [apply trim_spec |].
    split; [reflexivity |]. split; [apply trim_spec |].
    split; assumption.
  - intros Hm. eexists. split; [apply notes_create_plain; eassumption |].
    repeat split; reflexivity.
Qed.

Lemma no_bucket_pattern_creates_new_witness :
  (extractMergeInfo Examples.idea = None
   /\ exists row,
        notes_create Examples.env0 Examples.idea
          (Examples.withNotes [Examples.groceries])
        = (Ok (mapNoteFromDB row),
           addNote row (Examples.withNotes [Examples.groceries]))
        /\ n_id row = 1
        /\ n_content row
           = "Plant the tomatoes next to the basil and water them every second evening")
  /\ (extractMergeInfo Samples.dangling = None
      /\ exists row,
           notes_create Examples.env0 Samples.dangling
             (Examples.withNotes [Examples.groceries])
           = (Ok (mapNoteFromDB row),
              addNote row (Examples.withNotes [Examples.groceries]))
           /\ n_title row = "Groceries:" ++ Samples.nbsp
           /\ n_content row = "eggs")
  /\ exists g1 g2,
       Splits (trim " Follow-up: call - today ") g1 g2
       /\ (forall h1 h2,
             Splits (trim " Follow-up: call - today ") h1 h2 ->
             String.length g1 <= String.length h1)
       /\ "Follow" = trim g1 /\ "up: call - today" = trim g2.
Proof.
  split; [| split].
  - destruct (no_bucket_pattern_creates_new Examples.env0 Examples.idea
                (Examples.withNotes [Examples.groceries]) "user-1"
                eq_refl eq_refl) as (_ & _ & _ & Hnew).
    assert (Hm : extractMergeInfo Examples.idea = None)
      by (vm_compute; reflexivity).
    split; [exact Hm |].
    destruct (Hnew Hm) as (row & Hc & Hid & Hcontent & _).
    exists row. split; [exact Hc | split; [exact Hid | exact Hcontent]].
  - destruct (no_bucket_pattern_creates_new Examples.env0 Samples.dangling
                (Examples.withNotes [Examples.groceries]) "user-1"
                eq_refl eq_refl) as (_ & _ & _ & Hnew).
    assert (Hm : extractMergeInfo Samples.dangling = None)
      by (vm_compute; reflexivity).
    split; [exact Hm |].
    destruct (Hnew Hm) as (row & Hc & _ & Hcontent & Htitle).
    exists row. split; [exact Hc | split; [exact Htitle | exact Hcontent]].
  - destruct (no_bucket_pattern_creates_new Examples.env0
                {| pn_title := Some " Follow-up: call - today ";
                   pn_content := "x"; pn_tags := None; pn_photoUrl := None |}
                Examples.emptyWorld "user-1" eq_refl eq_refl)
      as (_ & _ & Hsome & _).
    destruct (Hsome "Follow" "up: call - today" ltac:(vm_compute; reflexivity))
      as (g1 & g2 & Hsplit & Hmin & _ & Hb & _ & He & _).
    exists g1, g2.
    split; [exact Hsplit |]. split; [exact Hmin |].
    split; [exact Hb | exact He].
Defined.

(** C8, as the code has it.  For every Note capture with the title
    omitted whose content does not read as a bucket entry, the created
    note's title is the first 50 characters of its content, counted as
    [substring] counts them, in UTF-16 code units.  When the content does
    read as "bucket: entry" and no note of that bucket exists, the created
    note's title is the bucket. *)
Theorem omitted_title_defaults_to_excerpt (env : Env) (noteData : ParsedNote)
    (w : World) (u : string) :
  auth_user env = Some u -> db_error env = None ->
  titleOmitted noteData ->
  (extractMergeInfo noteData = None ->
   exists row,
     notes_create env noteData w = (Ok (mapNoteFromDB row), addNote row w)
     /\ n_title row = substring0 50 (pn_content noteData)
     /\ n_content row = pn_content noteData)
  /\ (forall b e,
        extractMergeInfo noteData = Some (b, e) ->
        selectByTitle u b (notes (db w)) = Ok [] ->
        exists row,
          notes_create env noteData w = (Ok (mapNoteFromDB row), addNote row w)
          /\ n_title row = b
          /\ n_content row = entryMarkup e).
Proof.
  intros Hu Hdb Homit. split.
  - intros Hm. eexists. split; [apply notes_create_plain; eassumption |].
    split; [| reflexivity].
    cbn [n_title noteRow]. unfold titleOrExcerpt, orElse.
    destruct Homit as [-> | ->]; reflexivity.
  - intros b e Hm Hsel. eexists.
    split; [apply (notes_create_first env noteData w u b e); assumption |].
    split; [| reflexivity].
    cbn [n_title noteRow pn_title]. unfold titleOrExcerpt, orElse, JS.truthy.
    destruct (extractMergeInfo_nonempty _ _ _ Hm) as [-> _]. reflexivity.
Qed.

Lemma omitted_title_defaults_to_excerpt_witness :
  titleOmitted Samples.bakery
  /\ String.length (pn_content Samples.bakery) = 57
  /\ exists row,
       notes_create Examples.env0 Samples.bakery Examples.emptyWorld
       = (Ok (mapNoteFromDB row), addNote row Examples.emptyWorld)
       /\ n_title row
          = "Remember to ask the baker about the new opening c"
            ++ bytes [195; 169].
Proof.
  assert (Ho : titleOmitted Samples.bakery) by (left; reflexivity).
  split; [exact Ho |]. split; [reflexivity |].
  destruct (omitted_title_defaults_to_excerpt Examples.env0 Samples.bakery
              Examples.emptyWorld "user-1" eq_refl eq_refl Ho) as [Hplain _].
  destruct (Hplain ltac:(vm_compute; reflexivity)) as (row & Hc & Ht & _).
  exists row. split; [exact Hc |]. rewrite Ht. vm_compute. reflexivity.
Defined.

(** C8 as stated fails: the note has no title and the content
    "Groceries: milk"; the created note is titled "Groceries", which is
    not the first 50 characters of the content. *)
Lemma untitled_bucket_entry_is_titled_by_bucket :
  Examples.untitled.(pn_title) = None
  /\ map (fun r => (n_title r, n_content r))
       (notes (db (snd (notes_create Examples.env0 Examples.untitled
                          Examples.emptyWorld))))
     = [("Groceries", entryMarkup "milk")]
  /\ substring0 50 (pn_content Examples.untitled) = "Groceries: milk".
Proof. repeat split; vm_compute; reflexivity. Qed.

(** ** The lookup of the bucket note by title *)

Lemma toLowerChar_eqb (a c : ascii) (s p : string) :
  String.eqb (String (toLowerChar a) s) (String (toLowerChar c) p)
  = Ascii.eqb (toLowerChar a) (toLowerChar c) && String.eqb s p.
Proof. cbn. destruct (Ascii.eqb _ _); reflexivity. Qed.

(** On a pattern without [%], [*], [_] and backslash, [ILIKE] is equality
    up to case. *)
Lemma ilike_plain (pattern : string) :
  plain pattern = true ->
  forall text,
    Postgres.ilike text pattern
    = Some (String.eqb (toLowerCase text) (toLowerCase pattern)).
Proof.
  unfold Postgres.ilike.
  induction pattern as [| c p IH]; intros Hp text.
  - cbn. destruct text; reflexivity.
  - cbn in Hp. apply andb_true_iff in Hp. destruct Hp as [Hc Hp].
    unfold plainChar in Hc. apply negb_true_iff in Hc.
    repeat (apply orb_false_iff in Hc; destruct Hc as [Hc ?]).
    cbn [Postgres.tokens].
    repeat match goal with H : Ascii.eqb c _ = false |- _ => rewrite H end.
    cbn [orb].
    destruct text as [| a t].
    + specialize (IH Hp EmptyString).
      destruct (Postgres.tokens p) as [ts |]; [reflexivity | discriminate].
    + specialize (IH Hp t).
      destruct (Postgres.tokens p) as [ts |]; [| discriminate].
      cbn [Postgres.matches toLowerCase]. rewrite toLowerChar_eqb.
      inversion IH as [Hm]. rewrite Hm. reflexivity.
Qed.

(** For such a bucket title the Supabase lookup selects the notes of the
    user whose title equals it up to case, and no other. *)
Lemma selectByTitle_plain (u bucketTitle : string) (rows : list NoteRow) :
  plain bucketTitle = true ->
  selectByTitle u bucketTitle rows
  = Ok (filter (fun r => String.eqb (n_user_id r) u
                         && String.eqb (toLowerCase (n_title r))
                                       (toLowerCase bucketTitle)) rows).
Proof.
  intros Hp. induction rows as [| r rows IH]; [reflexivity |].
  cbn [selectByTitle filter]. rewrite IH, (ilike_plain _ Hp).
  destruct (String.eqb (n_user_id r) u); [| reflexivity].
  cbn [rbind andb]. destruct (String.eqb _ _); reflexivity.
Qed.

(** C5 on the Supabase service, at a bucket title that holds an
    underscore.  The capture "to_do: buy milk" names the bucket "to_do";
    the only note is titled "to do", which is not "to_do" in any case.
    The lookup selects it all the same, since [ILIKE] reads the underscore
    as a wildcard, and the entry is appended to it; the IndexedDB service
    creates the note "to_do" on the same input. *)
Theorem underscore_bucket_merges_into_other_note :
  extractMergeInfo Examples.underscored = Some ("to_do", "buy milk")
  /\ String.eqb (toLowerCase "to do") (toLowerCase "to_do") = false
  /\ map (fun r => (n_title r, n_content r))
       (notes (db (snd (notes_create Examples.env0 Examples.underscored
                          (Examples.withNotes [Examples.toDo])))))
     = [("to do", "call the bank<br />" ++ entryMarkup "buy milk")]
  /\ map (fun n => (note_title n, note_content n))
       (Local.notes
          (snd (Local.notes_create Examples.env0 Examples.underscored
                  {| Local.notes := [Examples.localToDo];
                     Local.uuids := 1 |})))
     = [("to do", "call the bank"); ("to_do", entryMarkup "buy milk")].
Proof. repeat split; vm_compute; reflexivity. Qed.

(** ** Distinct identifiers are an invariant of [notes.create] *)

Lemma map_id_update (f : NoteRow -> NoteRow) (id : nat) (rows : list NoteRow) :
  (forall r, n_id (f r) = n_id r) ->
  map n_id (map (fun r => if n_id r =? id then f r else r) rows)
  = map n_id rows.
Proof.
  intros Hf. induction rows as [| r rows IH]; [reflexivity |].
  cbn [map]. rewrite IH. destruct (n_id r =? id); [rewrite Hf |]; reflexivity.
Qed.

Lemma wellKeyed_insert (env : Env) (u : string) (d : ParsedNote) (w : World) :
  wellKeyed w -> wellKeyed (snd (insertNote env u d w)).
Proof.
  intros [Hnd Hlt].
  unfold insertNote, generateId, query, bind, modify, ret, throw.
  destruct (db_error env); cbn.
  - split; [exact Hnd |]. intros r Hin. specialize (Hlt r Hin).
    cbn in *. lia.
  - split.
    + cbn. rewrite map_app. cbn [map n_id].
      apply NoDup_app; [exact Hnd | repeat constructor; intros [] |].
      intros a Hin [<- | []].
      apply in_map_iff in Hin. destruct Hin as (r & Hr & Hin).
      specialize (Hlt r Hin). lia.
    + intros r Hin. apply in_app_or in Hin.
      destruct Hin as [Hin | [<- | []]];
        [specialize (Hlt r Hin) |]; cbn in *; lia.
Qed.

Lemma wellKeyed_update (env : Env) (id : nat) (content : string) (w : World) :
  wellKeyed w -> wellKeyed (snd (updateContent env id content w)).
Proof.
  intros [Hnd Hlt].
  unfold updateContent, query, bind, gets, lift, modify, ret, throw.
  destruct (db_error env); [split; assumption |].
  destruct (single _); [| split; assumption].
  unfold wellKeyed. cbn [snd db notes setDb uuids]. split.
  - rewrite map_id_update; [exact Hnd | reflexivity].
  - intros r Hin. apply in_map_iff in Hin. destruct Hin as (r0 & <- & Hin).
    specialize (Hlt r0 Hin). destruct (n_id r0 =? id); exact Hlt.
Qed.

(** Whatever [notes.create] does, the identifiers of the notes stay
    distinct; so they are on every store reached from the empty one. *)
Lemma wellKeyed_notes_create (env : Env) (d : ParsedNote) (w : World) :
  wellKeyed w -> wellKeyed (snd (notes_create env d w)).
Proof.
  intros Hw. unfold notes_create. unfold getUserId, bind at 1.
  destruct (auth_user env) as [u |]; [| exact Hw].
  unfold ret at 1.
  destruct (extractMergeInfo d) as [[bucketTitle entry] |];
    [| apply wellKeyed_insert; exact Hw].
  unfold query, bind at 1.
  destruct (db_error env) eqn:Hdb; [exact Hw |].
  unfold ret at 1. unfold bind at 1, gets at 1. unfold bind at 1, lift at 1.
  destruct (selectByTitle u bucketTitle (notes (db w))) as [found | e];
    [| exact Hw].
  destruct (firstn 1 found) as [| existingNote rest].
  - apply wellKeyed_insert. exact Hw.
  - apply wellKeyed_update. exact Hw.
Qed.

Lemma wellKeyed_empty : wellKeyed Examples.emptyWorld.
Proof. split; [constructor | intros r []]. Qed.

End Notes.

(* ================================================================== *)
(** * Captures with a photo whose upload fails *)

Section Upload.
Import JS Json Types DateTime Merge Supabase CaptureBox.

(** The [switch] reads and writes the store only. *)
Lemma persist_frame (env : Env) (c : ParsedCapture) (p : option string)
    (u1 u2 : Component) (w : World) :
  exists r w',
    persist env c p {| ui := u1; world := w |} = (r, {| ui := u1; world := w' |})
    /\ persist env c p {| ui := u2; world := w |}
       = (r, {| ui := u2; world := w' |}).
Proof.
  destruct c; unfold persist, bind, storage, ret; cbn [ui world].
  - destruct (tasks_create _ _ w) as [[t | e] w']; eauto.
  - destruct (events_create _ _ w) as [[ev | e] w1]; [| eauto].
    unfold catch, bind, lift, storage, ret. cbn [ui world].
    destruct (GoogleCalendar.pushToGoogleCalendar env ev) as [gid | e];
      [| eauto].
    destruct (orNull gid) as [g |]; [| eauto].
    cbn [ui world].
    destruct (events_update _ _ _ w1) as [[ev' | e] w2]; eauto.
  - destruct (transactions_create _ _ w) as [[t | e] w']; eauto.
  - destruct (transactions_create _ _ w) as [[t | e] w']; eauto.
  - destruct (notes_create _ _ w) as [[t | e] w']; eauto.
  - eauto.
Qed.

Lemma noPhotoAdded_refl (d : Database) : noPhotoAdded d d.
Proof.
  repeat split; intros r Hin; auto.
  right. exists r. auto.
Qed.

Lemma old_or_appended {A} (P : A -> Prop) (old new : list A) :
  (new = old \/ exists row, new = (old ++ [row])%list /\ P row) ->
  forall r, In r new -> In r old \/ P r.
Proof.
  intros [-> | (row & -> & Hp)] r Hin; [auto |].
  apply in_app_or in Hin. destruct Hin as [Hin | [<- | []]]; auto.
Qed.

(** Persisting with no photo URL attaches no photo. *)
Lemma persist_without_url (env : Env) (c : ParsedCapture) (st : State)
    (r : result unit) (st' : State) :
  supportsPhoto c = true ->
  persist env c None st = (r, st') ->
  noPhotoAdded (db (world st)) (db (world st')).
Proof.
  intros Hs. destruct c; unfold persist, bind, storage, ret.
  - match goal with |- context [tasks_create env ?d _] =>
      destruct (tasks_create_cases env d (world st))
        as (r0 & w' & H & He & Hn & Hx & Ht) end.
    rewrite H. intros Hr.
    assert (world st' = w') as -> by (destruct r0; inversion Hr; reflexivity).
    unfold noPhotoAdded. rewrite He, Hn, Hx.
    split; [reflexivity |]. split; [| split].
    + apply old_or_appended. exact Ht.
    + auto.
    + intros row Hin. right. exists row. auto.
  - discriminate.
  - match goal with |- context [transactions_create env ?d _] =>
      destruct (transactions_create_cases env d (world st))
        as (r0 & w' & H & Ht & He & Hn & Hx) end.
    rewrite H. intros Hr.
    assert (world st' = w') as -> by (destruct r0; inversion Hr; reflexivity).
    unfold noPhotoAdded. rewrite He, Hn, Ht.
    split; [reflexivity |]. split; [| split].
    + auto.
    + apply old_or_appended. exact Hx.
    + intros row Hin. right. exists row. auto.
  - match goal with |- context [transactions_create env ?d _] =>
      destruct (transactions_create_cases env d (world st))
        as (r0 & w' & H & Ht & He & Hn & Hx) end.
    rewrite H. intros Hr.
    assert (world st' = w') as -> by (destruct r0; inversion Hr; reflexivity).
    unfold noPhotoAdded. rewrite He, Hn, Ht.
    split; [reflexivity |]. split; [| split].
    + auto.
    + apply old_or_appended. exact Hx.
    + intros row Hin. right. exists row. auto.
  - match goal with |- context [notes_create env ?d _] =>
      destruct (notes_create_cases env d (world st))
        as (r0 & w' & H & Ht & He & Hx & Hn) end.
    rewrite H. intros Hr.
    assert (world st' = w') as -> by (destruct r0; inversion Hr; reflexivity).
    unfold noPhotoAdded. rewrite He, Hx, Ht.
    split; [reflexivity |]. split; [| split]; [auto | auto |].
    intros row Hin.
    destruct Hn as [Hn | [(row' & Hn & Hp) | (id & content & Hn)]];
      rewrite Hn in Hin.
    + right. exists row. auto.
    + apply in_app_or in Hin. destruct Hin as [Hin | [<- | []]].
      * right. exists row. auto.
      * left. exact Hp.
    + apply in_map_iff in Hin. destruct Hin as (r0' & Heq & Hin).
      right. exists r0'. split; [exact Hin |].
      destruct (n_id r0' =? id); subst row; auto.
  - intros Hr. inversion Hr. apply noPhotoAdded_refl.
Qed.

(** ** What the [switch] stores when the store takes the capture *)

Lemma tasks_create_stores (env : Env) (d : ParsedTask) (w : World)
    (u : string) :
  auth_user env = Some u -> db_error env = None ->
  is_ok (isoOrNull (pt_dueDate d)) = true ->
  exists t row,
    tasks_create env d w
    = (Ok t, {| db := {| tasks := tasks (db w) ++ [row];
                         events := events (db w); notes := notes (db w);
                         transactions := transactions (db w) |};
                uuids := S (uuids w) |})
    /\ t_id row = uuids w /\ t_user_id row = u
    /\ t_title row = pt_title d
    /\ t_photo_url row = orNull (pt_photoUrl d).
Proof.
  intros Hu Hdb Hiso. unfold tasks_create; run. rewrite Hu, Hdb.
  destruct (isoOrNull (pt_dueDate d)); [| discriminate].
  eexists _, _. split; [reflexivity |]. cbn. auto.
Qed.

Lemma transactions_create_stores (env : Env) (d : ParsedTransaction)
    (w : World) (u : string) :
  auth_user env = Some u -> db_error env = None ->
  is_ok (toISOString (transactionDate env (px_date d))) = true ->
  exists t row,
    transactions_create env d w
    = (Ok t, {| db := {| tasks := tasks (db w); events := events (db w);
                         notes := notes (db w);
                         transactions := transactions (db w) ++ [row] |};
                uuids := S (uuids w) |})
    /\ x_id row = uuids w /\ x_user_id row = u
    /\ x_amount row = px_amount d /\ x_type row = px_type d
    /\ x_category row = px_category d
    /\ x_photo_url row = orNull (px_photoUrl d).
Proof.
  intros Hu Hdb Hiso. unfold transactions_create; run. rewrite Hu, Hdb.
  destruct (toISOString (transactionDate env (px_date d))); [| discriminate].
  eexists _, _. split; [reflexivity |]. cbn. auto 10.
Qed.

(** The [switch] on a capture that the store takes, with no photo URL,
    from a store in which one identifier was drawn. *)
Lemma persist_records (env : Env) (c : ParsedCapture) (u1 : Component)
    (w : World) (u : string) :
  supportsPhoto c = true ->
  auth_user env = Some u -> db_error env = None -> storable env u c w ->
  exists w',
    persist env c None {| ui := u1; world := drawn w |}
    = (Ok tt, {| ui := u1; world := w' |})
    /\ recorded env u c w w'.
Proof.
  intros Hs Hu Hdb Hst.
  destruct c as [d | d | d | d | d | ty d];
    unfold persist, bind, storage, ret; cbn [ui world];
    cbn [storable] in Hst.
  - match goal with |- context [tasks_create env ?x _] =>
      destruct (tasks_create_stores env x (drawn w) u Hu Hdb Hst)
        as (t & row & -> & Hid & Hus & Ht & Hp) end.
    eexists. split; [reflexivity |]. exists row. cbn in *. auto.
  - discriminate Hs.
  - match goal with |- context [transactions_create env ?x _] =>
      destruct (transactions_create_stores env x (drawn w) u Hu Hdb Hst)
        as (t & row & -> & Hid & Hus & Ha & Hty & Hc & Hp) end.
    eexists. split; [reflexivity |]. exists row. cbn in *. auto 10.
  - match goal with |- context [transactions_create env ?x _] =>
      destruct (transactions_create_stores env x (drawn w) u Hu Hdb Hst)
        as (t & row & -> & Hid & Hus & Ha & Hty & Hc & Hp) end.
    eexists. split; [reflexivity |]. exists row. cbn in *. auto 10.
  - destruct Hst as [Hnd Hsel].
    set (bare := {| pn_title := pn_title d; pn_content := pn_content d;
                    pn_tags := pn_tags d; pn_photoUrl := orNull None |}).
    assert (Hm : extractMergeInfo bare = extractMergeInfo d) by reflexivity.
    cbn [recorded].
    destruct (extractMergeInfo d) as [[bucketTitle entry] |] eqn:Em.
    + destruct (selectByTitle u bucketTitle (notes (db w)))
        as [[| existing found] | e] eqn:Es; [| | discriminate Hsel].
      * rewrite (notes_create_first env bare (drawn w) u bucketTitle entry
                   Hu Hdb Hm Es).
        eexists. split; [reflexivity |]. left. eexists.
        split; [reflexivity |]. cbn.
        pose proof (extractMergeInfo_nonempty d bucketTitle entry Em) as [Hb _].
        unfold titleOrExcerpt. cbn. unfold orElse, JS.truthy.
        rewrite Hb. auto.
      * destruct (notes_create_append env bare (drawn w) u bucketTitle entry
                    existing found Hu Hdb Hm Es Hnd) as (l1 & l2 & Hrows & ->).
        eexists. split; [reflexivity |]. right.
        exists bucketTitle, entry, l1, existing, l2. auto.
    + rewrite (notes_create_plain env bare (drawn w) u Hu Hdb Hm).
      eexists. split; [reflexivity |]. left. eexists.
      split; [reflexivity |]. cbn. auto.
  - exact (ex_intro _ (drawn w) (conj eq_refl I)).
Qed.

(** C4, as the code has it.  Given a capture of a kind that takes photos,
    with a photo whose upload fails.  The capture ends as it does without
    the photo: the store and the outcome are those of the same capture
    with no photo selected (after the one identifier that the upload
    draws), so it never fails because of the upload alone; the failure is
    reported in a notice; and no photo is attached.  When the store takes
    the capture (somebody is signed in, the database answers, the date can
    be written, the bucket note can be looked up), the capture is
    reported as saved and is recorded: a task or a transaction as a new
    row with no photo URL, a note as a new row with no photo URL or as an
    entry appended to its bucket note, which keeps the photo URL it
    had. *)
Theorem upload_failure_is_not_fatal (env : Env) (c : ParsedCapture)
    (st : State) (photo : File) (u : string) :
  photoFile (ui st) = Some photo ->
  supportsPhoto c = true ->
  is_ok (fst (FileStorage.uploadCapturePhoto env photo (categoryOf c)
                (world st))) = false ->
  ready st ->
  let st' := handleSubmit env (Ok c) st in
  let bare := handleSubmit env (Ok c) (withoutPhoto (afterDraw st)) in
  world st' = world bare
  /\ success (ui st') = success (ui bare)
  /\ notice (ui st') = Some (error, uploadFailedNotice)
  /\ noPhotoAdded (db (world st)) (db (world st'))
  /\ (auth_user env = Some u -> db_error env = None ->
      storable env u c (world st) ->
      success (ui st') = true
      /\ recorded env u c (world st) (world st')).
Proof.
  intros Hphoto Hs Hfail Hready.
  assert (Hready' : ready (withoutPhoto (afterDraw st))) by exact Hready.
  destruct (handleSubmit_runs env c st Hready)
    as (st1 & Hw1 & Hp1 & Hs1 & Hrun1).
  destruct (handleSubmit_runs env c (withoutPhoto (afterDraw st)) Hready')
    as (st2 & Hw2 & Hp2 & Hs2 & Hrun2).
  rewrite Hphoto in Hp1. cbn in Hp2, Hw2.
  rewrite <- Hw1 in Hfail.
  destruct (uploadStep_failed env c st1 photo Hp1 Hs Hfail)
    as (u1 & Hup1 & Hnotice & Hsucc).
  pose proof (uploadStep_no_photo env c st2 Hp2) as Hup2.
  rewrite Hw1 in Hup1.
  destruct (persist_frame env c None u1 (ui st2) (drawn (world st)))
    as (r & w' & Hper1 & Hper2).
  assert (Hst2 : st2 = {| ui := ui st2; world := drawn (world st) |})
    by (destruct st2; cbn in *; subst; reflexivity).
  rewrite <- Hst2 in Hper2.
  destruct (handleConfirm_after env c st1 _ None Hup1 _ _ Hper1)
    as (ua & Hc1 & Hn1 & He1).
  destruct (handleConfirm_after env c st2 _ None Hup2 _ _ Hper2)
    as (ub & Hc2 & Hn2 & He2).
  destruct (Hrun1 _ _ Hc1) as (Hwa & Hsa & Hna).
  destruct (Hrun2 _ _ Hc2) as (Hwb & Hsb & Hnb).
  cbv zeta. cbn [ui world] in *.
  rewrite Hwa, Hwb, Hsa, Hsb, Hna, Hn1, Hnotice.
  split; [reflexivity |]. split; [| split; [reflexivity |]].
  - destruct r; [reflexivity |].
    rewrite (He1 eq_refl), (He2 eq_refl). congruence.
  - split.
    + exact (persist_without_url env c _ _ _ Hs Hper1).
    + intros Hu Hdb Hst.
      destruct (persist_records env c u1 (world st) u Hs Hu Hdb Hst)
        as (w2 & Hper & Hrec).
      rewrite Hper in Hper1. inversion Hper1. subst. auto.
Qed.

Lemma upload_failure_is_not_fatal_witness :
  let st := Examples.start "buy milk" (Some Samples.snapshot)
              Examples.emptyWorld in
  let st' := handleSubmit Examples.env0 (Ok (CaptureTask Examples.buyMilk)) st in
  ready st
  /\ acceptable Samples.snapshot
  /\ is_ok (fst (FileStorage.uploadCapturePhoto Examples.env0 Samples.snapshot
                   "task" (world st))) = false
  /\ success (ui st') = true
  /\ notice (ui st') = Some (error, uploadFailedNotice)
  /\ recorded Examples.env0 "user-1" (CaptureTask Examples.buyMilk)
       (world st) (world st').
Proof.
  cbv zeta.
  assert (Hr : ready (Examples.start "buy milk" (Some Samples.snapshot)
                        Examples.emptyWorld)) by (split; reflexivity).
  pose proof (upload_failure_is_not_fatal Examples.env0
                (CaptureTask Examples.buyMilk)
                (Examples.start "buy milk" (Some Samples.snapshot)
                   Examples.emptyWorld)
                Samples.snapshot "user-1" eq_refl eq_refl eq_refl Hr) as H.
  cbv zeta in H. destruct H as (_ & _ & Hn & _ & Hrec).
  destruct (Hrec eq_refl eq_refl eq_refl) as [Hs Hrow].
  split; [exact Hr |].
  split; [split; [reflexivity | vm_compute; discriminate] |].
  split; [reflexivity |].
  split; [exact Hs |].
  split; [exact Hn | exact Hrow].
Defined.

(** C4 as stated fails on a merge: the bucket note "Groceries" has a
    photo; the capture "Groceries: eggs" comes with a photo that the
    picker accepts and whose upload fails; the capture succeeds, and the
    record it persists, the bucket note with the entry appended, still
    has its photo URL, not [null]. *)
Lemma merged_note_keeps_its_photo :
  acceptable Samples.snapshot
  /\ option_map
       (fun st' =>
          (success (ui st'),
           map (fun r => (n_title r, n_content r, n_photo_url r))
               (notes (db (world st')))))
       (capture (Examples.withResponse Examples.eggsAnswer Examples.env0)
          (Examples.start "Groceries: eggs" (Some Samples.snapshot)
             (Examples.withNotes [Examples.groceries])))
     = Some (true,
             [("Groceries",
               entryMarkup "milk" ++ "<br />" ++ entryMarkup "eggs",
               Some "https://cdn.example/capture-media/note/1.jpg")]).
Proof.
  split; [split; [reflexivity | vm_compute; discriminate] |].
  vm_compute. reflexivity.
Qed.

End Upload.

(* ================================================================== *)
(** * The date of a stored transaction *)

Section Transactions.
Import JS Types DateTime Merge Supabase.

(** Without a date from the classifier the transaction is dated now. *)
Lemma transactionDate_absent (env : Env) :
  transactionDate env None = Some (now env).
Proof. reflexivity. Qed.

(** A date whose UTC hours, minutes or seconds are not all zero is
    stored as it is. *)
Lemma transactionDate_with_time (env : Env) (t : Z) :
  (HourFromTime t <> 0 \/ MinFromTime t <> 0 \/ SecFromTime t <> 0)%Z ->
  transactionDate env (Some (Some t)) = Some t.
Proof.
  intros H. unfold transactionDate, getUTCHours, getUTCMinutes, getUTCSeconds,
    notZero. cbn [option_map].
  destruct (HourFromTime t =? 0)%Z eqn:Eh; [| reflexivity].
  destruct (MinFromTime t =? 0)%Z eqn:Em; [| reflexivity].
  destruct (SecFromTime t =? 0)%Z eqn:Es; [| reflexivity].
  apply Z.eqb_eq in Eh, Em, Es. lia.
Qed.

(** ** The date-only branch *)

Lemma civil_roundtrip (z : Z) :
  let '(y, m, d) := civilFromDays z in
  (daysFromCivil y m d = z /\ 1 <= m <= 12 /\ 1 <= d <= 31)%Z.
Proof.
  unfold civilFromDays, daysFromCivil. cbv zeta.
  set (z' := (z + 719468)%Z).
  set (era := (z' / 146097)%Z).
  set (doe := (z' - era * 146097)%Z).
  assert (Hdoe : (0 <= doe < 146097)%Z).
  { unfold doe, era.
    pose proof (Z.mod_pos_bound z' 146097 ltac:(lia)) as H.
    rewrite Z.mod_eq in H by lia. lia. }
  set (yoe := ((doe - doe / 1460 + doe / 36524 - doe / 146096) / 365)%Z).
  assert (Hyoe : (0 <= yoe <= 399)%Z).
  { unfold yoe. Z.div_mod_to_equations. lia. }
  set (doy := (doe - (365 * yoe + yoe / 4 - yoe / 100))%Z).
  assert (Hdoy : (0 <= doy <= 365)%Z).
  { unfold doy, yoe. Z.div_mod_to_equations. lia. }
  set (mp := ((5 * doy + 2) / 153)%Z).
  assert (Hmp : (0 <= mp <= 11)%Z).
  { unfold mp. Z.div_mod_to_equations. lia. }
  assert (Hera : ((yoe + era * 400) / 400 = era)%Z).
  { symmetry. apply Z.div_unique with (r := yoe); lia. }
  destruct (mp <? 10)%Z eqn:E; [apply Z.ltb_lt in E | apply Z.ltb_ge in E].
  - assert ((mp + 3 <=? 2) = false)%Z as -> by (apply Z.leb_gt; lia).
    assert ((2 <? mp + 3) = true)%Z as -> by (apply Z.ltb_lt; lia).
    replace (mp + 3 - 3)%Z with mp by lia.
    rewrite Hera.
    replace (yoe + era * 400 - era * 400)%Z with yoe by lia.
    split; [| split; [lia |]].
    + unfold doy, z' in *. lia.
    + unfold mp. Z.div_mod_to_equations. lia.
  - assert ((mp - 9 <=? 2) = true)%Z as -> by (apply Z.leb_le; lia).
    assert ((2 <? mp - 9) = false)%Z as -> by (apply Z.ltb_ge; lia).
    replace (mp - 9 + 9)%Z with mp by lia.
    replace (yoe + era * 400 + 1 - 1)%Z with (yoe + era * 400)%Z by lia.
    rewrite Hera.
    replace (yoe + era * 400 - era * 400)%Z with yoe by lia.
    split; [| split; [lia |]].
    + unfold doy, z' in *. lia.
    + unfold mp. Z.div_mod_to_equations. lia.
Qed.

(** The day built from the year, month and day of month of an instant is
    the day of that instant. *)
Lemma MakeDay_fields (x : Z) :
  MakeDay (YearFromTime x) (MonthFromTime x) (DateFromTime x) = Day x.
Proof.
  unfold MakeDay, YearFromTime, MonthFromTime, DateFromTime.
  pose proof (civil_roundtrip (Day x)) as H.
  destruct (civilFromDays (Day x)) as [[y m] d].
  destruct H as (Hr & Hm & Hd).
  assert (((m - 1) / 12 = 0)%Z) as -> by (apply Z.div_small; lia).
  assert (((m - 1) mod 12 = m - 1)%Z) as -> by (apply Z.mod_small; lia).
  replace (y + 0)%Z with y by lia.
  replace (m - 1 + 1)%Z with m by lia.
  rewrite <- Hr. unfold daysFromCivil. lia.
Qed.

Lemma year_after_epoch (x : Z) : (0 <= x -> 1600 <= YearFromTime x)%Z.
Proof.
  intros Hx. unfold YearFromTime, civilFromDays, Day, msPerDay. cbv zeta.
  assert (H0 : (0 <= x / 86400000)%Z) by (apply Z.div_pos; lia).
  set (z := (x / 86400000)%Z) in *.
  set (z' := (z + 719468)%Z).
  set (era := (z' / 146097)%Z).
  assert (He : (4 <= era)%Z).
  { unfold era, z'. Z.div_mod_to_equations. lia. }
  set (doe := (z' - era * 146097)%Z).
  assert (Hdoe : (0 <= doe < 146097)%Z).
  { unfold doe, era.
    pose proof (Z.mod_pos_bound z' 146097 ltac:(lia)) as H.
    rewrite Z.mod_eq in H by lia. lia. }
  set (yoe := ((doe - doe / 1460 + doe / 36524 - doe / 146096) / 365)%Z).
  assert (Hyoe : (0 <= yoe)%Z).
  { unfold yoe. Z.div_mod_to_equations. lia. }
  destruct (_ <=? 2)%Z; lia.
Qed.

Lemma wallClock_within_day (tz now : Z) :
  (0 <= wallClock tz now < msPerDay)%Z.
Proof.
  unfold wallClock, MakeTime, HourFromTime, MinFromTime, SecFromTime,
    msPerHour, msPerMinute, msPerSecond, msPerDay.
  pose proof (Z.mod_pos_bound (LocalTime tz now / 3600000) 24 ltac:(lia)).
  pose proof (Z.mod_pos_bound (LocalTime tz now / 60000) 60 ltac:(lia)).
  pose proof (Z.mod_pos_bound (LocalTime tz now / 1000) 60 ltac:(lia)).
  lia.
Qed.

Lemma midnight_within_second (t : Z) :
  HourFromTime t = 0%Z -> MinFromTime t = 0%Z -> SecFromTime t = 0%Z ->
  (0 <= t - Day t * msPerDay < 1000)%Z.
Proof.
  unfold HourFromTime, MinFromTime, SecFromTime, Day, msPerHour, msPerMinute,
    msPerSecond, msPerDay.
  intros Hh Hm Hs. Z.div_mod_to_equations. lia.
Qed.

(** What the date-only branch stores: the local day of the supplied
    instant, at the local wall-clock time of now. *)
Lemma transactionDate_date_only (env : Env) (t : Z) :
  HourFromTime t = 0%Z -> MinFromTime t = 0%Z -> SecFromTime t = 0%Z ->
  (0 <= t + tz env)%Z -> (Z.abs (tz env) <= msPerDay)%Z ->
  (t + msPerDay <= maxTime)%Z ->
  transactionDate env (Some (Some t))
  = Some (Day (LocalTime (tz env) t) * msPerDay
          + wallClock (tz env) (now env) - tz env)%Z.
Proof.
  intros Hh Hm Hs Hpos Htz Hmax.
  unfold transactionDate, getUTCHours, getUTCMinutes, getUTCSeconds, notZero,
    getFullYear, getMonth, getDate, getHours, getMinutes, getSeconds.
  cbn [option_map]. rewrite Hh, Hm, Hs. cbn [Z.eqb negb orb].
  unfold newDateFields.
  pose proof (year_after_epoch (LocalTime (tz env) t) Hpos) as Hy.
  assert (((0 <=? YearFromTime (LocalTime (tz env) t))
           && (YearFromTime (LocalTime (tz env) t) <=? 99))%Z = false) as ->.
  { apply andb_false_iff. right. apply Z.leb_gt. lia. }
  rewrite MakeDay_fields. fold (wallClock (tz env) (now env)).
  unfold UTC, MakeDate, TimeClip.
  pose proof (wallClock_within_day (tz env) (now env)) as Hw.
  assert (Hd : (LocalTime (tz env) t - msPerDay
                < Day (LocalTime (tz env) t) * msPerDay
                <= LocalTime (tz env) t)%Z).
  { unfold Day, msPerDay. Z.div_mod_to_equations. lia. }
  unfold LocalTime in *. unfold msPerDay, maxTime in *.
  destruct (Z.abs _ <=? _)%Z eqn:E; [reflexivity |].
  apply Z.leb_gt in E. lia.
Qed.

(** On a host at or east of UTC the stored date is on the supplied
    calendar date, at the current wall-clock time. *)
Lemma date_only_keeps_date_east_of_utc (env : Env) (t stored : Z) :
  HourFromTime t = 0%Z -> MinFromTime t = 0%Z -> SecFromTime t = 0%Z ->
  (0 <= t)%Z -> (t + msPerDay <= maxTime)%Z ->
  (0 <= tz env <= 14 * msPerHour)%Z ->
  transactionDate env (Some (Some t)) = Some stored ->
  Day (LocalTime (tz env) stored) = Day t
  /\ (LocalTime (tz env) stored - Day t * msPerDay
      = wallClock (tz env) (now env))%Z.
Proof.
  intros Hh Hm Hs Hpos Hmax Htz Hstored.
  rewrite transactionDate_date_only in Hstored;
    try assumption; try (unfold msPerDay, msPerHour in *; lia).
  inversion Hstored as [Hs']. clear Hstored.
  pose proof (wallClock_within_day (tz env) (now env)) as Hw.
  pose proof (midnight_within_second t Hh Hm Hs) as Hmid.
  assert (Hday : Day (LocalTime (tz env) t) = Day t).
  { unfold LocalTime, Day, msPerDay, msPerHour in *.
    Z.div_mod_to_equations. lia. }
  rewrite Hday. unfold LocalTime. split.
  - unfold Day at 1. unfold msPerDay in *.
    symmetry. apply Z.div_unique with (r := wallClock (tz env) (now env)); lia.
  - lia.
Qed.

(** On a host west of UTC the stored date is on the day before the
    supplied calendar date. *)
Lemma date_only_loses_a_day_west_of_utc (env : Env) (t stored : Z) :
  HourFromTime t = 0%Z -> MinFromTime t = 0%Z -> SecFromTime t = 0%Z ->
  (msPerDay <= t)%Z -> (t + msPerDay <= maxTime)%Z ->
  (- (12 * msPerHour) <= tz env <= - msPerSecond)%Z ->
  transactionDate env (Some (Some t)) = Some stored ->
  Day (LocalTime (tz env) stored) = (Day t - 1)%Z.
Proof.
  intros Hh Hm Hs Hpos Hmax Htz Hstored.
  rewrite transactionDate_date_only in Hstored;
    try assumption;
    try (unfold msPerDay, msPerHour, msPerSecond in *; lia).
  inversion Hstored as [Hs']. clear Hstored.
  pose proof (wallClock_within_day (tz env) (now env)) as Hw.
  pose proof (midnight_within_second t Hh Hm Hs) as Hmid.
  assert (Hday : Day (LocalTime (tz env) t) = (Day t - 1)%Z).
  { unfold LocalTime, Day, msPerDay, msPerHour, msPerSecond in *.
    Z.div_mod_to_equations. lia. }
  rewrite Hday. unfold LocalTime.
  unfold Day at 1. unfold msPerDay in *.
  symmetry. apply Z.div_unique with (r := wallClock (tz env) (now env)); lia.
Qed.

(** C10 at a host west of UTC.  The classifier supplies the date-only
    "2024-03-01", midnight UTC; the host is at UTC-5 and its clock reads
    10:00 on 2024-03-01.  The stored date is 2024-02-29T15:00:00Z, that is
    10:00 on the 29th of February local time: the time of day is the
    current one, the calendar date is not the supplied one. *)
Theorem date_only_shifts_a_day_west_of_utc :
  px_date Examples.lunch = Some (Some 1709251200000%Z)
  /\ civilFromDays (Day 1709251200000) = (2024, 3, 1)%Z
  /\ transactionDate Examples.newYork (px_date Examples.lunch)
     = Some 1709218800000%Z
  /\ civilFromDays (Day (LocalTime (tz Examples.newYork) 1709218800000))
     = (2024, 2, 29)%Z
  /\ civilFromDays (Day 1709218800000) = (2024, 2, 29)%Z
  /\ map x_date
       (transactions
          (db (snd (transactions_create Examples.newYork Examples.lunch
                      Examples.emptyWorld))))
     = [1709218800000%Z].
Proof. repeat split; vm_compute; reflexivity. Qed.

End Transactions.

(* ================================================================== *)
(** * Further properties of the merge resolver *)

Section MoreNotes.
Import JS Json Types DateTime Merge Supabase BucketRegex.

(** ** Escaping *)

Lemma angleFree_escapeEach (s : string) : angleFree (escapeEach s) = true.
Proof.
  induction s as [| c s IH]; [reflexivity |].
  cbn [escapeEach]. unfold escapeChar.
  destruct (Ascii.eqb c "&") eqn:Ha; [exact IH |].
  destruct (Ascii.eqb c "<") eqn:Hl; [exact IH |].
  destruct (Ascii.eqb c ">") eqn:Hg; [exact IH |].
  cbn [append angleFree]. rewrite Hl, Hg. exact IH.
Qed.

(** X1.  [escapeHtml]: the three replacements, one after the other, escape
    every character of the text exactly once (the ampersands that the
    first pass writes are not escaped again by the later ones), and the
    result holds no [<] and no [>]: an entry cannot open or close a tag
    in the fragment it is put into. *)
Theorem escapeHtml_leaves_no_markup (text : string) :
  escapeHtml text = escapeEach text /\ angleFree (escapeHtml text) = true.
Proof.
  split; [apply escapeHtml_each |].
  rewrite escapeHtml_each. apply angleFree_escapeEach.
Qed.

(** ** Trimming *)

Lemma trimEnd_idempotent (s : string) : trimEnd (trimEnd s) = trimEnd s.
Proof.
  induction s as [| c s IH]; [reflexivity |].
  pose proof (allWhite_trimEnd (String c s)) as Hw.
  cbn [trimEnd] in *.
  destruct (allWhite (String c s)) eqn:E; [reflexivity |].
  rewrite (trimEnd_eq_cons _ _ Hw), IH. reflexivity.
Qed.

Lemma trimStart_fixed (s : string) : whiteWidth s = 0 -> trimStart s = s.
Proof. intros H. rewrite trimStart_eq, H. reflexivity. Qed.

Lemma trim_idempotent (s : string) : trim (trim s) = trim s.
Proof.
  unfold trim at 1. rewrite (trimStart_fixed _ (trim_head s)).
  unfold trim. apply trimEnd_idempotent.
Qed.

Lemma noSeparator_trimEnd (s : string) :
  noSeparator s = true -> noSeparator (trimEnd s) = true.
Proof.
  induction s as [| c s IH]; [reflexivity |].
  cbn [noSeparator trimEnd]. intros H.
  apply andb_true_iff in H. destruct H as [Hc Hs].
  destruct (allWhite (String c s)); [reflexivity |].
  cbn [noSeparator]. rewrite Hc, (IH Hs). reflexivity.
Qed.

(** A string that begins with no white space keeps its first byte when it
    is trimmed. *)
Lemma trim_keeps_head (c : ascii) (r x : string) :
  whiteWidth (String c r ++ x) = 0 ->
  trim (String c r) = String c (trimEnd r).
Proof.
  intros H.
  assert (Hw : whiteWidth (String c r) = 0).
  { destruct (whiteWidth (String c r)) as [| n] eqn:E; [reflexivity |].
    rewrite (whiteWidth_app _ x n E) in H. discriminate. }
  unfold trim. rewrite (trimStart_fixed _ Hw).
  apply trimEnd_eq_cons. exact (allWhite_prefix _ x H eq_refl).
Qed.

(** ** Detection of a bucket *)

(** X2.  [extractMergeInfo]: whether a note goes to a bucket is decided by
    the pattern alone.  The note has no bucket exactly when its trimmed
    source (the source without the white space at its two ends) does not
    split into a first group, a colon or hyphen, white space and a second
    group; the test [!bucketTitle || !entry] that follows the match never
    rejects anything.  The bucket title and the entry that are returned
    are non-empty and carry no white space at either end.  White space
    and line terminators are those of ECMAScript. *)
Theorem bucket_detection_is_the_pattern (noteData : ParsedNote) :
  Trimmed (mergeSource noteData) (trim (mergeSource noteData))
  /\ (extractMergeInfo noteData = None
      <-> ~ exists g1 g2, Splits (trim (mergeSource noteData)) g1 g2)
  /\ forall b e,
       extractMergeInfo noteData = Some (b, e) ->
       isEmpty b = false /\ isEmpty e = false /\ trim b = b /\ trim e = e.
Proof.
  split; [apply trim_spec |]. split.
  - rewrite extractMergeInfo_exec, <- exec_none.
    destruct (exec (trim (mergeSource noteData))) as [[g1 g2] |];
      split; intros H; try reflexivity; discriminate.
  - intros b e H.
    destruct (extractMergeInfo_nonempty _ _ _ H) as [Hb He].
    rewrite extractMergeInfo_exec in H.
    destruct (exec (trim (mergeSource noteData))) as [[g1 g2] |];
      [| discriminate].
    inversion H. subst.
    repeat split; auto using trim_idempotent.
Qed.

(** White space beyond ASCII.  The no-break space is trimmed like a
    space: a title that ends in one after the colon has no entry, an
    entry that begins with one loses it, and content that holds nothing
    else is blank.  The line separator is a line terminator, which the
    dot of the pattern does not match.  [substring] counts code units,
    not bytes. *)
Lemma white_space_beyond_ascii :
  extractMergeInfo
    {| pn_title := Some ("Groceries:" ++ Samples.nbsp); pn_content := "x";
       pn_tags := None; pn_photoUrl := None |} = None
  /\ extractMergeInfo
       {| pn_title := Some ("Groceries:" ++ Samples.nbsp ++ "eggs");
          pn_content := "x"; pn_tags := None; pn_photoUrl := None |}
     = Some ("Groceries", "eggs")
  /\ newContent Samples.nbsp (entryMarkup "eggs") = entryMarkup "eggs"
  /\ exec ("a" ++ Samples.lineSeparator ++ "b: c") = None
  /\ substring0 50 Samples.accented
     = "Remember to ask the baker about the new opening c" ++ bytes [195; 169]
  /\ String.length (substring0 50 Samples.accented) = 51.
Proof. repeat split; vm_compute; reflexivity. Qed.

(** X3.  [extractMergeInfo] on a source of one line: the bucket title ends
    before the first colon or hyphen that follows the first character, so
    apart from its first character it holds neither.  A title such as
    [Follow-up: call] is filed under [Follow]. *)
Theorem bucket_title_ends_at_first_separator (noteData : ParsedNote)
    (b e : string) :
  allDot (trim (mergeSource noteData)) = true ->
  extractMergeInfo noteData = Some (b, e) ->
  exists c rest, b = String c rest /\ noSeparator rest = true.
Proof.
  intros Hline H. rewrite extractMergeInfo_exec in H.
  destruct (exec (trim (mergeSource noteData))) as [[g1 g2] |] eqn:E;
    [| discriminate].
  inversion H. subst. clear H.
  destruct (exec_first_separator _ _ _ Hline E) as (c & rest & Hg & Hrest).
  subst g1.
  destruct (exec_sound _ _ _ E) as (sep & ws & Hsrc & _).
  exists c, (trimEnd rest). split.
  - apply (trim_keeps_head c rest (String sep (ws ++ g2))).
    rewrite <- Hsrc. apply trim_head.
  - apply noSeparator_trimEnd. exact Hrest.
Qed.

Lemma bucket_title_ends_at_first_separator_witness :
  exists c rest, "Follow" = String c rest /\ noSeparator rest = true.
Proof.
  apply (bucket_title_ends_at_first_separator
           {| pn_title := Some "Follow-up: call Bob"; pn_content := "x";
              pn_tags := None; pn_photoUrl := None |} "Follow" "up: call Bob");
    reflexivity.
Defined.

(** ** Buckets whose title holds no wildcard *)

Lemma find_filter {A} (p : A -> bool) (l : list A) :
  find p l = hd_error (filter p l).
Proof.
  induction l as [| x l IH]; [reflexivity |].
  cbn [find filter]. destruct (p x); [reflexivity | exact IH].
Qed.

Lemma notes_create_plain_bucket (env : Env) (noteData : ParsedNote)
    (w : World) (u b e : string) :
  auth_user env = Some u -> db_error env = None ->
  extractMergeInfo noteData = Some (b, e) ->
  plain b = true ->
  NoDup (map n_id (notes (db w))) ->
  let starter :=
    {| pn_title := Some b; pn_content := entryMarkup e;
       pn_tags := pn_tags noteData; pn_photoUrl := pn_photoUrl noteData |} in
  notes_create env noteData w
  = match find (sameTitle u b) (notes (db w)) with
    | Some existing =>
        let upd :=
          withContent env (newContent (n_content existing) (entryMarkup e)) in
        (Ok (mapNoteFromDB (upd existing)),
         setNotes (map (fun r => if n_id r =? n_id existing then upd r else r)
                       (notes (db w))) w)
    | None =>
        (Ok (mapNoteFromDB (noteRow env u (uuids w) starter)),
         addNote (noteRow env u (uuids w) starter) w)
    end.
Proof.
  intros Hu Hdb Hm Hp Hnd starter.
  pose proof (selectByTitle_plain u b (notes (db w)) Hp) as Hsel.
  fold (sameTitle u b) in Hsel.
  rewrite find_filter.
  destruct (filter (sameTitle u b) (notes (db w))) as [| x found] eqn:Ef;
    cbn [hd_error].
  - exact (notes_create_first env noteData w u b e Hu Hdb Hm Hsel).
  - destruct (notes_create_append env noteData w u b e x found
                Hu Hdb Hm Hsel Hnd) as (l1 & l2 & Hrows & Hrun).
    rewrite Hrun, Hrows. cbv zeta.
    rewrite Hrows in Hnd. rewrite (map_one n_id _ l1 l2 x Hnd).
    reflexivity.
Qed.

(** X4.  [notes.create] with a bucket title that holds none of [%], [*],
    [_] and the backslash: the entry is appended to the first note of the
    user, in table order, whose title equals the bucket title up to the
    case of letters (stored titles are compared as they are, untrimmed);
    when there is none, a note titled with the bucket and holding the one
    fragment is inserted. *)
Theorem plain_bucket_is_found_by_title_up_to_case (env : Env)
    (noteData : ParsedNote) (w : World) (u b e : string) :
  auth_user env = Some u -> db_error env = None ->
  extractMergeInfo noteData = Some (b, e) ->
  plain b = true ->
  NoDup (map n_id (notes (db w))) ->
  notes (db (snd (notes_create env noteData w)))
  = match find (sameTitle u b) (notes (db w)) with
    | Some existing =>
        map (fun r =>
               if n_id r =? n_id existing
               then withContent env
                      (newContent (n_content existing) (entryMarkup e)) r
               else r)
            (notes (db w))
    | None =>
        (notes (db w)
         ++ [noteRow env u (uuids w)
               {| pn_title := Some b; pn_content := entryMarkup e;
                  pn_tags := pn_tags noteData;
                  pn_photoUrl := pn_photoUrl noteData |}])%list
    end.
Proof.
  intros Hu Hdb Hm Hp Hnd.
  rewrite (notes_create_plain_bucket env noteData w u b e Hu Hdb Hm Hp Hnd).
  destruct (find (sameTitle u b) (notes (db w))); reflexivity.
Qed.

Lemma plain_bucket_is_found_by_title_up_to_case_witness :
  notes (db (snd (notes_create Examples.env0
                    {| pn_title := Some "Groceries: eggs"; pn_content := "x";
                       pn_tags := None; pn_photoUrl := None |}
                    Examples.emptyWorld)))
  = [noteRow Examples.env0 "user-1" 0
       {| pn_title := Some "Groceries"; pn_content := entryMarkup "eggs";
          pn_tags := None; pn_photoUrl := None |}].
Proof.
  apply (plain_bucket_is_found_by_title_up_to_case Examples.env0
           {| pn_title := Some "Groceries: eggs"; pn_content := "x";
              pn_tags := None; pn_photoUrl := None |}
           Examples.emptyWorld "user-1" "Groceries" "eggs");
    try reflexivity.
  constructor.
Defined.

(** ** Two entries for one bucket *)

Lemma entryMarkup_split (e : string) :
  entryMarkup e = ("<div>" ++ bullet ++ " " ++ escapeHtml e) ++ "</div>".
Proof. unfold entryMarkup. rewrite !append_assoc. reflexivity. Qed.

Lemma entryMarkup_trimmed (e : string) : trim (entryMarkup e) = entryMarkup e.
Proof.
  unfold trim.
  assert (Hs : trimStart (entryMarkup e) = entryMarkup e).
  { apply trimStart_fixed. reflexivity. }
  rewrite Hs, entryMarkup_split.
  exact (trimEnd_before "<" _ "/div>" eq_refl eq_refl).
Qed.

Lemma endsWith_div (a : string) : endsWith (a ++ "</div>") "<br />" = false.
Proof.
  unfold endsWith. rewrite length_append.
  replace (String.length a + String.length "</div>" - String.length "<br />")
    with (String.length a) by (cbn [String.length]; lia).
  rewrite drop_append. apply andb_false_r.
Qed.

(** A fragment is followed by a line break and the next fragment. *)
Lemma newContent_markup (e markup : string) :
  newContent (entryMarkup e) markup = entryMarkup e ++ "<br />" ++ markup.
Proof.
  unfold newContent. rewrite entryMarkup_trimmed.
  assert (Ht : JS.truthy (entryMarkup e) = true) by reflexivity.
  rewrite Ht, (entryMarkup_split e), endsWith_div. reflexivity.
Qed.

Lemma find_app_none {A} (p : A -> bool) (l l' : list A) :
  find p l = None -> find p (l ++ l') = find p l'.
Proof.
  induction l as [| x l IH]; [reflexivity |].
  cbn [find app]. destruct (p x); [discriminate | exact IH].
Qed.

(** X5.  [notes.create], twice for one bucket that no note carries yet
    (the title free of [%], [*], [_] and the backslash; the second capture
    may write it in another case): the first call inserts the bucket note,
    the second finds that note and appends, so that the store gains one
    note, titled as the first capture wrote the bucket, whose content is
    the first fragment, a line break and the second fragment.  Tags and
    photo are those of the first capture. *)
Theorem two_entries_share_one_bucket_note (env : Env)
    (first second : ParsedNote) (w : World) (u b b2 e1 e2 : string) :
  auth_user env = Some u -> db_error env = None ->
  extractMergeInfo first = Some (b, e1) ->
  extractMergeInfo second = Some (b2, e2) ->
  plain b = true -> plain b2 = true ->
  toLowerCase b2 = toLowerCase b ->
  wellKeyed w ->
  find (sameTitle u b) (notes (db w)) = None ->
  let w1 := snd (notes_create env first w) in
  let w2 := snd (notes_create env second w1) in
  notes (db w2)
  = (notes (db w)
     ++ [withContent env (entryMarkup e1 ++ "<br />" ++ entryMarkup e2)
           (noteRow env u (uuids w)
              {| pn_title := Some b; pn_content := entryMarkup e1;
                 pn_tags := pn_tags first;
                 pn_photoUrl := pn_photoUrl first |})])%list.
Proof.
  intros Hu Hdb Hm1 Hm2 Hp Hp2 Hlow Hk Hnone w1 w2.
  pose proof (wellKeyed_notes_create env first w Hk) as Hk1.
  fold w1 in Hk1. destruct Hk1 as [Hnd1 _].
  destruct Hk as [Hnd _].
  assert (Hw1 : notes (db w1)
                = (notes (db w)
                   ++ [noteRow env u (uuids w)
                         {| pn_title := Some b; pn_content := entryMarkup e1;
                            pn_tags := pn_tags first;
                            pn_photoUrl := pn_photoUrl first |}])%list).
  { unfold w1.
    rewrite (notes_create_plain_bucket env first w u b e1 Hu Hdb Hm1 Hp Hnd).
    rewrite Hnone. reflexivity. }
  set (row1 := noteRow env u (uuids w) _) in *.
  assert (Htitle : n_title row1 = b).
  { destruct (extractMergeInfo_nonempty _ _ _ Hm1) as [Hb _].
    unfold row1, noteRow, titleOrExcerpt, orElse, JS.truthy. cbn [n_title pn_title].
    rewrite Hb. reflexivity. }
  assert (Hfind : find (sameTitle u b2) (notes (db w1)) = Some row1).
  { rewrite Hw1. rewrite find_app_none.
    - cbn [find]. unfold sameTitle at 1. rewrite Htitle, Hlow, !String.eqb_refl.
      reflexivity.
    - unfold sameTitle in *. rewrite Hlow. exact Hnone. }
  unfold w2.
  rewrite (notes_create_plain_bucket env second w1 u b2 e2 Hu Hdb Hm2 Hp2 Hnd1).
  rewrite Hfind. cbv zeta. cbn [snd].
  unfold setNotes. cbn [db notes].
  rewrite Hw1 in Hnd1 |- *.
  rewrite (map_one n_id _ (notes (db w)) [] row1 Hnd1).
  replace (n_content row1) with (entryMarkup e1) by reflexivity.
  rewrite newContent_markup. reflexivity.
Qed.

Lemma two_entries_share_one_bucket_note_witness :
  notes (db (snd (notes_create Examples.env0
                    {| pn_title := Some "groceries - milk"; pn_content := "x";
                       pn_tags := None; pn_photoUrl := None |}
                    (snd (notes_create Examples.env0
                            {| pn_title := Some "Groceries: eggs";
                               pn_content := "x"; pn_tags := Some ["food"];
                               pn_photoUrl := None |}
                            Examples.emptyWorld)))))
  = [withContent Examples.env0
       (entryMarkup "eggs" ++ "<br />" ++ entryMarkup "milk")
       (noteRow Examples.env0 "user-1" 0
          {| pn_title := Some "Groceries"; pn_content := entryMarkup "eggs";
             pn_tags := Some ["food"]; pn_photoUrl := None |})].
Proof.
  apply (two_entries_share_one_bucket_note Examples.env0
           {| pn_title := Some "Groceries: eggs"; pn_content := "x";
              pn_tags := Some ["food"]; pn_photoUrl := None |}
           {| pn_title := Some "groceries - milk"; pn_content := "x";
              pn_tags := None; pn_photoUrl := None |}
           Examples.emptyWorld "user-1" "Groceries" "groceries" "eggs" "milk");
    try reflexivity.
  split; [constructor | intros r []].
Defined.

End MoreNotes.

(* ================================================================== *)
(** * Properties of the storage service as a whole *)

Section Crud.
Import JS Types DateTime Merge Supabase SupabaseCrud GoogleCalendarSync.

(** ** Keyed tables *)

Section KeyedTables.
Context {A : Type} (key : A -> nat).

Lemma Keyed_mono (rows : list A) (b b' : nat) :
  b <= b' -> Keyed key rows b -> Keyed key rows b'.
Proof.
  intros Hb [Hnd Hlt]. split; [exact Hnd |].
  intros r Hr. specialize (Hlt r Hr). lia.
Qed.

Lemma Keyed_snoc (rows : list A) (b : nat) (r : A) :
  Keyed key rows b -> key r = b -> Keyed key (rows ++ [r]) (S b).
Proof.
  intros [Hnd Hlt] Hr. split.
  - rewrite map_app. cbn [map].
    apply NoDup_app; [exact Hnd | repeat constructor; intros [] |].
    intros a Hin [<- | []].
    apply in_map_iff in Hin. destruct Hin as (x & Hx & Hin).
    specialize (Hlt x Hin). lia.
  - intros x Hx. apply in_app_or in Hx. destruct Hx as [Hx | [Hx | []]].
    + specialize (Hlt x Hx). lia.
    + subst x. lia.
Qed.

Lemma Keyed_map (f : A -> A) (rows : list A) (b : nat) :
  (forall r, key (f r) = key r) ->
  Keyed key rows b -> Keyed key (map f rows) b.
Proof.
  intros Hf [Hnd Hlt]. split.
  - rewrite map_map. rewrite (map_ext _ key); [exact Hnd |]. exact Hf.
  - intros r Hr. apply in_map_iff in Hr. destruct Hr as (x & Hx & Hin).
    subst r. rewrite Hf. exact (Hlt x Hin).
Qed.

Lemma NoDup_map_filter (p : A -> bool) (rows : list A) :
  NoDup (map key rows) -> NoDup (map key (filter p rows)).
Proof.
  induction rows as [| x rows IH]; [trivial |].
  cbn [map filter]. intros H. inversion H as [| k ks Hnot Hrest]. subst.
  destruct (p x); [| exact (IH Hrest)].
  cbn [map]. constructor; [| exact (IH Hrest)].
  intros Hin. apply Hnot. apply in_map_iff in Hin.
  destruct Hin as (y & Hy & Hin). apply filter_In in Hin.
  apply in_map_iff. exists y. tauto.
Qed.

Lemma Keyed_filter (p : A -> bool) (rows : list A) (b : nat) :
  Keyed key rows b -> Keyed key (filter p rows) b.
Proof.
  intros [Hnd Hlt]. split; [exact (NoDup_map_filter p rows Hnd) |].
  intros r Hr. apply filter_In in Hr. exact (Hlt r (proj1 Hr)).
Qed.

End KeyedTables.

(** ** Computations that keep a property of the store *)

Lemma preserves_bind {S A B} (P : S -> Prop) (c : M S A)
    (k : A -> M S B) :
  preserves P c -> (forall a, preserves P (k a)) -> preserves P (bind c k).
Proof.
  intros Hc Hk w Hw. unfold bind. specialize (Hc w Hw).
  destruct (c w) as [[a | e] w']; cbn [snd] in *; [| exact Hc].
  exact (Hk a w' Hc).
Qed.

Lemma preserves_catch {S A} (P : S -> Prop) (c : M S A)
    (h : string -> M S A) :
  preserves P c -> (forall e, preserves P (h e)) -> preserves P (catch c h).
Proof.
  intros Hc Hh w Hw. unfold catch. specialize (Hc w Hw).
  destruct (c w) as [[a | e] w']; cbn [snd] in *; [exact Hc |].
  exact (Hh e w' Hc).
Qed.

Lemma preserves_pure {S A} (P : S -> Prop) (c : M S A) :
  (forall w, snd (c w) = w) -> preserves P c.
Proof. intros H w Hw. rewrite H. exact Hw. Qed.

Lemma preserves_ret {S A} (P : S -> Prop) (a : A) : preserves P (ret a).
Proof. apply preserves_pure. reflexivity. Qed.

Lemma preserves_throw {S A} (P : S -> Prop) (e : string) :
  preserves P (@throw S A e).
Proof. apply preserves_pure. reflexivity. Qed.

Lemma preserves_lift {S A} (P : S -> Prop) (r : result A) :
  preserves P (lift r).
Proof. apply preserves_pure. reflexivity. Qed.

Lemma preserves_gets {S A} (P : S -> Prop) (f : S -> A) :
  preserves P (gets f).
Proof. apply preserves_pure. reflexivity. Qed.

Lemma preserves_finally {S A} (P : S -> Prop) (c : M S A) (f : M S unit) :
  preserves P c -> preserves P f -> preserves P (finally c f).
Proof.
  intros Hc Hf s Hs. unfold finally. specialize (Hc s Hs).
  destruct (c s) as [r s']. cbn [snd] in Hc. specialize (Hf s' Hc).
  destruct (f s') as [[[] | e] s'']; exact Hf.
Qed.

Lemma preserves_query (P : World -> Prop) (env : Env) :
  preserves P (query env).
Proof. apply preserves_pure. intros w. unfold query. destruct (db_error env); reflexivity. Qed.

Lemma preserves_getUserId (P : World -> Prop) (env : Env) :
  preserves P (getUserId env).
Proof.
  apply preserves_pure. intros w. unfold getUserId.
  destruct (auth_user env); reflexivity.
Qed.

Lemma preserves_notFoundAs {A} (P : World -> Prop) (dflt : A)
    (c : M World A) :
  preserves P c -> preserves P (notFoundAs dflt c).
Proof.
  intros Hc. apply preserves_catch; [exact Hc |].
  intros e. destruct (String.eqb e "PGRST116");
    [apply preserves_ret | apply preserves_throw].
Qed.

Lemma preserves_safeDeletePhoto (P : World -> Prop) (removal : result unit)
    (url : option string) :
  preserves P (safeDeletePhoto removal url).
Proof.
  unfold safeDeletePhoto. destruct (orNull url); [| apply preserves_ret].
  apply preserves_catch; [apply preserves_lift |].
  intros e. apply preserves_ret.
Qed.

Lemma preserves_modify {S} (P : S -> Prop) (f : S -> S) :
  (forall w, P w -> P (f w)) -> preserves P (modify f).
Proof. intros H w Hw. exact (H w Hw). Qed.

(** ** Every call keeps the tables keyed *)

#[local] Hint Resolve Keyed_snoc Keyed_filter : keyed.
#[local] Hint Extern 2 (Keyed _ (map _ _) _) =>
  apply Keyed_map;
    [ let r := fresh "r" in
      intros r;
      match goal with
      | |- context [if ?c then _ else _] => destruct c; reflexivity
      end
    | assumption ] : keyed.
#[local] Hint Extern 3 (Keyed _ _ (S _)) =>
  eapply Keyed_mono; [| eassumption]; lia : keyed.

Lemma tasks_create_keyed (env : Env) (d : ParsedTask) :
  preserves storeKeyed (tasks_create env d).
Proof. intros w Hw. unfold_call. split_call env; keyed. Qed.

Lemma events_create_keyed (env : Env) (d : ParsedEvent) :
  preserves storeKeyed (events_create env d).
Proof. intros w Hw. unfold_call. split_call env; keyed. Qed.

Lemma transactions_create_keyed (env : Env) (d : ParsedTransaction) :
  preserves storeKeyed (transactions_create env d).
Proof. intros w Hw. unfold_call. split_call env; keyed. Qed.

Lemma tasks_update_keyed (env : Env) (id : nat) (u : PartialTask) :
  preserves storeKeyed (tasks_update env id u).
Proof. intros w Hw. unfold_call. split_call env; keyed. Qed.

Lemma events_update_keyed (env : Env) (id : nat) (u : PartialEvent) :
  preserves storeKeyed (events_update env id u).
Proof. intros w Hw. unfold_call. split_call env; keyed. Qed.

Lemma notes_update_keyed (env : Env) (id : nat) (u : PartialNote) :
  preserves storeKeyed (notes_update env id u).
Proof. intros w Hw. unfold_call. split_call env; keyed. Qed.

Lemma updateContent_keyed (env : Env) (id : nat) (content : string) :
  preserves storeKeyed (updateContent env id content).
Proof. intros w Hw. unfold_call. split_call env; keyed. Qed.

Lemma insertNote_keyed (env : Env) (u : string) (d : ParsedNote) :
  preserves storeKeyed (insertNote env u d).
Proof. intros w Hw. unfold_call. split_call env; keyed. Qed.

Lemma notes_create_keyed (env : Env) (d : ParsedNote) :
  preserves storeKeyed (notes_create env d).
Proof.
  unfold notes_create.
  apply preserves_bind; [apply preserves_getUserId |]. intros userId.
  destruct (extractMergeInfo d) as [[bucketTitle entry] |];
    [| apply insertNote_keyed].
  apply preserves_bind; [apply preserves_query |]. intros _.
  apply preserves_bind; [apply preserves_gets |]. intros rows.
  apply preserves_bind; [apply preserves_lift |]. intros found.
  destruct (firstn 1 found);
    [apply insertNote_keyed | apply updateContent_keyed].
Qed.

Lemma tasks_delete_keyed (env : Env) (removal : result unit) (id : nat) :
  preserves storeKeyed (tasks_delete env removal id).
Proof.
  unfold tasks_delete, getTaskPhoto.
  apply preserves_bind.
  { apply preserves_notFoundAs.
    apply preserves_bind; [apply preserves_query |]. intros _.
    apply preserves_bind; [apply preserves_gets |]. intros rows.
    apply preserves_bind; [apply preserves_lift |]. intros data.
    apply preserves_ret. }
  intros existing. apply preserves_bind.
  { destruct existing; [apply preserves_safeDeletePhoto | apply preserves_ret]. }
  intros _. apply preserves_bind; [apply preserves_query |]. intros _.
  apply preserves_modify. intros w Hw. keyed.
Qed.

Lemma notes_delete_keyed (env : Env) (removal : result unit) (id : nat) :
  preserves storeKeyed (notes_delete env removal id).
Proof.
  unfold notes_delete, getNotePhoto.
  apply preserves_bind.
  { apply preserves_notFoundAs.
    apply preserves_bind; [apply preserves_query |]. intros _.
    apply preserves_bind; [apply preserves_gets |]. intros rows.
    apply preserves_bind; [apply preserves_lift |]. intros data.
    apply preserves_ret. }
  intros existing. apply preserves_bind.
  { destruct existing; [apply preserves_safeDeletePhoto | apply preserves_ret]. }
  intros _. apply preserves_bind; [apply preserves_query |]. intros _.
  apply preserves_modify. intros w Hw. keyed.
Qed.

Lemma transactions_delete_keyed (env : Env) (removal : result unit)
    (id : nat) :
  preserves storeKeyed (transactions_delete env removal id).
Proof.
  unfold transactions_delete, getTransactionPhoto.
  apply preserves_bind.
  { apply preserves_notFoundAs.
    apply preserves_bind; [apply preserves_query |]. intros _.
    apply preserves_bind; [apply preserves_gets |]. intros rows.
    apply preserves_bind; [apply preserves_lift |]. intros data.
    apply preserves_ret. }
  intros existing. apply preserves_bind.
  { destruct existing; [apply preserves_safeDeletePhoto | apply preserves_ret]. }
  intros _. apply preserves_bind; [apply preserves_query |]. intros _.
  apply preserves_modify. intros w Hw. keyed.
Qed.

Lemma events_delete_keyed (env : Env) (id : nat) :
  preserves storeKeyed (events_delete env id).
Proof.
  unfold events_delete.
  apply preserves_bind; [apply preserves_query |]. intros _.
  apply preserves_modify. intros w Hw. keyed.
Qed.

Lemma events_getAll_pure (P : World -> Prop) (env : Env) :
  preserves P (events_getAll env).
Proof.
  unfold events_getAll.
  apply preserves_bind; [apply preserves_getUserId |]. intros userId.
  apply preserves_bind; [apply preserves_query |]. intros _.
  apply preserves_bind; [apply preserves_gets |]. intros rows.
  apply preserves_ret.
Qed.

(** The pull from the calendar keeps whatever the two calls it makes
    keep. *)
Lemma sync_preserves (P : World -> Prop) (env : Env) (answer : Listing) :
  (forall d, preserves P (events_create env d)) ->
  (forall id u, preserves P (events_update env id u)) ->
  preserves P (syncFromGoogleCalendar env answer).
Proof.
  intros Hc Hu. unfold syncFromGoogleCalendar.
  apply preserves_catch; [| intros e; apply preserves_throw].
  apply preserves_bind; [apply preserves_lift |]. intros response.
  apply preserves_bind; [apply events_getAll_pure |]. intros localEvents.
  induction (match response with Some items => items | None => [] end)
    as [| g rest IH]; cbn [syncAll]; [apply preserves_ret |].
  apply preserves_bind; [| intros _; exact IH].
  unfold syncOne. destruct (negb (timed g)); [apply preserves_ret |].
  destruct (find (linkedTo g) localEvents) as [existingEvent |].
  - destruct (laterThan _ _); [| apply preserves_ret].
    apply preserves_bind; [apply Hu |]. intros _. apply preserves_ret.
  - apply preserves_bind; [apply Hc |]. intros newEvent.
    apply preserves_bind; [apply Hu |]. intros _. apply preserves_ret.
Qed.

(** X6.  The storage service and the pull from the calendar keep the
    primary keys sound: from a store whose rows have distinct
    identifiers, all drawn from the source of identifiers, any sequence
    of creations, updates, deletions and pulls, each succeeding or
    failing at any point, leads to such a store again.  A fresh
    identifier is therefore never the identifier of a stored row, and an
    update or deletion by identifier concerns at most one row. *)
Theorem calls_keep_the_store_keyed (calls : list (Env * Call)) (w : World) :
  storeKeyed w -> storeKeyed (performAll calls w).
Proof.
  revert w. induction calls as [| [env c] calls IH]; intros w Hw;
    [exact Hw |].
  cbn [performAll fold_left fst snd]. apply IH.
  destruct c; cbn [perform].
  - apply tasks_create_keyed; exact Hw.
  - apply tasks_update_keyed; exact Hw.
  - apply tasks_delete_keyed; exact Hw.
  - apply events_create_keyed; exact Hw.
  - apply events_update_keyed; exact Hw.
  - apply events_delete_keyed; exact Hw.
  - apply notes_create_keyed; exact Hw.
  - apply notes_update_keyed; exact Hw.
  - apply notes_delete_keyed; exact Hw.
  - apply transactions_create_keyed; exact Hw.
  - apply transactions_delete_keyed; exact Hw.
  - apply sync_preserves;
      [intros d; apply events_create_keyed
      | intros id u; apply events_update_keyed | exact Hw].
Qed.

Lemma calls_keep_the_store_keyed_witness :
  storeKeyed
    (performAll
       [(Examples.env0, NotesCreate Examples.eggs);
        (Samples.linked,
         SyncFromGoogleCalendar (ListOk (Some [Samples.review])));
        (Examples.env0, EventsDelete 1);
        (Samples.signedOut, TasksCreate Examples.buyMilk)]
       Examples.emptyWorld).
Proof.
  apply calls_keep_the_store_keyed.
  repeat split; try constructor; intros r [].
Defined.

End Crud.

(* ================================================================== *)
(** * Writing and reading back *)

Section RoundTrips.
Import JS Types DateTime Merge Supabase SupabaseCrud.

Section Lookup.
Context {A : Type} (key : A -> nat).

Lemma filter_fresh (rows : list A) (b : nat) :
  Keyed key rows b -> filter (fun r => key r =? b) rows = [].
Proof.
  intros [_ Hlt]. apply filter_none. intros Hin.
  apply in_map_iff in Hin. destruct Hin as (r & Hr & Hin).
  specialize (Hlt r Hin). lia.
Qed.

Lemma single_filter_snoc (rows : list A) (b : nat) (r : A) :
  Keyed key rows b -> key r = b ->
  single (filter (fun x => key x =? b) (rows ++ [r])) = Ok r.
Proof.
  intros Hk Hr. rewrite filter_app, (filter_fresh rows b Hk).
  cbn [filter app]. rewrite Hr, Nat.eqb_refl. reflexivity.
Qed.

Lemma filter_map_key (f : A -> A) (id : nat) (rows : list A) :
  (forall r, key (f r) = key r) ->
  filter (fun r => key r =? id) (map f rows)
  = map f (filter (fun r => key r =? id) rows).
Proof.
  intros Hf. induction rows as [| x rows IH]; [reflexivity |].
  cbn [map filter]. rewrite Hf. destruct (key x =? id); cbn [map];
    rewrite IH; reflexivity.
Qed.

Lemma map_filter_hit (upd : A -> A) (id : nat) (rows : list A) :
  map (fun r => if key r =? id then upd r else r)
      (filter (fun r => key r =? id) rows)
  = map upd (filter (fun r => key r =? id) rows).
Proof.
  induction rows as [| x rows IH]; [reflexivity |].
  cbn [filter]. destruct (key x =? id) eqn:E; [| exact IH].
  cbn [map]. rewrite E, IH. reflexivity.
Qed.

(** After an update by identifier, the rows with that identifier are the
    rows the update returned. *)
Lemma filter_updated (upd : A -> A) (id : nat) (rows : list A) :
  (forall r, key (upd r) = key r) ->
  filter (fun r => key r =? id)
         (map (fun r => if key r =? id then upd r else r) rows)
  = map upd (filter (fun r => key r =? id) rows).
Proof.
  intros Hf. rewrite filter_map_key.
  - apply map_filter_hit.
  - intros r. destruct (key r =? id); [apply Hf | reflexivity].
Qed.

Lemma single_hit (upd : A -> A) (id : nat) (rows : list A) (a : A) :
  (forall r, key (upd r) = key r) ->
  single (map upd (filter (fun r => key r =? id) rows)) = Ok a ->
  key a = id.
Proof.
  intros Hf H.
  destruct (filter (fun r => key r =? id) rows) as [| x [| y l]] eqn:E;
    try discriminate H.
  cbn in H. inversion H. subst a. rewrite Hf.
  assert (Hin : In x (filter (fun r => key r =? id) rows))
    by (rewrite E; left; reflexivity).
  apply filter_In in Hin. apply Nat.eqb_eq. exact (proj2 Hin).
Qed.

Lemma single_returned (columns : bool) (upd : A -> A) (hit : A -> bool)
    (rows : list A) (a : A) :
  single (returned columns upd hit rows) = Ok a ->
  columns = true /\ single (map upd (filter hit rows)) = Ok a.
Proof.
  unfold returned. destruct columns; [auto | discriminate].
Qed.

End Lookup.

Lemma tasks_create_read (env : Env) (d : ParsedTask) (w w' : World)
    (t : Task) :
  storeKeyed w -> tasks_create env d w = (Ok t, w') ->
  tasks_getById env (task_id t) w' = (Ok (Some t), w').
Proof.
  intros (Hk & _) H. written H env.
  all: read_back Heqo0; cbn [mapTaskFromDB task_id t_id];
    rewrite (single_filter_snoc t_id _ (uuids w)); [reflexivity | exact Hk | reflexivity].
Qed.

Lemma events_create_read (env : Env) (d : ParsedEvent) (w w' : World)
    (e : Event) :
  storeKeyed w -> events_create env d w = (Ok e, w') ->
  events_getById env (event_id e) w' = (Ok (Some e), w').
Proof.
  intros (_ & Hk & _) H. written H env.
  read_back Heqo0; cbn [mapEventFromDB event_id e_id];
    rewrite (single_filter_snoc e_id _ (uuids w)); [reflexivity | exact Hk | reflexivity].
Qed.

Lemma transactions_create_read (env : Env) (d : ParsedTransaction)
    (w w' : World) (x : Transaction) :
  storeKeyed w -> transactions_create env d w = (Ok x, w') ->
  transactions_getById env (transaction_id x) w' = (Ok (Some x), w').
Proof.
  intros (_ & _ & _ & Hk) H. written H env.
  read_back Heqo0; cbn [mapTransactionFromDB transaction_id x_id];
    rewrite (single_filter_snoc x_id _ (uuids w)); [reflexivity | exact Hk | reflexivity].
Qed.

Lemma insertNote_read (env : Env) (u : string) (d : ParsedNote)
    (w w' : World) (n : Note) :
  storeKeyed w -> insertNote env u d w = (Ok n, w') ->
  notes_getById env (note_id n) w' = (Ok (Some n), w').
Proof.
  intros (_ & _ & Hk & _) H. written H env.
  all: read_back Heqo0; cbn [mapNoteFromDB note_id n_id];
    rewrite (single_filter_snoc n_id _ (uuids w)); [reflexivity | exact Hk | reflexivity].
Qed.

Lemma tasks_update_read (env : Env) (id : nat) (u : PartialTask)
    (w w' : World) (t : Task) :
  tasks_update env id u w = (Ok t, w') ->
  task_id t = id /\ tasks_getById env id w' = (Ok (Some t), w').
Proof.
  intros H. written H env.
  all: apply single_returned in Heqr1; destruct Heqr1 as [_ Hs].
  all: split; [eapply (single_hit t_id); [| exact Hs]; intros r; reflexivity |].
  all: read_back Heqo0;
    rewrite (filter_updated t_id) by (intros r; reflexivity); rewrite Hs; reflexivity.
Qed.

Lemma events_update_read (env : Env) (id : nat) (u : PartialEvent)
    (w w' : World) (e : Event) :
  events_update env id u w = (Ok e, w') ->
  event_id e = id /\ events_getById env id w' = (Ok (Some e), w').
Proof.
  intros H. written H env.
  all: apply single_returned in Heqr1; destruct Heqr1 as [_ Hs].
  all: split; [eapply (single_hit e_id); [| exact Hs]; intros r; reflexivity |].
  all: read_back Heqo0;
    rewrite (filter_updated e_id) by (intros r; reflexivity); rewrite Hs;
    reflexivity.
Qed.

Lemma notes_update_read (env : Env) (id : nat) (u : PartialNote)
    (w w' : World) (n : Note) :
  notes_update env id u w = (Ok n, w') ->
  note_id n = id /\ notes_getById env id w' = (Ok (Some n), w').
Proof.
  intros H. written H env.
  all: apply single_returned in Heqr; destruct Heqr as [_ Hs].
  all: split; [eapply (single_hit n_id); [| exact Hs]; intros r; reflexivity |].
  all: read_back Heqo0;
    rewrite (filter_updated n_id) by (intros r; reflexivity); rewrite Hs; reflexivity.
Qed.

Lemma updateContent_read (env : Env) (id : nat) (content : string)
    (w w' : World) (n : Note) :
  updateContent env id content w = (Ok n, w') ->
  note_id n = id /\ notes_getById env id w' = (Ok (Some n), w').
Proof.
  intros H. written H env.
  all: split; [eapply (single_hit n_id); [| exact Heqr]; intros r; reflexivity |].
  all: read_back Heqo0;
    rewrite (filter_updated n_id) by (intros r; reflexivity); rewrite Heqr;
    reflexivity.
Qed.

Lemma notes_create_read (env : Env) (d : ParsedNote) (w w' : World)
    (n : Note) :
  storeKeyed w -> notes_create env d w = (Ok n, w') ->
  notes_getById env (note_id n) w' = (Ok (Some n), w').
Proof.
  intros Hk H. unfold notes_create in H.
  unfold bind at 1, getUserId in H.
  destruct (auth_user env) as [u |]; [| discriminate H].
  cbn [ret] in H.
  destruct (extractMergeInfo d) as [[bucketTitle entry] |];
    [| exact (insertNote_read env u d w w' n Hk H)].
  unfold bind at 1, query in H.
  destruct (db_error env) eqn:Hdb; [discriminate H |].
  cbn [ret] in H. unfold bind at 1, gets in H. unfold bind at 1, lift in H.
  destruct (selectByTitle u bucketTitle (notes (db w))) as [found | e];
    [| discriminate H].
  destruct (firstn 1 found) as [| existingNote rest].
  - exact (insertNote_read env u _ w w' n Hk H).
  - destruct (updateContent_read env _ _ w w' n H) as [Hid Hread].
    rewrite Hid. exact Hread.
Qed.

Lemma storeKeyed_empty : storeKeyed Examples.emptyWorld.
Proof. repeat split; try constructor; intros r []. Qed.

(** X7.  Creation and lookup by identifier: in a store with sound keys,
    the record that [tasks.create], [events.create], [notes.create] (on
    either path, the insertion or the append to a bucket note) or
    [transactions.create] returns is the record that [getById] gives for
    its identifier in the store the creation leaves. *)
Theorem created_record_is_read_back (env : Env) (w : World) :
  storeKeyed w ->
  (forall d t w', tasks_create env d w = (Ok t, w') ->
     tasks_getById env (task_id t) w' = (Ok (Some t), w'))
  /\ (forall d e w', events_create env d w = (Ok e, w') ->
       events_getById env (event_id e) w' = (Ok (Some e), w'))
  /\ (forall d n w', notes_create env d w = (Ok n, w') ->
       notes_getById env (note_id n) w' = (Ok (Some n), w'))
  /\ (forall d x w', transactions_create env d w = (Ok x, w') ->
       transactions_getById env (transaction_id x) w' = (Ok (Some x), w')).
Proof.
  intros Hk. split; [| split; [| split]]; intros d r w' H.
  - exact (tasks_create_read env d w w' r Hk H).
  - exact (events_create_read env d w w' r Hk H).
  - exact (notes_create_read env d w w' r Hk H).
  - exact (transactions_create_read env d w w' r Hk H).
Qed.

Lemma created_record_is_read_back_witness :
  let created := events_create Examples.env0 Examples.standup
                   Examples.emptyWorld in
  match fst created with
  | Ok e =>
      events_getById Examples.env0 (event_id e) (snd created)
      = (Ok (Some e), snd created)
  | Throw _ => False
  end.
Proof.
  exact (proj1 (proj2 (created_record_is_read_back Examples.env0
                         Examples.emptyWorld storeKeyed_empty))
           Examples.standup _ _ eq_refl).
Defined.

(** X8.  Update and lookup by identifier: when [tasks.update],
    [events.update] or [notes.update] returns a record, the record carries
    the identifier that was asked for, and [getById] gives that same
    record in the store the update leaves. *)
Theorem updated_record_is_read_back (env : Env) (id : nat) (w w' : World) :
  (forall u t, tasks_update env id u w = (Ok t, w') ->
     task_id t = id /\ tasks_getById env id w' = (Ok (Some t), w'))
  /\ (forall u e, events_update env id u w = (Ok e, w') ->
       event_id e = id /\ events_getById env id w' = (Ok (Some e), w'))
  /\ (forall u n, notes_update env id u w = (Ok n, w') ->
       note_id n = id /\ notes_getById env id w' = (Ok (Some n), w')).
Proof.
  split; [| split]; intros u r H.
  - exact (tasks_update_read env id u w w' r H).
  - exact (events_update_read env id u w w' r H).
  - exact (notes_update_read env id u w w' r H).
Qed.

(** ** Deletion *)

Lemma filter_dropped {A} (key : A -> nat) (id : nat) (rows : list A) :
  filter (fun r => key r =? id) (filter (fun r => negb (key r =? id)) rows)
  = [].
Proof.
  induction rows as [| x rows IH]; [reflexivity |].
  cbn [filter]. destruct (key x =? id) eqn:E; cbn [negb filter];
    [exact IH |]. rewrite E. exact IH.
Qed.

Lemma tasks_delete_run (env : Env) (removal : result unit) (id : nat)
    (w : World) :
  tasks_delete env removal id w
  = match db_error env with
    | Some e => (Throw e, w)
    | None => (Ok tt, dropTask id w)
    end.
Proof. delete_run. Qed.

Lemma notes_delete_run (env : Env) (removal : result unit) (id : nat)
    (w : World) :
  notes_delete env removal id w
  = match db_error env with
    | Some e => (Throw e, w)
    | None => (Ok tt, dropNote id w)
    end.
Proof. delete_run. Qed.

Lemma transactions_delete_run (env : Env) (removal : result unit) (id : nat)
    (w : World) :
  transactions_delete env removal id w
  = match db_error env with
    | Some e => (Throw e, w)
    | None => (Ok tt, dropTransaction id w)
    end.
Proof. delete_run. Qed.

Lemma events_delete_run (env : Env) (id : nat) (w : World) :
  events_delete env id w
  = match db_error env with
    | Some e => (Throw e, w)
    | None => (Ok tt, dropEvent id w)
    end.
Proof.
  unfold events_delete, bind, query, modify, throw, ret.
  destruct (db_error env); reflexivity.
Qed.

(** X9.  Deletion by identifier.  [tasks.delete], [notes.delete] and
    [transactions.delete] first look the photo of the row up and try to
    remove the stored object; neither step bears on the outcome: whether
    the row exists, has a photo, and whether the removal of the object
    succeeds or throws, the call fails exactly when the database answers
    with an error (the store is then as it was) and otherwise leaves the
    store without the rows of that identifier, every other row and table
    as before.  The same holds of [events.delete].  After a deletion,
    [getById] gives [undefined] for the identifier.  Deleting an
    identifier that is not there succeeds. *)
Theorem deletion_takes_the_row_away (env : Env) (removal : result unit)
    (id : nat) (w : World) :
  let outcome (left : World) : result unit * World :=
    match db_error env with
    | Some e => (Throw e, w)
    | None => (Ok tt, left)
    end in
  tasks_delete env removal id w = outcome (dropTask id w)
  /\ events_delete env id w = outcome (dropEvent id w)
  /\ notes_delete env removal id w = outcome (dropNote id w)
  /\ transactions_delete env removal id w = outcome (dropTransaction id w)
  /\ (db_error env = None ->
      tasks_getById env id (dropTask id w) = (Ok None, dropTask id w)
      /\ events_getById env id (dropEvent id w) = (Ok None, dropEvent id w)
      /\ notes_getById env id (dropNote id w) = (Ok None, dropNote id w)
      /\ transactions_getById env id (dropTransaction id w)
         = (Ok None, dropTransaction id w)).
Proof.
  cbv zeta.
  split; [apply tasks_delete_run |].
  split; [apply events_delete_run |].
  split; [apply notes_delete_run |].
  split; [apply transactions_delete_run |].
  intros Hdb.
  split; [| split; [| split]];
    read_back Hdb; unfold dropTask, dropEvent, dropNote, dropTransaction;
    cbn [db tasks events notes transactions setDb uuids];
    rewrite filter_dropped; reflexivity.
Qed.

(** ** Updates *)

(** X10.  An update by an identifier that no row carries: [tasks.update],
    [events.update] and [notes.update] throw and leave the store as it
    was; none of them inserts the row. *)
Theorem update_of_a_missing_row_fails (env : Env) (id : nat) (w : World) :
  (~ In id (map t_id (tasks (db w))) ->
   forall u, is_ok (fst (tasks_update env id u w)) = false
             /\ snd (tasks_update env id u w) = w)
  /\ (~ In id (map e_id (events (db w))) ->
      forall u, is_ok (fst (events_update env id u w)) = false
                /\ snd (events_update env id u w) = w)
  /\ (~ In id (map n_id (notes (db w))) ->
      forall u, is_ok (fst (notes_update env id u w)) = false
                /\ snd (notes_update env id u w) = w).
Proof.
  split; [| split]; intros Hid u; update_run env;
    try (split; reflexivity).
  - rewrite (filter_none t_id _ _ Hid).
    destruct (taskColumns u); split; reflexivity.
  - rewrite (filter_none e_id _ _ Hid).
    destruct (eventColumns u); split; reflexivity.
  - rewrite (filter_none n_id _ _ Hid).
    destruct (noteColumns u); split; reflexivity.
Qed.

Lemma map_same {A} (c : A -> bool) (rows : list A) :
  map (fun r => if c r then r else r) rows = rows.
Proof.
  induction rows as [| x rows IH]; [reflexivity |].
  cbn [map]. rewrite IH. destruct (c x); reflexivity.
Qed.

Lemma world_same (w : World) :
  setDb {| tasks := tasks (db w); events := events (db w);
           notes := notes (db w); transactions := transactions (db w) |} w
  = w.
Proof. destruct w as [[ts es ns xs] k]. reflexivity. Qed.

(** X11.  What an update can change.  Whether it returns or throws,
    [tasks.update], [events.update] and [notes.update] leave a store that
    differs from the one before at most in the rows of the one table that
    carry the identifier, and in those rows never in the identifier, the
    owner or the time of creation: no row is added, removed or moved, the
    other tables and the source of identifiers are as before. *)
Theorem update_rewrites_one_row (env : Env) (id : nat) (w : World) :
  (forall u, exists f,
      (forall r, t_id (f r) = t_id r /\ t_user_id (f r) = t_user_id r
                 /\ t_created_at (f r) = t_created_at r)
      /\ snd (tasks_update env id u w)
         = setDb {| tasks := map (fun r => if t_id r =? id then f r else r)
                                 (tasks (db w));
                    events := events (db w); notes := notes (db w);
                    transactions := transactions (db w) |} w)
  /\ (forall u, exists f,
      (forall r, e_id (f r) = e_id r /\ e_user_id (f r) = e_user_id r
                 /\ e_created_at (f r) = e_created_at r)
      /\ snd (events_update env id u w)
         = setDb {| tasks := tasks (db w);
                    events := map (fun r => if e_id r =? id then f r else r)
                                  (events (db w));
                    notes := notes (db w);
                    transactions := transactions (db w) |} w)
  /\ (forall u, exists f,
      (forall r, n_id (f r) = n_id r /\ n_user_id (f r) = n_user_id r
                 /\ n_created_at (f r) = n_created_at r)
      /\ snd (notes_update env id u w)
         = setDb {| tasks := tasks (db w); events := events (db w);
                    notes := map (fun r => if n_id r =? id then f r else r)
                                 (notes (db w));
                    transactions := transactions (db w) |} w).
Proof.
  split; [| split]; intros u; update_run env;
    try (exists (fun r => r); split; [auto |];
         rewrite map_same, world_same; reflexivity).
  - destruct (single _) as [updated | e]; cbn [snd];
      [| exists (fun r => r); split; [auto |];
         rewrite map_same, world_same; reflexivity].
    exists (applyTaskUpdate env u a a0). split; [auto | reflexivity].
  - destruct (single _) as [updated | e]; cbn [snd];
      [| exists (fun r => r); split; [auto |];
         rewrite map_same, world_same; reflexivity].
    exists (applyEventUpdate env u a a0). split; [auto | reflexivity].
  - destruct (single _) as [updated | e]; cbn [snd];
      [| exists (fun r => r); split; [auto |];
         rewrite map_same, world_same; reflexivity].
    exists (applyNoteUpdate env u). split; [auto | reflexivity].
Qed.

End RoundTrips.

(* ================================================================== *)
(** * Listings *)

Section Listings.
Import JS Types DateTime Merge Supabase SupabaseCrud.

Section Ordering.
Context {A : Type} (key : A -> Z) (ascending : bool).

Local Abbreviation test x y :=
  (if ascending then key x <=? key y else key y <=? key x)%Z.

Lemma test_inOrder (x y : A) : test x y = true <-> inOrder key ascending x y.
Proof. unfold inOrder. destruct ascending; apply Z.leb_le. Qed.

Lemma inOrder_total (x y : A) :
  test x y = false -> inOrder key ascending y x.
Proof.
  unfold inOrder. destruct ascending; intros H;
    apply Z.leb_gt in H; lia.
Qed.

Lemma inOrder_trans (x y z : A) :
  inOrder key ascending x y -> inOrder key ascending y z ->
  inOrder key ascending x z.
Proof. unfold inOrder. destruct ascending; lia. Qed.

Lemma insertBy_perm (x : A) (l : list A) :
  Permutation (insertBy key ascending x l) (x :: l).
Proof.
  induction l as [| y r IH]; cbn [insertBy]; [reflexivity |].
  destruct (test x y); [reflexivity |].
  rewrite IH. apply perm_swap.
Qed.

Lemma order_perm (l : list A) : Permutation (order key ascending l) l.
Proof.
  induction l as [| x l IH]; cbn [order fold_right]; [reflexivity |].
  fold (order key ascending l). rewrite insertBy_perm, IH. reflexivity.
Qed.

Lemma insertBy_sorted (x : A) (l : list A) :
  StronglySorted (inOrder key ascending) l ->
  StronglySorted (inOrder key ascending) (insertBy key ascending x l).
Proof.
  induction l as [| y r IH]; cbn [insertBy]; intros H.
  - constructor; constructor.
  - inversion H as [| y' r' Hr Hall]. subst.
    destruct (test x y) eqn:E.
    + apply test_inOrder in E. constructor; [exact H |].
      constructor; [exact E |].
      eapply Forall_impl; [| exact Hall].
      intros z Hz. exact (inOrder_trans _ _ _ E Hz).
    + constructor; [exact (IH Hr) |].
      eapply Permutation_Forall; [symmetry; apply insertBy_perm |].
      constructor; [exact (inOrder_total _ _ E) | exact Hall].
Qed.

Lemma order_sorted (l : list A) :
  StronglySorted (inOrder key ascending) (order key ascending l).
Proof.
  induction l as [| x l IH]; cbn [order fold_right]; [constructor |].
  apply insertBy_sorted. exact IH.
Qed.

Lemma insertBy_first (x : A) (l : list A) :
  Forall (inOrder key ascending x) l -> insertBy key ascending x l = x :: l.
Proof.
  destruct l as [| y r]; [reflexivity |]. intros H.
  inversion H as [| y' r' Hy _]. subst. cbn [insertBy].
  apply test_inOrder in Hy. rewrite Hy. reflexivity.
Qed.

Lemma Forall_filter (P : A -> Prop) (q : A -> bool) (l : list A) :
  Forall P l -> Forall P (filter q l).
Proof.
  intros H. apply Forall_forall. intros z Hz. apply filter_In in Hz.
  rewrite Forall_forall in H. exact (H z (proj1 Hz)).
Qed.

Lemma filter_insertBy (q : A -> bool) (x : A) (l : list A) :
  StronglySorted (inOrder key ascending) l ->
  filter q (insertBy key ascending x l)
  = if q x then insertBy key ascending x (filter q l) else filter q l.
Proof.
  induction l as [| y r IH]; intros H.
  - cbn. destruct (q x); reflexivity.
  - inversion H as [| y' r' Hr Hall]. subst.
    cbn [insertBy]. destruct (test x y) eqn:E.
    + cbn [filter]. destruct (q x) eqn:Ex; [| reflexivity].
      symmetry. apply insertBy_first.
      apply test_inOrder in E.
      change (Forall (inOrder key ascending x) (filter q (y :: r))).
      apply Forall_filter. constructor; [exact E |].
      eapply Forall_impl; [| exact Hall].
      intros z Hz. exact (inOrder_trans _ _ _ E Hz).
    + cbn [filter]. rewrite (IH Hr).
      destruct (q y) eqn:Ey, (q x) eqn:Ex; try reflexivity.
      cbn [insertBy]. rewrite E. reflexivity.
Qed.

(** Selecting from an ordered listing is ordering the selection. *)
Lemma filter_order (q : A -> bool) (l : list A) :
  filter q (order key ascending l) = order key ascending (filter q l).
Proof.
  induction l as [| x l IH]; [reflexivity |].
  cbn [order fold_right filter]. fold (order key ascending l).
  rewrite filter_insertBy by apply order_sorted.
  rewrite IH. destruct (q x); reflexivity.
Qed.

End Ordering.

(** X12.  The listings.  For a signed-in user and a database that
    answers, [tasks.getAll], [events.getAll], [notes.getAll] and
    [transactions.getAll] leave the store as it is and return the records
    of exactly the rows of that user, each once, ordered: tasks by time
    of creation, latest first; events by start, earliest first; notes by
    time of update, latest first; transactions by date, latest first. *)
Theorem listing_gives_the_users_rows_in_order (env : Env) (w : World)
    (u : string) :
  auth_user env = Some u -> db_error env = None ->
  (exists rows,
      tasks_getAll env w = (Ok (map mapTaskFromDB rows), w)
      /\ Permutation rows
           (filter (fun r => String.eqb (t_user_id r) u) (tasks (db w)))
      /\ StronglySorted (inOrder t_created_at false) rows)
  /\ (exists rows,
      events_getAll env w = (Ok (map mapEventFromDB rows), w)
      /\ Permutation rows
           (filter (fun r => String.eqb (e_user_id r) u) (events (db w)))
      /\ StronglySorted (inOrder e_start_time true) rows)
  /\ (exists rows,
      notes_getAll env w = (Ok (map mapNoteFromDB rows), w)
      /\ Permutation rows
           (filter (fun r => String.eqb (n_user_id r) u) (notes (db w)))
      /\ StronglySorted (inOrder n_updated_at false) rows)
  /\ (exists rows,
      transactions_getAll env w = (Ok (map mapTransactionFromDB rows), w)
      /\ Permutation rows
           (filter (fun r => String.eqb (x_user_id r) u)
                   (transactions (db w)))
      /\ StronglySorted (inOrder x_date false) rows).
Proof.
  intros Hu Hdb.
  unfold tasks_getAll, events_getAll, notes_getAll, transactions_getAll,
    getUserId, query, bind, gets, ret.
  rewrite Hu, Hdb.
  split; [| split; [| split]];
    (eexists; split; [reflexivity |]; split;
     [apply order_perm | apply order_sorted]).
Qed.

Lemma listing_gives_the_users_rows_in_order_witness :
  exists rows,
    events_getAll Examples.env0
      (snd (events_create Examples.env0 Examples.standup Examples.emptyWorld))
    = (Ok (map mapEventFromDB rows),
       snd (events_create Examples.env0 Examples.standup Examples.emptyWorld))
    /\ Permutation rows
         (filter (fun r => String.eqb (e_user_id r) "user-1")
            (events (db (snd (events_create Examples.env0 Examples.standup
                                Examples.emptyWorld)))))
    /\ StronglySorted (inOrder e_start_time true) rows.
Proof.
  exact (proj1 (proj2 (listing_gives_the_users_rows_in_order Examples.env0
                         (snd (events_create Examples.env0 Examples.standup
                                 Examples.emptyWorld))
                         "user-1" eq_refl eq_refl))).
Defined.

(** ** Listings by date *)

Lemma filter_map_commute {A B} (g : B -> bool) (f : A -> B) (l : list A) :
  filter g (map f l) = map f (filter (fun x => g (f x)) l).
Proof.
  induction l as [| x l IH]; [reflexivity |].
  cbn [map filter]. rewrite IH. destruct (g (f x)); reflexivity.
Qed.

Lemma filter_both {A} (p q : A -> bool) (l : list A) :
  filter q (filter p l) = filter (fun x => p x && q x) l.
Proof.
  induction l as [| x l IH]; [reflexivity |].
  cbn [filter]. destruct (p x); cbn [filter andb]; rewrite IH; reflexivity.
Qed.

Lemma events_range_of_listing (env : Env) (w w' : World) (from to : Z)
    (listed : list Event) :
  events_getAll env w = (Ok listed, w') ->
  events_getByDateRange env (Some from) (Some to) w
  = (Ok (filter (fun e => within from to (event_startTime e)) listed), w).
Proof.
  intros H.
  unfold events_getAll, events_getByDateRange, getUserId, query, bind, gets,
    ret, lift, toISOString in *.
  destruct (auth_user env) as [u |]; [| discriminate H].
  destruct (db_error env); [discriminate H |].
  inversion H. subst. clear H.
  rewrite filter_map_commute. cbn [mapEventFromDB event_startTime within].
  rewrite filter_order, filter_both.
  do 3 f_equal. apply (f_equal (order _ _)).
  apply filter_ext. intros r. symmetry. apply andb_assoc.
Qed.

Lemma transactions_range_of_listing (env : Env) (w w' : World) (from to : Z)
    (listed : list Transaction) :
  transactions_getAll env w = (Ok listed, w') ->
  transactions_getByDateRange env (Some from) (Some to) w
  = (Ok (filter (fun x => within from to (transaction_date x)) listed), w).
Proof.
  intros H.
  unfold transactions_getAll, transactions_getByDateRange, getUserId, query,
    bind, gets, ret, lift, toISOString in *.
  destruct (auth_user env) as [u |]; [| discriminate H].
  destruct (db_error env); [discriminate H |].
  inversion H. subst. clear H.
  rewrite filter_map_commute.
  cbn [mapTransactionFromDB transaction_date within].
  rewrite filter_order, filter_both.
  do 3 f_equal. apply (f_equal (order _ _)).
  apply filter_ext. intros r. symmetry. apply andb_assoc.
Qed.

Lemma sorted_filter {A} (R : A -> A -> Prop) (q : A -> bool) (l : list A) :
  StronglySorted R l -> StronglySorted R (filter q l).
Proof.
  induction 1 as [| x l Hs IH Hall]; [constructor |].
  cbn [filter]. destruct (q x); [| exact IH].
  constructor; [exact IH |]. apply Forall_filter. exact Hall.
Qed.

(** X13.  [events.getByDateRange] and [transactions.getByDateRange] agree
    with the full listings.  For two valid dates, and whenever [getAll]
    succeeds, they succeed, leave the store as it is and return exactly
    those records of [getAll], each as often as there, whose start,
    respectively date, lies between the two dates, both ends included;
    they come in the order of the listing: events by start, earliest
    first, transactions by date, latest first. *)
Theorem date_range_selects_from_the_listing (env : Env) (w : World)
    (from to : Z) :
  (forall listed w',
      events_getAll env w = (Ok listed, w') ->
      exists rows,
        events_getByDateRange env (Some from) (Some to) w
        = (Ok (map mapEventFromDB rows), w)
        /\ Permutation (map mapEventFromDB rows)
             (filter (fun e => within from to (event_startTime e)) listed)
        /\ StronglySorted (inOrder e_start_time true) rows)
  /\ (forall listed w',
      transactions_getAll env w = (Ok listed, w') ->
      exists rows,
        transactions_getByDateRange env (Some from) (Some to) w
        = (Ok (map mapTransactionFromDB rows), w)
        /\ Permutation (map mapTransactionFromDB rows)
             (filter (fun x => within from to (transaction_date x)) listed)
        /\ StronglySorted (inOrder x_date false) rows).
Proof.
  split; intros listed w' H.
  - rewrite (events_range_of_listing env w w' from to listed H).
    unfold events_getAll, getUserId, query, bind, gets, ret, lift in H.
    destruct (auth_user env) as [u |]; [| discriminate H].
    destruct (db_error env); [discriminate H |].
    inversion H. subst. clear H.
    rewrite filter_map_commute.
    eexists. split; [reflexivity |]. split; [apply Permutation_refl |].
    apply sorted_filter, order_sorted.
  - rewrite (transactions_range_of_listing env w w' from to listed H).
    unfold transactions_getAll, getUserId, query, bind, gets, ret, lift in H.
    destruct (auth_user env) as [u |]; [| discriminate H].
    destruct (db_error env); [discriminate H |].
    inversion H. subst. clear H.
    rewrite filter_map_commute.
    eexists. split; [reflexivity |]. split; [apply Permutation_refl |].
    apply sorted_filter, order_sorted.
Qed.

End Listings.

(* ================================================================== *)
(** * Properties of the pages *)

Section TasksPageProperties.
Import JS Types DateTime Merge Supabase SupabaseCrud Page TasksPage.

Lemma length_filter_split {A} (p a b : A -> bool) (l : list A) :
  (forall x, In x l -> a x && b x = false /\ a x || b x = p x) ->
  length (filter a l) + length (filter b l) = length (filter p l).
Proof.
  induction l as [| x l IH]; intros H; [reflexivity |].
  cbn [filter].
  destruct (H x (or_introl eq_refl)) as [Hd Hu].
  assert (IH' := IH (fun y Hy => H y (or_intror Hy))).
  destruct (a x), (b x), (p x); cbn [length] in *; try discriminate; lia.
Qed.

Lemma length_filter_le {A} (p a b : A -> bool) (l : list A) :
  (forall x, a x && b x = false) ->
  (forall x, a x || b x = true -> p x = true) ->
  length (filter a l) + length (filter b l) <= length (filter p l).
Proof.
  intros Hd Hu. induction l as [| x l IH]; [reflexivity |].
  cbn [filter]. specialize (Hd x). specialize (Hu x).
  destruct (a x), (b x), (p x); cbn [length] in *; try discriminate;
    try lia; specialize (Hu eq_refl); discriminate.
Qed.

Lemma notAfter_or_after (a b : Date) :
  a <> None -> b <> None -> notAfter a b = negb (after a b).
Proof.
  destruct a as [x |], b as [y |]; try congruence. intros _ _.
  cbn. destruct (Z.leb_spec x y), (Z.ltb_spec y x); try reflexivity; lia.
Qed.

Lemma not_both (a b : Date) : notAfter a b && after a b = false.
Proof.
  destruct a as [x |], b as [y |]; try reflexivity.
  cbn. destruct (Z.leb_spec x y), (Z.ltb_spec y x); try reflexivity; lia.
Qed.

(** X14.  The counters of the tasks page.  Completed and open tasks
    together are all the tasks.  No task is counted both under [today]
    and under [upcoming], and both count open tasks only.  When the day
    of every due date of an open task, and today, begin at instants that
    a date can hold, every open task is counted under exactly one of the
    two: [todayCount + upcomingCount = allCount]. *)
Theorem task_counters_add_up (env : Env) (v : TasksView) :
  completedCount v + allCount v = length (tv_tasks v)
  /\ todayCount env v + upcomingCount env v <= allCount v
  /\ (startOfDay (tz env) (Some (now env)) <> None ->
      (forall t d, In t (tv_tasks v) -> task_isCompleted t = false ->
                   task_dueDate t = Some d -> startOfDay (tz env) d <> None) ->
      todayCount env v + upcomingCount env v = allCount v).
Proof.
  unfold completedCount, allCount, todayCount, upcomingCount.
  split; [| split].
  - rewrite (length_filter_split (fun _ => true)).
    + f_equal. induction (tv_tasks v) as [| x l IH]; [reflexivity |].
      cbn [filter]. rewrite IH. reflexivity.
    + intros x _. destruct (task_isCompleted x); split; reflexivity.
  - apply length_filter_le; intros x; unfold dueToday, dueLater;
      destruct (task_isCompleted x); try reflexivity.
    + destruct (task_dueDate x); [apply not_both | reflexivity].
    + intros H. discriminate H.
  - intros Hnow Hdue. apply length_filter_split. intros x Hx.
    unfold dueToday, dueLater.
    destruct (task_isCompleted x) eqn:Ec; [split; reflexivity |].
    destruct (task_dueDate x) as [d |] eqn:Ed; [| split; reflexivity].
    split; [apply not_both |].
    rewrite (notAfter_or_after _ _ (Hdue x d Hx Ec Ed) Hnow).
    destruct (after _ _); reflexivity.
Qed.

Lemma loadTasks_world (env : Env) (p : Page TasksView) :
  world (snd (loadTasks env p)) = world p.
Proof.
  unfold loadTasks, finally, catch, bind, setLoading, setTasks, onView,
    storage, tasks_getAll, getUserId, query, bind, gets, ret, throw, modify.
  cbn [view world].
  destruct (auth_user env), (db_error env); reflexivity.
Qed.

(** X15.  [toggleTask] on a listed task, the database answering: the row
    of the task, and no other, is rewritten, and stays in its place.  Its
    flag is inverted.  Ticking an open task stamps the time of completion
    with the current time.  Unticking a completed task sends
    [completedAt: undefined], which [tasks.update] reads as a field left
    out: the task becomes open again and keeps the time at which it was
    completed.  Identifier, owner, title, description, due date,
    priority, recurrence, photo and time of creation are as before. *)
Theorem toggle_inverts_the_flag_and_never_clears_the_stamp (env : Env)
    (r : TaskRow) (p : Page TasksView) :
  db_error env = None ->
  NoDup (map t_id (tasks (db (world p)))) ->
  In r (tasks (db (world p))) ->
  let p' := snd (toggleTask env (mapTaskFromDB r) p) in
  exists l1 l2 r',
    tasks (db (world p)) = (l1 ++ r :: l2)%list
    /\ tasks (db (world p')) = (l1 ++ r' :: l2)%list
    /\ events (db (world p')) = events (db (world p))
    /\ notes (db (world p')) = notes (db (world p))
    /\ transactions (db (world p')) = transactions (db (world p))
    /\ t_is_completed r' = negb (t_is_completed r)
    /\ t_completed_at r'
       = (if t_is_completed r then t_completed_at r else Some (now env))
    /\ (t_id r', t_user_id r', t_title r', t_description r', t_due_date r')
       = (t_id r, t_user_id r, t_title r, t_description r, t_due_date r)
    /\ (t_priority r', t_is_recurring r', t_recurrence_rule r',
        t_photo_url r', t_created_at r')
       = (t_priority r, t_is_recurring r, t_recurrence_rule r,
          t_photo_url r, t_created_at r).
Proof.
  intros Hdb Hnd Hin p'.
  destruct (in_split _ _ Hin) as (l1 & l2 & Hrows).
  exists l1, l2, (toggled env r). split; [exact Hrows |].
  assert (Hw : world p'
               = setDb {| tasks := (l1 ++ toggled env r :: l2)%list;
                          events := events (db (world p));
                          notes := notes (db (world p));
                          transactions := transactions (db (world p)) |}
                       (world p)).
  { unfold p', toggleTask. unfold bind at 1, storage at 1.
    unfold tasks_update, returned, taskColumns, query, bind, lift, gets,
      modify, ret.
    rewrite Hdb. cbn [mapTaskFromDB task_id task_isCompleted updt_dueDate
                      updt_completedAt updt_title updt_description
                      updt_priority updt_isCompleted isSome orb isoOrNull].
    assert (Hiso : exists c,
               isoOrNull (if negb (t_is_completed r)
                          then Some (Some (now env)) else None) = Ok c
               /\ applyTaskUpdate env
                    {| updt_title := None; updt_description := None;
                       updt_dueDate := None; updt_priority := None;
                       updt_isCompleted := Some (negb (t_is_completed r));
                       updt_isRecurring := None; updt_recurrenceRule := None;
                       updt_completedAt :=
                         if negb (t_is_completed r)
                         then Some (Some (now env)) else None;
                       updt_photoUrl := None |} None c r
                  = toggled env r).
    { destruct (t_is_completed r) eqn:Ec.
      - exists None. split; [reflexivity |].
        unfold applyTaskUpdate, toggled. rewrite Ec. reflexivity.
      - exists (Some (now env)). split; [reflexivity |].
        unfold applyTaskUpdate, toggled. rewrite Ec. reflexivity. }
    destruct Hiso as (c & Hc & Hupd). rewrite Hc.
    rewrite Hrows in Hnd |- *.
    rewrite (filter_one t_id l1 l2 r Hnd), (map_one t_id _ l1 l2 r Hnd).
    cbn [map single]. rewrite Hupd.
    rewrite loadTasks_world. reflexivity. }
  rewrite Hw. cbn [setDb db tasks events notes transactions].
  do 7 (split; [reflexivity |]). reflexivity.
Qed.

Lemma toggle_inverts_the_flag_and_never_clears_the_stamp_witness :
  let env := Examples.env0 in
  let r := Samples.paidRent in
  let p := Samples.tasksPage in
  let p' := snd (toggleTask env (mapTaskFromDB r) p) in
  exists l1 l2 r',
    tasks (db (world p)) = (l1 ++ r :: l2)%list
    /\ tasks (db (world p')) = (l1 ++ r' :: l2)%list
    /\ events (db (world p')) = events (db (world p))
    /\ notes (db (world p')) = notes (db (world p))
    /\ transactions (db (world p')) = transactions (db (world p))
    /\ t_is_completed r' = negb (t_is_completed r)
    /\ t_completed_at r'
       = (if t_is_completed r then t_completed_at r else Some (now env))
    /\ (t_id r', t_user_id r', t_title r', t_description r', t_due_date r')
       = (t_id r, t_user_id r, t_title r, t_description r, t_due_date r)
    /\ (t_priority r', t_is_recurring r', t_recurrence_rule r',
        t_photo_url r', t_created_at r')
       = (t_priority r, t_is_recurring r, t_recurrence_rule r,
          t_photo_url r, t_created_at r).
Proof.
  cbv zeta.
  apply (toggle_inverts_the_flag_and_never_clears_the_stamp Examples.env0
           Samples.paidRent Samples.tasksPage).
  - reflexivity.
  - repeat constructor. intros [].
  - left. reflexivity.
Defined.

End TasksPageProperties.

Section CalendarPageProperties.
Import JS Types DateTime Merge Supabase SupabaseCrud Page CalendarPage.

Lemma loadEvents_runs (env : Env) (p : Page CalendarView) :
  fst (loadEvents env p) = Ok tt /\ world (snd (loadEvents env p)) = world p.
Proof.
  unfold loadEvents, finally, catch, bind, setLoading, setEvents, onView,
    storage, events_getAll, getUserId, query, bind, gets, ret, throw, modify.
  cbn [view world].
  destruct (auth_user env), (db_error env); split; reflexivity.
Qed.

Lemma events_getById_world (env : Env) (id : nat) (w : World) :
  snd (events_getById env id w) = w.
Proof.
  unfold events_getById, notFoundAs, catch, bind, query, gets, lift, ret,
    throw.
  destruct (db_error env) as [e |].
  - destruct (String.eqb e "PGRST116"); reflexivity.
  - destruct (single _) as [r | e]; [reflexivity |].
    destruct (String.eqb e "PGRST116"); reflexivity.
Qed.

Lemma events_getById_fails (env : Env) (id : nat) (w : World) (e : string) :
  db_error env = None -> fst (events_getById env id w) <> Throw e.
Proof.
  intros Hdb.
  unfold events_getById, notFoundAs, catch, bind, query, gets, lift, ret,
    throw, single.
  rewrite Hdb.
  destruct (filter _ _) as [| x [| y l]]; cbn; discriminate.
Qed.

Lemma handleDelete_runs (env : Env) (id : nat) (p : Page CalendarView) :
  exists q,
    handleDelete env id p = (Ok tt, q)
    /\ world q = match db_error env with
                 | Some _ => world p
                 | None => dropEvent id (world p)
                 end.
Proof.
  unfold handleDelete. unfold catch at 1, bind at 1, storage at 1.
  pose proof (events_getById_world env id (world p)) as Hw.
  pose proof (events_getById_fails env id (world p)) as Hf.
  destruct (events_getById env id (world p)) as [[event | e] w1].
  2: { cbn [snd fst] in *. subst w1.
       destruct (db_error env);
         [eexists; split; [reflexivity |]; destruct p; reflexivity |].
       exfalso. exact (Hf e eq_refl eq_refl). }
  cbn [snd] in Hw. subst w1. clear Hf.
  set (remote := match event with
                 | Some e =>
                     match orNull (event_googleEventId e) with
                     | Some googleEventId =>
                         catch
                           (lift (GoogleCalendarSync.deleteFromGoogleCalendar
                                    env googleEventId))
                           (fun _ => ret tt)
                     | None => ret tt
                     end
                 | None => ret tt
                 end).
  assert (Hremote : forall q : Page CalendarView, remote q = (Ok tt, q)).
  { intros q. unfold remote. destruct event as [e |]; [| reflexivity].
    destruct (orNull (event_googleEventId e)); [| reflexivity].
    unfold catch, lift.
    destruct (GoogleCalendarSync.deleteFromGoogleCalendar env s) as [[] |];
      reflexivity. }
  unfold bind at 1. rewrite Hremote.
  unfold bind at 1, storage at 1. cbn [world view].
  rewrite events_delete_run.
  destruct (db_error env); [eexists; split; reflexivity |].
  destruct (loadEvents_runs env
              {| view := view p; world := dropEvent id (world p) |})
    as [Hr Hw].
  destruct (loadEvents env _) as [[[] | e] q]; cbn [fst snd] in *;
    [| discriminate Hr].
  exists q. split; [reflexivity | exact Hw].
Qed.

(** X16.  [handleDelete] of the calendar page never throws, and what it
    leaves in the store does not depend on the calendar: whether the
    event is linked to a calendar entry or not, whether there is an access
    token, and whether the request for the deletion of the entry succeeds
    or fails, the event is gone from the store when the database answers,
    and the store is untouched when it does not. *)
Theorem calendar_delete_does_not_wait_for_the_calendar (env : Env) (id : nat)
    (p : Page CalendarView) :
  fst (handleDelete env id p) = Ok tt
  /\ world (snd (handleDelete env id p))
     = match db_error env with
       | Some _ => world p
       | None => dropEvent id (world p)
       end.
Proof.
  destruct (handleDelete_runs env id p) as (q & Hrun & Hw).
  rewrite Hrun. split; [reflexivity | exact Hw].
Qed.

End CalendarPageProperties.

(* ================================================================== *)
(** * Properties of the pull from the calendar *)

Section Sync.
Import JS Types DateTime Merge Supabase SupabaseCrud GoogleCalendar.
Import GoogleCalendarSync.

Lemma bind_ret_tt {B} (k : unit -> M World B) (w : World) :
  bind (ret tt) k w = k tt w.
Proof. reflexivity. Qed.

Lemma syncAll_timed (env : Env) (localEvents : list Event)
    (items : list GcalEvent) (w : World) :
  syncAll env localEvents items w
  = syncAll env localEvents (filter timed items) w.
Proof.
  revert w. induction items as [| g rest IH]; intros w; [reflexivity |].
  cbn [syncAll filter]. destruct (timed g) eqn:E.
  - cbn [syncAll]. unfold bind. destruct (syncOne env localEvents g w)
      as [[[] | e] w1]; [apply IH | reflexivity].
  - unfold syncOne. rewrite E. cbn [negb]. rewrite bind_ret_tt. apply IH.
Qed.

(** X17.  [syncFromGoogleCalendar] skips the entries that have no start
    time or no end time (all-day entries): the pull gives the same result
    and leaves the same store as the pull of the timed entries alone. *)
Theorem all_day_entries_are_skipped (env : Env) (items : list GcalEvent)
    (w : World) :
  syncFromGoogleCalendar env (ListOk (Some items)) w
  = syncFromGoogleCalendar env (ListOk (Some (filter timed items))) w.
Proof.
  unfold syncFromGoogleCalendar, catch, bind, lift, listRequest.
  destruct (getGoogleAccessToken env); [| reflexivity].
  destruct (events_getAll env w) as [[localEvents | e] w1]; [| reflexivity].
  rewrite syncAll_timed. reflexivity.
Qed.

(** ** What the pull never does *)

Lemma persists_create (r : EventRow) (env : Env) (d : ParsedEvent) :
  preserves (persists r) (events_create env d).
Proof.
  intros w (r' & Hin & Hid). unfold_call. split_call env;
    try (exists r'; split; [exact Hin | exact Hid]).
  exists r'. split; [| exact Hid].
  cbn [db events]. apply in_or_app. left. exact Hin.
Qed.

Lemma persists_update (r : EventRow) (env : Env) (id : nat)
    (u : PartialEvent) :
  preserves (persists r) (events_update env id u).
Proof.
  intros w (r' & Hin & Hid & Hu & Hc). unfold_call. split_call env.
  all: try (exists r'; split; [exact Hin | auto]; fail).
  all: cbn [db events setDb]; eexists; split;
    [ apply in_map_iff; exists r'; split; [reflexivity | exact Hin]
    | destruct (e_id r' =? id); cbn; auto ].
Qed.

Lemma others_create (P : Database -> Prop) (env : Env) (d : ParsedEvent) :
  (forall ts es es' ns xs,
      P {| tasks := ts; events := es; notes := ns; transactions := xs |} ->
      P {| tasks := ts; events := es'; notes := ns; transactions := xs |}) ->
  preserves (fun w => P (db w)) (events_create env d).
Proof.
  intros HP w Hw. destruct w as [[ts es ns xs] k].
  unfold_call. split_call env; cbn [db] in *; try exact Hw.
  eapply HP. exact Hw.
Qed.

Lemma others_update (P : Database -> Prop) (env : Env) (id : nat)
    (u : PartialEvent) :
  (forall ts es es' ns xs,
      P {| tasks := ts; events := es; notes := ns; transactions := xs |} ->
      P {| tasks := ts; events := es'; notes := ns; transactions := xs |}) ->
  preserves (fun w => P (db w)) (events_update env id u).
Proof.
  intros HP w Hw. destruct w as [[ts es ns xs] k].
  unfold_call. split_call env; cbn [db setDb] in *; try exact Hw.
  all: eapply HP; exact Hw.
Qed.

(** X18.  [syncFromGoogleCalendar] only adds and rewrites events.
    Whatever the calendar answers and wherever the pull stops, every
    event that was in the store is still there under its identifier, with
    its owner and its time of creation, and the tasks, notes and
    transactions are as before: a calendar entry that was deleted
    remotely is never deleted locally. *)
Theorem pull_never_deletes (env : Env) (answer : Listing) (w : World) :
  let w' := snd (syncFromGoogleCalendar env answer w) in
  (forall r, In r (events (db w)) -> persists r w')
  /\ tasks (db w') = tasks (db w)
  /\ notes (db w') = notes (db w)
  /\ transactions (db w') = transactions (db w).
Proof.
  cbv zeta. split.
  - intros r Hin.
    apply (sync_preserves (persists r) env answer
             (persists_create r env) (persists_update r env)).
    exists r. auto.
  - apply (sync_preserves
             (fun w' => tasks (db w') = tasks (db w)
                        /\ notes (db w') = notes (db w)
                        /\ transactions (db w') = transactions (db w))
             env answer).
    + intros d.
      apply (others_create
               (fun d' => tasks d' = tasks (db w) /\ notes d' = notes (db w)
                          /\ transactions d' = transactions (db w))).
      intros ts es es' ns xs H. exact H.
    + intros id u.
      apply (others_update
               (fun d' => tasks d' = tasks (db w) /\ notes d' = notes (db w)
                          /\ transactions d' = transactions (db w))).
      intros ts es es' ns xs H. exact H.
    + auto.
Qed.

(** ** Events that no entry is linked to *)

(** The continuation may rely on the value having been returned from the
    store at hand. *)
Lemma preserves_bind_after {A B} (P : World -> Prop) (c : M World A)
    (k : A -> M World B) :
  (forall w, P w ->
     P (snd (c w))
     /\ forall a, fst (c w) = Ok a -> P (snd (k a (snd (c w))))) ->
  preserves P (bind c k).
Proof.
  intros H w Hw. unfold bind. destruct (H w Hw) as [H1 H2].
  destruct (c w) as [[a | e] w']; cbn [fst snd] in *;
    [exact (H2 a eq_refl) | exact H1].
Qed.

Lemma In_keeps_create (r : EventRow) (env : Env) (d : ParsedEvent) :
  preserves (stays r) (events_create env d).
Proof.
  intros w [Hk Hin]. split; [exact (events_create_keyed env d w Hk) |].
  unfold_call. split_call env; try exact Hin.
  cbn [db events setDb]. apply in_or_app. left. exact Hin.
Qed.

Lemma In_keeps_update (r : EventRow) (env : Env) (id : nat)
    (u : PartialEvent) :
  id <> e_id r ->
  preserves (stays r) (events_update env id u).
Proof.
  intros Hid w [Hk Hin]. split; [exact (events_update_keyed env id u w Hk) |].
  unfold_call. split_call env; try exact Hin.
  all: cbn [db events setDb]; apply in_map_iff; exists r;
    split; [| exact Hin].
  all: destruct (e_id r =? id) eqn:E; [| reflexivity].
  all: apply Nat.eqb_eq in E; congruence.
Qed.

Lemma created_is_fresh (env : Env) (d : ParsedEvent) (w w' : World)
    (e : Event) :
  events_create env d w = (Ok e, w') -> event_id e = uuids w.
Proof. intros H. written H env. reflexivity. Qed.

Lemma syncOne_leaves (r : EventRow) (env : Env) (localEvents : list Event)
    (g : GcalEvent) :
  (forall e, find (linkedTo g) localEvents = Some e -> event_id e <> e_id r) ->
  preserves (stays r) (syncOne env localEvents g).
Proof.
  intros Hother. unfold syncOne.
  destruct (negb (timed g)); [apply preserves_ret |].
  destruct (find (linkedTo g) localEvents) as [existingEvent |].
  - destruct (laterThan _ _); [| apply preserves_ret].
    apply preserves_bind; [| intros _; apply preserves_ret].
    apply In_keeps_update. apply Hother. reflexivity.
  - apply preserves_bind_after. intros w Hw.
    pose proof (In_keeps_create r env (newLocalEvent env g) w Hw) as Hw1.
    split; [exact Hw1 |]. intros newEvent Hnew.
    apply (preserves_bind (stays r)
             (events_update env (event_id newEvent) (linkUpdate g))
             (fun _ => ret tt));
      [| intros _; apply preserves_ret | exact Hw1].
    apply In_keeps_update.
    destruct (events_create env (newLocalEvent env g) w)
      as [res w1] eqn:Ec.
    cbn [fst] in Hnew. subst res.
    rewrite (created_is_fresh _ _ _ _ _ Ec).
    destruct Hw as [(_ & (_ & Hlt) & _) Hin]. specialize (Hlt r Hin). lia.
Qed.

Lemma same_key_same_row {A} (key : A -> nat) (rows : list A) (a b : A) :
  NoDup (map key rows) -> In a rows -> In b rows -> key a = key b -> a = b.
Proof.
  induction rows as [| x rows IH]; intros Hnd Ha Hb Hk; [contradiction |].
  cbn [map] in Hnd. inversion Hnd as [| k ks Hnot Hrest]. subst.
  destruct Ha as [-> | Ha], Hb as [-> | Hb]; auto.
  - exfalso. apply Hnot. rewrite Hk. apply in_map. exact Hb.
  - exfalso. apply Hnot. rewrite <- Hk. apply in_map. exact Ha.
Qed.

Lemma events_getAll_rows (env : Env) (w w' : World) (listing : list Event) :
  events_getAll env w = (Ok listing, w') ->
  forall e, In e listing ->
    exists r, In r (events (db w)) /\ e = mapEventFromDB r.
Proof.
  intros H e Hin.
  unfold events_getAll, getUserId, query, bind, gets, ret in H.
  destruct (auth_user env); [| discriminate H].
  destruct (db_error env); [discriminate H |].
  inversion H. subst. clear H.
  apply in_map_iff in Hin. destruct Hin as (r & He & Hin).
  apply (Permutation_in _ (order_perm e_start_time true _)) in Hin.
  apply filter_In in Hin. exists r. split; [tauto | auto].
Qed.

(** X21.  [syncFromGoogleCalendar] leaves alone every event that none of
    the entries of the answer is linked to: in a store with sound keys,
    an event that was captured locally and never pushed, or whose
    calendar entry is not in the answer, is in the store after the pull
    exactly as it was, whatever the pull did and wherever it stopped. *)
Theorem pull_leaves_unlinked_events_alone (env : Env) (answer : Listing)
    (w : World) (r : EventRow) :
  storeKeyed w ->
  In r (events (db w)) ->
  (forall g, In g (listed answer) ->
     e_google_event_id r <> Some (g_id g)) ->
  In r (events (db (snd (syncFromGoogleCalendar env answer w)))).
Proof.
  intros Hk Hin Hun.
  unfold syncFromGoogleCalendar, catch, bind, lift, listRequest.
  destruct (getGoogleAccessToken env); [| exact Hin].
  destruct answer as [e | m | items]; try exact Hin.
  pose proof (events_getAll_pure (fun w' => w' = w) env w eq_refl) as Hpure.
  destruct (events_getAll env w) as [[localEvents | err] w0] eqn:Hlist;
    cbn [snd] in Hpure; subst w0; [| exact Hin].
  pose proof (events_getAll_rows env w w localEvents Hlist) as Hrows.
  assert (Hall : forall gs,
             (forall g, In g gs -> e_google_event_id r <> Some (g_id g)) ->
             preserves (stays r) (syncAll env localEvents gs)).
  { induction gs as [| g gs IH]; intros Hgs; cbn [syncAll];
      [apply preserves_ret |].
    apply preserves_bind;
      [| intros _; apply IH; intros g' Hg'; apply Hgs; right; exact Hg'].
    apply syncOne_leaves. intros e Hfind Hid.
    apply find_some in Hfind. destruct Hfind as [He Hl].
    destruct (Hrows e He) as (r1 & Hin1 & ->).
    cbn [mapEventFromDB event_id] in Hid.
    destruct Hk as (_ & (Hnd & _) & _).
    rewrite (same_key_same_row e_id _ _ _ Hnd Hin1 Hin Hid) in Hl.
    unfold linkedTo in Hl. cbn [mapEventFromDB event_googleEventId] in Hl.
    destruct (e_google_event_id r) as [x |] eqn:Ex; [| discriminate Hl].
    apply String.eqb_eq in Hl. subst x.
    exact (Hgs g (or_introl eq_refl) eq_refl). }
  specialize (Hall (match items with Some i => i | None => [] end)).
  assert (Hgs : forall g,
             In g (match items with Some i => i | None => [] end) ->
             e_google_event_id r <> Some (g_id g)).
  { intros g Hg. apply Hun. destruct items; [exact Hg | contradiction]. }
  specialize (Hall Hgs w (conj Hk Hin)).
  destruct (syncAll env localEvents _ w) as [[[] | err] w2];
    exact (proj2 Hall).
Qed.

Lemma pull_leaves_unlinked_events_alone_witness :
  In Samples.standupRow
     (events (db (snd (syncFromGoogleCalendar Samples.linked
                         (ListOk (Some [Samples.review]))
                         Samples.withStandup)))).
Proof.
  apply (pull_leaves_unlinked_events_alone Samples.linked
           (ListOk (Some [Samples.review])) Samples.withStandup
           Samples.standupRow).
  - apply events_create_keyed. repeat split; try constructor; intros r [].
  - vm_compute. left. reflexivity.
  - intros g _. vm_compute. discriminate.
Defined.

(** ** Entries that are not newer *)

Lemma syncAll_idle (env : Env) (localEvents : list Event)
    (items : list GcalEvent) (w : World) :
  (forall g, In g items -> timed g = true ->
     exists e, find (linkedTo g) localEvents = Some e
               /\ laterThan (stamp env g) (event_updatedAt e) = false) ->
  syncAll env localEvents items w = (Ok tt, w).
Proof.
  induction items as [| g rest IH]; intros H; [reflexivity |].
  cbn [syncAll].
  assert (Hone : syncOne env localEvents g w = (Ok tt, w)).
  { unfold syncOne. destruct (timed g) eqn:Et; [| reflexivity].
    destruct (H g (or_introl eq_refl) Et) as (e & Hfind & Hlate).
    cbn [negb]. rewrite Hfind. unfold stamp in Hlate. rewrite Hlate.
    reflexivity. }
  unfold bind. rewrite Hone. apply IH.
  intros g' Hin. apply H. right. exact Hin.
Qed.

(** X19.  [syncFromGoogleCalendar] lets a calendar entry overwrite its
    local event only when the entry is strictly newer.  When every timed
    entry of the answer has a local event linked to it whose time of
    update is not before the time the calendar gives as [updated], equal
    times included, or when [updated] is missing or unreadable, the pull
    succeeds and writes nothing. *)
Theorem entries_that_are_not_newer_change_nothing (env : Env)
    (items : list GcalEvent) (w : World) (token : string)
    (localEvents : list Event) :
  getGoogleAccessToken env = Some token ->
  events_getAll env w = (Ok localEvents, w) ->
  (forall g, In g items -> timed g = true ->
     exists e, find (linkedTo g) localEvents = Some e
               /\ laterThan (stamp env g) (event_updatedAt e) = false) ->
  syncFromGoogleCalendar env (ListOk (Some items)) w = (Ok tt, w).
Proof.
  intros Htoken Hlist Hfresh.
  unfold syncFromGoogleCalendar, catch, bind, lift, listRequest.
  rewrite Htoken, Hlist, (syncAll_idle env localEvents items w Hfresh).
  reflexivity.
Qed.

Lemma entries_that_are_not_newer_change_nothing_witness :
  syncFromGoogleCalendar Samples.nextDay
    (ListOk (Some [Samples.review; Samples.holiday])) Samples.pulled
  = (Ok tt, Samples.pulled).
Proof.
  apply (entries_that_are_not_newer_change_nothing Samples.nextDay
           [Samples.review; Samples.holiday] Samples.pulled "ya29.a0Af"
           (match fst (events_getAll Samples.nextDay Samples.pulled) with
            | Ok listing => listing
            | Throw _ => []
            end)).
  - vm_compute. reflexivity.
  - vm_compute. reflexivity.
  - intros g [<- | [<- | []]] Ht; [| vm_compute in Ht; discriminate Ht].
    destruct (find (linkedTo Samples.review) _) as [e |] eqn:E;
      vm_compute in E; [| discriminate E].
    exists e. split; [reflexivity |].
    injection E as <-. vm_compute. reflexivity.
Defined.

End Sync.

(* ================================================================== *)
(** * A pull after a pull *)

Section Pull.
Import JS Types DateTime Merge Supabase SupabaseCrud GoogleCalendar.
Import GoogleCalendarSync.

(** ** The steps of a pull that succeed *)

Lemma events_update_shape (env : Env) (id : nat) (u : PartialEvent)
    (w w' : World) (e : Event) :
  events_update env id u w = (Ok e, w') ->
  exists s t,
    isoOrNull (upd_startTime u) = Ok s
    /\ isoOrNull (upd_endTime u) = Ok t
    /\ events (db w')
       = map (fun r => if e_id r =? id then applyEventUpdate env u s t r
                       else r)
             (events (db w))
    /\ uuids w' = uuids w.
Proof.
  intros H. written H env.
  all: eexists _, _; repeat split; try eassumption; reflexivity.
Qed.

Lemma events_create_shape (env : Env) (d : ParsedEvent) (w w' : World)
    (e : Event) :
  events_create env d w = (Ok e, w') ->
  exists u s t,
    auth_user env = Some u
    /\ event_id e = uuids w
    /\ events (db w') = (events (db w) ++ [eventRow env u (uuids w) d s t])%list
    /\ uuids w' = S (uuids w).
Proof.
  intros H. written H env.
  eexists _, _, _. repeat split; reflexivity.
Qed.

(** What one entry does to the events when its step succeeds. *)
Lemma syncOne_shape (env : Env) (localEvents : list Event) (g : GcalEvent)
    (w w' : World) :
  storeKeyed w ->
  syncOne env localEvents g w = (Ok tt, w') ->
  (timed g = false /\ w' = w)
  \/ (timed g = true
      /\ exists e, find (linkedTo g) localEvents = Some e
           /\ laterThan (stamp env g) (event_updatedAt e) = false
           /\ w' = w)
  \/ (timed g = true
      /\ exists e s t, find (linkedTo g) localEvents = Some e
           /\ events (db w')
              = map (fun r => if e_id r =? event_id e
                              then applyEventUpdate env (remoteUpdate env g)
                                     s t r
                              else r)
                    (events (db w)))
  \/ (timed g = true
      /\ find (linkedTo g) localEvents = None
      /\ exists u s t,
           auth_user env = Some u
           /\ events (db w')
              = (events (db w) ++ [linkedRow env u (uuids w) g s t])%list).
Proof.
  intros Hk H. unfold syncOne in H.
  destruct (timed g) eqn:Et; cbn [negb] in H;
    [| left; inversion H; auto].
  right. destruct (find (linkedTo g) localEvents) as [e |] eqn:Ef.
  - fold (stamp env g) in H.
    destruct (laterThan (stamp env g) (event_updatedAt e)) eqn:El.
    + right. left. split; [reflexivity |]. unfold bind in H.
      destruct (events_update env (event_id e) (remoteUpdate env g) w)
        as [[ev | err] w1] eqn:Eu; [| discriminate H].
      inversion H. subst w1.
      destruct (events_update_shape _ _ _ _ _ _ Eu)
        as (s & t & _ & _ & Hev & _).
      exists e, s, t. auto.
    + left. split; [reflexivity |]. exists e. inversion H. auto.
  - right. right. split; [reflexivity |]. split; [reflexivity |].
    unfold bind in H.
    destruct (events_create env (newLocalEvent env g) w)
      as [[newEvent | err] w1] eqn:Ec; [| discriminate H].
    destruct (events_update env (event_id newEvent) (linkUpdate g) w1)
      as [[ev | err] w2] eqn:Eu; [| discriminate H].
    inversion H. subst w2.
    destruct (events_create_shape _ _ _ _ _ Ec) as (u & s & t & Hu & Hid & Hev & _).
    destruct (events_update_shape _ _ _ _ _ _ Eu)
      as (s' & t' & Hs' & Ht' & Hev' & _).
    cbn in Hs', Ht'. inversion Hs'. inversion Ht'. subst s' t'.
    exists u, s, t. split; [exact Hu |].
    rewrite Hev', Hev, Hid, map_app.
    destruct Hk as (_ & (Hnd & Hlt) & _).
    rewrite (map_none e_id).
    + cbn [map eventRow e_id]. rewrite Nat.eqb_refl.
      unfold linkedRow, linkUpdate, applyEventUpdate. cbn. reflexivity.
    + intros Hin. apply in_map_iff in Hin. destruct Hin as (r & Hr & Hin).
      specialize (Hlt r Hin). lia.
Qed.

(** ** The listing the pull starts from *)

Lemma events_getAll_members (env : Env) (w w' : World) (u : string)
    (listing : list Event) :
  auth_user env = Some u ->
  events_getAll env w = (Ok listing, w') ->
  w' = w
  /\ forall e, In e listing
       <-> exists r, In r (events (db w)) /\ e_user_id r = u
                     /\ e = mapEventFromDB r.
Proof.
  intros Hu H.
  unfold events_getAll, getUserId, query, bind, gets, ret in H.
  rewrite Hu in H. destruct (db_error env); [discriminate H |].
  inversion H. subst. clear H. split; [reflexivity |].
  intros e. rewrite in_map_iff. split.
  - intros (r & He & Hin).
    apply (Permutation_in _ (order_perm e_start_time true _)) in Hin.
    apply filter_In in Hin. destruct Hin as [Hin Hr].
    apply String.eqb_eq in Hr. exists r. auto.
  - intros (r & Hin & Hr & He). exists r. split; [auto |].
    apply (Permutation_in _ (Permutation_sym (order_perm e_start_time true _))).
    apply filter_In. split; [exact Hin |]. apply String.eqb_eq. exact Hr.
Qed.

Lemma standsFor_linked (u : string) (g : GcalEvent) (r : EventRow) :
  standsFor u g r = true
  <-> e_user_id r = u /\ linkedTo g (mapEventFromDB r) = true.
Proof.
  unfold standsFor, linkedTo. cbn [mapEventFromDB event_googleEventId].
  rewrite andb_true_iff, String.eqb_eq. tauto.
Qed.

Section Listing.
Context (u : string) (rows : list EventRow) (listing : list Event).
Hypothesis Hlisting :
  forall e, In e listing
    <-> exists r, In r rows /\ e_user_id r = u /\ e = mapEventFromDB r.

Lemma find_linked (g : GcalEvent) (e : Event) :
  find (linkedTo g) listing = Some e ->
  exists r, In r rows /\ standsFor u g r = true /\ e = mapEventFromDB r.
Proof.
  intros H. apply find_some in H. destruct H as [Hin Hl].
  apply Hlisting in Hin. destruct Hin as (r & Hin & Hr & He). subst e.
  exists r. split; [exact Hin |]. split; [| reflexivity].
  apply standsFor_linked. auto.
Qed.

Lemma find_unlinked (g : GcalEvent) (r : EventRow) :
  find (linkedTo g) listing = None ->
  In r rows -> standsFor u g r = false.
Proof.
  intros H Hin. destruct (standsFor u g r) eqn:E; [| reflexivity].
  apply standsFor_linked in E. destruct E as [Hr Hl].
  assert (Hin' : In (mapEventFromDB r) listing)
    by (apply Hlisting; exists r; auto).
  rewrite (find_none _ _ H _ Hin') in Hl. discriminate Hl.
Qed.

End Listing.

(** ** Rows that a step writes *)

Lemma later_now (env : Env) (g : GcalEvent) :
  (forall t, stamp env g = Some t -> (t <= now env)%Z) ->
  laterThan (stamp env g) (Some (now env)) = false.
Proof.
  intros H. unfold laterThan. destruct (stamp env g) as [t |]; [| reflexivity].
  apply Z.ltb_ge. apply H. reflexivity.
Qed.

Lemma standsFor_remote (env : Env) (u : string) (g g' : GcalEvent)
    (s t : option Z) (r : EventRow) :
  standsFor u g (applyEventUpdate env (remoteUpdate env g') s t r)
  = standsFor u g r.
Proof. reflexivity. Qed.

Lemma standsFor_linkedRow (env : Env) (u : string) (id : nat)
    (g : GcalEvent) (s t : Z) :
  standsFor u g (linkedRow env u id g s t) = true.
Proof.
  unfold standsFor, linkedRow, linkUpdate, applyEventUpdate, eventRow. cbn.
  rewrite !String.eqb_refl. reflexivity.
Qed.

(** ** One entry keeps the invariant *)

Section Step.
Context (env : Env) (u : string) (rows0 : list EventRow)
        (listing : list Event).
Hypothesis Hlisting :
  forall e, In e listing
    <-> exists r, In r rows0 /\ e_user_id r = u /\ e = mapEventFromDB r.
Hypothesis Honce : linkedOnce u rows0.

Lemma step_idle (seen : GcalEvent -> Prop) (g : GcalEvent) (w : World)
    (e : Event) :
  (forall t, stamp env g = Some t -> (t <= now env)%Z) ->
  find (linkedTo g) listing = Some e ->
  laterThan (stamp env g) (event_updatedAt e) = false ->
  pullInvariant env u rows0 seen w ->
  pullInvariant env u rows0 (fun x => seen x \/ x = g) w.
Proof.
  intros Hpast Hfind Hlate (Hk & H2 & H3 & H4).
  split; [exact Hk |]. split; [exact H2 |]. split; [exact H3 |].
  intros g' [Hseen | ->] Ht; [exact (H4 g' Hseen Ht) |].
  destruct (find_linked u rows0 listing Hlisting g e Hfind)
    as (r1 & Hin1 & Hs1 & He).
  split.
  - destruct (H3 r1 Hin1) as (r & Hin & _ & Hur & Hgr).
    exists r. split; [exact Hin |].
    unfold standsFor in *. rewrite Hur, Hgr. exact Hs1.
  - intros r Hin Hs. destruct (H2 r Hin) as [Hold | Hnow].
    + rewrite (Honce g r r1 Hold Hin1 Hs Hs1).
      subst e. exact Hlate.
    + rewrite Hnow. exact (later_now env g Hpast).
Qed.

Lemma step_update (seen : GcalEvent -> Prop) (g : GcalEvent) (w w' : World)
    (e : Event) (s t : option Z) :
  (forall g', seen g' \/ g' = g ->
     forall t, stamp env g' = Some t -> (t <= now env)%Z) ->
  find (linkedTo g) listing = Some e ->
  events (db w')
  = map (fun r => if e_id r =? event_id e
                  then applyEventUpdate env (remoteUpdate env g) s t r
                  else r)
        (events (db w)) ->
  storeKeyed w' ->
  pullInvariant env u rows0 seen w ->
  pullInvariant env u rows0 (fun x => seen x \/ x = g) w'.
Proof.
  intros Hpast Hfind Hev Hk' (Hk & H2 & H3 & H4).
  set (F := fun r => if e_id r =? event_id e
                     then applyEventUpdate env (remoteUpdate env g) s t r
                     else r) in *.
  assert (HF : forall r, e_id (F r) = e_id r
                         /\ e_user_id (F r) = e_user_id r
                         /\ e_google_event_id (F r) = e_google_event_id r).
  { intros r. unfold F. destruct (e_id r =? event_id e); auto. }
  assert (Hst : forall g' r, standsFor u g' (F r) = standsFor u g' r).
  { intros g' r. unfold standsFor.
    destruct (HF r) as (_ & -> & ->). reflexivity. }
  assert (Hcase : forall r, F r = r \/ e_updated_at (F r) = now env).
  { intros r. unfold F. destruct (e_id r =? event_id e); auto. }
  destruct (find_linked u rows0 listing Hlisting g e Hfind)
    as (r1 & Hin1 & Hs1 & He).
  split; [exact Hk' |]. unfold hasRowFor, notNewer in *. rewrite Hev.
  split; [| split].
  - intros r' Hin'. apply in_map_iff in Hin'.
    destruct Hin' as (r & <- & Hin).
    destruct (Hcase r) as [-> | Hnow]; [exact (H2 r Hin) | auto].
  - intros r0 Hin0. destruct (H3 r0 Hin0) as (r & Hin & Hid & Hur & Hgr).
    exists (F r). split; [apply in_map; exact Hin |].
    destruct (HF r) as (-> & -> & ->). auto.
  - intros g' Hseen Ht.
    assert (Hrow : (exists r, In r (events (db w))
                              /\ standsFor u g' r = true) ->
                   exists r, In r (map F (events (db w)))
                             /\ standsFor u g' r = true).
    { intros (r & Hin & Hs). exists (F r).
      split; [apply in_map; exact Hin | rewrite Hst; exact Hs]. }
    destruct Hseen as [Hseen | ->].
    + destruct (H4 g' Hseen Ht) as [Hhas Hnot]. split; [exact (Hrow Hhas) |].
      intros r' Hin' Hs'. apply in_map_iff in Hin'.
      destruct Hin' as (r & <- & Hin).
      destruct (Hcase r) as [Hsame | Hnow].
      * rewrite Hsame in *. exact (Hnot r Hin Hs').
      * rewrite Hnow. apply later_now. apply Hpast. auto.
    + split.
      * apply Hrow. destruct (H3 r1 Hin1) as (r & Hin & _ & Hur & Hgr).
        exists r. split; [exact Hin |].
        unfold standsFor in *. rewrite Hur, Hgr. exact Hs1.
      * intros r' Hin' Hs'. apply in_map_iff in Hin'.
        destruct Hin' as (r & <- & Hin).
        rewrite Hst in Hs'.
        unfold F. destruct (e_id r =? event_id e) eqn:Eid.
        -- cbn [applyEventUpdate e_updated_at]. apply later_now.
           apply Hpast. auto.
        -- destruct (H2 r Hin) as [Hold | Hnow].
           ++ rewrite (Honce g r r1 Hold Hin1 Hs' Hs1) in Eid.
              subst e. cbn [mapEventFromDB event_id] in Eid.
              rewrite Nat.eqb_refl in Eid. discriminate Eid.
           ++ rewrite Hnow. apply later_now. apply Hpast. auto.
Qed.

Lemma step_create (seen : GcalEvent -> Prop) (g : GcalEvent) (w w' : World)
    (s t : Z) :
  (forall g', seen g' \/ g' = g ->
     forall t, stamp env g' = Some t -> (t <= now env)%Z) ->
  find (linkedTo g) listing = None ->
  events (db w')
  = (events (db w) ++ [linkedRow env u (uuids w) g s t])%list ->
  storeKeyed w' ->
  pullInvariant env u rows0 seen w ->
  pullInvariant env u rows0 (fun x => seen x \/ x = g) w'.
Proof.
  intros Hpast Hfind Hev Hk' (Hk & H2 & H3 & H4).
  assert (Hnew : e_updated_at (linkedRow env u (uuids w) g s t) = now env)
    by reflexivity.
  split; [exact Hk' |]. unfold hasRowFor, notNewer in *. rewrite Hev.
  split; [| split].
  - intros r Hin. apply in_app_or in Hin.
    destruct Hin as [Hin | [<- | []]]; [exact (H2 r Hin) | auto].
  - intros r0 Hin0. destruct (H3 r0 Hin0) as (r & Hin & Hrest).
    exists r. split; [apply in_or_app; auto | exact Hrest].
  - intros g' Hseen Ht. destruct Hseen as [Hseen | ->].
    + destruct (H4 g' Hseen Ht) as [(r & Hin & Hs) Hnot]. split.
      * exists r. split; [apply in_or_app; auto | exact Hs].
      * intros r' Hin' Hs'. apply in_app_or in Hin'.
        destruct Hin' as [Hin' | [<- | []]]; [exact (Hnot r' Hin' Hs') |].
        rewrite Hnew. apply later_now. apply Hpast. auto.
    + split.
      * exists (linkedRow env u (uuids w) g s t).
        split; [apply in_or_app; right; left; reflexivity |].
        apply standsFor_linkedRow.
      * intros r' Hin' Hs'. apply in_app_or in Hin'.
        destruct Hin' as [Hin' | [<- | []]].
        -- destruct (H2 r' Hin') as [Hold | Hnow].
           ++ rewrite (find_unlinked u rows0 listing Hlisting g r' Hfind Hold)
                in Hs'. discriminate Hs'.
           ++ rewrite Hnow. apply later_now. apply Hpast. auto.
        -- rewrite Hnew. apply later_now. apply Hpast. auto.
Qed.

Lemma step_untimed (seen : GcalEvent -> Prop) (g : GcalEvent) (w : World) :
  timed g = false ->
  pullInvariant env u rows0 seen w ->
  pullInvariant env u rows0 (fun x => seen x \/ x = g) w.
Proof.
  intros Ht (Hk & H2 & H3 & H4).
  split; [exact Hk |]. split; [exact H2 |]. split; [exact H3 |].
  intros g' [Hseen | ->] Ht'; [exact (H4 g' Hseen Ht') |].
  rewrite Ht in Ht'. discriminate Ht'.
Qed.

Lemma syncOne_keyed (g : GcalEvent) :
  preserves storeKeyed (syncOne env listing g).
Proof.
  unfold syncOne. destruct (negb (timed g)); [apply preserves_ret |].
  destruct (find (linkedTo g) listing) as [existingEvent |].
  - destruct (laterThan _ _); [| apply preserves_ret].
    apply preserves_bind; [apply events_update_keyed |].
    intros _. apply preserves_ret.
  - apply preserves_bind; [apply events_create_keyed |]. intros newEvent.
    apply preserves_bind; [apply events_update_keyed |].
    intros _. apply preserves_ret.
Qed.

Hypothesis Hu : auth_user env = Some u.

Lemma pull_step (seen : GcalEvent -> Prop) (g : GcalEvent) (w w' : World) :
  (forall g', seen g' \/ g' = g ->
     forall t, stamp env g' = Some t -> (t <= now env)%Z) ->
  pullInvariant env u rows0 seen w ->
  syncOne env listing g w = (Ok tt, w') ->
  pullInvariant env u rows0 (fun x => seen x \/ x = g) w'.
Proof.
  intros Hpast Hinv Hrun.
  assert (Hk : storeKeyed w) by exact (proj1 Hinv).
  assert (Hk' : storeKeyed w').
  { pose proof (syncOne_keyed g w Hk) as H. rewrite Hrun in H. exact H. }
  destruct (syncOne_shape env listing g w w' Hk Hrun)
    as [[Ht ->] | [(Ht & e & Hfind & Hlate & ->)
        | [(Ht & e & s & t & Hfind & Hev)
          | (Ht & Hfind & u' & s & t & Hu' & Hev)]]].
  - exact (step_untimed seen g w Ht Hinv).
  - exact (step_idle seen g w e (Hpast g (or_intror eq_refl)) Hfind Hlate
             Hinv).
  - exact (step_update seen g w w' e s t Hpast Hfind Hev Hk' Hinv).
  - rewrite Hu in Hu'. inversion Hu'. subst u'.
    exact (step_create seen g w w' s t Hpast Hfind Hev Hk' Hinv).
Qed.

Lemma pull_all (items : list GcalEvent) (seen : GcalEvent -> Prop)
    (w w' : World) :
  (forall g', seen g' \/ In g' items ->
     forall t, stamp env g' = Some t -> (t <= now env)%Z) ->
  pullInvariant env u rows0 seen w ->
  syncAll env listing items w = (Ok tt, w') ->
  pullInvariant env u rows0 (fun x => seen x \/ In x items) w'.
Proof.
  revert seen w. induction items as [| g rest IH]; intros seen w Hpast Hinv H.
  - cbn in H. inversion H. subst w'.
    destruct Hinv as (Hk & H2 & H3 & H4).
    split; [exact Hk |]. split; [exact H2 |]. split; [exact H3 |].
    intros g' [Hseen | []] Ht. exact (H4 g' Hseen Ht).
  - cbn [syncAll] in H. unfold bind in H.
    destruct (syncOne env listing g w) as [[[] | err] w1] eqn:Eone;
      [| discriminate H].
    assert (Hinv1 : pullInvariant env u rows0 (fun x => seen x \/ x = g) w1).
    { apply (pull_step seen g w w1); auto.
      intros g' [Hs | ->]; apply Hpast; auto. right. left. reflexivity. }
    specialize (IH (fun x => seen x \/ x = g) w1).
    assert (Hpast1 : forall g',
               (seen g' \/ g' = g) \/ In g' rest ->
               forall t, stamp env g' = Some t -> (t <= now env)%Z).
    { intros g' [[Hs | ->] | Hin]; apply Hpast; auto.
      - right. left. reflexivity.
      - right. right. exact Hin. }
    destruct (IH Hpast1 Hinv1 H) as (Hk & H2 & H3 & H4).
    split; [exact Hk |]. split; [exact H2 |]. split; [exact H3 |].
    intros g' [Hs | [<- | Hin]] Ht; apply H4; auto.
Qed.

End Step.

(** ** The second pull *)

(** X20.  [syncFromGoogleCalendar] twice.  Let the store have sound keys
    and no two events of the user linked to the same calendar entry, and
    let the calendar date no modification after the present.  When a pull
    of some entries succeeds, a second pull of the same entries in the
    same session, at whatever time, succeeds and leaves the store exactly
    as the first pull left it: every timed entry has found or been given
    its event, which the database stamped with the time of the write, so
    that no event is created twice and none is overwritten again. *)
Theorem second_pull_changes_nothing (env env' : Env) (u : string)
    (items : list GcalEvent) (w w1 : World) :
  storeKeyed w ->
  auth_user env = Some u ->
  linkedOnce u (events (db w)) ->
  stampsPast env items ->
  sameSession env env' ->
  syncFromGoogleCalendar env (ListOk (Some items)) w = (Ok tt, w1) ->
  syncFromGoogleCalendar env' (ListOk (Some items)) w1 = (Ok tt, w1).
Proof.
  intros Hk Hu Honce Hpast (Hu' & Hdb' & Htok' & Htz' & Hh') Hrun.
  unfold syncFromGoogleCalendar, catch, bind, lift, listRequest in Hrun.
  destruct (getGoogleAccessToken env) as [token |] eqn:Htok;
    [| discriminate Hrun].
  destruct (events_getAll env w) as [[listing | err] w0] eqn:Hlist;
    [| discriminate Hrun].
  destruct (events_getAll_members env w w0 u listing Hu Hlist)
    as [-> Hmem].
  destruct (syncAll env listing items w) as [[[] | err] w2] eqn:Hall;
    [| discriminate Hrun].
  inversion Hrun. subst w2. clear Hrun.
  assert (Hinv0 : pullInvariant env u (events (db w)) (fun _ => False) w).
  { split; [exact Hk |]. split; [auto |]. split.
    - intros r0 Hin. exists r0. auto.
    - intros g []. }
  assert (Hinv : pullInvariant env u (events (db w))
                   (fun x => False \/ In x items) w1).
  { apply (pull_all env u (events (db w)) listing Hmem Honce Hu items
             (fun _ => False) w w1); [| exact Hinv0 | exact Hall].
    intros g' [[] | Hin] t. exact (Hpast g' t Hin). }
  destruct Hinv as (_ & _ & _ & H4).
  (* the second pull *)
  assert (Hdb : db_error env = None).
  { unfold events_getAll, getUserId, query, bind in Hlist. rewrite Hu in Hlist.
    destruct (db_error env); [discriminate Hlist | reflexivity]. }
  assert (Hlist' : exists listing',
             events_getAll env' w1 = (Ok listing', w1)).
  { unfold events_getAll, getUserId, query, bind, gets, ret.
    rewrite Hu', Hu, Hdb', Hdb. eexists. reflexivity. }
  destruct Hlist' as (listing' & Hlist').
  rewrite <- Hu' in Hu.
  destruct (events_getAll_members env' w1 w1 u listing' Hu Hlist')
    as [_ Hmem'].
  unfold syncFromGoogleCalendar, catch, bind, lift, listRequest.
  unfold getGoogleAccessToken in *. rewrite Htok', Htok, Hlist'.
  rewrite (syncAll_idle env' listing' items w1); [reflexivity |].
  intros g Hin Ht.
  destruct (H4 g (or_intror Hin) Ht) as [(r & Hr & Hs) Hnot].
  destruct (find (linkedTo g) listing') as [e |] eqn:Hfind.
  - exists e. split; [reflexivity |].
    destruct (find_linked u (events (db w1)) listing' Hmem' g e Hfind)
      as (r' & Hr' & Hs' & ->).
    unfold stamp. rewrite Htz', Hh'. exact (Hnot r' Hr' Hs').
  - rewrite (find_unlinked u (events (db w1)) listing' Hmem' g r Hfind Hr)
      in Hs. discriminate Hs.
Qed.

Lemma second_pull_changes_nothing_witness :
  syncFromGoogleCalendar Samples.nextDay
    (ListOk (Some [Samples.review; Samples.holiday])) Samples.pulled
  = (Ok tt, Samples.pulled).
Proof.
  apply (second_pull_changes_nothing Samples.linked Samples.nextDay "user-1"
           [Samples.review; Samples.holiday] Examples.emptyWorld
           Samples.pulled).
  - repeat split; try constructor; intros r [].
  - reflexivity.
  - intros g r1 r2 [].
  - intros g t [<- | [<- | []]] H; vm_compute in H; inversion H;
      vm_compute; discriminate.
  - repeat split.
  - vm_compute. reflexivity.
Defined.

End Pull.

(* ================================================================== *)
(** * The key of an uploaded photo *)

Section ObjectKeys.
Import JS Merge ObjectKey.

Lemma split_nonempty (sep : ascii) (s : string) : split sep s <> [].
Proof.
  induction s as [| c s IH]; cbn [split]; [discriminate |].
  destruct (Ascii.eqb c sep); [discriminate |].
  destruct (split sep s); discriminate.
Qed.

Lemma split_append (sep : ascii) (a b : string) :
  split sep (a ++ String sep b) = (split sep a ++ split sep b)%list.
Proof.
  induction a as [| c a IH]; cbn [append split].
  - rewrite Ascii.eqb_refl. reflexivity.
  - destruct (Ascii.eqb c sep); [rewrite IH; reflexivity |].
    rewrite IH. pose proof (split_nonempty sep a) as Hne.
    destruct (split sep a) as [| x r]; [contradiction | reflexivity].
Qed.

Lemma last_append {A} (l1 l2 : list A) (d : A) :
  l2 <> [] -> last (l1 ++ l2) d = last l2 d.
Proof.
  intros Hne. induction l1 as [| x l1 IH]; [reflexivity |].
  cbn [app]. rewrite <- IH. cbn [last].
  destruct (l1 ++ l2)%list eqn:E; [| reflexivity].
  apply app_eq_nil in E. tauto.
Qed.

Lemma isLowerAlnum_not_dot (c : ascii) :
  isLowerAlnum c = true -> Ascii.eqb c "." = false.
Proof.
  intros H. destruct (Ascii.eqb c ".") eqn:E; [| reflexivity].
  apply Ascii.eqb_eq in E. subst c. discriminate H.
Qed.

Lemma split_plain (s : string) :
  allLowerAlnum s = true -> split "." s = [s].
Proof.
  induction s as [| c s IH]; [reflexivity |].
  cbn [allLowerAlnum split]. intros H. apply andb_true_iff in H.
  destruct H as [Hc Hs]. rewrite (isLowerAlnum_not_dot c Hc), (IH Hs).
  reflexivity.
Qed.

Lemma allLowerAlnum_keep (s : string) :
  allLowerAlnum (keepLowerAlnum s) = true.
Proof.
  induction s as [| c s IH]; [reflexivity |].
  cbn [keepLowerAlnum]. destruct (isLowerAlnum c) eqn:E; [| exact IH].
  cbn [allLowerAlnum]. rewrite E. exact IH.
Qed.

Lemma toLowerChar_fixed (c : ascii) :
  isLowerAlnum c = true -> toLowerChar c = c.
Proof.
  unfold isLowerAlnum, toLowerChar. intros H.
  destruct ((65 <=? nat_of_ascii c) && (nat_of_ascii c <=? 90)) eqn:E;
    [| reflexivity].
  exfalso. apply andb_true_iff in E. destruct E as [E1 E2].
  apply Nat.leb_le in E1, E2.
  apply orb_true_iff in H. destruct H as [H | H];
    apply andb_true_iff in H; destruct H as [H1 H2];
    apply Nat.leb_le in H1, H2; lia.
Qed.

Lemma keep_fixed (s : string) :
  allLowerAlnum s = true -> keepLowerAlnum (toLowerCase s) = s.
Proof.
  induction s as [| c s IH]; [reflexivity |].
  cbn [allLowerAlnum toLowerCase keepLowerAlnum]. intros H.
  apply andb_true_iff in H. destruct H as [Hc Hs].
  rewrite (toLowerChar_fixed c Hc), Hc, (IH Hs). reflexivity.
Qed.

Lemma extension_cases (name : string) :
  allLowerAlnum (extension name) = true
  /\ isEmpty (extension name) = false.
Proof.
  unfold extension, orElse, JS.truthy, pop.
  pose proof (split_nonempty "." name) as Hne.
  destruct (split "." name) as [| x r]; [contradiction |].
  set (part := last (x :: r) "").
  destruct (keepLowerAlnum (toLowerCase part)) as [| c e] eqn:E;
    cbn [isEmpty negb]; [split; reflexivity |].
  split; [| reflexivity]. rewrite <- E. apply allLowerAlnum_keep.
Qed.

(** X22.  The key under which [uploadCapturePhoto] stores a photo.  The
    extension it takes from the name of the file is never empty and
    holds lower-case letters and digits only, whatever the name: no dot,
    slash or other character of the name reaches the key through it.  The
    key ends in that extension: read back from the key [category/id.ext]
    by the same rule, the extension is the one that was written. *)
Theorem object_key_extension_is_sanitized (category uuid name : string) :
  isEmpty (extension name) = false
  /\ allLowerAlnum (extension name) = true
  /\ extension (fileName category uuid name) = extension name.
Proof.
  destruct (extension_cases name) as [Hall Hne].
  split; [exact Hne |]. split; [exact Hall |].
  unfold fileName.
  replace (category ++ "/" ++ uuid ++ "." ++ extension name)
    with ((category ++ "/" ++ uuid) ++ String "." (extension name))
    by (rewrite !append_assoc; reflexivity).
  unfold extension at 1. rewrite split_append, (split_plain _ Hall).
  unfold pop.
  destruct (split "." (category ++ "/" ++ uuid) ++ [extension name])%list
    eqn:E; [apply app_eq_nil in E; destruct E; discriminate |].
  rewrite <- E, last_append by discriminate. cbn [last].
  rewrite (keep_fixed _ Hall). unfold orElse, JS.truthy. rewrite Hne.
  reflexivity.
Qed.

End ObjectKeys.

(* ================================================================== *)
(** * Further properties of the capture box *)

Section Box.
Import JS Json Types DateTime Merge CaptureBox PhotoPicker.

(** ** The photo that is selected *)

Lemma onUi_photo (f : Component -> Component) :
  (forall c, photoFile (f c) = photoFile c \/ photoFile (f c) = None) ->
  preserves photoOk (onUi f).
Proof.
  intros Hf st Hst. unfold onUi, modify, photoOk in *. cbn [snd ui].
  destruct (Hf (ui st)) as [-> | ->]; [exact Hst | exact I].
Qed.

Lemma storage_photo {A} (c : M Supabase.World A) :
  preserves photoOk (storage c).
Proof.
  intros st Hst. unfold storage, photoOk in *.
  destruct (c (world st)) as [r w]. exact Hst.
Qed.

#[local] Hint Resolve preserves_ret preserves_throw preserves_lift
  preserves_gets storage_photo : photo.
#[local] Hint Extern 1 (preserves photoOk (onUi _)) =>
  apply onUi_photo; intros ?; cbn; auto : photo.

Lemma uploadStep_photo (env : Env) (c : ParsedCapture) :
  preserves photoOk (uploadStep env c).
Proof.
  unfold uploadStep. apply preserves_bind; [auto with photo |]. intros file.
  destruct file as [photo |]; [| auto with photo].
  destruct (supportsPhoto c).
  - apply preserves_bind; [unfold setPhotoUploading; auto with photo |].
    intros _. apply preserves_finally;
      [| unfold setPhotoUploading; auto with photo].
    apply preserves_catch.
    + apply preserves_bind; [auto with photo | intros url; auto with photo].
    + intros e. apply preserves_bind;
        [unfold showNotice; auto with photo | intros _; auto with photo].
  - apply preserves_bind;
      [unfold showNotice; auto with photo | intros _; auto with photo].
Qed.

Lemma persist_photo (env : Env) (c : ParsedCapture) (p : option string) :
  preserves photoOk (persist env c p).
Proof.
  unfold persist. destruct c;
    try (apply preserves_bind; [auto with photo | intros _; auto with photo]);
    [| auto with photo].
  apply preserves_bind; [auto with photo |]. intros createdEvent.
  apply preserves_catch; [| intros e; auto with photo].
  apply preserves_bind; [auto with photo |]. intros googleEventId.
  destruct (orNull googleEventId); [| auto with photo].
  apply preserves_bind; [auto with photo | intros _; auto with photo].
Qed.

Lemma handleConfirm_photo (env : Env) (c : ParsedCapture) :
  preserves photoOk (handleConfirm env c).
Proof.
  unfold handleConfirm. apply preserves_catch; [| intros e; auto with photo].
  apply preserves_bind; [apply uploadStep_photo |]. intros photoUrl.
  apply preserves_bind; [apply persist_photo |]. intros _.
  apply preserves_bind; [unfold setInput; auto with photo |]. intros _.
  apply preserves_bind; [unfold setParsed; auto with photo |]. intros _.
  apply preserves_bind; [unfold clearPhotoSelection; auto with photo |]. intros _.
  unfold onSuccess. auto with photo.
Qed.

Lemma handleSubmit_photo (env : Env) (classified : result ParsedCapture)
    (st : State) :
  photoOk st -> photoOk (handleSubmit env classified st).
Proof.
  intros Hst. unfold handleSubmit.
  destruct (isEmpty (trim (input (ui st))) || loading (ui st)); [exact Hst |].
  revert st Hst.
  change (preserves photoOk
            (setLoading true ;;;
             setSuccess false ;;;
             finally
               (catch
                  (result <~ lift classified ;;
                   setParsed (Some result) ;;;
                   handleConfirm env result ;;;
                   setSuccess true)
                  (fun _ => ret tt))
               (setLoading false))).
  apply preserves_bind; [unfold setLoading; auto with photo |]. intros _.
  apply preserves_bind; [unfold setSuccess; auto with photo |]. intros _.
  apply preserves_finally; [| unfold setLoading; auto with photo].
  apply preserves_catch; [| intros e; auto with photo].
  apply preserves_bind; [auto with photo |]. intros result.
  apply preserves_bind; [unfold setParsed; auto with photo |]. intros _.
  apply preserves_bind; [apply handleConfirm_photo |]. intros _.
  unfold setSuccess. auto with photo.
Qed.

Lemma handlePhotoChange_photo (file : option File) :
  preserves photoOk (handlePhotoChange file).
Proof.
  unfold handlePhotoChange. destruct file as [file |]; [| auto with photo].
  destruct (startsWith (file_type file) "image/") eqn:Ei; cbn [negb];
    [| unfold showNotice; auto with photo].
  destruct (MAX_PHOTO_SIZE_MB * 1024 * 1024 <? file_size file)%Z eqn:Es;
    [unfold showNotice; auto with photo |].
  intros st _. unfold setPhotoFile, onUi, modify, photoOk. cbn.
  split; [exact Ei |]. apply Z.ltb_ge in Es. exact Es.
Qed.

(** X23.  The photo of a capture.  The file chooser admits a file only
    when its type begins with [image/] and its size is at most 8 MiB;
    nothing else that the box does selects a file, and submitting only
    keeps or clears the selection.  So whatever is chosen, cleared, typed
    and submitted, in any order and with any outcome, the photo that is
    selected (and hence any photo that is uploaded) is such a file. *)
Theorem only_small_images_are_selected (actions : list Action) (st : State) :
  photoOk st -> photoOk (session actions st).
Proof.
  revert st. induction actions as [| a actions IH]; intros st Hst;
    [exact Hst |].
  cbn [session fold_left]. apply IH. destruct a; cbn [act].
  - exact (handlePhotoChange_photo file st Hst).
  - unfold clearPhotoSelection, onUi, modify, photoOk. cbn. exact I.
  - unfold setInput, onUi, modify, photoOk in *. cbn. exact Hst.
  - exact (handleSubmit_photo env classified st Hst).
Qed.

Lemma only_small_images_are_selected_witness :
  photoOk
    (session
       [Pick (Some Examples.receipt); Pick (Some Samples.snapshot);
        Type_ "Buy milk"; Submit Examples.env0 (Throw "503"); Clear;
        Pick (Some Samples.snapshot)]
       (Examples.start EmptyString None Examples.emptyWorld)).
Proof.
  apply only_small_images_are_selected. exact I.
Defined.

(** ** Submissions that store nothing *)

(** X24.  [handleSubmit] without a classification.  On blank text, or
    while a submission is under way, it does nothing at all.  When the
    classifier fails (the call, the JSON or the payload), nothing is
    uploaded or stored and nothing is reported as saved: the box is as it
    was, text and photo included, with the loading flag down and no
    success shown. *)
Theorem submit_without_a_classification_stores_nothing (env : Env)
    (st : State) :
  (isEmpty (trim (input (ui st))) = true \/ loading (ui st) = true ->
   forall classified, handleSubmit env classified st = st)
  /\ (ready st ->
      forall e, handleSubmit env (Throw e) st = givenUp st).
Proof.
  split.
  - intros H classified. unfold handleSubmit.
    destruct H as [H | H]; rewrite H; [reflexivity |].
    rewrite orb_true_r. reflexivity.
  - intros [Hin Hl] e. unfold handleSubmit. rewrite Hin, Hl. cbn [orb].
    unfold setLoading, setSuccess, onUi, finally, catch, bind, lift, modify,
      ret.
    cbn [snd fst ui world input loading success parsed photoFile
         photoUploading notice saved].
    unfold givenUp. reflexivity.
Qed.



(** ** The store out of reach *)

Section Unavailable.
Import Supabase.
Context (env : Env).
Hypothesis Hun : unavailable env.

Lemma tasks_create_refused (d : ParsedTask) (w : World) :
  exists e w', tasks_create env d w = (Throw e, w') /\ db w' = db w.
Proof. unfold_call. refused Hun env. Qed.

Lemma events_create_refused (d : ParsedEvent) (w : World) :
  exists e w', events_create env d w = (Throw e, w') /\ db w' = db w.
Proof. unfold_call. refused Hun env. Qed.

Lemma transactions_create_refused (d : ParsedTransaction) (w : World) :
  exists e w', transactions_create env d w = (Throw e, w') /\ db w' = db w.
Proof. unfold_call. refused Hun env. Qed.

Lemma notes_create_refused (d : ParsedNote) (w : World) :
  exists e w', notes_create env d w = (Throw e, w') /\ db w' = db w.
Proof.
  unfold notes_create. unfold_call.
  destruct (extractMergeInfo d) as [[b entry] |]; refused Hun env.
Qed.

Lemma persist_refused (c : ParsedCapture) (p : option string) (st : State) :
  (forall ty d, c <> CaptureOther ty d) ->
  exists e w',
    persist env c p st = (Throw e, {| ui := ui st; world := w' |})
    /\ db w' = db (world st).
Proof.
  intros Hknown. unfold persist, storage, bind.
  destruct c as [d | d | d | d | d | ty d].
  - destruct (tasks_create_refused
                {| pt_title := pt_title d; pt_description := pt_description d;
                   pt_dueDate := pt_dueDate d; pt_priority := pt_priority d;
                   pt_isRecurring := pt_isRecurring d;
                   pt_recurrenceRule := pt_recurrenceRule d;
                   pt_photoUrl := orNull p |} (world st))
      as (e & w' & -> & Hdb).
    exists e, w'. split; [reflexivity | exact Hdb].
  - destruct (events_create_refused d (world st)) as (e & w' & -> & Hdb).
    exists e, w'. split; [reflexivity | exact Hdb].
  - destruct (transactions_create_refused
                {| px_amount := px_amount d; px_type := expense;
                   px_category := px_category d;
                   px_description := px_description d; px_date := px_date d;
                   px_photoUrl := orNull p |} (world st))
      as (e & w' & -> & Hdb).
    exists e, w'. split; [reflexivity | exact Hdb].
  - destruct (transactions_create_refused
                {| px_amount := px_amount d; px_type := income;
                   px_category := px_category d;
                   px_description := px_description d; px_date := px_date d;
                   px_photoUrl := orNull p |} (world st))
      as (e & w' & -> & Hdb).
    exists e, w'. split; [reflexivity | exact Hdb].
  - destruct (notes_create_refused
                {| pn_title := pn_title d; pn_content := pn_content d;
                   pn_tags := pn_tags d; pn_photoUrl := orNull p |}
                (world st))
      as (e & w' & -> & Hdb).
    exists e, w'. split; [reflexivity | exact Hdb].
  - exfalso. exact (Hknown ty d eq_refl).
Qed.

End Unavailable.

Lemma uploadStep_fields (env : Env) (c : ParsedCapture) (st : State) :
  exists p ui' w',
    uploadStep env c st = (Ok p, {| ui := ui'; world := w' |})
    /\ Supabase.db w' = Supabase.db (world st)
    /\ input ui' = input (ui st) /\ photoFile ui' = photoFile (ui st)
    /\ success ui' = success (ui st) /\ saved ui' = saved (ui st)
    /\ loading ui' = loading (ui st) /\ parsed ui' = parsed (ui st).
Proof.
  unfold uploadStep, setPhotoUploading, showNotice, onUi, finally, catch,
    bind, storage, gets, modify, ret.
  cbn [snd fst ui world].
  destruct (photoFile (ui st)) as [photo |] eqn:Ep.
  - destruct (supportsPhoto c).
    + cbn [snd fst ui world].
      pose proof (upload_draws env photo (categoryOf c) (world st)) as Hd.
      destruct (FileStorage.uploadCapturePhoto env photo (categoryOf c)
                  (world st)) as [[url | e] w1];
        cbn [snd] in Hd; subst w1;
        cbn [snd fst ui world]; eexists _, _, _; split; try reflexivity;
        cbn [input photoFile success saved loading parsed]; auto 10.
    + cbn [snd fst ui world]. eexists _, _, _. split; [reflexivity |].
      cbn [input photoFile success saved loading parsed]. auto 10.
  - exists None, (ui st), (world st). destruct st as [u w]. cbn. auto 10.
Qed.

Lemma handleSubmit_steps (env : Env) (c : ParsedCapture) (st : State) :
  ready st ->
  handleSubmit env (Ok c) st
  = match handleConfirm env c (confirming c st) with
    | (Ok _, st2) => through true st2
    | (Throw _, st2) => through false st2
    end.
Proof.
  intros [Hin Hl]. unfold handleSubmit. rewrite Hin, Hl. cbn [orb].
  unfold setLoading, setSuccess, setParsed, onUi, finally, catch.
  unfold bind at 1, modify at 1. unfold bind at 1, modify at 1.
  unfold bind at 1, lift at 1. unfold bind at 1, modify at 1.
  cbn [snd fst ui world input loading success parsed photoFile
       photoUploading notice saved].
  unfold bind at 1. fold (confirming c st).
  destruct (handleConfirm env c (confirming c st)) as [[[] | e] st2];
    reflexivity.
Qed.

Lemma handleConfirm_refused (env : Env) (c : ParsedCapture) (st : State) :
  unavailable env ->
  (forall ty d, c <> CaptureOther ty d) ->
  exists e ui' w',
    handleConfirm env c st = (Throw e, {| ui := ui'; world := w' |})
    /\ Supabase.db w' = Supabase.db (world st)
    /\ input ui' = input (ui st) /\ photoFile ui' = photoFile (ui st)
    /\ success ui' = success (ui st) /\ saved ui' = saved (ui st).
Proof.
  intros Hun Hknown. unfold handleConfirm, catch. unfold bind at 1.
  destruct (uploadStep_fields env c st)
    as (p & ui1 & w1 & -> & Hdb1 & Hi & Hp & Hs & Hsv & _).
  unfold bind at 1.
  destruct (persist_refused env Hun c p {| ui := ui1; world := w1 |}
              Hknown) as (e & w' & -> & Hdb).
  exists e, ui1, w'. cbn [ui world] in *. rewrite Hdb, Hdb1. auto 10.
Qed.

(** X26.  A capture that cannot be stored.  When nobody is signed in, or
    the database answers with an error, a capture of any of the five
    kinds leaves the tables as they were, is not reported as saved, and
    stays in the box: the text and the selected photo are kept for
    another attempt, and the loading flag is down again. *)
Theorem capture_that_cannot_be_stored_stays_in_the_box (env : Env)
    (c : ParsedCapture) (st : State) :
  unavailable env ->
  ready st ->
  (forall ty d, c <> CaptureOther ty d) ->
  let st' := handleSubmit env (Ok c) st in
  Supabase.db (world st') = Supabase.db (world st)
  /\ input (ui st') = input (ui st)
  /\ photoFile (ui st') = photoFile (ui st)
  /\ success (ui st') = false
  /\ loading (ui st') = false
  /\ saved (ui st') = saved (ui st).
Proof.
  intros Hun Hready Hknown. cbv zeta.
  rewrite (handleSubmit_steps env c st Hready).
  destruct (handleConfirm_refused env c (confirming c st) Hun Hknown)
    as (e & ui' & w' & -> & Hdb & Hi & Hp & Hs & Hsv).
  unfold through, confirming in *.
  cbn [ui world input loading success parsed photoFile photoUploading
       notice saved] in *.
  auto 10.
Qed.

Lemma capture_that_cannot_be_stored_stays_in_the_box_witness :
  let st := Examples.start "Buy milk" (Some Samples.snapshot)
              Examples.emptyWorld in
  let st' := handleSubmit Samples.signedOut
               (Ok (CaptureTask Examples.buyMilk)) st in
  Supabase.db (world st') = Supabase.db (world st)
  /\ input (ui st') = input (ui st)
  /\ photoFile (ui st') = photoFile (ui st)
  /\ success (ui st') = false
  /\ loading (ui st') = false
  /\ saved (ui st') = saved (ui st).
Proof.
  apply (capture_that_cannot_be_stored_stays_in_the_box Samples.signedOut
           (CaptureTask Examples.buyMilk)
           (Examples.start "Buy milk" (Some Samples.snapshot)
              Examples.emptyWorld)).
  - left. reflexivity.
  - split; reflexivity.
  - intros ty d. discriminate.
Defined.

End Box.

(* ================================================================== *)
(** * Further properties of the calls to the model *)

Section Answers.
Import JS Json Merge Gemini Research.

(** ** Code fences *)

Lemma removeAll_none (pat : string) (f : nat) (s : string) :
  noBacktick s = true ->
  removeAllFuel f (String "`" pat) s = s.
Proof.
  revert s. induction f as [| f IH]; intros s Hs; [reflexivity |].
  destruct s as [| c s]; [reflexivity |].
  cbn [noBacktick] in Hs. apply andb_true_iff in Hs. destruct Hs as [Hc Hs].
  apply negb_true_iff in Hc. rewrite Ascii.eqb_sym in Hc.
  cbn [removeAllFuel startsWith]. rewrite Hc. cbn [andb].
  rewrite (IH s Hs). reflexivity.
Qed.

Lemma removeAll_json_tail (f : nat) (b : string) :
  noBacktick b = true ->
  removeAllFuel f "```json" (b ++ "```") = b ++ "```".
Proof.
  revert f. induction b as [| c b IH]; intros f Hb.
  - destruct f as [| [| [| [| f]]]]; reflexivity.
  - destruct f as [| f]; [reflexivity |].
    cbn [noBacktick] in Hb. apply andb_true_iff in Hb.
    destruct Hb as [Hc Hb]. apply negb_true_iff in Hc.
    rewrite Ascii.eqb_sym in Hc.
    cbn [append removeAllFuel startsWith]. rewrite Hc. cbn [andb].
    rewrite (IH f Hb). reflexivity.
Qed.

Lemma removeAll_fence_tail (f : nat) (b : string) :
  noBacktick b = true -> String.length b < f ->
  removeAllFuel f "```" (b ++ "```") = b.
Proof.
  revert f. induction b as [| c b IH]; intros f Hb Hf.
  - destruct f as [| f]; [lia | reflexivity].
  - destruct f as [| f]; [lia |].
    cbn [noBacktick] in Hb. apply andb_true_iff in Hb.
    destruct Hb as [Hc Hb]. apply negb_true_iff in Hc.
    rewrite Ascii.eqb_sym in Hc.
    cbn [append removeAllFuel startsWith]. rewrite Hc. cbn [andb].
    cbn [String.length] in Hf. rewrite (IH f Hb) by lia. reflexivity.
Qed.

Lemma noBacktick_append (a b : string) :
  noBacktick (a ++ b) = noBacktick a && noBacktick b.
Proof.
  induction a as [| c a IH]; [reflexivity |].
  cbn [append noBacktick]. rewrite IH, andb_assoc. reflexivity.
Qed.

Lemma noBacktick_drop (n : nat) (s : string) :
  noBacktick s = true -> noBacktick (drop n s) = true.
Proof.
  revert s. induction n as [| n IH]; intros s H; [destruct s; exact H |].
  destruct s as [| c s]; [exact H |].
  cbn [noBacktick] in H. apply andb_true_iff in H. apply IH. tauto.
Qed.

Lemma noBacktick_trimStart (s : string) :
  noBacktick s = true -> noBacktick (trimStart s) = true.
Proof.
  induction s as [s Hw | s n Hw IH] using white_ind; intros H.
  - rewrite trimStart_eq, Hw. exact H.
  - rewrite trimStart_eq, Hw. apply IH, noBacktick_drop. exact H.
Qed.

Lemma noBacktick_trimEnd (s : string) :
  noBacktick s = true -> noBacktick (trimEnd s) = true.
Proof.
  induction s as [| c s IH]; [trivial |]. intros H.
  cbn [noBacktick] in H. apply andb_true_iff in H. destruct H as [Hc Hs].
  cbn [trimEnd]. destruct (allWhite (String c s)); [reflexivity |].
  cbn [noBacktick]. rewrite Hc, (IH Hs). reflexivity.
Qed.

(** A fenced answer is cleaned to its body, as the body itself is. *)
Lemma cleanText_fence (body : string) :
  noBacktick body = true ->
  cleanText (trim (fence body)) = trim body
  /\ cleanText (trim body) = trim body.
Proof.
  intros Hb. split.
  - assert (Ht : trim (fence body) = fence body).
    { unfold trim.
      assert (Hs : trimStart (fence body) = fence body).
      { apply trimStart_fixed. reflexivity. }
      rewrite Hs. unfold fence.
      replace ("```json" ++ String LF (body ++ String LF "```"))
        with (("```json" ++ String LF (body ++ String LF "")) ++ "```").
      - exact (trimEnd_before "`" _ "``" eq_refl eq_refl).
      - rewrite append_assoc. cbn [append]. rewrite append_assoc.
        reflexivity. }
    rewrite Ht. unfold cleanText, removeAll.
    assert (Hjson : forall f,
               removeAllFuel (S f) "```json" (fence body)
               = body ++ String LF "```").
    { intros f. unfold fence.
      change (removeAllFuel (S f) "```json"
                ("```json" ++ String LF (body ++ String LF "```")))
        with (removeAllFuel f "```json" (body ++ String LF "```")).
      replace (body ++ String LF "```")
        with ((body ++ String LF "") ++ "```")
        by (rewrite append_assoc; reflexivity).
      apply removeAll_json_tail.
      rewrite noBacktick_append, Hb. reflexivity. }
    rewrite Hjson.
    replace (body ++ String LF "```")
      with ((body ++ String LF "") ++ "```")
      by (rewrite append_assoc; reflexivity).
    rewrite removeAll_fence_tail.
    + apply trim_trailing.
    + rewrite noBacktick_append, Hb. reflexivity.
    + rewrite !length_append. cbn [String.length]. lia.
  - unfold cleanText, removeAll.
    assert (Hn : noBacktick (trim body) = true)
      by (apply noBacktick_trimEnd, noBacktick_trimStart; exact Hb).
    rewrite (removeAll_none "``json" _ _ Hn), (removeAll_none "``" _ _ Hn).
    apply trim_idempotent.
Qed.

(** X28.  Code fences around the answer of the model.  [parseCapture] and
    [generateResearchDossier] give for an answer that is wrapped in a
    fence (the opening fence with its language tag, the body, the closing
    fence, each on its line) exactly what they give for the body alone,
    when the body holds no backtick: the fence never changes how a
    capture is classified or a dossier is read. *)
Theorem fenced_answer_reads_as_its_body (tz : Z)
    (heuristic : string -> DateTime.Date) (topic : string)
    (focus : option string) (body : string) :
  noBacktick body = true ->
  parseCapture tz heuristic (Ok (fence body))
  = parseCapture tz heuristic (Ok body)
  /\ generateResearchDossier topic focus (Ok (fence body))
     = generateResearchDossier topic focus (Ok body).
Proof.
  intros Hb. destruct (cleanText_fence body Hb) as [Hf Hbare].
  unfold parseCapture, generateResearchDossier, rbind.
  rewrite Hf, Hbare. split; reflexivity.
Qed.

Lemma fenced_answer_reads_as_its_body_witness :
  parseCapture 0 (fun _ => None) (Ok (fence Samples.bareAnswer))
  = parseCapture 0 (fun _ => None) (Ok Samples.bareAnswer)
  /\ generateResearchDossier "Rust" None (Ok (fence Samples.bareAnswer))
     = generateResearchDossier "Rust" None (Ok Samples.bareAnswer).
Proof.
  apply (fenced_answer_reads_as_its_body 0 (fun _ => None) "Rust" None
           Samples.bareAnswer).
  vm_compute. reflexivity.
Defined.

(** ** The research dossier *)

Lemma orValue_truthy (a b : value) :
  truthy b = true -> truthy (orValue a b) = true.
Proof.
  intros Hb. unfold orValue. destruct (truthy a) eqn:Ea; [exact Ea | exact Hb].
Qed.

Lemma refinedFocus_truthy (topic : string) (focus : option string) :
  JS.truthy (refinedFocus topic focus) = true.
Proof.
  unfold refinedFocus, orElse.
  destruct (JS.truthy (match focus with Some f => trim f | None => "" end))
    eqn:E; [exact E | reflexivity].
Qed.

(** X27.  [generateResearchDossier].  Every failure, of the call, of the
    JSON or of the payload, is reported with the one message
    [Failed to build dossier. Please try again.]; the function succeeds
    exactly when the call returns a text that, cleaned, is JSON other
    than [null].  A dossier that is returned always has a focus, and its
    lists of insights, action items and references are never missing:
    what the answer leaves out or leaves empty is filled with the focus
    that was asked for (or [Key insights about] the topic) and with empty
    lists; its topic is the given one when the answer has none. *)
Theorem dossier_is_filled_with_defaults (topic : string)
    (focus : option string) (response : result string) :
  (forall p, generateResearchDossier topic focus response = Ok p ->
     truthy (dp_focus p) = true
     /\ truthy (dp_keyInsights p) = true
     /\ truthy (dp_actionItems p) = true
     /\ truthy (dp_references p) = true
     /\ (JS.truthy topic = true -> truthy (dp_topic p) = true))
  /\ (forall e, generateResearchDossier topic focus response = Throw e ->
      e = dossierFailure)
  /\ (is_ok (generateResearchDossier topic focus response) = true
      <-> exists text parsed,
            response = Ok text
            /\ jsonParse (cleanText (trim text)) = Ok parsed
            /\ unreadable parsed = false).
Proof.
  unfold generateResearchDossier, rbind.
  destruct response as [text | err].
  2: { split; [discriminate |]. split; [intros e H; inversion H; reflexivity |].
       split; [discriminate |]. intros (t & p & H & _). discriminate H. }
  destruct (jsonParse (cleanText (trim text))) as [parsed | err] eqn:Ej.
  2: { split; [discriminate |]. split; [intros e H; inversion H; reflexivity |].
       split; [discriminate |]. intros (t & p & H & Hp & _).
       inversion H. subst t. rewrite Ej in Hp. discriminate Hp. }
  assert (Hbad : unreadable parsed = true ->
                 get parsed "topic"
                 = Throw "TypeError: Cannot read properties of null or undefined").
  { destruct parsed; try discriminate; reflexivity. }
  assert (Hgood : unreadable parsed = false ->
                  forall k, exists v, get parsed k = Ok v).
  { destruct parsed; try discriminate; intros _ k; eexists; reflexivity. }
  destruct (unreadable parsed) eqn:Eu.
  - rewrite (Hbad eq_refl).
    split; [discriminate |]. split; [intros e H; inversion H; reflexivity |].
    split; [discriminate |]. intros (t & p & H & Hp & Hr).
    inversion H. subst t. rewrite Ej in Hp. inversion Hp. subst p.
    rewrite Eu in Hr. discriminate Hr.
  - destruct (Hgood eq_refl "topic") as (v1 & ->).
    destruct (Hgood eq_refl "focus") as (v2 & ->).
    destruct (Hgood eq_refl "summary") as (v3 & ->).
    destruct (Hgood eq_refl "keyInsights") as (v4 & ->).
    destruct (Hgood eq_refl "actionItems") as (v5 & ->).
    destruct (Hgood eq_refl "references") as (v6 & ->).
    split; [| split; [discriminate |]].
    + intros p H. inversion H. subst p. clear H.
      cbn [dp_focus dp_keyInsights dp_actionItems dp_references dp_topic].
      repeat split; try (apply orValue_truthy; reflexivity).
      * apply orValue_truthy. cbn [truthy]. apply refinedFocus_truthy.
      * intros Ht. apply orValue_truthy. exact Ht.
    + split; [| reflexivity]. intros _. exists text, parsed. auto.
Qed.

End Answers.

(* ================================================================== *)
(** * Further properties of the date of a transaction *)

Section MoreTransactions.
Import JS Types DateTime Merge Supabase.

Lemma transactions_create_stored (env : Env) (d : ParsedTransaction)
    (w : World) (u : string) (stored : Z) :
  auth_user env = Some u -> db_error env = None ->
  transactionDate env (px_date d) = Some stored ->
  exists row,
    transactions (db (snd (transactions_create env d w)))
    = (transactions (db w) ++ [row])%list
    /\ x_date row = stored /\ x_id row = uuids w /\ x_user_id row = u.
Proof.
  intros Hu Hdb Hdate.
  unfold transactions_create, getUserId, query, generateId, bind, lift,
    modify, ret.
  rewrite Hu, Hdb, Hdate. cbn [toISOString snd fst].
  eexists. cbn [db transactions setDb snd]. split; [reflexivity |].
  cbn [x_date x_id x_user_id]. auto.
Qed.

(** X29.  The date [transactions.create] stores, for a signed-in user and
    a database that answers.  Without a date the transaction is stored
    with the current time.  A date whose UTC time of day is not
    00:00:00 is stored as the very instant that was given.  With an
    Invalid Date the creation throws and no transaction is stored. *)
Theorem transaction_date_as_given (env : Env) (d : ParsedTransaction)
    (w : World) (u : string) :
  auth_user env = Some u -> db_error env = None ->
  let w' := snd (transactions_create env d w) in
  (px_date d = None ->
   exists row, transactions (db w') = (transactions (db w) ++ [row])%list
               /\ x_date row = now env)
  /\ (forall t, px_date d = Some (Some t) ->
        (HourFromTime t <> 0 \/ MinFromTime t <> 0 \/ SecFromTime t <> 0)%Z ->
        exists row, transactions (db w') = (transactions (db w) ++ [row])%list
                    /\ x_date row = t)
  /\ (px_date d = Some None ->
      is_ok (fst (transactions_create env d w)) = false
      /\ db w' = db w).
Proof.
  intros Hu Hdb. cbv zeta. split; [| split].
  - intros Hd.
    destruct (transactions_create_stored env d w u (now env) Hu Hdb)
      as (row & Hrows & Hdate & _).
    + rewrite Hd. apply transactionDate_absent.
    + exists row. auto.
  - intros t Hd Htime.
    destruct (transactions_create_stored env d w u t Hu Hdb)
      as (row & Hrows & Hdate & _).
    + rewrite Hd. apply transactionDate_with_time. exact Htime.
    + exists row. auto.
  - intros Hd.
    unfold transactions_create, getUserId, query, generateId, bind, lift,
      modify, ret.
    rewrite Hu, Hd. cbn. split; reflexivity.
Qed.

Lemma transaction_date_as_given_witness :
  exists row,
    transactions (db (snd (transactions_create Examples.env0 Samples.coffee
                             Examples.emptyWorld)))
    = (transactions (db Examples.emptyWorld) ++ [row])%list
    /\ x_date row = now Examples.env0.
Proof.
  exact (proj1 (transaction_date_as_given Examples.env0 Samples.coffee
                  Examples.emptyWorld "user-1" eq_refl eq_refl) eq_refl).
Defined.

(** X30.  A date without a time of day (midnight UTC) is stored as the
    local calendar day of that instant, at the local time of day of the
    capture.  East of Greenwich, and on UTC, that day is the day that was
    given, and the time of day is the current one.  West of Greenwich
    midnight UTC falls on the evening before, and the transaction is
    stored on the day before the day that was given. *)
Theorem date_only_transaction_takes_the_local_day (env : Env)
    (d : ParsedTransaction) (w : World) (u : string) (t : Z) :
  auth_user env = Some u -> db_error env = None ->
  px_date d = Some (Some t) ->
  HourFromTime t = 0%Z -> MinFromTime t = 0%Z -> SecFromTime t = 0%Z ->
  (msPerDay <= t)%Z -> (t + msPerDay <= maxTime)%Z ->
  (- (12 * msPerHour) <= tz env <= 14 * msPerHour)%Z ->
  exists row,
    transactions (db (snd (transactions_create env d w)))
    = (transactions (db w) ++ [row])%list
    /\ ((0 <= tz env)%Z ->
        Day (LocalTime (tz env) (x_date row)) = Day t
        /\ (LocalTime (tz env) (x_date row) - Day t * msPerDay
            = wallClock (tz env) (now env))%Z)
    /\ ((tz env <= - msPerSecond)%Z ->
        Day (LocalTime (tz env) (x_date row)) = (Day t - 1)%Z).
Proof.
  intros Hu Hdb Hd Hh Hm Hs Hlo Hhi Htz.
  assert (Hstored : exists stored,
             transactionDate env (Some (Some t)) = Some stored).
  { eexists. apply transactionDate_date_only; auto;
      unfold msPerDay, msPerHour in *; lia. }
  destruct Hstored as (stored & Hstored).
  destruct (transactions_create_stored env d w u stored Hu Hdb)
    as (row & Hrows & Hdate & _); [rewrite Hd; exact Hstored |].
  exists row. split; [exact Hrows |]. rewrite Hdate. split.
  - intros Heast.
    apply (date_only_keeps_date_east_of_utc env t stored); auto;
      unfold msPerDay in *; lia.
  - intros Hwest.
    apply (date_only_loses_a_day_west_of_utc env t stored); auto; lia.
Qed.

Lemma date_only_transaction_takes_the_local_day_witness :
  exists row,
    transactions (db (snd (transactions_create Samples.tokyo Examples.lunch
                             Examples.emptyWorld)))
    = (transactions (db Examples.emptyWorld) ++ [row])%list
    /\ ((0 <= tz Samples.tokyo)%Z ->
        Day (LocalTime (tz Samples.tokyo) (x_date row)) = Day 1709251200000
        /\ (LocalTime (tz Samples.tokyo) (x_date row)
            - Day 1709251200000 * msPerDay
            = wallClock (tz Samples.tokyo) (now Samples.tokyo))%Z)
    /\ ((tz Samples.tokyo <= - msPerSecond)%Z ->
        Day (LocalTime (tz Samples.tokyo) (x_date row))
        = (Day 1709251200000 - 1)%Z).
Proof.
  apply (date_only_transaction_takes_the_local_day Samples.tokyo
           Examples.lunch Examples.emptyWorld "user-1" 1709251200000);
    try (vm_compute; reflexivity); try (vm_compute; discriminate);
    vm_compute; split; discriminate.
Defined.

End MoreTransactions.
